(** * storage_engine: a shallow embedding of the B-Tree / LSM-Tree key-value store

    The Python sources embedded here are [bloom_filter.py], [levensthein.py],
    [heap.py], [wal.py], [btree.py], [sstable.py] and [lsmtree.py].

    Conventions of the embedding.
    - Keys and values are Python [str] objects; they are modelled as [string],
      compared with the lexicographic order on character codes
      ([String.compare]), as Python compares [str].
    - A Python exception aborts the running operation: fallible code returns
      [result], [Raise e] standing for the exception [e]; the partially
      updated state of an aborted operation is not observed.
    - Python's [None] result of a lookup is [None] of an [option].
    - Objects mutated in place ([BTreeNode], the bit array of a bloom filter,
      the heap array) are passed and returned explicitly. *)

From Stdlib Require Import ZArith String Ascii List Bool Lia DecimalString.
From stdpp Require Import base option list gmap strings sorting.

Set Warnings "-register-all".

Open Scope Z_scope.

(** ** Exceptions *)

Inductive exception :=
| IndexError | ZeroDivisionError | TypeError | KeyError
| JSONDecodeError | FileNotFoundError | ValueError | RecursionError
| OutOfFuel.

Inductive result (A : Type) :=
| Ok (a : A)
| Raise (e : exception).
Arguments Ok {A} a.
Arguments Raise {A} e.

Definition bind {A B} (m : result A) (f : A -> result B) : result B :=
  match m with
  | Ok a => f a
  | Raise e => Raise e
  end.

Notation "'let*' x ':=' m 'in' k" := (bind m (fun x => k))
  (at level 10, x pattern, m at level 100, k at level 200).

Definition of_option {A} (o : option A) (e : exception) : result A :=
  match o with
  | Some a => Ok a
  | None => Raise e
  end.

(** ** Python built-ins used by the sources *)

(** [l[i]] for a Python list of length [n]: negative indices count from the
    end; anything else out of range raises [IndexError]. *)
Definition py_index (n : nat) (i : Z) : option nat :=
  if 0 <=? i then (if i <? Z.of_nat n then Some (Z.to_nat i) else None)
  else if 0 <=? i + Z.of_nat n then Some (Z.to_nat (i + Z.of_nat n)) else None.

Definition getitem {A} (l : list A) (i : Z) : result A :=
  match py_index (length l) i with
  | Some j => of_option (l !! j) IndexError
  | None => Raise IndexError
  end.

Definition setitem {A} (l : list A) (i : Z) (x : A) : result (list A) :=
  match py_index (length l) i with
  | Some j => Ok (<[j:=x]> l)
  | None => Raise IndexError
  end.

(** [str(i)] for a non-negative integer. *)
Definition str_nat (i : nat) : string :=
  NilEmpty.string_of_uint (Nat.to_uint i).

(** [list.insert(i, x)] for [0 <= i]: past the end it appends. *)
Definition list_insert_at {A} (i : nat) (x : A) (l : list A) : list A :=
  take i l ++ x :: drop i l.

(** [l[a:b]] for [0 <= a], [0 <= b]. *)
Definition slice {A} (a b : nat) (l : list A) : list A :=
  drop a (take b l).

(** ** bloom_filter.py *)

Module BloomFilter.

Record t := mk {
  size : Z;
  hash_count : Z;
  bit_array : list Z
}.

Section WithHash.
(** [md5_int data] is [int(hashlib.md5(data.encode()).hexdigest(), 16)]:
    the digest of the standard library, taken as given. *)
Variable md5_int : string -> Z.

(** [BloomFilter(size, hash_count)]: [[0] * size] is empty for [size <= 0]. *)
Definition init (size hash_count : Z) : t :=
  mk size hash_count (replicate (Z.to_nat size) 0).

(** The [i]-th value yielded by [_hashes(item)]. *)
Definition hash_at (bf : t) (item : string) (i : nat) : result Z :=
  if size bf =? 0 then Raise ZeroDivisionError
  else Ok (md5_int (String.append item (str_nat i)) mod size bf).

(** [add]: the generator [_hashes] is consumed one value at a time, each
    followed by the store [bit_array[hash_index] = 1]. [n] counts the values
    still to come, [i] is the loop variable of [_hashes]. *)
Fixpoint add_loop (bf : t) (item : string) (bits : list Z) (i n : nat)
  : result (list Z) :=
  match n with
  | O => Ok bits
  | S n' =>
      let* h := hash_at bf item i in
      let* bits' := setitem bits h 1 in
      add_loop bf item bits' (S i) n'
  end.

Definition add (bf : t) (item : string) : result t :=
  let* bits := add_loop bf item (bit_array bf) 0 (Z.to_nat (hash_count bf)) in
  Ok (mk (size bf) (hash_count bf) bits).

(** [__contains__]: [all(...)] over a generator stops at the first falsy
    bit, so later hashes are neither computed nor looked up. *)
Fixpoint contains_loop (bf : t) (item : string) (i n : nat) : result bool :=
  match n with
  | O => Ok true
  | S n' =>
      let* h := hash_at bf item i in
      let* b := getitem (bit_array bf) h in
      if b =? 0 then Ok false else contains_loop bf item (S i) n'
  end.

Definition contains (bf : t) (item : string) : result bool :=
  contains_loop bf item 0 (Z.to_nat (hash_count bf)).

(** A sequence of [add] calls. *)
Fixpoint add_all (bf : t) (items : list string) : result t :=
  match items with
  | [] => Ok bf
  | item :: rest => let* bf' := add bf item in add_all bf' rest
  end.
End WithHash.

End BloomFilter.

(** ** levensthein.py *)

Module Levenshtein.

(** The inner loop over [enumerate(s2)]: [prev] is [previous_row] from index
    [j] on, [last] is [current_row[j]]; the result is what the loop appends
    to [current_row]. *)
Fixpoint row_step (c1 : ascii) (s2 : list ascii) (prev : list nat) (last : nat)
  : list nat :=
  match s2, prev with
  | c2 :: s2', pj :: ((pj1 :: _) as prev') =>
      let insertions := (pj1 + 1)%nat in
      let deletions := (last + 1)%nat in
      let substitutions := (pj + (if Ascii.eqb c1 c2 then 0 else 1))%nat in
      let x := Nat.min insertions (Nat.min deletions substitutions) in
      x :: row_step c1 s2' prev' x
  | _, _ => []
  end.

(** The outer loop over [enumerate(s1)], [i] being the index of the head. *)
Fixpoint rows (s1 s2 : list ascii) (i : nat) (previous_row : list nat)
  : list nat :=
  match s1 with
  | [] => previous_row
  | c1 :: s1' =>
      let current_row := S i :: row_step c1 s2 previous_row (S i) in
      rows s1' s2 (S i) current_row
  end.

(** The body run once the longer string comes first. *)
Definition distance_ordered (s1 s2 : list ascii) : nat :=
  List.last (rows s1 s2 0 (seq 0 (S (length s2)))) 0%nat.

Definition distance (s1 s2 : string) : nat :=
  let l1 := list_ascii_of_string s1 in
  let l2 := list_ascii_of_string s2 in
  if (length l1 <? length l2)%nat then distance_ordered l2 l1
  else distance_ordered l1 l2.

End Levenshtein.

(** ** heap.py *)

Module MinHeap.

Section Heap.
Context {A : Type}.
(** [lt a b] is Python's [a < b] on the items pushed. *)
Variable lt : A -> A -> bool.

Definition at_index (heap : list A) (i : nat) : result A :=
  of_option (heap !! i) IndexError.

(** [heap[i], heap[j] = heap[j], heap[i]] *)
Definition swap (heap : list A) (i j : nat) : result (list A) :=
  let* a := at_index heap i in
  let* b := at_index heap j in
  Ok (<[j:=a]> (<[i:=b]> heap)).

(** [_heapify_up]: [fuel] bounds the depth of the recursion. *)
Fixpoint _heapify_up (fuel : nat) (heap : list A) (index : nat)
  : result (list A) :=
  match fuel with
  | O => Raise RecursionError
  | S fuel' =>
      let parent_index := ((index - 1) / 2)%nat in
      if (0 <? index)%nat then
        let* a := at_index heap index in
        let* p := at_index heap parent_index in
        if lt a p then
          let* heap' := swap heap index parent_index in
          _heapify_up fuel' heap' parent_index
        else Ok heap
      else Ok heap
  end.

Definition heappush (heap : list A) (item : A) : result (list A) :=
  let heap' := heap ++ [item] in
  _heapify_up (length heap') heap' (length heap' - 1).

Fixpoint _heapify_down (fuel : nat) (heap : list A) (index : nat)
  : result (list A) :=
  match fuel with
  | O => Raise RecursionError
  | S fuel' =>
      let smallest := index in
      let left_child_index := (2 * index + 1)%nat in
      let right_child_index := (2 * index + 2)%nat in
      let* smallest :=
        if (left_child_index <? length heap)%nat then
          let* l := at_index heap left_child_index in
          let* s := at_index heap smallest in
          Ok (if lt l s then left_child_index else smallest)
        else Ok smallest in
      let* smallest :=
        if (right_child_index <? length heap)%nat then
          let* r := at_index heap right_child_index in
          let* s := at_index heap smallest in
          Ok (if lt r s then right_child_index else smallest)
        else Ok smallest in
      if (smallest =? index)%nat then Ok heap
      else
        let* heap' := swap heap index smallest in
        _heapify_down fuel' heap' smallest
  end.

(** [heappop] returns the popped item and the heap left. *)
Definition heappop (heap : list A) : result (A * list A) :=
  match heap with
  | [] => Raise IndexError
  | [x] => Ok (x, [])
  | root :: _ =>
      let* last := of_option (last heap) IndexError in
      let popped := removelast heap in
      let heap' := <[0%nat:=last]> popped in
      let* heap'' := _heapify_down (length heap') heap' 0 in
      Ok (root, heap'')
  end.
End Heap.

End MinHeap.
(** ** wal.py *)

Module WriteAheadLog.

(** One line of the log, [{"op": ..., "key": ..., "value": ...}]. The log is
    written with [json.dumps] and read back with [json.loads] line by line;
    it is modelled by the entries its lines carry. *)
Record log_entry := mk_entry {
  op : string;
  key : string;
  value : string
}.

(** The content of the log file. *)
Definition log_file := list log_entry.

(** [open(log_path, 'a+')] creates a missing file and keeps an existing one
    as it is. *)
Definition init (file : option log_file) : log_file :=
  match file with
  | Some entries => entries
  | None => []
  end.

(** [write]: one more line at the end of the file, flushed at once. *)
Definition write (file : log_file) (operation k v : string) : log_file :=
  file ++ [mk_entry operation k v].

(** [clear]: close, remove and reopen the file. No caller in the sources. *)
Definition clear (file : log_file) : log_file := [].

End WriteAheadLog.

(** ** btree.py *)

Definition TOMBSTONE : string := "__TOMBSTONE__".

Module BTree.

Inductive BTreeNode :=
| mkNode (leaf : bool) (keys : list string) (values : list string)
         (child : list BTreeNode).

Definition leaf (x : BTreeNode) : bool :=
  match x with mkNode l _ _ _ => l end.
Definition keys (x : BTreeNode) : list string :=
  match x with mkNode _ ks _ _ => ks end.
Definition values (x : BTreeNode) : list string :=
  match x with mkNode _ _ vs _ => vs end.
Definition child (x : BTreeNode) : list BTreeNode :=
  match x with mkNode _ _ _ cs => cs end.

(** [BTreeNode(leaf)] *)
Definition new_node (lf : bool) : BTreeNode := mkNode lf [] [] [].

(** The tree object: its root and its minimum degree [t] (a positive
    integer; [t - 1] and [2 * t - 1] below are computed on [nat]). The log
    it writes to is passed to the operations that use it. *)
Record t := mk {
  root : BTreeNode;
  degree : nat
}.

(** [i = 0; while i < len(x.keys) and k > x.keys[i]: i += 1] *)
Fixpoint scan_up (k : string) (ks : list string) : nat :=
  match ks with
  | [] => 0
  | x :: ks' => if String.ltb x k then S (scan_up k ks') else 0
  end.

(** [i = len(x.keys) - 1; while i >= 0 and k < x.keys[i]: i -= 1], counted
    from [n = i + 1]; the result is the final [i + 1]. *)
Fixpoint scan_down (k : string) (ks : list string) (n : nat) : nat :=
  match n with
  | O => 0
  | S n' =>
      match ks !! n' with
      | Some x => if String.ltb k x then scan_down k ks n' else n
      | None => n
      end
  end.

(** [i < len(x.keys) and k == x.keys[i]] *)
Definition key_at (k : string) (ks : list string) (i : nat) : bool :=
  match ks !! i with
  | Some x => String.eqb k x
  | None => false
  end.

(** [rec(x.child[i])] for a recursive call [rec] on a child. *)
Section ChildAt.
Context {R : Type} (rec : BTreeNode -> result R).

Fixpoint child_at (cs : list BTreeNode) (i : nat) {struct cs} : result R :=
  match cs, i with
  | [], _ => Raise IndexError
  | c :: _, O => rec c
  | _ :: cs', S i' => child_at cs' i'
  end.
End ChildAt.

(** [search(k, x)] *)
Fixpoint search_node (k : string) (x : BTreeNode) : result (option string) :=
  match x with
  | mkNode lf ks vs cs =>
      let i := scan_up k ks in
      if key_at k ks i then
        let* v := of_option (vs !! i) IndexError in Ok (Some v)
      else if lf then Ok None
      else child_at (search_node k) cs i
  end.

Definition search (b : t) (k : string) : result (option string) :=
  search_node k (root b).

(** The loop of [_items] over [range(len(x.keys))] and the final
    [x.child[len(x.keys)]], [rec] being the recursive call. *)
Section Walk.
Variable rec : BTreeNode -> result (list (string * string)).

Fixpoint walk (ks vs : list string) (cs : list BTreeNode) {struct cs}
  : result (list (string * string)) :=
  match cs with
  | [] => Raise IndexError
  | c :: cs' =>
      let* items_c := rec c in
      match ks with
      | [] => Ok items_c
      | k :: ks' =>
          match vs with
          | [] => Raise IndexError
          | v :: vs' =>
              let* rest := walk ks' vs' cs' in
              Ok (items_c ++ (k, v) :: rest)
          end
      end
  end.
End Walk.

(** [_items(x)] *)
Fixpoint _items (x : BTreeNode) : result (list (string * string)) :=
  match x with
  | mkNode lf ks vs cs =>
      if lf then Ok (zip ks vs) else walk _items ks vs cs
  end.

Definition items (b : t) : result (list (string * string)) :=
  _items (root b).

(** [rec(x.child[i])] for a call that updates the child in place: the
    children afterwards and the flag returned. *)
Section UpdateChildAt.
Variable rec : BTreeNode -> result (BTreeNode * bool).

Fixpoint update_child_at (cs : list BTreeNode) (i : nat) {struct cs}
  : result (list BTreeNode * bool) :=
  match cs, i with
  | [], _ => Raise IndexError
  | c :: cs', O => let* (c', found) := rec c in Ok (c' :: cs', found)
  | c :: cs', S i' =>
      let* (cs'', found) := update_child_at cs' i' in Ok (c :: cs'', found)
  end.
End UpdateChildAt.

(** [_update(x, k, v)]: the node after the update and the flag returned. *)
Fixpoint _update (k v : string) (x : BTreeNode) : result (BTreeNode * bool) :=
  match x with
  | mkNode lf ks vs cs =>
      let i := scan_up k ks in
      if key_at k ks i then
        if (i <? length vs)%nat then Ok (mkNode lf ks (<[i:=v]> vs) cs, true)
        else Raise IndexError
      else if lf then Ok (x, false)
      else
        let* (cs', found) := update_child_at (_update k v) cs i in
        Ok (mkNode lf ks vs cs', found)
  end.

(** [split_child(x, i)] with [t = self.t]; [y = x.child[i]] is truncated in
    place and its new sibling [z] goes to [x.child[i + 1]]. *)
Definition split_child (t : nat) (x : BTreeNode) (i : nat) : result BTreeNode :=
  let* y := of_option (child x !! i) IndexError in
  let* k_mid := of_option (keys y !! (t - 1)%nat) IndexError in
  let* v_mid := of_option (values y !! (t - 1)%nat) IndexError in
  let z := mkNode (leaf y)
                  (slice t (2 * t - 1) (keys y))
                  (slice t (2 * t - 1) (values y))
                  (if leaf y then [] else slice t (2 * t) (child y)) in
  let y' := mkNode (leaf y)
                   (slice 0 (t - 1) (keys y))
                   (slice 0 (t - 1) (values y))
                   (if leaf y then child y else slice 0 t (child y)) in
  Ok (mkNode (leaf x)
             (list_insert_at i k_mid (keys x))
             (list_insert_at i v_mid (values x))
             (take i (child x) ++ y' :: z :: drop (S i) (child x))).

(** [insert_non_full(x, k, v)]; [fuel] bounds the depth of the recursion.

    On a leaf the shifting loop needs [values] as long as [keys]: a shorter
    list raises [IndexError]; a longer one would keep the [None] placeholder
    appended before the loop, which no [string] stands for, and is reported
    the same way. *)
Fixpoint insert_non_full_aux (fuel : nat) (t : nat) (x : BTreeNode)
  (k v : string) : result BTreeNode :=
  match fuel with
  | O => Raise RecursionError
  | S fuel' =>
      let i := scan_down k (keys x) (length (keys x)) in
      if leaf x then
        if (length (values x) =? length (keys x))%nat then
          Ok (mkNode (leaf x) (list_insert_at i k (keys x))
                     (list_insert_at i v (values x)) (child x))
        else Raise IndexError
      else
        let* c := of_option (child x !! i) IndexError in
        let* (x, i) :=
          if (length (keys c) =? 2 * t - 1)%nat then
            let* x' := split_child t x i in
            let* k_i := of_option (keys x' !! i) IndexError in
            Ok (x', if String.ltb k_i k then S i else i)
          else Ok (x, i) in
        let* c := of_option (child x !! i) IndexError in
        let* c' := insert_non_full_aux fuel' t c k v in
        Ok (mkNode (leaf x) (keys x) (values x) (<[i:=c']> (child x)))
  end.

(** The number of nodes on the longest path from [x] down. *)
Fixpoint height (x : BTreeNode) : nat :=
  match x with
  | mkNode _ _ _ cs => S (foldr (fun c h => Nat.max (height c) h) 0%nat cs)
  end.

Definition insert_non_full (t : nat) (x : BTreeNode) (k v : string)
  : result BTreeNode :=
  insert_non_full_aux (height x) t x k v.

(** [insert(k, v, wal)] of a tree writing to the log [file]. *)
Definition insert (b : t) (file : WriteAheadLog.log_file) (k v : string)
  (wal : bool) : result (t * WriteAheadLog.log_file) :=
  let file := if wal then WriteAheadLog.write file "insert" k v else file in
  let* existing_value := search b k in
  match existing_value with
  | Some _ =>
      let* (root', _) := _update k v (root b) in
      Ok (mk root' (degree b), file)
  | None =>
      let r := root b in
      if (length (keys r) =? 2 * degree b - 1)%nat then
        let temp := mkNode false [] [] [r] in
        let* temp := split_child (degree b) temp 0 in
        let* temp := insert_non_full (degree b) temp k v in
        Ok (mk temp (degree b), file)
      else
        let* r := insert_non_full (degree b) r k v in
        Ok (mk r (degree b), file)
  end.

(** [WriteAheadLog.recover(btree)]: replay the lines in order. *)
Fixpoint recover (b : t) (entries : list WriteAheadLog.log_entry)
  (file : WriteAheadLog.log_file) : result t :=
  match entries with
  | [] => Ok b
  | e :: rest =>
      let* b :=
        if String.eqb (WriteAheadLog.op e) "insert" then
          let* (b', _) := insert b file (WriteAheadLog.key e)
                                  (WriteAheadLog.value e) false in
          Ok b'
        else Ok b in
      recover b rest file
  end.

(** [BTree(t, wal_path)], [file] being what is at [wal_path]: the tree
    recovered and the log file left open. *)
Definition init (t : nat) (file : option WriteAheadLog.log_file)
  : result (BTree.t * WriteAheadLog.log_file) :=
  let b := mk (new_node true) t in
  let file := WriteAheadLog.init file in
  let* b := recover b file file in
  Ok (b, file).

(** [put], [get] and [delete] of the standalone engine. *)
Definition put b file k v := insert b file k v true.
Definition get b k := search b k.
Definition delete b file k := insert b file k TOMBSTONE true.

(** A sequence of [insert(k, v)] calls. *)
Fixpoint insert_all (b : t) (file : WriteAheadLog.log_file)
  (kvs : list (string * string)) : result (t * WriteAheadLog.log_file) :=
  match kvs with
  | [] => Ok (b, file)
  | (k, v) :: rest =>
      let* (b', file') := insert b file k v true in
      insert_all b' file' rest
  end.

End BTree.
(** ** json: the lines of an [.sst] file

    Only the data file is read by byte offset, so only its lines are modelled
    as text: [json.dumps({key: value})] with the default [ensure_ascii], and
    [json.loads] of such a line. Characters are those of [string] (codes 0 to
    255). The index and bloom-filter files and the log are read back whole
    and are modelled by the values they carry. *)

Module Json.

Definition quote : ascii := "034"%char.
Definition backslash : ascii := "092"%char.
Definition newline : ascii := "010"%char.

(** A lower-case hexadecimal digit. *)
Definition hex_digit (n : nat) : ascii :=
  match n with
  | 0 => "0" | 1 => "1" | 2 => "2" | 3 => "3" | 4 => "4" | 5 => "5"
  | 6 => "6" | 7 => "7" | 8 => "8" | 9 => "9" | 10 => "a" | 11 => "b"
  | 12 => "c" | 13 => "d" | 14 => "e" | _ => "f"
  end%nat%char.

Definition hex_value (c : ascii) : option nat :=
  let n := nat_of_ascii c in
  if ((48 <=? n) && (n <=? 57))%nat then Some (n - 48)%nat
  else if ((97 <=? n) && (n <=? 102))%nat then Some (n - 87)%nat
  else if ((65 <=? n) && (n <=? 70))%nat then Some (n - 55)%nat
  else None.

(** One character of a string under [json.dumps]: printable ASCII stands for
    itself except the quote and the backslash; the rest is escaped. *)
Definition escape_char (c : ascii) : string :=
  let n := nat_of_ascii c in
  let esc (e : ascii) := String backslash (String e EmptyString) in
  if (n =? 34)%nat then esc quote
  else if (n =? 92)%nat then esc backslash
  else if (n =? 10)%nat then esc "n"%char
  else if (n =? 13)%nat then esc "r"%char
  else if (n =? 9)%nat then esc "t"%char
  else if (n =? 8)%nat then esc "b"%char
  else if (n =? 12)%nat then esc "f"%char
  else if ((32 <=? n) && (n <=? 126))%nat then String c EmptyString
  else String backslash
         (String "u" (String "0" (String "0"
            (String (hex_digit (n / 16)) (String (hex_digit (n mod 16))
               EmptyString)))))%char.

Fixpoint escape (s : string) : string :=
  match s with
  | EmptyString => EmptyString
  | String c s' => String.append (escape_char c) (escape s')
  end.

(** [json.dumps(s)] for a [str]. *)
Definition dumps_str (s : string) : string :=
  String quote (String.append (escape s) (String quote EmptyString)).

(** [json.dumps({key: value})] *)
Definition dumps (key value : string) : string :=
  String "{"%char
    (String.append (dumps_str key)
       (String ":"%char (String " "%char
          (String.append (dumps_str value) (String "}"%char EmptyString))))).

(** The character an escape letter stands for. *)
Definition unescape (e : ascii) : option ascii :=
  let n := nat_of_ascii e in
  if (n =? 34)%nat then Some quote
  else if (n =? 92)%nat then Some backslash
  else if (n =? 47)%nat then Some "/"%char
  else if (n =? 110)%nat then Some "010"%char
  else if (n =? 114)%nat then Some "013"%char
  else if (n =? 116)%nat then Some "009"%char
  else if (n =? 98)%nat then Some "008"%char
  else if (n =? 102)%nat then Some "012"%char
  else None.

(** The decoder after an opening quote: the string decoded and the text
    after its closing quote. A code point above 255 has no character here
    and is reported as an error. *)
Fixpoint parse_body (s : string) : result (string * string) :=
  match s with
  | EmptyString => Raise JSONDecodeError
  | String c rest =>
      if Ascii.eqb c quote then Ok (EmptyString, rest)
      else if Ascii.eqb c backslash then
        match rest with
        | EmptyString => Raise JSONDecodeError
        | String e rest1 =>
            if Ascii.eqb e "u"%char then
              match rest1 with
              | String h1 (String h2 (String h3 (String h4 rest2))) =>
                  match hex_value h1, hex_value h2, hex_value h3, hex_value h4 with
                  | Some 0%nat, Some 0%nat, Some a, Some b =>
                      let* (t, r) := parse_body rest2 in
                      Ok (String (ascii_of_nat (16 * a + b)) t, r)
                  | _, _, _, _ => Raise JSONDecodeError
                  end
              | _ => Raise JSONDecodeError
              end
            else
              match unescape e with
              | Some c' =>
                  let* (t, r) := parse_body rest1 in Ok (String c' t, r)
              | None => Raise JSONDecodeError
              end
        end
      else if (nat_of_ascii c <? 32)%nat then Raise JSONDecodeError
      else let* (t, r) := parse_body rest in Ok (String c t, r)
  end.

Definition is_space (c : ascii) : bool :=
  let n := nat_of_ascii c in
  ((n =? 32) || (n =? 10) || (n =? 13) || (n =? 9))%nat.

Fixpoint skip_ws (s : string) : string :=
  match s with
  | String c rest => if is_space c then skip_ws rest else s
  | EmptyString => s
  end.

Definition expect (c : ascii) (s : string) : result string :=
  match skip_ws s with
  | String c' rest => if Ascii.eqb c c' then Ok rest else Raise JSONDecodeError
  | EmptyString => Raise JSONDecodeError
  end.

(** [list(json.loads(line).items())[0]] for an object of one member whose
    value is a string, the only lines the engine writes; any other text is
    reported as an error. *)
Definition loads (line : string) : result (string * string) :=
  let* s := expect "{"%char line in
  let* s := expect quote s in
  let* (key, s) := parse_body s in
  let* s := expect ":"%char s in
  let* s := expect quote s in
  let* (value, s) := parse_body s in
  let* s := expect "}"%char s in
  match skip_ws s with
  | EmptyString => Ok (key, value)
  | _ => Raise JSONDecodeError
  end.

End Json.

(** ** Text files read line by line *)

(** [f.readline()] on the text from the current position: the line with its
    terminator, and the text after it; an empty line at the end of file. *)
Fixpoint readline (s : string) : string * string :=
  match s with
  | EmptyString => (EmptyString, EmptyString)
  | String c rest =>
      if Ascii.eqb c Json.newline then (String c EmptyString, rest)
      else let (line, rest') := readline rest in (String c line, rest')
  end.

(** [for line in f]: the lines of the text, terminators kept. [acc] is the
    line being read. A line ends at a line feed: the data files hold no
    carriage return, which [json.dumps] escapes. *)
Fixpoint lines_from (acc : string) (s : string) : list string :=
  match s with
  | EmptyString =>
      match acc with
      | EmptyString => []
      | _ => [acc]
      end
  | String c rest =>
      if Ascii.eqb c Json.newline
      then String.append acc (String c EmptyString) :: lines_from EmptyString rest
      else lines_from (String.append acc (String c EmptyString)) rest
  end.

Definition lines (s : string) : list string := lines_from EmptyString s.

(** [f.seek(offset)]: the text from byte [offset] on. *)
Fixpoint seek (offset : nat) (s : string) : string :=
  match offset, s with
  | O, _ => s
  | S n, String _ rest => seek n rest
  | S _, EmptyString => EmptyString
  end.
(** ** The engine directory

    The files of the directory are told apart by their base name,
    [NNNNN] (the segment counter, printed on five digits) or
    [temp_compacted_<seconds>], and by their extension, which the sources get
    with [filename.replace('.sst', ...)]: one map per extension, plus the
    log [btree.wal]. *)

Inductive base :=
| Numbered (n : nat)
| TempCompacted (now : Z).

#[global] Instance base_eq_dec : EqDecision base.
Proof. solve_decision. Defined.

#[global] Instance base_countable : Countable base.
Proof.
  refine (inj_countable'
            (fun b => match b with
                      | Numbered n => inl n
                      | TempCompacted z => inr z
                      end)
            (fun s => match s with
                      | inl n => Numbered n
                      | inr z => TempCompacted z
                      end) _).
  intros []; reflexivity.
Defined.

Record Dir := mkDir {
  data : gmap base string;                   (* .sst *)
  index : gmap base (list (string * nat));   (* .index *)
  bloom : gmap base BloomFilter.t;           (* .bf *)
  wal : option WriteAheadLog.log_file        (* btree.wal *)
}.

Definition empty_dir : Dir := mkDir ∅ ∅ ∅ None.

Definition set_data (d : Dir) (m : gmap base string) : Dir :=
  mkDir m (index d) (bloom d) (wal d).
Definition set_index (d : Dir) (m : gmap base (list (string * nat))) : Dir :=
  mkDir (data d) m (bloom d) (wal d).
Definition set_bloom (d : Dir) (m : gmap base BloomFilter.t) : Dir :=
  mkDir (data d) (index d) m (wal d).
Definition set_wal (d : Dir) (w : option WriteAheadLog.log_file) : Dir :=
  mkDir (data d) (index d) (bloom d) w.

(** ** More built-ins *)

(** Python's [<] on [(key, value)] tuples of [str]. *)
Definition pair_ltb (a b : string * string) : bool :=
  String.ltb (fst a) (fst b) ||
  (String.eqb (fst a) (fst b) && String.ltb (snd a) (snd b)).

(** [sorted(items)]: a stable sort. *)
Fixpoint sorted_insert (x : string * string) (l : list (string * string))
  : list (string * string) :=
  match l with
  | [] => [x]
  | y :: l' => if pair_ltb y x then y :: sorted_insert x l' else x :: y :: l'
  end.

Definition py_sorted (l : list (string * string)) : list (string * string) :=
  foldr sorted_insert [] l.

(** [dict(items)]: a later pair overrides an earlier one with the same key. *)
Definition dict_of (l : list (string * string)) : gmap string string :=
  fold_left (fun m e => <[fst e:=snd e]> m) l ∅.

(** [bisect.bisect_right(a, x)]: the loop halves [hi - lo], which [fuel]
    bounds from the start. *)
Fixpoint bisect_loop (fuel : nat) (a : list string) (x : string)
  (lo hi : nat) : nat :=
  match fuel with
  | O => lo
  | S fuel' =>
      if (lo <? hi)%nat then
        let mid := ((lo + hi) / 2)%nat in
        match a !! mid with
        | Some y =>
            if String.ltb x y then bisect_loop fuel' a x lo mid
            else bisect_loop fuel' a x (S mid) hi
        | None => lo
        end
      else lo
  end.

Definition bisect_right (a : list string) (x : string) : nat :=
  bisect_loop (length a) a x 0 (length a).

(** ** sstable.py *)

Module SSTable.

Definition SPARSE_INDEX_STRIDE : nat := 10.

Record t := mk {
  filename : base;
  sparse_index : list (string * nat);
  bloom_filter : option BloomFilter.t
}.

Section WithHash.
Variable md5_int : string -> Z.

(** The line written for one record. *)
Definition record_line (key value : string) : string :=
String.append (Json.dumps key value) (String Json.newline EmptyString).

(** [_build_sparse_index]: the loop over the lines of the data file; only
  the lines the index samples are decoded. *)
Fixpoint build_index_loop (ls : list string) (offset i : nat)
: result (list (string * nat)) :=
match ls with
| [] => Ok []
| line :: rest =>
    let* entry :=
      if (i mod SPARSE_INDEX_STRIDE =? 0)%nat then
        let* (key, _) := Json.loads line in Ok [(key, offset)]
      else Ok [] in
    let* idx := build_index_loop rest (offset + String.length line) (S i) in
    Ok (entry ++ idx)
end.

(** [SSTable(filename)]: load the bloom filter if its file is there; load
  the sparse index, or build it from the data file and save it. *)
Definition init (d : Dir) (filename : base) : result (t * Dir) :=
let bloom_filter := bloom d !! filename in
match index d !! filename with
| Some idx => Ok (mk filename idx bloom_filter, d)
| None =>
    match data d !! filename with
    | Some text =>
        let* idx := build_index_loop (lines text) 0 0 in
        Ok (mk filename idx bloom_filter,
            set_index d (<[filename:=idx]> (index d)))
    | None => Ok (mk filename [] bloom_filter, d)
    end
end.

(** The writing loop of [write_from_memtable]: the text written and the
  sparse index built. *)
Fixpoint write_loop (items : list (string * string)) (offset i : nat)
: string * list (string * nat) :=
match items with
| [] => (EmptyString, [])
| (key, value) :: rest =>
    let line := record_line key value in
    let (text, idx) := write_loop rest (offset + String.length line) (S i) in
    (String.append line text,
     if (i mod SPARSE_INDEX_STRIDE =? 0)%nat then (key, offset) :: idx
     else idx)
end.

(** [write_from_memtable(filename, memtable, append)] *)
Definition write_from_memtable (d : Dir) (filename : base)
(memtable : gmap string string) (append : bool) : result (t * Dir) :=
let* bf :=
  BloomFilter.add_all md5_int
    (BloomFilter.init (Z.max 100 (Z.of_nat (size memtable) * 10)) 5)
    (map fst (map_to_list memtable)) in
let d := set_bloom d (<[filename:=bf]> (bloom d)) in
let (text, sparse_index) := write_loop (py_sorted (map_to_list memtable)) 0 0 in
let old :=
  if append then default EmptyString (data d !! filename)
  else EmptyString in
let d := set_data d (<[filename:=String.append old text]> (data d)) in
let d := set_index d (<[filename:=sparse_index]> (index d)) in
init d filename.

(** The scan of [get] from [start_offset]: [pos] is [f.tell()] before the
  line is read, [next_offset] the offset of the next index entry. *)
Fixpoint scan (key : string) (next_offset : option nat) (ls : list string)
(pos : nat) : result (option string) :=
match ls with
| [] => Ok None
| line :: rest =>
    let current_pos := (pos + String.length line)%nat in
    let* (record_key, value) := Json.loads line in
    if String.eqb record_key key then
      Ok (if String.eqb value TOMBSTONE then None else Some value)
    else if String.ltb key record_key then Ok None
    else
      match next_offset with
      | Some n =>
          if (n <=? current_pos)%nat then Ok None
          else scan key next_offset rest current_pos
      | None => scan key next_offset rest current_pos
      end
end.

(** [get(key)] *)
Definition get (d : Dir) (s : t) (key : string) : result (option string) :=
let* negative :=
  match bloom_filter s with
  | Some bf => let* c := BloomFilter.contains md5_int bf key in Ok (negb c)
  | None => Ok false
  end in
if negative then Ok None
else
  match sparse_index s with
  | [] => Ok None
  | _ =>
      let keys := map fst (sparse_index s) in
      let idx := (Z.of_nat (bisect_right keys key) - 1)%Z in
      let* start_offset :=
        if (0 <=? idx)%Z then
          let* e := getitem (sparse_index s) idx in Ok (snd e)
        else Ok 0%nat in
      let next_offset := snd <$> sparse_index s !! Z.to_nat (idx + 1) in
      let* text := of_option (data d !! filename s) FileNotFoundError in
      scan key next_offset (lines (seek start_offset text)) start_offset
  end.

(** [read_iter()]: the lines still to be decoded; none when the data file
  is missing. *)
Definition read_iter (d : Dir) (s : t) : list string :=
match data d !! filename s with
| Some text => lines text
| None => []
end.

(** Everything [read_iter()] yields. *)
Fixpoint decode_all (ls : list string) : result (list (string * string)) :=
match ls with
| [] => Ok []
| line :: rest =>
    let* kv := Json.loads line in
    let* kvs := decode_all rest in
    Ok (kv :: kvs)
end.

End WithHash.

End SSTable.
(** ** lsmtree.py *)

Module LSMTree.

(** The engine object; its directory is the [Dir] passed to the
    operations. *)
Record t := mk {
  memtable : BTree.t;
  memtable_threshold : Z;
  segments : list SSTable.t;
  segment_counter : nat
}.

(** An item of the merge heap, [(key, value, seg_idx, seg_iter)]; the
    generator [seg_iter] is owned by the one tuple that holds it and is
    modelled by the lines it has still to decode. *)
Record heap_item := mk_item {
  item_key : string;
  item_value : string;
  item_seg : nat;
  item_iter : list string
}.

(** [a < b] on heap items. Tuples are compared component by component; two
    items with the same [seg_idx] hold the same generator object, which
    equals itself, so the comparison never reaches [<] on generators. *)
Definition item_lt (a b : heap_item) : bool :=
  if negb (String.eqb (item_key a) (item_key b))
  then String.ltb (item_key a) (item_key b)
  else if negb (String.eqb (item_value a) (item_value b))
  then String.ltb (item_value a) (item_value b)
  else (item_seg a <? item_seg b)%nat.

(** The file names of the directory. *)
Fixpoint pad_zeros (n : nat) (s : string) : string :=
  match n with
  | O => s
  | S n' => String "0"%char (pad_zeros n' s)
  end.

(** [f"{n:05d}"] *)
Definition format_05d (n : nat) : string :=
  let s := str_nat n in pad_zeros (5 - String.length s) s.

Definition str_Z (z : Z) : string :=
  if (z <? 0)%Z then String "-"%char (str_nat (Z.to_nat (- z)))
  else str_nat (Z.to_nat z).

(** The name before the extension. *)
Definition base_name (b : base) : string :=
  match b with
  | Numbered n => format_05d n
  | TempCompacted now => String.append "temp_compacted_" (str_Z now)
  end.

(** [sorted(...)] of the [.sst] files, by name. *)
Fixpoint insert_by_name (b : base) (l : list base) : list base :=
  match l with
  | [] => [b]
  | b' :: l' =>
      if String.ltb (base_name b') (base_name b) then b' :: insert_by_name b l'
      else b :: b' :: l'
  end.

Definition sorted_by_name (l : list base) : list base :=
  foldr insert_by_name [] l.

Section WithHash.
Variable md5_int : string -> Z.

(** The loop of [_load_segments] over the sorted file names. *)
Fixpoint load_loop (d : Dir) (files : list base)
: result (list SSTable.t * Dir) :=
match files with
| [] => Ok ([], d)
| f :: rest =>
    let* (s, d) := SSTable.init d f in
    let* (ss, d) := load_loop d rest in
    Ok (s :: ss, d)
end.

(** [LSMTree(directory, memtable_threshold)] *)
Definition init (d : Dir) (memtable_threshold : Z) : result (t * Dir) :=
let* (memtable, file) := BTree.init 5 (wal d) in
let d := set_wal d (Some file) in
let files := sorted_by_name (map fst (map_to_list (data d))) in
let* (segments, d) := load_loop d files in
let* segment_counter :=
  match last segments with
  | Some s =>
      match SSTable.filename s with
      | Numbered n => Ok (S n)
      | TempCompacted _ => Raise ValueError
      end
  | None => Ok 0%nat
  end in
Ok (mk memtable memtable_threshold segments segment_counter, d).

(** [_flush_memtable()] *)
Definition _flush_memtable (s : t) (d : Dir) : result (t * Dir) :=
let* items := BTree.items (memtable s) in
match items with
| [] => Ok (s, d)
| _ =>
    let segment_filename := Numbered (segment_counter s) in
    let* (_, d) :=
      SSTable.write_from_memtable md5_int d segment_filename
                                  (dict_of items) false in
    let* (segment, d) := SSTable.init d segment_filename in
    let* (memtable, file) := BTree.init 5 (wal d) in
    Ok (mk memtable (memtable_threshold s) (segments s ++ [segment])
           (S (segment_counter s)),
        set_wal d (Some file))
end.

(** [put(key, value)] *)
Definition put (s : t) (d : Dir) (key value : string) : result (t * Dir) :=
let* (memtable, file) :=
  BTree.insert (memtable s) (WriteAheadLog.init (wal d)) key value true in
let s := mk memtable (memtable_threshold s) (segments s) (segment_counter s) in
let d := set_wal d (Some file) in
let* items := BTree.items memtable in
if (memtable_threshold s <=? Z.of_nat (length items))%Z
then _flush_memtable s d
else Ok (s, d).

(** The loop of [get] over [reversed(self.segments)]. *)
Fixpoint get_loop (d : Dir) (segs : list SSTable.t) (key : string)
: result (option string) :=
match segs with
| [] => Ok None
| segment :: rest =>
    let* skip :=
      match SSTable.bloom_filter segment with
      | Some bf =>
          let* c := BloomFilter.contains md5_int bf key in Ok (negb c)
      | None => Ok false
      end in
    if skip then get_loop d rest key
    else
      let* value := SSTable.get md5_int d segment key in
      match value with
      | Some v => Ok (if String.eqb v TOMBSTONE then None else Some v)
      | None => get_loop d rest key
      end
end.

(** [get(key)] *)
Definition get (s : t) (d : Dir) (key : string) : result (option string) :=
let* value := BTree.search (memtable s) key in
match value with
| Some v => Ok (if String.eqb v TOMBSTONE then None else Some v)
| None => get_loop d (rev (segments s)) key
end.

(** [delete(key)] *)
Definition delete (s : t) (d : Dir) (key : string) : result (t * Dir) :=
put s d key TOMBSTONE.

(** [close()] *)
Definition close (s : t) (d : Dir) : result (t * Dir) :=
_flush_memtable s d.

(** [next(seg_iter)] followed by [heappush]: nothing when the generator is
  exhausted. *)
Definition push_next (heap : list heap_item) (seg_idx : nat)
(seg_iter : list string) : result (list heap_item) :=
match seg_iter with
| [] => Ok heap
| line :: rest =>
    let* (key, value) := Json.loads line in
    MinHeap.heappush item_lt heap (mk_item key value seg_idx rest)
end.

(** Priming the heap, [i] being the index of the first iterator. *)
Fixpoint prime (heap : list heap_item) (iters : list (list string)) (i : nat)
: result (list heap_item) :=
match iters with
| [] => Ok heap
| seg_iter :: rest =>
    let* heap := push_next heap i seg_iter in
    prime heap rest (S i)
end.

(** What the merge loop carries. *)
Record merge_state := mk_merge {
min_heap : list heap_item;
last_key : option string;
merged_data : gmap string string;
all_keys : list string
}.

(** Writing the record accumulated for [last_key], unless it is a
  tombstone. *)
Definition emit_last (temp : base) (m : merge_state) (d : Dir)
: result (list string * Dir) :=
match last_key m with
| Some lk =>
    match merged_data m !! lk with
    | Some v =>
        if String.eqb v TOMBSTONE then Ok (all_keys m, d)
        else
          let* (_, d) :=
            SSTable.write_from_memtable md5_int d temp {[lk := v]} true in
          Ok (all_keys m ++ [lk], d)
    | None =>
        (* [merged_data.get(last_key)] is [None], which differs from the
           tombstone; [merged_data[last_key]] then raises. *)
        Raise KeyError
    end
| None => Ok (all_keys m, d)
end.

(** The loop [while min_heap], [fuel] bounding its iterations. *)
Fixpoint merge_loop (fuel : nat) (temp : base) (m : merge_state) (d : Dir)
: result (merge_state * Dir) :=
match min_heap m with
| [] => Ok (m, d)
| _ =>
    match fuel with
    | O => Raise OutOfFuel
    | S fuel' =>
        let* (item, heap) := MinHeap.heappop item_lt (min_heap m) in
        let key := item_key item in
        let* (keys, d, lk) :=
          if match last_key m with
             | Some lk => String.eqb key lk
             | None => false
             end
          then Ok (all_keys m, d, last_key m)
          else
            let* (keys, d) := emit_last temp m d in
            Ok (keys, d, Some key) in
        let merged := <[key:=item_value item]> (merged_data m) in
        let* heap := push_next heap (item_seg item) (item_iter item) in
        merge_loop fuel' temp (mk_merge heap lk merged keys) d
    end
end.

(** The loop deleting the files of the old segments. *)
Fixpoint remove_segments (d : Dir) (segs : list SSTable.t) : result Dir :=
match segs with
| [] => Ok d
| s :: rest =>
    let f := SSTable.filename s in
    match data d !! f with
    | None => Raise FileNotFoundError
    | Some _ =>
        let d := mkDir (stdpp.base.delete f (data d))
                       (stdpp.base.delete f (index d))
                       (stdpp.base.delete f (bloom d)) (wal d) in
        remove_segments d rest
    end
end.

(** [compact()], [now] being [int(time.time())]. The generators read the
  segment files while the merge runs; the merge writes to the temporary
  file and its two side files only, so, no segment being that file, what
  they read is the text the segment files hold when [compact] is
  called. *)
Definition compact (s : t) (d : Dir) (now : Z) : result (t * Dir) :=
if (length (segments s) <? 2)%nat then Ok (s, d)
else
  let temp := TempCompacted now in
  let segment_iters := map (SSTable.read_iter d) (segments s) in
  let* heap := prime [] segment_iters 0 in
  (* open(temp_filename, 'w') *)
  let d := set_data d (<[temp:=EmptyString]> (data d)) in
  let fuel := S (length heap + length (concat segment_iters)) in
  let* (m, d) := merge_loop fuel temp (mk_merge heap None ∅ []) d in
  let* (keys, d) := emit_last temp m d in
  let* bf :=
    BloomFilter.add_all md5_int
      (BloomFilter.init (Z.max 100 (Z.of_nat (length keys) * 10)) 5) keys in
  let compacted := Numbered (segment_counter s) in
  let d := set_bloom d (<[compacted:=bf]> (bloom d)) in
  (* shutil.move(temp_filename, compacted_segment_filename) *)
  let* text := of_option (data d !! temp) FileNotFoundError in
  let d := set_data d (<[compacted:=text]> (stdpp.base.delete temp (data d))) in
  let* d := remove_segments d (segments s) in
  let* (segment, d) := SSTable.init d compacted in
  Ok (mk (memtable s) (memtable_threshold s) [segment]
         (S (segment_counter s)), d).

(** One of the two loops of [fuzzy_get] over [(key, value)] pairs. *)
Fixpoint fuzzy_loop (search_key : string) (max_distance : Z)
(items : list (string * string))
(results : list (string * string)) (checked_keys : gset string)
: list (string * string) * gset string :=
match items with
| [] => (results, checked_keys)
| (key, value) :: rest =>
    if decide (key ∈ checked_keys)
    then fuzzy_loop search_key max_distance rest results checked_keys
    else
      let distance := Levenshtein.distance search_key key in
      if (Z.of_nat distance <=? max_distance)%Z then
        let results :=
          if String.eqb value TOMBSTONE then results
          else results ++ [(key, value)] in
        fuzzy_loop search_key max_distance rest results
                   ({[key]} ∪ checked_keys)
      else fuzzy_loop search_key max_distance rest results checked_keys
end.

(** The loop of [fuzzy_get] over [reversed(self.segments)]. *)
Fixpoint fuzzy_segments (d : Dir) (search_key : string) (max_distance : Z)
(segs : list SSTable.t)
(results : list (string * string)) (checked_keys : gset string)
: result (list (string * string)) :=
match segs with
| [] => Ok results
| segment :: rest =>
    let* items := SSTable.decode_all (SSTable.read_iter d segment) in
    let (results, checked_keys) :=
      fuzzy_loop search_key max_distance items results checked_keys in
    fuzzy_segments d search_key max_distance rest results checked_keys
end.

(** [fuzzy_get(search_key, max_distance)] *)
Definition fuzzy_get (s : t) (d : Dir) (search_key : string)
(max_distance : Z) : result (list (string * string)) :=
let* items := BTree.items (memtable s) in
let (results, checked_keys) :=
  fuzzy_loop search_key max_distance items [] ∅ in
fuzzy_segments d search_key max_distance (rev (segments s))
               results checked_keys.

(** The calls a client makes, and their effect in sequence. [Reopen] is a
  new [LSMTree(directory, memtable_threshold)] on the directory as the
  previous calls left it, the engine object used so far being dropped. *)
Inductive op :=
| Put (key value : string)
| Delete (key : string)
| Close
| Compact (now : Z)
| Reopen (memtable_threshold : Z).

Definition step (s : t) (d : Dir) (o : op) : result (t * Dir) :=
match o with
| Put key value => put s d key value
| Delete key => delete s d key
| Close => close s d
| Compact now => compact s d now
| Reopen memtable_threshold => init d memtable_threshold
end.

Fixpoint run (s : t) (d : Dir) (ops : list op) : result (t * Dir) :=
match ops with
| [] => Ok (s, d)
| o :: rest => let* (s, d) := step s d o in run s d rest
end.

End WithHash.

End LSMTree.
(** ** db.py *)

Module DB.

(** [self.engine]: a [BTree] or an [LSMTree]. *)
Inductive engine :=
| BTreeEngine (b : BTree.t)
| LSMEngine (s : LSMTree.t).

Section WithHash.
Variable md5_int : string -> Z.

(** [DB(engine_type, directory)]: the B-Tree logs to [btree.wal] of the
  directory, the file the LSM engine uses for its memtable; the LSM engine
  gets its default threshold. *)
Definition init (engine_type : string) (d : Dir) : result (engine * Dir) :=
if String.eqb engine_type "btree" then
  let* (b, file) := BTree.init 5 (wal d) in
  Ok (BTreeEngine b, set_wal d (Some file))
else if String.eqb engine_type "lsmtree" then
  let* (s, d) := LSMTree.init d 100 in
  Ok (LSMEngine s, d)
else Raise ValueError.

(** [put(key, value)] *)
Definition put (e : engine) (d : Dir) (key value : string)
: result (engine * Dir) :=
match e with
| BTreeEngine b =>
    let* (b, file) := BTree.put b (WriteAheadLog.init (wal d)) key value in
    Ok (BTreeEngine b, set_wal d (Some file))
| LSMEngine s =>
    let* (s, d) := LSMTree.put md5_int s d key value in
    Ok (LSMEngine s, d)
end.

(** [get(key)]: the engine's answer, the tombstone turned into [None]. *)
Definition get (e : engine) (d : Dir) (key : string) : result (option string) :=
let* value :=
  match e with
  | BTreeEngine b => BTree.get b key
  | LSMEngine s => LSMTree.get md5_int s d key
  end in
match value with
| Some v => Ok (if String.eqb v "__TOMBSTONE__" then None else Some v)
| None => Ok None
end.

(** [delete(key)] *)
Definition delete (e : engine) (d : Dir) (key : string)
: result (engine * Dir) :=
match e with
| BTreeEngine b =>
    let* (b, file) := BTree.delete b (WriteAheadLog.init (wal d)) key in
    Ok (BTreeEngine b, set_wal d (Some file))
| LSMEngine s =>
    let* (s, d) := LSMTree.delete md5_int s d key in
    Ok (LSMEngine s, d)
end.

(** [close()]: [BTree] has no [close] attribute, so nothing is done for
  it. *)
Definition close (e : engine) (d : Dir) : result (engine * Dir) :=
match e with
| BTreeEngine b => Ok (e, d)
| LSMEngine s =>
    let* (s, d) := LSMTree.close md5_int s d in
    Ok (LSMEngine s, d)
end.

(** The calls a client makes, and their effect in sequence. *)
Inductive op :=
| Put (key value : string)
| Delete (key : string)
| Close.

Definition step (e : engine) (d : Dir) (o : op) : result (engine * Dir) :=
match o with
| Put key value => put e d key value
| Delete key => delete e d key
| Close => close e d
end.

Fixpoint run (e : engine) (d : Dir) (ops : list op) : result (engine * Dir) :=
match ops with
| [] => Ok (e, d)
| o :: rest => let* (e, d) := step e d o in run e d rest
end.

End WithHash.

End DB.

(** ** Calls on the standalone B-Tree *)

Inductive btree_call :=
| BPut (key value : string)
| BDelete (key : string).

(** [put] and [delete] calls in sequence, the log being passed along. *)
Fixpoint btree_run (b : BTree.t) (file : WriteAheadLog.log_file)
  (calls : list btree_call) : result (BTree.t * WriteAheadLog.log_file) :=
  match calls with
  | [] => Ok (b, file)
  | c :: rest =>
      let* (b', file') :=
        match c with
        | BPut key value => BTree.put b file key value
        | BDelete key => BTree.delete b file key
        end in
      btree_run b' file' rest
  end.
(* ================================================================== *)
(** * Verification *)
(* ================================================================== *)

(** ** Bloom filter *)

Section BloomFilterFacts.
Variable md5_int : string -> Z.
Import BloomFilter.

(** The filters the constructor and [add] produce: as many bits as [size]. *)
Definition bf_wf (bf : t) : Prop :=
  1 <= size bf /\ Z.of_nat (length (bit_array bf)) = size bf.

(** Bit [h] is set (truthy). *)
Definition bit_set (bits : list Z) (h : Z) : Prop :=
  exists b, bits !! Z.to_nat h = Some b /\ b <> 0.

Lemma py_index_in_range (n : nat) (i : Z) :
  0 <= i < Z.of_nat n -> py_index n i = Some (Z.to_nat i).
Proof.
  intros [H0 H1]. unfold py_index.
  destruct (Z.leb_spec 0 i); [|lia].
  destruct (Z.ltb_spec i (Z.of_nat n)); [reflexivity|lia].
Qed.

Lemma hash_at_ok bf item i :
  bf_wf bf ->
  exists h, hash_at md5_int bf item i = Ok h /\ 0 <= h < size bf.
Proof.
  intros [Hs _]. unfold hash_at.
  destruct (Z.eqb_spec (size bf) 0) as [E|E]; [lia|].
  eexists; split; [reflexivity|]. apply Z.mod_pos_bound. lia.
Qed.

Lemma bit_set_insert bits (j : nat) h :
  bit_set bits h -> bit_set (<[j:=1]> bits) h.
Proof.
  intros (b & Hb & Hnz). unfold bit_set.
  destruct (decide (j = Z.to_nat h)) as [->|Hne].
  - exists 1. split; [|lia]. apply list_lookup_insert_eq.
    eapply lookup_lt_Some; eauto.
  - exists b. split; [|assumption]. rewrite list_lookup_insert_ne; auto.
Qed.

(** [add_loop] succeeds on a well-sized array, keeps its length, keeps every
    set bit and sets the bits of the hashes it walks over. *)
Lemma add_loop_spec bf item n : forall bits i,
  bf_wf bf -> Z.of_nat (length bits) = size bf ->
  exists bits',
    add_loop md5_int bf item bits i n = Ok bits' /\
    length bits' = length bits /\
    (forall h, bit_set bits h -> bit_set bits' h) /\
    (forall j h, (i <= j < i + n)%nat ->
                 hash_at md5_int bf item j = Ok h -> bit_set bits' h).
Proof.
  induction n as [|n IH]; intros bits i Hwf Hlen; simpl.
  - exists bits. repeat split; auto. intros; lia.
  - destruct (hash_at_ok bf item i Hwf) as (h & Hh & Hrange).
    rewrite Hh. simpl. unfold setitem.
    rewrite py_index_in_range by lia. simpl.
    destruct (IH (<[Z.to_nat h:=1]> bits) (S i) Hwf) as (bits' & Hrun & Hl & Hkeep & Hnew).
    { rewrite length_insert. exact Hlen. }
    exists bits'. split; [exact Hrun|]. split.
    { rewrite Hl. apply length_insert. }
    split.
    { intros h' Hset. apply Hkeep. apply bit_set_insert. exact Hset. }
    intros j h' Hj Hh'.
    destruct (decide (j = i)) as [->|Hne].
    + rewrite Hh in Hh'. injection Hh' as <-.
      apply Hkeep. exists 1. split; [|lia].
      apply list_lookup_insert_eq. lia.
    + apply (Hnew j h'); [lia|exact Hh'].
Qed.

Lemma contains_loop_true bf item n : forall i,
  bf_wf bf ->
  (forall j h, (i <= j < i + n)%nat ->
               hash_at md5_int bf item j = Ok h -> bit_set (bit_array bf) h) ->
  contains_loop md5_int bf item i n = Ok true.
Proof.
  induction n as [|n IH]; intros i Hwf Hall; simpl; [reflexivity|].
  destruct (hash_at_ok bf item i Hwf) as (h & Hh & Hrange).
  rewrite Hh. simpl.
  destruct (Hall i h ltac:(lia) Hh) as (b & Hb & Hnz).
  unfold getitem. destruct Hwf as [Hs Hlen].
  rewrite py_index_in_range by lia. rewrite Hb. simpl.
  destruct (Z.eqb_spec b 0); [contradiction|].
  apply IH; [split; assumption|].
  intros j h' Hj. apply Hall. lia.
Qed.

Lemma add_spec bf item :
  bf_wf bf ->
  exists bf',
    add md5_int bf item = Ok bf' /\ bf_wf bf' /\
    size bf' = size bf /\ hash_count bf' = hash_count bf /\
    (forall h, bit_set (bit_array bf) h -> bit_set (bit_array bf') h) /\
    (forall j h, (j < Z.to_nat (hash_count bf))%nat ->
                 hash_at md5_int bf item j = Ok h -> bit_set (bit_array bf') h).
Proof.
  intros Hwf. unfold add.
  destruct (add_loop_spec bf item (Z.to_nat (hash_count bf)) (bit_array bf) 0%nat Hwf)
    as (bits' & Hrun & Hl & Hkeep & Hnew); [apply Hwf|].
  rewrite Hrun. simpl. eexists; split; [reflexivity|].
  destruct Hwf as [Hs Hlen].
  repeat split; simpl; auto; try lia.
  intros j h Hj. apply Hnew. lia.
Qed.

Lemma hash_at_same_size bf bf' item j :
  size bf' = size bf ->
  hash_at md5_int bf' item j = hash_at md5_int bf item j.
Proof. intros E. unfold hash_at. rewrite E. reflexivity. Qed.

Lemma init_wf sz hc : 1 <= sz -> bf_wf (init sz hc).
Proof.
  intros H. split; simpl; [exact H|]. rewrite length_replicate. lia.
Qed.

(** After any run of [add]s from a well-sized filter, every item of the run
    is reported present, and so is whatever was present before. *)
Lemma add_all_spec items : forall bf,
  bf_wf bf ->
  exists bf',
    add_all md5_int bf items = Ok bf' /\ bf_wf bf' /\
    size bf' = size bf /\ hash_count bf' = hash_count bf /\
    (forall h, bit_set (bit_array bf) h -> bit_set (bit_array bf') h) /\
    (forall item, In item items -> contains md5_int bf' item = Ok true).
Proof.
  induction items as [|x rest IH]; intros bf Hwf; simpl.
  - exists bf. repeat split; auto; try apply Hwf. intros ? [].
  - destruct (add_spec bf x Hwf) as (bf1 & Hadd & Hwf1 & Hsz & Hhc & Hkeep & Hnew).
    rewrite Hadd. simpl.
    destruct (IH bf1 Hwf1) as (bf2 & Hrun & Hwf2 & Hsz2 & Hhc2 & Hkeep2 & Hin2).
    exists bf2. split; [exact Hrun|]. split; [exact Hwf2|].
    split; [congruence|]. split; [congruence|]. split.
    { intros h Hh. apply Hkeep2, Hkeep, Hh. }
    intros item [<-|Hin]; [|apply Hin2, Hin].
    unfold contains. apply contains_loop_true; [exact Hwf2|].
    intros j h Hj Hh. apply Hkeep2. apply (Hnew j h).
    + rewrite Hhc2, Hhc in Hj. lia.
    + rewrite <- Hh. symmetry. apply hash_at_same_size. congruence.
Qed.

(** C7 (bloom soundness): a filter built with [size >= 1] and
    [hash_count >= 0] accepts every sequence of [add]s, and afterwards the
    membership test answers true for every item added at any point of the
    sequence: no false negative, whatever was added later. *)
Theorem bloom_no_false_negative (sz hc : Z) (items : list string) :
  1 <= sz -> 0 <= hc ->
  exists bf,
    add_all md5_int (init sz hc) items = Ok bf /\
    forall item, In item items -> contains md5_int bf item = Ok true.
Proof.
  intros Hsz _.
  destruct (add_all_spec items (init sz hc) (init_wf sz hc Hsz))
    as (bf & Hrun & _ & _ & _ & _ & Hin).
  exists bf. split; assumption.
Qed.
End BloomFilterFacts.

(** A stand-in digest for running the model on concrete inputs. *)
Definition toy_digest (s : string) : Z := Z.of_nat (String.length s) * 7 + 3.

Lemma bloom_no_false_negative_witness :
  1 <= 10 /\ 0 <= 3 /\
  exists bf,
    BloomFilter.add_all toy_digest (BloomFilter.init 10 3) ["hello"; "world"]%string = Ok bf /\
    forall item, In item ["hello"; "world"]%string ->
                 BloomFilter.contains toy_digest bf item = Ok true.
Proof.
  split; [lia|]. split; [lia|].
  apply (bloom_no_false_negative toy_digest 10 3 ["hello"; "world"]%string); lia.
Defined.

(** ** The order on keys *)

(** [slt a b]: Python's [a < b] on [str]. *)
Definition slt (a b : string) : Prop := String.ltb a b = true.

Lemma ascii_compare_lt_trans a b c :
  Ascii.compare a b = Lt -> Ascii.compare b c = Lt -> Ascii.compare a c = Lt.
Proof.
  unfold Ascii.compare. rewrite !N.compare_lt_iff. lia.
Qed.

Lemma ascii_compare_refl a : Ascii.compare a a = Eq.
Proof. unfold Ascii.compare. apply N.compare_refl. Qed.

Lemma string_compare_refl a : String.compare a a = Eq.
Proof.
  induction a as [|c a IH]; simpl; [reflexivity|].
  rewrite ascii_compare_refl. exact IH.
Qed.

Lemma string_compare_lt_trans a : forall b c,
  String.compare a b = Lt -> String.compare b c = Lt -> String.compare a c = Lt.
Proof.
  induction a as [|x a IH]; intros [|y b] [|z c]; simpl; try discriminate; auto.
  destruct (Ascii.compare x y) eqn:Exy; try discriminate.
  - apply Ascii.compare_eq_iff in Exy. subst y.
    destruct (Ascii.compare x z) eqn:Exz; try discriminate; auto.
    intros. eapply IH; eauto.
  - intros _. destruct (Ascii.compare y z) eqn:Eyz; try discriminate.
    + apply Ascii.compare_eq_iff in Eyz. subst z. rewrite Exy. reflexivity.
    + intros _. rewrite (ascii_compare_lt_trans x y z Exy Eyz). reflexivity.
Qed.

Lemma ltb_lt a b : String.ltb a b = true <-> String.compare a b = Lt.
Proof.
  unfold String.ltb. destruct (String.compare a b); split; congruence.
Qed.

Lemma slt_irrefl a : ~ slt a a.
Proof.
  unfold slt. rewrite ltb_lt, string_compare_refl. discriminate.
Qed.

Lemma slt_trans a b c : slt a b -> slt b c -> slt a c.
Proof.
  unfold slt. rewrite !ltb_lt. apply string_compare_lt_trans.
Qed.

Lemma slt_asym a b : slt a b -> ~ slt b a.
Proof. intros H1 H2. exact (slt_irrefl a (slt_trans _ _ _ H1 H2)). Qed.

Lemma slt_neq a b : slt a b -> a <> b.
Proof. intros H ->. exact (slt_irrefl b H). Qed.

(** Trichotomy. *)
Lemma slt_total a b : slt a b \/ a = b \/ slt b a.
Proof.
  unfold slt. rewrite !ltb_lt.
  rewrite (String.compare_antisym b a).
  destruct (String.compare a b) eqn:E; simpl; auto.
  right; left. apply String.compare_eq_iff. exact E.
Qed.

Lemma not_slt a b : String.ltb a b = false -> a <> b -> slt b a.
Proof.
  intros Hf Hne. destruct (slt_total a b) as [H|[H|H]]; auto.
  - unfold slt in H. congruence.
  - contradiction.
Qed.

Lemma eqb_false_neq a b : String.eqb a b = false <-> a <> b.
Proof. apply String.eqb_neq. Qed.

#[local] Instance slt_transitive : Transitive slt.
Proof. intros a b c. apply slt_trans. Qed.

(** ** Association lists in key order *)

Definition kv := (string * string)%type.

(** The keys of an item list, in order. *)
Definition keys_of (l : list kv) : list string := map fst l.

(** Items in strictly ascending key order. *)
Definition sorted (l : list kv) : Prop := StronglySorted slt (keys_of l).

(** First value bound to [k]. *)
Fixpoint assoc (k : string) (l : list kv) : option string :=
  match l with
  | [] => None
  | (k', v) :: l' => if String.eqb k k' then Some v else assoc k l'
  end.

(** Ordered insertion of a new key. *)
Fixpoint ins (k v : string) (l : list kv) : list kv :=
  match l with
  | [] => [(k, v)]
  | (k', v') :: l' =>
      if String.ltb k k' then (k, v) :: (k', v') :: l'
      else (k', v') :: ins k v l'
  end.

(** Replacement of the value of a key already there. *)
Fixpoint upd (k v : string) (l : list kv) : list kv :=
  match l with
  | [] => []
  | (k', v') :: l' =>
      if String.eqb k k' then (k', v) :: l' else (k', v') :: upd k v l'
  end.

(** What [insert] does to the ordered items of a tree. *)
Definition upsert (k v : string) (l : list kv) : list kv :=
  match assoc k l with
  | Some _ => upd k v l
  | None => ins k v l
  end.

Definition all_lt (l : list kv) (k : string) : Prop :=
  Forall (fun e => slt (fst e) k) l.
Definition all_gt (l : list kv) (k : string) : Prop :=
  Forall (fun e => slt k (fst e)) l.

Lemma keys_of_app l1 l2 : keys_of (l1 ++ l2) = keys_of l1 ++ keys_of l2.
Proof. apply map_app. Qed.

Lemma sorted_app l1 l2 :
  sorted (l1 ++ l2) <->
  sorted l1 /\ sorted l2 /\
  (forall a b, In a l1 -> In b l2 -> slt (fst a) (fst b)).
Proof.
  unfold sorted. rewrite keys_of_app, StronglySorted_app.
  split.
  - intros (H3 & H1 & H2). repeat split; auto.
    intros a b Ha Hb. apply H3; apply list_elem_of_In; apply in_map; assumption.
  - intros (H1 & H2 & H3). repeat split; auto.
    intros x1 x2 Hx1 Hx2.
    apply list_elem_of_In, in_map_iff in Hx1 as (a & <- & Ha).
    apply list_elem_of_In, in_map_iff in Hx2 as (b & <- & Hb).
    apply H3; assumption.
Qed.

Lemma sorted_cons a l :
  sorted (a :: l) <-> sorted l /\ all_gt l (fst a).
Proof.
  unfold sorted, all_gt, keys_of. simpl. rewrite StronglySorted_cons.
  rewrite List.Forall_map. tauto.
Qed.

Lemma sorted_nil : sorted [].
Proof. constructor. Qed.

Lemma all_lt_app l1 l2 k : all_lt (l1 ++ l2) k <-> all_lt l1 k /\ all_lt l2 k.
Proof. unfold all_lt. apply Forall_app. Qed.

Lemma all_gt_app l1 l2 k : all_gt (l1 ++ l2) k <-> all_gt l1 k /\ all_gt l2 k.
Proof. unfold all_gt. apply Forall_app. Qed.

Lemma all_lt_trans l k k' : all_lt l k -> slt k k' -> all_lt l k'.
Proof.
  unfold all_lt. intros H Hk. eapply Forall_impl; [exact H|].
  intros e He. simpl in *. eapply slt_trans; eauto.
Qed.

Lemma all_gt_trans l k k' : all_gt l k -> slt k' k -> all_gt l k'.
Proof.
  unfold all_gt. intros H Hk. eapply Forall_impl; [exact H|].
  intros e He. simpl in *. eapply slt_trans; eauto.
Qed.

Lemma assoc_all_lt l k : all_lt l k -> assoc k l = None.
Proof.
  induction l as [|[k' v'] l IH]; intros H; simpl; [reflexivity|].
  apply Forall_cons in H as [Hk Hl]. simpl in Hk.
  destruct (String.eqb_spec k k') as [->|_]; [|auto].
  exfalso. exact (slt_irrefl _ Hk).
Qed.

Lemma assoc_all_gt l k : all_gt l k -> assoc k l = None.
Proof.
  induction l as [|[k' v'] l IH]; intros H; simpl; [reflexivity|].
  apply Forall_cons in H as [Hk Hl]. simpl in Hk.
  destruct (String.eqb_spec k k') as [->|_]; [|auto].
  exfalso. exact (slt_irrefl _ Hk).
Qed.

Lemma assoc_app k l1 l2 :
  assoc k (l1 ++ l2) =
  match assoc k l1 with Some v => Some v | None => assoc k l2 end.
Proof.
  induction l1 as [|[k' v'] l1 IH]; simpl; [reflexivity|].
  destruct (String.eqb k k'); auto.
Qed.

Lemma assoc_None_not_in k l : assoc k l = None <-> ~ In k (keys_of l).
Proof.
  induction l as [|[k' v'] l IH]; simpl; [tauto|].
  destruct (String.eqb_spec k k') as [->|Hne].
  - split; [discriminate|]. intros H. exfalso. apply H. auto.
  - rewrite IH. split; intros H; [intros [E|E]; [congruence|auto]|auto].
Qed.

Lemma assoc_Some_in k v l : assoc k l = Some v -> In (k, v) l.
Proof.
  induction l as [|[k' v'] l IH]; simpl; [discriminate|].
  destruct (String.eqb_spec k k') as [->|Hne]; [|auto].
  intros [= ->]. auto.
Qed.

(** Insertion passes over a prefix of smaller keys and stops before a suffix
    of larger ones. *)
Lemma ins_app_lt k v l1 l2 :
  all_lt l1 k -> ins k v (l1 ++ l2) = l1 ++ ins k v l2.
Proof.
  induction l1 as [|[k' v'] l1 IH]; intros H; simpl; [reflexivity|].
  apply Forall_cons in H as [Hk Hl]. simpl in Hk.
  destruct (String.ltb k k') eqn:E.
  - exfalso. exact (slt_asym _ _ Hk E).
  - rewrite IH by assumption. reflexivity.
Qed.

Lemma ins_app_gt k v l1 l2 :
  all_gt l2 k -> ins k v (l1 ++ l2) = ins k v l1 ++ l2.
Proof.
  intros H. induction l1 as [|[k' v'] l1 IH]; simpl.
  - destruct l2 as [|[k2 v2] l2]; [reflexivity|].
    apply Forall_cons in H as [Hk _]. simpl in Hk.
    unfold slt in Hk. simpl. rewrite Hk. reflexivity.
  - destruct (String.ltb k k'); [reflexivity|]. rewrite IH. reflexivity.
Qed.

Lemma ins_middle k v l1 m l2 :
  all_lt l1 k -> all_gt l2 k ->
  ins k v (l1 ++ m ++ l2) = l1 ++ ins k v m ++ l2.
Proof.
  intros H1 H2. rewrite ins_app_lt by assumption.
  rewrite ins_app_gt by assumption. reflexivity.
Qed.

Lemma in_ins e k v l : In e (ins k v l) <-> e = (k, v) \/ In e l.
Proof.
  induction l as [|[k' v'] l IH]; simpl; [intuition congruence|].
  destruct (String.ltb k k'); simpl; [intuition congruence|].
  rewrite IH. intuition congruence.
Qed.

Lemma keys_of_ins_perm k v l : forall x,
  In x (keys_of (ins k v l)) <-> x = k \/ In x (keys_of l).
Proof.
  intros x. unfold keys_of. rewrite !in_map_iff. split.
  - intros (e & <- & He). apply in_ins in He as [->|He]; [auto|].
    right. exists e. auto.
  - intros [->|(e & <- & He)].
    + exists (k, v). split; [reflexivity|]. apply in_ins. auto.
    + exists e. split; [reflexivity|]. apply in_ins. auto.
Qed.

Lemma sorted_ins k v l :
  sorted l -> ~ In k (keys_of l) -> sorted (ins k v l).
Proof.
  induction l as [|[k' v'] l IH]; intros Hs Hn; simpl.
  - apply sorted_cons. split; [apply sorted_nil|constructor].
  - destruct (String.ltb k k') eqn:E.
    + apply sorted_cons. split; [exact Hs|].
      apply sorted_cons in Hs as [Hs Hgt].
      constructor; [exact E|]. eapply all_gt_trans; eauto.
    + apply sorted_cons in Hs as [Hs Hgt].
      apply sorted_cons. split.
      * apply IH; [exact Hs|]. intros Hin. apply Hn. right. exact Hin.
      * unfold all_gt. apply Forall_forall. intros e He.
        apply list_elem_of_In, in_ins in He as [->|He].
        -- simpl. apply not_slt; [exact E|].
           intros ->. apply Hn. left. reflexivity.
        -- unfold all_gt in Hgt. rewrite Forall_forall in Hgt.
           apply Hgt. apply list_elem_of_In. exact He.
Qed.

Lemma assoc_ins_new k v l k' :
  assoc k l = None ->
  assoc k' (ins k v l) = if String.eqb k' k then Some v else assoc k' l.
Proof.
  induction l as [|[k1 v1] l IH]; simpl; intros H.
  - destruct (String.eqb k' k); reflexivity.
  - destruct (String.eqb_spec k k1) as [E|Hne]; [discriminate|].
    destruct (String.ltb k k1); simpl; [reflexivity|].
    rewrite (IH H).
    destruct (String.eqb_spec k' k1) as [E1|N1];
      destruct (String.eqb_spec k' k) as [E2|N2]; try reflexivity.
    congruence.
Qed.

Lemma keys_of_upd k v l : keys_of (upd k v l) = keys_of l.
Proof.
  induction l as [|[k' v'] l IH]; simpl; [reflexivity|].
  destruct (String.eqb k k'); simpl; [reflexivity|]. f_equal. exact IH.
Qed.

Lemma assoc_upd k v l k' :
  assoc k' (upd k v l) =
  if String.eqb k' k then
    match assoc k l with Some _ => Some v | None => None end
  else assoc k' l.
Proof.
  induction l as [|[k1 v1] l IH]; simpl.
  - destruct (String.eqb k' k); reflexivity.
  - destruct (String.eqb_spec k k1) as [->|Hne]; simpl.
    + destruct (String.eqb k' k1); reflexivity.
    + destruct (String.eqb_spec k' k1) as [->|Hne'].
      * destruct (String.eqb_spec k1 k); [congruence|]. reflexivity.
      * exact IH.
Qed.

Lemma upd_app_l k v l1 l2 :
  assoc k l1 <> None -> upd k v (l1 ++ l2) = upd k v l1 ++ l2.
Proof.
  induction l1 as [|[k' v'] l1 IH]; simpl; [congruence|].
  destruct (String.eqb k k'); [reflexivity|].
  intros H. rewrite IH by assumption. reflexivity.
Qed.

Lemma upd_app_r k v l1 l2 :
  assoc k l1 = None -> upd k v (l1 ++ l2) = l1 ++ upd k v l2.
Proof.
  induction l1 as [|[k' v'] l1 IH]; simpl; [reflexivity|].
  destruct (String.eqb k k'); [discriminate|].
  intros H. rewrite IH by assumption. reflexivity.
Qed.

(** Lookup after [upsert]. *)
Lemma assoc_upsert k v l k' :
  assoc k' (upsert k v l) = if String.eqb k' k then Some v else assoc k' l.
Proof.
  unfold upsert. destruct (assoc k l) eqn:E.
  - rewrite assoc_upd, E. reflexivity.
  - apply assoc_ins_new. exact E.
Qed.

Lemma sorted_upsert k v l : sorted l -> sorted (upsert k v l).
Proof.
  intros Hs. unfold upsert. destruct (assoc k l) eqn:E.
  - unfold sorted. rewrite keys_of_upd. exact Hs.
  - apply sorted_ins; [exact Hs|]. apply assoc_None_not_in. exact E.
Qed.

(** ** B-Tree *)

(** The items of a node in key order, as [_items] collects them from a
    well-formed node: children and keys interleaved. *)
Fixpoint interR (kvs : list kv) (fs : list (list kv)) : list kv :=
  match kvs, fs with
  | e :: kvs', f :: fs' => e :: f ++ interR kvs' fs'
  | _, _ => []
  end.

Fixpoint interL (kvs : list kv) (fs : list (list kv)) : list kv :=
  match kvs, fs with
  | e :: kvs', f :: fs' => f ++ e :: interL kvs' fs'
  | _, _ => []
  end.

Definition inter (kvs : list kv) (fs : list (list kv)) : list kv :=
  match fs with
  | [] => []
  | f :: fs' => f ++ interR kvs fs'
  end.

Fixpoint flat (x : BTree.BTreeNode) : list kv :=
  match x with
  | BTree.mkNode lf ks vs cs =>
      if lf then zip ks vs else inter (zip ks vs) (map flat cs)
  end.

(** *** Interleaving lemmas *)

Lemma interR_cons_inter e kvs f fs :
  interR (e :: kvs) (f :: fs) = e :: inter kvs (f :: fs).
Proof. reflexivity. Qed.

Lemma interR_inter e kvs fs :
  fs <> [] -> interR (e :: kvs) fs = e :: inter kvs fs.
Proof. destruct fs; [congruence|reflexivity]. Qed.

(** Cutting the interleaving at child [i]. *)
Lemma inter_at (i : nat) : forall kvs fs f,
  fs !! i = Some f -> (i <= length kvs)%nat ->
  inter kvs fs =
  interL (take i kvs) (take i fs) ++ f ++ interR (drop i kvs) (drop (S i) fs).
Proof.
  induction i as [|i IH]; intros kvs fs f Hf Hi.
  - destruct fs as [|f0 fs]; [discriminate|]. injection Hf as ->.
    simpl. rewrite drop_0. destruct kvs; reflexivity.
  - destruct fs as [|f0 fs]; [discriminate|]. simpl in Hf.
    destruct kvs as [|e kvs]; [simpl in Hi; lia|].
    simpl in Hi.
    assert (Hne : fs <> []) by (intros ->; discriminate).
    change (inter (e :: kvs) (f0 :: fs)) with (f0 ++ interR (e :: kvs) fs).
    rewrite (interR_inter e kvs fs Hne).
    rewrite (IH kvs fs f Hf) by lia.
    simpl. rewrite <- app_assoc. reflexivity.
Qed.

(** The prefix before child [i + 1] ends with key [i]. *)
Lemma interL_snoc (i : nat) : forall kvs fs e f,
  kvs !! i = Some e -> fs !! i = Some f ->
  interL (take (S i) kvs) (take (S i) fs) =
  interL (take i kvs) (take i fs) ++ f ++ [e].
Proof.
  induction i as [|i IH]; intros kvs fs e f He Hf.
  - destruct kvs as [|e0 kvs]; [discriminate|].
    destruct fs as [|f0 fs]; [discriminate|].
    injection He as ->. injection Hf as ->. simpl.
    try rewrite !take_0. reflexivity.
  - destruct kvs as [|e0 kvs]; [discriminate|].
    destruct fs as [|f0 fs]; [discriminate|].
    simpl in He, Hf. change (take (S (S i)) (e0 :: kvs)) with (e0 :: take (S i) kvs).
    change (take (S (S i)) (f0 :: fs)) with (f0 :: take (S i) fs).
    simpl interL at 1. rewrite (IH kvs fs e f He Hf).
    simpl. rewrite <- !app_assoc. reflexivity.
Qed.

Section BTreeFacts.
Import BTree.

(** The minimum degree. *)
Variable t : nat.
Hypothesis Ht : (2 <= t)%nat.

(** The key count allowed in a node that is not the root. *)
Definition bounds (c : BTreeNode) : Prop :=
  (t - 1 <= length (keys c) <= 2 * t - 1)%nat.

(** Shape of a subtree whose leaves are all [h] levels down: parallel keys
    and values, one more child than keys in an internal node, none in a
    leaf, every child within [bounds]. *)
Fixpoint wf (h : nat) (x : BTreeNode) : Prop :=
  length (values x) = length (keys x) /\
  match h with
  | O => leaf x = true /\ child x = []
  | S h' =>
      leaf x = false /\
      length (child x) = S (length (keys x)) /\
      Forall (wf h') (child x) /\
      Forall bounds (child x)
  end.

(** The invariant of a tree: shape, root not over-full, items in strictly
    ascending key order. *)
Definition tree_inv (h : nat) (x : BTreeNode) : Prop :=
  wf h x /\ (length (keys x) <= 2 * t - 1)%nat /\ sorted (flat x).

Lemma child_at_lookup {R} (rec : BTreeNode -> result R) cs : forall i,
  child_at rec cs i =
  match cs !! i with Some c => rec c | None => Raise IndexError end.
Proof.
  induction cs as [|c cs IH]; intros [|i]; simpl; auto.
Qed.

Lemma update_child_at_lookup rec cs : forall i,
  update_child_at rec cs i =
  match cs !! i with
  | Some c => let* (c', found) := rec c in Ok (<[i:=c']> cs, found)
  | None => Raise IndexError
  end.
Proof.
  induction cs as [|c cs IH]; intros [|i]; simpl; auto.
  rewrite IH. destruct (cs !! i); [|reflexivity].
  destruct (rec b) as [[c' fd]|]; reflexivity.
Qed.

(** *** [search] reads the ordered items *)

Lemma search_leaf k : forall ks vs,
  length vs = length ks -> sorted (zip ks vs) ->
  (if key_at k ks (scan_up k ks)
   then let* v := of_option (vs !! scan_up k ks) IndexError in Ok (Some v)
   else Ok None) = Ok (assoc k (zip ks vs)).
Proof.
  induction ks as [|k0 ks IH]; intros vs Hlen Hs.
  - reflexivity.
  - destruct vs as [|v0 vs]; [discriminate|].
    simpl in Hlen. injection Hlen as Hlen.
    change (zip (k0 :: ks) (v0 :: vs)) with ((k0, v0) :: zip ks vs) in *.
    apply sorted_cons in Hs as [Hs Hgt]. simpl in Hgt.
    simpl scan_up. simpl assoc.
    destruct (String.ltb k0 k) eqn:E.
    + unfold key_at. simpl. fold (key_at k ks (scan_up k ks)).
      rewrite (IH vs Hlen Hs).
      destruct (String.eqb_spec k k0) as [->|_]; [|reflexivity].
      exfalso. exact (slt_irrefl _ E).
    + unfold key_at. simpl.
      destruct (String.eqb_spec k k0) as [->|Hne]; [reflexivity|].
      f_equal. symmetry. apply assoc_all_gt.
      eapply all_gt_trans; [exact Hgt|].
      apply not_slt; [exact E|congruence].
Qed.

Lemma inter_cons k0 v0 ks vs f0 fs :
  fs <> [] ->
  inter (zip (k0 :: ks) (v0 :: vs)) (f0 :: fs) =
  f0 ++ (k0, v0) :: inter (zip ks vs) fs.
Proof.
  intros Hne. change (zip (k0 :: ks) (v0 :: vs)) with ((k0, v0) :: zip ks vs).
  change (inter ((k0, v0) :: zip ks vs) (f0 :: fs))
    with (f0 ++ interR ((k0, v0) :: zip ks vs) fs).
  rewrite interR_inter by assumption. reflexivity.
Qed.

Lemma search_inter k : forall ks vs cs,
  length vs = length ks -> length cs = S (length ks) ->
  sorted (inter (zip ks vs) (map flat cs)) ->
  Forall (fun c => sorted (flat c) ->
                   search_node k c = Ok (assoc k (flat c))) cs ->
  (if key_at k ks (scan_up k ks)
   then let* v := of_option (vs !! scan_up k ks) IndexError in Ok (Some v)
   else child_at (search_node k) cs (scan_up k ks))
  = Ok (assoc k (inter (zip ks vs) (map flat cs))).
Proof.
  induction ks as [|k0 ks IH]; intros vs cs Hlv Hlc Hs Hall.
  - destruct cs as [|c0 [|c1 cs]]; try discriminate.
    simpl in *. rewrite app_nil_r in *.
    apply Forall_cons in Hall as [Hc0 _]. apply Hc0. exact Hs.
  - destruct vs as [|v0 vs]; [discriminate|].
    destruct cs as [|c0 cs]; [discriminate|].
    simpl in Hlv, Hlc. injection Hlv as Hlv. injection Hlc as Hlc.
    assert (Hne : map flat cs <> []) by (destruct cs; [discriminate|discriminate]).
    change (map flat (c0 :: cs)) with (flat c0 :: map flat cs) in *.
    rewrite inter_cons in * by assumption.
    apply sorted_app in Hs as (Hs0 & Hs1 & Hcross).
    apply sorted_cons in Hs1 as [Hs1 Hgt]. simpl in Hgt.
    apply Forall_cons in Hall as [Hc0 Hall].
    assert (Hlt0 : all_lt (flat c0) k0).
    { apply Forall_forall. intros a Ha. apply list_elem_of_In in Ha.
      apply (Hcross a (k0, v0)); [exact Ha|left; reflexivity]. }
    rewrite assoc_app. simpl scan_up. simpl assoc.
    destruct (String.ltb k0 k) eqn:E.
    + unfold key_at. simpl. fold (key_at k ks (scan_up k ks)).
      rewrite (IH vs cs Hlv Hlc Hs1 Hall).
      rewrite (assoc_all_lt (flat c0) k) by (eapply all_lt_trans; eauto).
      destruct (String.eqb_spec k k0) as [->|_]; [|reflexivity].
      exfalso. exact (slt_irrefl _ E).
    + unfold key_at. simpl.
      destruct (String.eqb_spec k k0) as [->|Hne0].
      * rewrite (assoc_all_lt (flat c0) k0 Hlt0). reflexivity.
      * rewrite (Hc0 Hs0). destruct (assoc k (flat c0)); [reflexivity|].
        f_equal. symmetry. apply assoc_all_gt.
        eapply all_gt_trans; [exact Hgt|].
        apply not_slt; [exact E|congruence].
Qed.

Theorem search_node_assoc k : forall h x,
  wf h x -> sorted (flat x) -> search_node k x = Ok (assoc k (flat x)).
Proof.
  induction h as [|h IH]; intros [lf ks vs cs]; simpl;
    intros (Hlv & Hrest) Hs.
  - destruct Hrest as [-> ->]. apply search_leaf; assumption.
  - destruct Hrest as (-> & Hlc & Hwf & _).
    apply search_inter; try assumption.
    eapply Forall_impl; [exact Hwf|]. intros c Hc Hsc. apply IH; assumption.
Qed.

(** *** [_items] computes the interleaving *)

Lemma walk_flat : forall ks vs cs,
  length vs = length ks -> length cs = S (length ks) ->
  Forall (fun c => _items c = Ok (flat c)) cs ->
  walk _items ks vs cs = Ok (inter (zip ks vs) (map flat cs)).
Proof.
  induction ks as [|k0 ks IH]; intros vs cs Hlv Hlc Hall.
  - destruct cs as [|c0 [|c1 cs]]; try discriminate.
    apply Forall_cons in Hall as [Hc0 _]. simpl. rewrite Hc0. simpl.
    rewrite app_nil_r. reflexivity.
  - destruct vs as [|v0 vs]; [discriminate|].
    destruct cs as [|c0 cs]; [discriminate|].
    simpl in Hlv, Hlc. injection Hlv as Hlv. injection Hlc as Hlc.
    assert (Hne : map flat cs <> []) by (destruct cs; discriminate).
    change (map flat (c0 :: cs)) with (flat c0 :: map flat cs).
    rewrite inter_cons by assumption.
    apply Forall_cons in Hall as [Hc0 Hall].
    simpl. rewrite Hc0. simpl. rewrite (IH vs cs Hlv Hlc Hall). reflexivity.
Qed.

Theorem items_flat : forall h x, wf h x -> _items x = Ok (flat x).
Proof.
  induction h as [|h IH]; intros [lf ks vs cs]; simpl; intros (Hlv & Hrest).
  - destruct Hrest as [-> ->]. reflexivity.
  - destruct Hrest as (-> & Hlc & Hwf & _).
    apply walk_flat; try assumption.
    eapply Forall_impl; [exact Hwf|]. intros c Hc. apply IH; assumption.
Qed.

(** *** A node opened at one child *)

Lemma inter_open : forall kl kr (fl : list (list kv)) f fr,
  length fl = length kl ->
  inter (kl ++ kr) (fl ++ f :: fr) = interL kl fl ++ f ++ interR kr fr.
Proof.
  induction kl as [|e kl IH]; intros kr fl f fr Hlen.
  - destruct fl; [|discriminate]. reflexivity.
  - destruct fl as [|f0 fl]; [discriminate|]. simpl in Hlen.
    injection Hlen as Hlen.
    change (inter ((e :: kl) ++ kr) ((f0 :: fl) ++ f :: fr))
      with (f0 ++ interR (e :: kl ++ kr) (fl ++ f :: fr)).
    rewrite interR_inter by (destruct fl; discriminate).
    rewrite IH by assumption. simpl. rewrite <- app_assoc. reflexivity.
Qed.

Lemma interL_snoc_app : forall kl (fl : list (list kv)) e f,
  length fl = length kl ->
  interL (kl ++ [e]) (fl ++ [f]) = interL kl fl ++ f ++ [e].
Proof.
  induction kl as [|e0 kl IH]; intros fl e f Hlen.
  - destruct fl; [|discriminate]. reflexivity.
  - destruct fl as [|f0 fl]; [discriminate|]. simpl in Hlen.
    injection Hlen as Hlen. simpl. rewrite IH by assumption.
    rewrite <- app_assoc. reflexivity.
Qed.

Lemma flat_open ksl ksr vsl vsr csl c csr :
  length vsl = length ksl -> length csl = length ksl ->
  flat (mkNode false (ksl ++ ksr) (vsl ++ vsr) (csl ++ c :: csr)) =
  interL (zip ksl vsl) (map flat csl) ++ flat c ++
  interR (zip ksr vsr) (map flat csr).
Proof.
  intros Hv Hc.
  change (flat (mkNode false (ksl ++ ksr) (vsl ++ vsr) (csl ++ c :: csr)))
    with (inter (zip (ksl ++ ksr) (vsl ++ vsr)) (map flat (csl ++ c :: csr))).
  rewrite (zip_with_app pair ksl ksr vsl vsr) by (symmetry; exact Hv).
  rewrite map_app.
  change (map flat (c :: csr)) with (flat c :: map flat csr).
  apply inter_open.
  rewrite length_map, length_zip_with. lia.
Qed.

(** A well-formed internal node, opened at child [i]. *)
Lemma wf_open h x i :
  wf (S h) x -> (i <= length (keys x))%nat ->
  exists ksl ksr vsl vsr csl c csr,
    x = mkNode false (ksl ++ ksr) (vsl ++ vsr) (csl ++ c :: csr) /\
    length ksl = i /\ length vsl = i /\ length csl = i /\
    length vsr = length ksr /\ length csr = length ksr /\
    ksl = take i (keys x) /\ ksr = drop i (keys x) /\
    Forall (wf h) csl /\ Forall (wf h) csr /\ wf h c /\
    Forall bounds csl /\ Forall bounds csr /\ bounds c.
Proof.
  destruct x as [lf ks vs cs]. simpl.
  intros (Hlv & -> & Hlc & Hwf & Hb) Hi.
  destruct (lookup_lt_is_Some_2 cs i ltac:(lia)) as [c Hc].
  exists (take i ks), (drop i ks), (take i vs), (drop i vs),
         (take i cs), c, (drop (S i) cs).
  rewrite !take_drop, (take_drop_middle cs i c Hc).
  rewrite !length_take, !length_drop.
  pose proof (Forall_lookup_1 _ _ _ _ Hwf Hc) as Hwc.
  pose proof (Forall_lookup_1 _ _ _ _ Hb Hc) as Hbc.
  pose proof (Forall_take _ i _ Hwf). pose proof (Forall_drop _ (S i) _ Hwf).
  pose proof (Forall_take _ i _ Hb). pose proof (Forall_drop _ (S i) _ Hb).
  repeat (split; [first [reflexivity | lia | assumption]|]).
  assumption.
Qed.

Lemma wf_close h ksl ksr vsl vsr csl c csr :
  length vsl = length ksl -> length csl = length ksl ->
  length vsr = length ksr -> length csr = length ksr ->
  Forall (wf h) csl -> Forall (wf h) csr -> wf h c ->
  Forall bounds csl -> Forall bounds csr -> bounds c ->
  wf (S h) (mkNode false (ksl ++ ksr) (vsl ++ vsr) (csl ++ c :: csr)).
Proof.
  intros. simpl. rewrite !length_app. simpl.
  repeat split; try lia.
  - apply Forall_app. split; [assumption|]. constructor; assumption.
  - apply Forall_app. split; [assumption|]. constructor; assumption.
Qed.

(** Order facts read off a sorted opened node. *)
Lemma sorted_snoc_all_lt (l : list kv) e k :
  sorted (l ++ [e]) -> slt (fst e) k -> all_lt (l ++ [e]) k.
Proof.
  intros Hs Hk. apply sorted_app in Hs as (_ & _ & Hcross).
  apply all_lt_app. split.
  - apply Forall_forall. intros a Ha. apply list_elem_of_In in Ha.
    eapply slt_trans; [|exact Hk]. apply Hcross; [exact Ha|left; reflexivity].
  - constructor; [exact Hk|constructor].
Qed.

Lemma sorted_cons_all_gt (l : list kv) e k :
  sorted (e :: l) -> slt k (fst e) -> all_gt (e :: l) k.
Proof.
  intros Hs Hk. apply sorted_cons in Hs as [_ Hgt].
  constructor; [exact Hk|]. eapply all_gt_trans; eauto.
Qed.

(** *** [_update] replaces the value of a key that is there *)

Lemma update_leaf k v : forall ks vs,
  length vs = length ks -> sorted (zip ks vs) ->
  assoc k (zip ks vs) <> None ->
  key_at k ks (scan_up k ks) = true /\
  (scan_up k ks < length vs)%nat /\
  zip ks (<[scan_up k ks:=v]> vs) = upd k v (zip ks vs).
Proof.
  induction ks as [|k0 ks IH]; intros vs Hlen Hs Hin.
  - simpl in Hin. congruence.
  - destruct vs as [|v0 vs]; [discriminate|].
    simpl in Hlen. injection Hlen as Hlen.
    change (zip (k0 :: ks) (v0 :: vs)) with ((k0, v0) :: zip ks vs) in *.
    apply sorted_cons in Hs as [Hs Hgt]. simpl in Hgt.
    simpl scan_up. simpl in Hin. simpl upd.
    destruct (String.ltb k0 k) eqn:E.
    + destruct (String.eqb_spec k k0) as [->|Hne].
      { exfalso. exact (slt_irrefl _ E). }
      destruct (IH vs Hlen Hs Hin) as (Hk & Hi & Hz).
      unfold key_at in *. simpl. split; [exact Hk|]. split; [lia|].
      change (zip (k0 :: ks) (v0 :: <[scan_up k ks:=v]> vs))
        with ((k0, v0) :: zip ks (<[scan_up k ks:=v]> vs)).
      rewrite Hz. reflexivity.
    + destruct (String.eqb_spec k k0) as [->|Hne].
      * unfold key_at. simpl. rewrite String.eqb_refl.
        split; [reflexivity|]. split; [lia|]. reflexivity.
      * exfalso. apply Hin. apply assoc_all_gt.
        eapply all_gt_trans; [exact Hgt|].
        apply not_slt; [exact E|congruence].
Qed.

Definition update_ok (k v : string) (h : nat) (c : BTreeNode) : Prop :=
  sorted (flat c) -> assoc k (flat c) <> None ->
  exists c', _update k v c = Ok (c', true) /\ wf h c' /\
             flat c' = upd k v (flat c) /\
             length (keys c') = length (keys c).

Lemma update_inter k v h : forall ks vs cs,
  length vs = length ks -> length cs = S (length ks) ->
  sorted (inter (zip ks vs) (map flat cs)) ->
  assoc k (inter (zip ks vs) (map flat cs)) <> None ->
  Forall (update_ok k v h) cs ->
  let i := scan_up k ks in
  (key_at k ks i = true /\ (i < length vs)%nat /\
   inter (zip ks (<[i:=v]> vs)) (map flat cs) =
   upd k v (inter (zip ks vs) (map flat cs)))
  \/
  (key_at k ks i = false /\
   exists c c', cs !! i = Some c /\ _update k v c = Ok (c', true) /\
     wf h c' /\ length (keys c') = length (keys c) /\
     inter (zip ks vs) (map flat (<[i:=c']> cs)) =
     upd k v (inter (zip ks vs) (map flat cs))).
Proof.
  induction ks as [|k0 ks IH]; intros vs cs Hlv Hlc Hs Hin Hall.
  - destruct cs as [|c0 [|c1 cs]]; try discriminate.
    destruct vs; [|discriminate].
    simpl in *. rewrite app_nil_r in *.
    apply Forall_cons in Hall as [Hc0 _].
    destruct (Hc0 Hs Hin) as (c' & Hu & Hw & Hf & Hk).
    right. split; [reflexivity|]. exists c0, c'.
    repeat split; try assumption. simpl. rewrite app_nil_r. exact Hf.
  - destruct vs as [|v0 vs]; [discriminate|].
    destruct cs as [|c0 cs]; [discriminate|].
    simpl in Hlv, Hlc. injection Hlv as Hlv. injection Hlc as Hlc.
    assert (Hne : map flat cs <> []) by (destruct cs; discriminate).
    change (map flat (c0 :: cs)) with (flat c0 :: map flat cs) in *.
    rewrite inter_cons in * by assumption.
    apply sorted_app in Hs as (Hs0 & Hs1 & Hcross).
    apply sorted_cons in Hs1 as [Hs1 Hgt]. simpl in Hgt.
    apply Forall_cons in Hall as [Hc0 Hall].
    assert (Hlt0 : all_lt (flat c0) k0).
    { apply Forall_forall. intros a Ha. apply list_elem_of_In in Ha.
      apply (Hcross a (k0, v0)); [exact Ha|left; reflexivity]. }
    rewrite assoc_app in Hin. simpl in Hin. simpl scan_up.
    destruct (String.ltb k0 k) eqn:E.
    + assert (Hn0 : assoc k (flat c0) = None).
      { apply assoc_all_lt. eapply all_lt_trans; eauto. }
      rewrite Hn0 in Hin.
      destruct (String.eqb_spec k k0) as [->|Hnk].
      { exfalso. exact (slt_irrefl _ E). }
      assert (Hupd : forall rest,
                 upd k v (flat c0 ++ (k0, v0) :: rest) =
                 flat c0 ++ (k0, v0) :: upd k v rest).
      { intros rest. rewrite upd_app_r by exact Hn0. simpl.
        destruct (String.eqb_spec k k0); [contradiction|reflexivity]. }
      destruct (IH vs cs Hlv Hlc Hs1 Hin Hall)
        as [(Hk & Hi & Hf)|(Hk & c & c' & Hc & Hu & Hw & Hkc & Hf)].
      * left. split; [exact Hk|].
        split; [simpl; lia|].
        change (<[S (scan_up k ks):=v]> (v0 :: vs))
          with (v0 :: <[scan_up k ks:=v]> vs).
        rewrite inter_cons by assumption. rewrite Hf, Hupd. reflexivity.
      * right. split; [exact Hk|].
        exists c, c'. split; [exact Hc|].
        split; [exact Hu|]. split; [exact Hw|]. split; [exact Hkc|].
        change (<[S (scan_up k ks):=c']> (c0 :: cs))
          with (c0 :: <[scan_up k ks:=c']> cs).
        change (map flat (c0 :: <[scan_up k ks:=c']> cs))
          with (flat c0 :: map flat (<[scan_up k ks:=c']> cs)).
        rewrite inter_cons
          by (rewrite <- length_zero_iff_nil, length_map, length_insert; lia).
        rewrite Hf, Hupd. reflexivity.
    + destruct (String.eqb_spec k k0) as [->|Hnk].
      * left. split; [unfold key_at; simpl; apply String.eqb_refl|].
        split; [simpl; lia|].
        change (<[0%nat:=v]> (v0 :: vs)) with (v :: vs).
        rewrite inter_cons by assumption.
        rewrite upd_app_r by (apply assoc_all_lt; exact Hlt0).
        simpl. rewrite String.eqb_refl. reflexivity.
      * assert (Hgtk : slt k k0) by (apply not_slt; [exact E|congruence]).
        assert (Hrest : assoc k (inter (zip ks vs) (map flat cs)) = None).
        { apply assoc_all_gt. eapply all_gt_trans; eauto. }
        rewrite Hrest in Hin.
        assert (Hin0 : assoc k (flat c0) <> None).
        { destruct (assoc k (flat c0)); congruence. }
        destruct (Hc0 Hs0 Hin0) as (c' & Hu & Hw & Hf & Hk).
        right.
        split; [unfold key_at; simpl; apply String.eqb_neq; exact Hnk|].
        exists c0, c'. split; [reflexivity|].
        split; [exact Hu|]. split; [exact Hw|]. split; [exact Hk|].
        change (<[0%nat:=c']> (c0 :: cs)) with (c' :: cs).
        change (map flat (c' :: cs)) with (flat c' :: map flat cs).
        rewrite inter_cons by assumption.
        rewrite Hf. rewrite upd_app_l by exact Hin0. reflexivity.
Qed.

Theorem update_spec k v : forall h x, wf h x -> update_ok k v h x.
Proof.
  induction h as [|h IH]; intros [lf ks vs cs]; simpl;
    intros (Hlv & Hrest) Hs Hin.
  - destruct Hrest as [-> ->]. simpl in *.
    destruct (update_leaf k v ks vs Hlv Hs Hin) as (Hk & Hi & Hz).
    rewrite Hk. apply Nat.ltb_lt in Hi. rewrite Hi.
    eexists. split; [reflexivity|]. simpl.
    rewrite length_insert. repeat split; auto.
  - destruct Hrest as (-> & Hlc & Hwf & Hb). simpl in *.
    assert (Hall : Forall (update_ok k v h) cs).
    { eapply Forall_impl; [exact Hwf|]. intros c Hc. apply IH. exact Hc. }
    destruct (update_inter k v h ks vs cs Hlv Hlc Hs Hin Hall)
      as [(Hk & Hi & Hf)|(Hk & c & c' & Hc & Hu & Hw & Hkc & Hf)].
    + rewrite Hk. apply Nat.ltb_lt in Hi. rewrite Hi.
      eexists. split; [reflexivity|]. simpl.
      rewrite length_insert. repeat split; auto.
    + rewrite Hk. rewrite update_child_at_lookup, Hc. simpl.
      rewrite Hu. simpl.
      eexists. split; [reflexivity|]. simpl.
      rewrite length_insert. repeat split; auto.
      * apply Forall_insert; assumption.
      * apply Forall_insert; [assumption|].
        pose proof (Forall_lookup_1 _ _ _ _ Hb Hc) as Hbc.
        unfold bounds in *. lia.
Qed.

(** *** List facts used by [split_child] and [insert_non_full] *)

Lemma slice_app_l {A} (l1 l2 : list A) b :
  length l1 = b -> slice 0 b (l1 ++ l2) = l1.
Proof.
  intros <-. unfold slice. rewrite take_app_length. reflexivity.
Qed.

Lemma slice_app_r {A} (l1 l2 : list A) a b :
  length l1 = a -> (length l1 + length l2 = b)%nat ->
  slice a b (l1 ++ l2) = l2.
Proof.
  intros <- <-. unfold slice.
  rewrite take_ge by (rewrite length_app; lia).
  apply drop_app_length.
Qed.

Lemma split_list {A} (l : list A) n :
  length l = (n + S n)%nat ->
  exists l1 x l2, l = l1 ++ x :: l2 /\ length l1 = n /\ length l2 = n.
Proof.
  intros Hl.
  destruct (lookup_lt_is_Some_2 l n ltac:(lia)) as [x Hx].
  exists (take n l), x, (drop (S n) l).
  rewrite (take_drop_middle l n x Hx), length_take, length_drop.
  repeat split; lia.
Qed.

Lemma split_list_even {A} (l : list A) n :
  length l = (S n + S n)%nat ->
  exists l1 l2, l = l1 ++ l2 /\ length l1 = S n /\ length l2 = S n.
Proof.
  intros Hl. exists (take (S n) l), (drop (S n) l).
  rewrite take_drop, length_take, length_drop. repeat split; lia.
Qed.

Lemma snoc_of_length {A} (l : list A) n :
  length l = S n -> exists l' x, l = l' ++ [x] /\ length l' = n.
Proof.
  destruct l as [|a l] using rev_ind; [discriminate|].
  rewrite length_app. simpl. intros H. exists l, a. split; [reflexivity|lia].
Qed.

Lemma insert_middle {A} (l1 l2 : list A) x y n :
  n = length l1 -> <[n:=y]> (l1 ++ x :: l2) = l1 ++ y :: l2.
Proof.
  intros ->. rewrite insert_app_r_alt by lia.
  rewrite Nat.sub_diag. reflexivity.
Qed.

Lemma list_insert_at_app {A} (l1 l2 : list A) x n :
  n = length l1 -> list_insert_at n x (l1 ++ l2) = l1 ++ x :: l2.
Proof.
  intros ->. unfold list_insert_at.
  rewrite take_app_length, drop_app_length. reflexivity.
Qed.

Lemma inter_cut : forall kl kr (fl fr : list (list kv)) e,
  length fl = S (length kl) -> fr <> [] ->
  inter (kl ++ e :: kr) (fl ++ fr) = inter kl fl ++ e :: inter kr fr.
Proof.
  induction kl as [|e0 kl IH]; intros kr fl fr e Hlen Hne.
  - destruct fl as [|f [|? ?]]; try discriminate.
    change (inter ([] ++ e :: kr) ([f] ++ fr))
      with (f ++ interR (e :: kr) fr).
    rewrite interR_inter by assumption. simpl. rewrite app_nil_r.
    reflexivity.
  - destruct fl as [|f0 fl]; [discriminate|]. simpl in Hlen.
    injection Hlen as Hlen.
    change (inter ((e0 :: kl) ++ e :: kr) ((f0 :: fl) ++ fr))
      with (f0 ++ interR (e0 :: (kl ++ e :: kr)) (fl ++ fr)).
    rewrite interR_inter by (destruct fl; discriminate).
    rewrite IH by assumption.
    change (inter (e0 :: kl) (f0 :: fl)) with (f0 ++ interR (e0 :: kl) fl).
    rewrite interR_inter by (destruct fl; discriminate).
    rewrite <- app_assoc. reflexivity.
Qed.

Lemma keys_of_zip : forall ks vs,
  length vs = length ks -> keys_of (zip ks vs) = ks.
Proof.
  induction ks as [|k0 ks IH]; intros [|v0 vs] Hlen; try discriminate.
  - reflexivity.
  - simpl in Hlen. injection Hlen as Hlen.
    change (zip (k0 :: ks) (v0 :: vs)) with ((k0, v0) :: zip ks vs).
    unfold keys_of in *. simpl. rewrite IH by assumption. reflexivity.
Qed.

Lemma ins_all_gt k v l : all_gt l k -> ins k v l = (k, v) :: l.
Proof.
  destruct l as [|[k' v'] l]; [reflexivity|].
  intros H. apply Forall_cons in H as [Hk _]. simpl in Hk.
  unfold slt in Hk. simpl. rewrite Hk. reflexivity.
Qed.

(** *** The downward scan of [insert_non_full] *)

Lemma scan_down_spec k ks : forall n,
  (n <= length ks)%nat ->
  (scan_down k ks n <= n)%nat /\
  (forall x, (0 < scan_down k ks n)%nat ->
             ks !! (scan_down k ks n - 1)%nat = Some x ->
             String.ltb k x = false) /\
  (forall m x, (scan_down k ks n <= m < n)%nat -> ks !! m = Some x ->
               String.ltb k x = true).
Proof.
  induction n as [|n IH]; intros Hn.
  - simpl. repeat split; intros; lia.
  - simpl. destruct (lookup_lt_is_Some_2 ks n ltac:(lia)) as [y Hy].
    rewrite Hy. destruct (String.ltb k y) eqn:E.
    + destruct (IH ltac:(lia)) as (H1 & H2 & H3).
      split; [lia|]. split; [exact H2|].
      intros m x Hm Hx. destruct (decide (m = n)) as [->|Hne].
      * congruence.
      * apply (H3 m x); [lia|exact Hx].
    + split; [lia|]. split.
      * intros x _ Hx. simpl in Hx. rewrite Nat.sub_0_r in Hx. congruence.
      * intros m x Hm. lia.
Qed.

Lemma scan_down_cut k ks :
  let j := scan_down k ks (length ks) in
  (j <= length ks)%nat /\
  (forall x, last (take j ks) = Some x -> String.ltb k x = false) /\
  (forall x, head (drop j ks) = Some x -> String.ltb k x = true).
Proof.
  intros j.
  destruct (scan_down_spec k ks (length ks) ltac:(lia)) as (H1 & H2 & H3).
  fold j in H1, H2, H3. split; [exact H1|]. split.
  - intros x Hx. rewrite last_lookup, length_take in Hx.
    destruct (decide (j = 0%nat)) as [E|E].
    + rewrite E in Hx. simpl in Hx. discriminate.
    + replace (Init.Nat.pred (j `min` length ks)) with (j - 1)%nat in Hx by lia.
      rewrite lookup_take_lt in Hx by lia.
      apply H2; [lia|exact Hx].
  - intros x Hx. rewrite head_lookup, lookup_drop in Hx.
    rewrite Nat.add_0_r in Hx.
    apply (H3 j x); [|exact Hx].
    apply lookup_lt_Some in Hx. lia.
Qed.

(** Everything left of the child chosen is smaller than the new key,
    everything right of it larger. *)
Lemma interL_all_lt k : forall kl vl (fl : list (list kv)),
  length vl = length kl -> length fl = length kl ->
  sorted (interL (zip kl vl) fl) ->
  assoc k (interL (zip kl vl) fl) = None ->
  (forall x, last kl = Some x -> String.ltb k x = false) ->
  all_lt (interL (zip kl vl) fl) k.
Proof.
  intros kl. destruct kl as [|x kl _] using rev_ind;
    intros vl fl Hv Hf Hs Hn Hlast.
  - constructor.
  - rewrite length_app in Hv, Hf. simpl in Hv, Hf.
    destruct (snoc_of_length vl (length kl) ltac:(lia)) as (vl' & vx & -> & Hv').
    destruct (snoc_of_length fl (length kl) ltac:(lia)) as (fl' & f & -> & Hf').
    rewrite (zip_with_app pair kl [x] vl' [vx]) in * by (symmetry; exact Hv').
    change (zip_with pair [x] [vx]) with [(x, vx)] in *.
    rewrite interL_snoc_app in *
      by (rewrite length_zip_with; lia).
    rewrite app_assoc in *.
    apply sorted_snoc_all_lt; [exact Hs|]. simpl.
    apply not_slt.
    + apply Hlast. apply last_snoc.
    + intros ->. apply assoc_None_not_in in Hn. apply Hn.
      unfold keys_of. rewrite map_app. apply in_or_app. right. left.
      reflexivity.
Qed.

Lemma interR_all_gt k : forall kr vr (fr : list (list kv)),
  sorted (interR (zip kr vr) fr) ->
  (forall x, head kr = Some x -> String.ltb k x = true) ->
  all_gt (interR (zip kr vr) fr) k.
Proof.
  intros [|x kr] [|vx vr] [|f fr] Hs Hhead;
    try (destruct kr; constructor; fail); try (constructor; fail).
  change (zip (x :: kr) (vx :: vr)) with ((x, vx) :: zip kr vr) in *.
  change (interR ((x, vx) :: zip kr vr) (f :: fr))
    with ((x, vx) :: f ++ interR (zip kr vr) fr) in *.
  apply sorted_cons_all_gt; [exact Hs|]. simpl. apply Hhead. reflexivity.
Qed.

(** *** [split_child] *)

(** The two halves of a full node. *)
Definition left_half (y : BTreeNode) : BTreeNode :=
  mkNode (leaf y) (slice 0 (t - 1) (keys y)) (slice 0 (t - 1) (values y))
         (if leaf y then child y else slice 0 t (child y)).

Definition right_half (y : BTreeNode) : BTreeNode :=
  mkNode (leaf y) (slice t (2 * t - 1) (keys y))
         (slice t (2 * t - 1) (values y))
         (if leaf y then [] else slice t (2 * t) (child y)).

Lemma split_node h y :
  wf h y -> length (keys y) = (2 * t - 1)%nat ->
  exists km vm,
    keys y !! (t - 1)%nat = Some km /\
    values y !! (t - 1)%nat = Some vm /\
    wf h (left_half y) /\ wf h (right_half y) /\
    length (keys (left_half y)) = (t - 1)%nat /\
    length (keys (right_half y)) = (t - 1)%nat /\
    flat y = flat (left_half y) ++ (km, vm) :: flat (right_half y).
Proof.
  destruct y as [lf ks vs cs]. unfold left_half, right_half. simpl keys.
  simpl values. simpl child. simpl leaf.
  intros Hwf Hfull.
  assert (Hvs : length vs = length ks) by (destruct h; apply Hwf).
  remember (t - 1)%nat as n eqn:En.
  assert (Et : t = S n) by lia.
  assert (E1 : (2 * t - 1 = n + S n)%nat) by lia.
  assert (E2 : (2 * t = S n + S n)%nat) by lia.
  rewrite E1 in *. rewrite E2. rewrite Et. clear En E1 E2.
  destruct (split_list ks n Hfull) as (ksl & km & ksr & -> & Hkl & Hkr).
  destruct (split_list vs n ltac:(lia)) as (vsl & vm & vsr & -> & Hvl & Hvr).
  exists km, vm.
  rewrite (list_lookup_middle ksl ksr km n) by lia.
  rewrite (list_lookup_middle vsl vsr vm n) by lia.
  rewrite !slice_app_l by assumption.
  rewrite (cons_middle km ksl ksr), (cons_middle vm vsl vsr).
  rewrite !app_assoc.
  rewrite !slice_app_r by (rewrite ?length_app; simpl; lia).
  rewrite <- !app_assoc. simpl app.
  split; [reflexivity|]. split; [reflexivity|].
  destruct h as [|h].
  - simpl in Hwf. destruct Hwf as (_ & -> & ->). simpl.
    repeat split; try reflexivity; try lia.
    rewrite (zip_with_app pair ksl (km :: ksr) vsl (vm :: vsr)) by lia.
    reflexivity.
  - simpl in Hwf. destruct Hwf as (_ & -> & Hcs & Hwfc & Hbc).
    rewrite length_app in Hcs. simpl in Hcs.
    destruct (split_list_even cs n ltac:(lia)) as (csl & csr & -> & Hcl & Hcr).
    rewrite !slice_app_l by assumption.
    rewrite !slice_app_r by (simpl; lia).
    apply Forall_app in Hwfc as [Hwl Hwr].
    apply Forall_app in Hbc as [Hbl Hbr].
    simpl wf. simpl keys. simpl values. simpl child. simpl leaf.
    repeat split; try reflexivity; try lia; try assumption.
    simpl flat.
    rewrite (zip_with_app pair ksl (km :: ksr) vsl (vm :: vsr)) by lia.
    rewrite map_app.
    change (zip_with pair (km :: ksr) (vm :: vsr))
      with ((km, vm) :: zip ksr vsr).
    apply inter_cut.
    + rewrite length_map, length_zip_with. lia.
    + destruct csr; [discriminate|]. discriminate.
Qed.

(** [split_child] on a node opened at its full child [y]. *)
Lemma split_child_open h ksl ksr vsl vsr csl y csr :
  length vsl = length ksl -> length csl = length ksl ->
  wf h y -> length (keys y) = (2 * t - 1)%nat ->
  exists km vm,
    split_child t (mkNode false (ksl ++ ksr) (vsl ++ vsr) (csl ++ y :: csr))
                (length ksl)
    = Ok (mkNode false (ksl ++ km :: ksr) (vsl ++ vm :: vsr)
                 (csl ++ left_half y :: right_half y :: csr)) /\
    wf h (left_half y) /\ wf h (right_half y) /\
    length (keys (left_half y)) = (t - 1)%nat /\
    length (keys (right_half y)) = (t - 1)%nat /\
    flat y = flat (left_half y) ++ (km, vm) :: flat (right_half y).
Proof.
  intros Hv Hc Hwf Hfull.
  destruct (split_node h y Hwf Hfull) as (km & vm & Hkm & Hvm & Hrest).
  exists km, vm. split; [|exact Hrest].
  unfold split_child. simpl child. simpl keys. simpl values. simpl leaf.
  rewrite (list_lookup_middle csl csr y (length ksl)) by lia.
  simpl. rewrite Hkm. simpl. rewrite Hvm. simpl.
  rewrite (list_insert_at_app ksl ksr km) by reflexivity.
  rewrite (list_insert_at_app vsl vsr vm) by lia.
  rewrite <- Hc. rewrite take_app_length.
  rewrite (cons_middle y csl csr), app_assoc.
  replace (S (length csl)) with (length (csl ++ [y]))
    by (rewrite length_app; simpl; lia).
  rewrite drop_app_length. reflexivity.
Qed.

(** *** [insert_non_full] *)

Lemma interL_no_children : forall (kvs : list kv),
  interL kvs (replicate (length kvs) []) = kvs.
Proof.
  induction kvs as [|e kvs IH]; simpl; [reflexivity|].
  rewrite IH. reflexivity.
Qed.

Lemma interR_no_children : forall (kvs : list kv),
  interR kvs (replicate (length kvs) []) = kvs.
Proof.
  induction kvs as [|e kvs IH]; simpl; [reflexivity|].
  rewrite IH. reflexivity.
Qed.

Lemma zip_all_lt k kl vl :
  length vl = length kl -> sorted (zip kl vl) ->
  assoc k (zip kl vl) = None ->
  (forall x, last kl = Some x -> String.ltb k x = false) ->
  all_lt (zip kl vl) k.
Proof.
  intros Hv Hs Hn Hlast.
  rewrite <- (interL_no_children (zip kl vl)) in *.
  apply interL_all_lt; try assumption.
  rewrite length_replicate, length_zip_with. lia.
Qed.

Lemma zip_all_gt k kr vr :
  sorted (zip kr vr) ->
  (forall x, head kr = Some x -> String.ltb k x = true) ->
  all_gt (zip kr vr) k.
Proof.
  intros Hs Hhead.
  rewrite <- (interR_no_children (zip kr vr)) in *.
  apply interR_all_gt; assumption.
Qed.

(** The shifting loop on a leaf is ordered insertion. *)
Lemma leaf_insert k v ks vs :
  length vs = length ks -> sorted (zip ks vs) ->
  assoc k (zip ks vs) = None ->
  let j := scan_down k ks (length ks) in
  zip (list_insert_at j k ks) (list_insert_at j v vs) = ins k v (zip ks vs).
Proof.
  intros Hlv Hs Hn j.
  destruct (scan_down_cut k ks) as (Hj & Hlast & Hhead).
  fold j in Hj, Hlast, Hhead.
  assert (Hz : zip ks vs =
               zip (take j ks) (take j vs) ++ zip (drop j ks) (drop j vs)).
  { rewrite <- (zip_with_app pair) by (rewrite !length_take; lia).
    rewrite !take_drop. reflexivity. }
  unfold list_insert_at.
  rewrite (zip_with_app pair (take j ks) (k :: drop j ks)
                        (take j vs) (v :: drop j vs))
    by (rewrite !length_take; lia).
  change (zip_with pair (k :: drop j ks) (v :: drop j vs))
    with ((k, v) :: zip (drop j ks) (drop j vs)).
  rewrite Hz in Hs, Hn |- *.
  apply sorted_app in Hs as (Hsl & Hsr & _).
  rewrite assoc_app in Hn.
  destruct (assoc k (zip (take j ks) (take j vs))) eqn:Hnl; [discriminate|].
  rewrite ins_app_lt.
  - rewrite ins_all_gt; [reflexivity|].
    apply zip_all_gt; assumption.
  - apply zip_all_lt; try assumption. rewrite !length_take. lia.
Qed.

Lemma bounds_grow c c' :
  bounds c -> (length (keys c) < 2 * t - 1)%nat ->
  (length (keys c) <= length (keys c') <= S (length (keys c)))%nat ->
  bounds c'.
Proof. unfold bounds. lia. Qed.

Theorem insert_non_full_spec k v : forall h x,
  wf h x -> (length (keys x) < 2 * t - 1)%nat ->
  sorted (flat x) -> assoc k (flat x) = None ->
  forall fuel, (h < fuel)%nat ->
  exists x',
    insert_non_full_aux fuel t x k v = Ok x' /\ wf h x' /\
    flat x' = ins k v (flat x) /\
    (length (keys x) <= length (keys x') <= S (length (keys x)))%nat.
Proof.
  induction h as [|h IH]; intros x Hwf Hnf Hs Hn fuel Hfuel;
    (destruct fuel as [|fuel]; [lia|]).
  - destruct x as [lf ks vs cs]. simpl in Hwf.
    destruct Hwf as (Hlv & -> & ->). simpl in Hs, Hn, Hnf.
    cbn [insert_non_full_aux leaf keys values child].
    rewrite Hlv, Nat.eqb_refl.
    eexists. split; [reflexivity|].
    split; [|split].
    + simpl. unfold list_insert_at. rewrite !length_app. simpl.
      rewrite !length_take, !length_drop. repeat split; lia.
    + simpl. apply leaf_insert; assumption.
    + simpl. unfold list_insert_at. rewrite !length_app. simpl.
      rewrite !length_take, !length_drop.
      pose proof (scan_down_cut k ks) as (Hj & _). lia.
  - destruct (scan_down_cut k (keys x)) as (Hj & Hlast & Hhead).
    set (j := scan_down k (keys x) (length (keys x))) in *.
    destruct (wf_open h x j Hwf Hj)
      as (ksl & ksr & vsl & vsr & csl & c & csr & Hx & Hkl & Hvl & Hcl &
          Hvr & Hcr & Ekl & Ekr & Hwl & Hwr & Hwc & Hbl & Hbr & Hbc).
    rewrite <- Ekl in Hlast. rewrite <- Ekr in Hhead.
    assert (Hj' : scan_down k (ksl ++ ksr) (length (ksl ++ ksr)) = length ksl).
    { rewrite Hkl. subst x. reflexivity. }
    clearbody j. clear Ekl Ekr. subst x.
    cbn [insert_non_full_aux leaf keys values child].
    rewrite Hj'.
    rewrite (list_lookup_middle csl csr c (length ksl)) by lia.
    cbn [of_option bind].
    set (L := interL (zip ksl vsl) (map flat csl)) in *.
    set (R := interR (zip ksr vsr) (map flat csr)) in *.
    assert (Hfx : flat (mkNode false (ksl ++ ksr) (vsl ++ vsr)
                               (csl ++ c :: csr)) = L ++ flat c ++ R)
      by (apply flat_open; lia).
    rewrite Hfx in Hs, Hn.
    pose proof Hs as Hs'.
    apply sorted_app in Hs' as (HsL & HsCR & _).
    apply sorted_app in HsCR as (HsC & HsR & _).
    pose proof Hn as Hn'. rewrite !assoc_app in Hn'.
    destruct (assoc k L) eqn:HnL; [discriminate|].
    destruct (assoc k (flat c)) eqn:HnC; [discriminate|].
    assert (HltL : all_lt L k).
    { apply interL_all_lt; try assumption; try lia.
      rewrite length_map. lia. }
    assert (HgtR : all_gt R k) by (apply interR_all_gt; assumption).
    simpl in Hnf. rewrite length_app in Hnf.
    destruct (Nat.eqb_spec (length (keys c)) (2 * t - 1)) as [Hfull|Hnotfull].
    + destruct (split_child_open h ksl ksr vsl vsr csl c csr
                  ltac:(lia) ltac:(lia) Hwc Hfull)
        as (km & vm & Hsplit & Hwy & Hwz & Hky & Hkz & Hflat).
      rewrite Hsplit. cbn [bind keys].
      rewrite (list_lookup_middle ksl ksr km (length ksl)) by reflexivity.
      cbn [of_option bind child].
      rewrite Hflat in Hs, Hn, HsC, HnC, Hfx.
      pose proof HsC as HsC'.
      apply sorted_app in HsC' as (HsY & HsMZ & _).
      apply sorted_cons in HsMZ as (HsZ & _).
      rewrite assoc_app in HnC.
      destruct (assoc k (flat (left_half c))) eqn:HnY; [discriminate|].
      simpl in HnC.
      destruct (String.eqb_spec k km) as [Ekm|Nkm]; [discriminate|].
      destruct (String.ltb km k) eqn:Ecmp.
      * rewrite (cons_middle (left_half c) csl (right_half c :: csr)).
        rewrite app_assoc.
        rewrite (list_lookup_middle (csl ++ [left_half c]) csr
                   (right_half c) (S (length ksl)))
          by (rewrite length_app; simpl; lia).
        cbn [of_option bind].
        destruct (IH (right_half c) Hwz ltac:(lia) HsZ HnC fuel ltac:(lia))
          as (z' & Hrun & Hwz' & Hfz' & Hkz').
        rewrite Hrun. cbn [bind leaf keys values child].
        rewrite (insert_middle (csl ++ [left_half c]) csr _ z')
          by (rewrite length_app; simpl; lia).
        eexists. split; [reflexivity|].
        rewrite (cons_middle km ksl ksr), (cons_middle vm vsl vsr).
        rewrite !app_assoc.
        split; [|split].
        -- apply wf_close; rewrite ?length_app; simpl; try lia;
             try assumption.
           ++ apply Forall_app. split; [assumption|].
              constructor; [assumption|constructor].
           ++ apply Forall_app. split; [assumption|].
              constructor; [unfold bounds; lia|constructor].
           ++ eapply bounds_grow; [| |exact Hkz']; unfold bounds; lia.
        -- rewrite Hfx.
           rewrite flat_open by (rewrite !length_app; simpl; lia).
           rewrite (zip_with_app pair ksl [km] vsl [vm]) by lia.
           rewrite map_app.
           change (zip_with pair [km] [vm]) with [(km, vm)].
           change (map flat [left_half c]) with [flat (left_half c)].
           rewrite interL_snoc_app
             by (rewrite length_map, length_zip_with; lia).
           fold L. fold R. rewrite Hfz'.
           replace (L ++ (flat (left_half c) ++
                          (km, vm) :: flat (right_half c)) ++ R)
             with ((L ++ flat (left_half c) ++ [(km, vm)]) ++
                   flat (right_half c) ++ R)
             by (rewrite <- !app_assoc; reflexivity).
           rewrite ins_middle; [reflexivity| |exact HgtR].
           rewrite app_assoc. apply sorted_snoc_all_lt; [|exact Ecmp].
           rewrite <- app_assoc.
           replace (L ++ (flat (left_half c) ++
                          (km, vm) :: flat (right_half c)) ++ R)
             with ((L ++ flat (left_half c) ++ [(km, vm)]) ++
                   flat (right_half c) ++ R) in Hs
             by (rewrite <- !app_assoc; reflexivity).
           apply sorted_app in Hs as (Hs1 & _). exact Hs1.
        -- cbn [keys]. rewrite !length_app. simpl. lia.
      * rewrite (list_lookup_middle csl (right_half c :: csr)
                   (left_half c) (length ksl)) by lia.
        cbn [of_option bind].
        destruct (IH (left_half c) Hwy ltac:(lia) HsY HnY fuel ltac:(lia))
          as (y' & Hrun & Hwy' & Hfy' & Hky').
        rewrite Hrun. cbn [bind leaf keys values child].
        rewrite (insert_middle csl (right_half c :: csr) _ y') by lia.
        eexists. split; [reflexivity|].
        split; [|split].
        -- apply wf_close; simpl; try lia; try assumption.
           ++ constructor; assumption.
           ++ constructor; [unfold bounds; lia|assumption].
           ++ eapply bounds_grow; [| |exact Hky']; unfold bounds; lia.
        -- rewrite Hfx. rewrite flat_open by lia.
           change (zip (km :: ksr) (vm :: vsr))
             with ((km, vm) :: zip ksr vsr).
           change (map flat (right_half c :: csr))
             with (flat (right_half c) :: map flat csr).
           change (interR ((km, vm) :: zip ksr vsr)
                          (flat (right_half c) :: map flat csr))
             with ((km, vm) :: flat (right_half c) ++ R).
           fold L. rewrite Hfy'.
           replace (L ++ (flat (left_half c) ++
                          (km, vm) :: flat (right_half c)) ++ R)
             with (L ++ flat (left_half c) ++
                   ((km, vm) :: flat (right_half c) ++ R))
             by (rewrite <- !app_assoc; reflexivity).
           rewrite ins_middle; [reflexivity|exact HltL|].
           apply sorted_cons_all_gt.
           ++ replace (L ++ (flat (left_half c) ++
                             (km, vm) :: flat (right_half c)) ++ R)
                with ((L ++ flat (left_half c)) ++
                      ((km, vm) :: flat (right_half c) ++ R)) in Hs
                by (rewrite <- !app_assoc; reflexivity).
              apply sorted_app in Hs as (_ & Hs2 & _). exact Hs2.
           ++ simpl. apply not_slt; [exact Ecmp|congruence].
        -- cbn [keys]. rewrite !length_app. simpl. lia.
    + cbn [bind child].
      rewrite (list_lookup_middle csl csr c (length ksl)) by lia.
      cbn [of_option bind].
      assert (Hcnf : (length (keys c) < 2 * t - 1)%nat)
        by (unfold bounds in Hbc; lia).
      destruct (IH c Hwc Hcnf HsC HnC fuel ltac:(lia))
        as (c' & Hrun & Hwc' & Hfc' & Hkc').
      rewrite Hrun. cbn [bind leaf keys values child].
      rewrite (insert_middle csl csr c c') by lia.
      eexists. split; [reflexivity|].
      split; [|split].
      * apply wf_close; try lia; try assumption.
        eapply bounds_grow; eauto.
      * rewrite Hfx. rewrite flat_open by lia. fold L. fold R. rewrite Hfc'.
        rewrite ins_middle by assumption. reflexivity.
      * cbn [keys]. lia.
Qed.

(** *** [insert], [recover] and the constructor *)

Lemma wf_height : forall h x, wf h x -> height x = S h.
Proof.
  induction h as [|h IH]; intros [lf ks vs cs]; simpl.
  - intros (_ & _ & ->). reflexivity.
  - intros (_ & _ & Hlen & Hwf & _). f_equal.
    destruct cs as [|c cs]; [discriminate|]. clear Hlen.
    apply Forall_cons in Hwf as [Hc Hcs]. simpl.
    rewrite (IH c Hc).
    induction cs as [|c' cs IHcs]; simpl; [lia|].
    apply Forall_cons in Hcs as [Hc' Hcs].
    rewrite (IH c' Hc'). specialize (IHcs Hcs). lia.
Qed.

Lemma tree_inv_empty : tree_inv 0 (new_node true).
Proof.
  unfold tree_inv, new_node. simpl. repeat split; try lia. constructor.
Qed.

(** One [insert]: the log grows by one line when asked to, the tree keeps
    its invariant and its items become [upsert k v] of what they were. *)
Theorem insert_spec h r file k v (w : bool) :
  tree_inv h r ->
  exists h' r',
    insert (mk r t) file k v w =
    Ok (mk r' t, if w then WriteAheadLog.write file "insert" k v else file) /\
    tree_inv h' r' /\ flat r' = upsert k v (flat r).
Proof.
  intros (Hwf & Hsize & Hs).
  unfold insert, search. cbn [root degree].
  rewrite (search_node_assoc k h r Hwf Hs). cbn [bind].
  unfold upsert. destruct (assoc k (flat r)) eqn:Ha.
  - destruct (update_spec k v h r Hwf Hs ltac:(congruence))
      as (r' & Hu & Hwf' & Hf & Hk).
    rewrite Hu. cbn [bind]. exists h, r'. split; [reflexivity|].
    split; [|exact Hf]. split; [exact Hwf'|]. split; [lia|].
    unfold sorted. rewrite Hf, keys_of_upd. exact Hs.
  - destruct (Nat.eqb_spec (length (keys r)) (2 * t - 1)) as [Hfull|Hnf].
    + destruct (split_child_open h [] [] [] [] [] r []
                  eq_refl eq_refl Hwf Hfull)
        as (km & vm & Hsplit & Hwy & Hwz & Hky & Hkz & Hflat).
      simpl in Hsplit. rewrite Hsplit. cbn [bind].
      set (x1 := mkNode false [km] [vm] [left_half r; right_half r]).
      assert (Hwf1 : wf (S h) x1).
      { apply (wf_close h [] [km] [] [vm] [] (left_half r) [right_half r]);
          try reflexivity; try assumption; try constructor;
          try assumption; try constructor; unfold bounds; lia. }
      assert (Hf1 : flat x1 = flat r).
      { rewrite Hflat. subst x1. simpl. rewrite app_nil_r. reflexivity. }
      unfold insert_non_full. rewrite (wf_height (S h) x1 Hwf1).
      destruct (insert_non_full_spec k v (S h) x1 Hwf1
                  ltac:(subst x1; simpl; lia)
                  ltac:(rewrite Hf1; exact Hs)
                  ltac:(rewrite Hf1; exact Ha)
                  (S (S h)) ltac:(lia))
        as (x' & Hrun & Hwf' & Hf' & Hk').
      rewrite Hrun. cbn [bind]. exists (S h), x'.
      split; [reflexivity|]. unfold tree_inv. rewrite Hf', Hf1.
      split; [|reflexivity]. split; [exact Hwf'|].
      split; [subst x1; simpl in Hk'; lia|].
      apply sorted_ins; [exact Hs|]. apply assoc_None_not_in. exact Ha.
    + unfold insert_non_full. rewrite (wf_height h r Hwf).
      destruct (insert_non_full_spec k v h r Hwf ltac:(lia) Hs Ha
                  (S h) ltac:(lia))
        as (x' & Hrun & Hwf' & Hf' & Hk').
      rewrite Hrun. cbn [bind]. exists h, x'.
      split; [reflexivity|]. unfold tree_inv. rewrite Hf'.
      split; [|reflexivity]. split; [exact Hwf'|]. split; [lia|].
      apply sorted_ins; [exact Hs|]. apply assoc_None_not_in. exact Ha.
Qed.

(** What one log line does to the items when replayed. *)
Definition apply_entry (l : list kv) (e : WriteAheadLog.log_entry)
  : list kv :=
  if String.eqb (WriteAheadLog.op e) "insert"
  then upsert (WriteAheadLog.key e) (WriteAheadLog.value e) l
  else l.

Definition replay (l : list kv) (entries : WriteAheadLog.log_file)
  : list kv :=
  fold_left apply_entry entries l.

Theorem recover_spec file : forall entries h r,
  tree_inv h r ->
  exists h' r',
    recover (mk r t) entries file = Ok (mk r' t) /\
    tree_inv h' r' /\ flat r' = replay (flat r) entries.
Proof.
  induction entries as [|e entries IH]; intros h r Hinv.
  - exists h, r. split; [reflexivity|]. split; [exact Hinv|reflexivity].
  - cbn [recover]. unfold replay. cbn [fold_left]. unfold apply_entry at 2.
    destruct (String.eqb (WriteAheadLog.op e) "insert").
    + destruct (insert_spec h r file (WriteAheadLog.key e)
                  (WriteAheadLog.value e) false Hinv)
        as (h1 & r1 & Hrun & Hinv1 & Hf1).
      rewrite Hrun. cbn [bind].
      destruct (IH h1 r1 Hinv1) as (h2 & r2 & Hrec & Hinv2 & Hf2).
      exists h2, r2. split; [exact Hrec|]. split; [exact Hinv2|].
      rewrite Hf2, Hf1. reflexivity.
    + cbn [bind]. apply (IH h r Hinv).
Qed.

Theorem init_spec file :
  exists h r,
    init t file = Ok (mk r t, WriteAheadLog.init file) /\
    tree_inv h r /\ flat r = replay [] (WriteAheadLog.init file).
Proof.
  unfold init.
  destruct (recover_spec (WriteAheadLog.init file) (WriteAheadLog.init file)
              0%nat (new_node true) tree_inv_empty)
    as (h & r & Hrec & Hinv & Hf).
  rewrite Hrec. cbn [bind]. exists h, r.
  split; [reflexivity|]. split; [exact Hinv|exact Hf].
Qed.

(** The log lines a sequence of [insert(k, v)] calls writes. *)
Definition entries_of (kvs : list kv) : WriteAheadLog.log_file :=
  map (fun e => WriteAheadLog.mk_entry "insert" (fst e) (snd e)) kvs.

Definition upsert_all (l : list kv) (kvs : list kv) : list kv :=
  fold_left (fun l e => upsert (fst e) (snd e) l) kvs l.

Lemma replay_entries_of kvs : forall l,
  replay l (entries_of kvs) = upsert_all l kvs.
Proof.
  induction kvs as [|[k v] kvs IH]; intros l; [reflexivity|].
  unfold replay, upsert_all in *. simpl. apply IH.
Qed.

Lemma replay_app l e1 e2 : replay l (e1 ++ e2) = replay (replay l e1) e2.
Proof. unfold replay. apply fold_left_app. Qed.

Theorem insert_all_spec : forall kvs h r file,
  tree_inv h r ->
  exists h' r',
    insert_all (mk r t) file kvs = Ok (mk r' t, file ++ entries_of kvs) /\
    tree_inv h' r' /\ flat r' = upsert_all (flat r) kvs.
Proof.
  induction kvs as [|[k v] kvs IH]; intros h r file Hinv.
  - exists h, r. simpl. rewrite app_nil_r.
    split; [reflexivity|]. split; [exact Hinv|reflexivity].
  - cbn [insert_all].
    destruct (insert_spec h r file k v true Hinv)
      as (h1 & r1 & Hrun & Hinv1 & Hf1).
    rewrite Hrun. cbn [bind].
    destruct (IH h1 r1 (WriteAheadLog.write file "insert" k v) Hinv1)
      as (h2 & r2 & Hrun2 & Hinv2 & Hf2).
    exists h2, r2. split.
    + rewrite Hrun2. unfold WriteAheadLog.write. simpl.
      rewrite <- app_assoc. reflexivity.
    + split; [exact Hinv2|]. rewrite Hf2, Hf1. reflexivity.
Qed.

(** The value the last write to [k] in [kvs] gave it. *)
Definition last_write (k : string) (kvs : list kv) : option string :=
  assoc k (rev kvs).

Lemma assoc_upsert_all k : forall kvs l,
  assoc k (upsert_all l kvs) =
  match last_write k kvs with
  | Some v => Some v
  | None => assoc k l
  end.
Proof.
  unfold upsert_all, last_write.
  induction kvs as [|[k1 v1] kvs IH]; intros l; [reflexivity|].
  simpl. rewrite IH, assoc_app, assoc_upsert. simpl.
  destruct (assoc k (rev kvs)); [reflexivity|].
  destruct (String.eqb k k1); reflexivity.
Qed.

(** *** The structural invariant, node by node *)

(** All the nodes of a subtree, the root first. *)
Fixpoint nodes (x : BTreeNode) : list BTreeNode :=
  match x with
  | mkNode _ _ _ cs => x :: concat (map nodes cs)
  end.

(** The nodes below the root. *)
Definition descendants (x : BTreeNode) : list BTreeNode :=
  concat (map nodes (child x)).

(** What every node satisfies: keys in ascending order, values parallel to
    the keys, no children in a leaf. *)
Definition node_ok (x : BTreeNode) : Prop :=
  StronglySorted slt (keys x) /\
  length (values x) = length (keys x) /\
  (leaf x = true -> child x = []).

Lemma inter_incl : forall (kvs : list kv) fs e,
  length fs = S (length kvs) -> In e kvs -> In e (inter kvs fs).
Proof.
  induction kvs as [|e0 kvs IH]; intros fs e Hlen Hin; [destruct Hin|].
  destruct fs as [|f0 fs]; [discriminate|]. simpl in Hlen.
  injection Hlen as Hlen.
  change (inter (e0 :: kvs) (f0 :: fs)) with (f0 ++ interR (e0 :: kvs) fs).
  rewrite interR_inter by (destruct fs; discriminate).
  apply in_or_app. right. destruct Hin as [->|Hin]; [left; reflexivity|].
  right. apply IH; assumption.
Qed.

Lemma inter_sorted_parts : forall (kvs : list kv) fs,
  length fs = S (length kvs) -> sorted (inter kvs fs) ->
  sorted kvs /\ Forall sorted fs.
Proof.
  induction kvs as [|e0 kvs IH]; intros fs Hlen Hs.
  - destruct fs as [|f0 [|? ?]]; try discriminate.
    simpl in Hs. rewrite app_nil_r in Hs.
    split; [apply sorted_nil|]. constructor; [exact Hs|constructor].
  - destruct fs as [|f0 fs]; [discriminate|]. simpl in Hlen.
    injection Hlen as Hlen.
    change (inter (e0 :: kvs) (f0 :: fs))
      with (f0 ++ interR (e0 :: kvs) fs) in Hs.
    rewrite interR_inter in Hs by (destruct fs; discriminate).
    apply sorted_app in Hs as (Hs0 & Hs1 & _).
    apply sorted_cons in Hs1 as [Hs1 Hgt].
    destruct (IH fs Hlen Hs1) as [Hk Hf].
    split; [|constructor; assumption].
    apply sorted_cons. split; [exact Hk|].
    apply Forall_forall. intros e He. apply list_elem_of_In in He.
    unfold all_gt in Hgt. rewrite Forall_forall in Hgt. apply Hgt.
    apply list_elem_of_In. apply inter_incl; assumption.
Qed.

Lemma node_keys_sorted h x :
  wf h x -> sorted (flat x) -> StronglySorted slt (keys x).
Proof.
  destruct x as [lf ks vs cs]. intros Hwf Hs.
  assert (Hlv : length vs = length ks) by (destruct h; apply Hwf).
  rewrite <- (keys_of_zip ks vs Hlv).
  destruct h as [|h]; simpl in Hwf.
  - destruct Hwf as (_ & -> & _). exact Hs.
  - destruct Hwf as (_ & -> & Hlc & _). simpl in Hs.
    apply (inter_sorted_parts (zip ks vs) (map flat cs)); [|exact Hs].
    rewrite length_map, length_zip_with. lia.
Qed.

Lemma children_sorted h x :
  wf (S h) x -> sorted (flat x) -> Forall (fun c => sorted (flat c)) (child x).
Proof.
  destruct x as [lf ks vs cs]. simpl. intros (Hlv & -> & Hlc & _) Hs.
  destruct (inter_sorted_parts (zip ks vs) (map flat cs)) as [_ Hf];
    [rewrite length_map, length_zip_with; lia|exact Hs|].
  rewrite List.Forall_map in Hf. exact Hf.
Qed.

Lemma wf_node_ok h x : wf h x -> sorted (flat x) -> node_ok x.
Proof.
  intros Hwf Hs. split; [eapply node_keys_sorted; eauto|].
  destruct x as [lf ks vs cs]. destruct h; simpl in Hwf |- *.
  - destruct Hwf as (Hlv & _ & ->). auto.
  - destruct Hwf as (Hlv & -> & _). split; [exact Hlv|discriminate].
Qed.

Theorem wf_nodes : forall h x,
  wf h x -> sorted (flat x) ->
  Forall node_ok (nodes x) /\ Forall bounds (descendants x).
Proof.
  induction h as [|h IH]; intros x Hwf Hs.
  - pose proof (wf_node_ok 0 x Hwf Hs) as Hok.
    destruct x as [lf ks vs cs]. simpl in Hwf.
    destruct Hwf as (_ & _ & ->). unfold descendants. simpl.
    split; constructor; [exact Hok|constructor].
  - pose proof (wf_node_ok (S h) x Hwf Hs) as Hok.
    pose proof (children_sorted h x Hwf Hs) as Hcs.
    destruct x as [lf ks vs cs]. simpl in Hwf.
    destruct Hwf as (_ & _ & _ & Hwc & Hbc).
    unfold descendants. simpl in Hcs |- *.
    assert (Hall : Forall node_ok (concat (map nodes cs)) /\
                   Forall bounds (concat (map nodes cs))).
    { clear Hok Hs. induction cs as [|c cs IHcs]; simpl.
      - split; constructor.
      - apply Forall_cons in Hwc as [Hw Hwc].
        apply Forall_cons in Hbc as [Hb Hbc].
        apply Forall_cons in Hcs as [Hsc Hcs].
        destruct (IH c Hw Hsc) as [Hn Hd].
        destruct (IHcs Hwc Hbc Hcs) as [Hn' Hd'].
        split; apply Forall_app; split; try assumption.
        destruct c as [lf' ks' vs' cs']. simpl.
        constructor; [exact Hb|exact Hd]. }
    destruct Hall as [Hn Hd]. split; [|exact Hd].
    constructor; assumption.
Qed.

(** C8 (B-Tree structural invariant): from an empty tree of minimum degree
    [t >= 2], every sequence of [insert] calls succeeds and leaves a tree in
    which every node has its keys in ascending order, as many values as
    keys and, when it is a leaf, no children, and in which every node other
    than the root holds between [t - 1] and [2 t - 1] keys. *)
Theorem btree_structural_invariant (kvs : list kv)
  (file : WriteAheadLog.log_file) :
  exists r file',
    insert_all (mk (new_node true) t) file kvs = Ok (mk r t, file') /\
    Forall node_ok (nodes r) /\
    Forall bounds (descendants r).
Proof.
  destruct (insert_all_spec kvs 0%nat (new_node true) file tree_inv_empty)
    as (h & r & Hrun & (Hwf & _ & Hs) & _).
  exists r, (file ++ entries_of kvs). split; [exact Hrun|].
  apply (wf_nodes h r Hwf Hs).
Qed.

(** C6 (WAL recovery): after any sequence of [insert(k, v)] calls on a tree
    opened on a log, a new tree constructed on the same log replays it with
    the non-logging insert (the log is left as it was) and answers
    [search] as the first tree does: for every key written, the value of
    its last [insert]. *)
Theorem wal_recovery (file0 : option WriteAheadLog.log_file)
  (kvs : list kv) :
  exists b0 b1 b2 log,
    init t file0 = Ok (b0, WriteAheadLog.init file0) /\
    insert_all b0 (WriteAheadLog.init file0) kvs = Ok (b1, log) /\
    init t (Some log) = Ok (b2, log) /\
    (forall k, search b2 k = search b1 k) /\
    (forall k v, last_write k kvs = Some v -> search b2 k = Ok (Some v)).
Proof.
  destruct (init_spec file0) as (h0 & r0 & Hinit0 & Hinv0 & Hf0).
  destruct (insert_all_spec kvs h0 r0 (WriteAheadLog.init file0) Hinv0)
    as (h1 & r1 & Hrun & Hinv1 & Hf1).
  set (log := WriteAheadLog.init file0 ++ entries_of kvs) in *.
  destruct (init_spec (Some log)) as (h2 & r2 & Hinit2 & Hinv2 & Hf2).
  simpl WriteAheadLog.init in Hinit2, Hf2.
  exists (mk r0 t), (mk r1 t), (mk r2 t), log.
  split; [exact Hinit0|]. split; [exact Hrun|]. split; [exact Hinit2|].
  assert (Hsame : flat r2 = flat r1).
  { rewrite Hf2, Hf1, Hf0. unfold log.
    rewrite replay_app, replay_entries_of. reflexivity. }
  assert (Hsearch : forall k, search (mk r2 t) k = search (mk r1 t) k).
  { intros k. unfold search. simpl.
    destruct Hinv1 as (Hw1 & _ & Hs1). destruct Hinv2 as (Hw2 & _ & Hs2).
    rewrite (search_node_assoc k h2 r2 Hw2 Hs2).
    rewrite (search_node_assoc k h1 r1 Hw1 Hs1).
    rewrite Hsame. reflexivity. }
  split; [exact Hsearch|].
  intros k v Hlast. rewrite Hsearch. unfold search. simpl.
  destruct Hinv1 as (Hw1 & _ & Hs1).
  rewrite (search_node_assoc k h1 r1 Hw1 Hs1), Hf1.
  rewrite assoc_upsert_all, Hlast. reflexivity.
Qed.
End BTreeFacts.

Lemma btree_structural_invariant_witness :
  (2 <= 2)%nat /\
  exists r file',
    BTree.insert_all (BTree.mk (BTree.new_node true) 2) []
      [("d", "4"); ("b", "2"); ("a", "1"); ("c", "3"); ("e", "5")]%string
    = Ok (BTree.mk r 2, file') /\
    Forall node_ok (nodes r) /\ Forall (bounds 2) (descendants r).
Proof.
  split; [lia|].
  apply (btree_structural_invariant 2 ltac:(lia)).
Defined.

Lemma wal_recovery_witness :
  (2 <= 3)%nat /\
  exists b0 b1 b2 log,
    BTree.init 3 None = Ok (b0, WriteAheadLog.init None) /\
    BTree.insert_all b0 (WriteAheadLog.init None)
      [("key1", "value1"); ("key2", "value2")]%string = Ok (b1, log) /\
    BTree.init 3 (Some log) = Ok (b2, log) /\
    (forall k, BTree.search b2 k = BTree.search b1 k) /\
    (forall k v,
        last_write k [("key1", "value1"); ("key2", "value2")]%string = Some v ->
        BTree.search b2 k = Ok (Some v)).
Proof.
  split; [lia|].
  apply (wal_recovery 3 ltac:(lia)).
Defined.

(** ** Results of fallible code *)

Lemma bind_Ok {A B} (m : result A) (f : A -> result B) (b : B) :
  bind m f = Ok b -> exists a, m = Ok a /\ f a = Ok b.
Proof. destruct m as [a|e]; simpl; [eauto|discriminate]. Qed.

(** [inv_bind H] opens the first [let*] of a computation known to return. *)
Ltac inv_bind H :=
  let a := fresh "a" in
  let Ha := fresh "Hrun" in
  apply bind_Ok in H as (a & Ha & H).

(** ** Text files: offsets and lines *)

#[local] Arguments String.append !_ _ /.

Lemma append_assoc (a b c : string) :
  String.append (String.append a b) c = String.append a (String.append b c).
Proof. induction a as [|x a IH]; simpl; [reflexivity|]. rewrite IH. reflexivity. Qed.

Lemma append_nil_r (a : string) : String.append a EmptyString = a.
Proof. induction a as [|x a IH]; simpl; [reflexivity|]. rewrite IH. reflexivity. Qed.

Lemma length_append (a b : string) :
  String.length (String.append a b) = (String.length a + String.length b)%nat.
Proof. induction a as [|x a IH]; simpl; [reflexivity|]. rewrite IH. reflexivity. Qed.

Lemma seek_append (a b : string) : seek (String.length a) (String.append a b) = b.
Proof. induction a as [|x a IH]; simpl; [reflexivity|exact IH]. Qed.

Lemma seek_nil (n : nat) : seek n EmptyString = EmptyString.
Proof. destruct n; reflexivity. Qed.

Lemma seek_add (n m : nat) : forall s, seek (n + m) s = seek m (seek n s).
Proof.
  induction n as [|n IH]; intros s; simpl; [reflexivity|].
  destruct s as [|c s]; [rewrite seek_nil; reflexivity|apply IH].
Qed.

(** The text holds no line terminator. *)
Fixpoint no_newline (s : string) : bool :=
  match s with
  | EmptyString => true
  | String c s' => negb (Ascii.eqb c Json.newline) && no_newline s'
  end.

Lemma no_newline_append (a b : string) :
  no_newline (String.append a b) = no_newline a && no_newline b.
Proof.
  induction a as [|x a IH]; simpl; [reflexivity|].
  rewrite IH, andb_assoc. reflexivity.
Qed.

Lemma readline_line (l rest : string) :
  no_newline l = true ->
  readline (String.append l (String Json.newline rest)) =
  (String.append l (String Json.newline EmptyString), rest).
Proof.
  induction l as [|c l IH]; simpl.
  - intros _. reflexivity.
  - intros H. apply andb_prop in H as [Hc Hl].
    destruct (Ascii.eqb c Json.newline); [discriminate|].
    rewrite (IH Hl). reflexivity.
Qed.

(** ** The JSON of a record *)

Lemma escape_char_no_newline (c : ascii) : no_newline (Json.escape_char c) = true.
Proof. destruct c as [[] [] [] [] [] [] [] []]; reflexivity. Qed.

Lemma escape_no_newline (s : string) : no_newline (Json.escape s) = true.
Proof.
  induction s as [|c s IH]; simpl; [reflexivity|].
  rewrite no_newline_append, escape_char_no_newline, IH. reflexivity.
Qed.

Lemma dumps_no_newline (k v : string) : no_newline (Json.dumps k v) = true.
Proof.
  unfold Json.dumps, Json.dumps_str. simpl.
  rewrite !no_newline_append. simpl. rewrite !no_newline_append. simpl.
  rewrite !escape_no_newline. reflexivity.
Qed.

(** Decoding undoes the escaping of one character. *)
Lemma parse_body_escape_char (c : ascii) (tail s rest : string) :
  Json.parse_body tail = Ok (s, rest) ->
  Json.parse_body (String.append (Json.escape_char c) tail) = Ok (String c s, rest).
Proof.
  intros H.
  destruct c as [[] [] [] [] [] [] [] []];
    match goal with
    | |- context [Json.escape_char ?c] =>
        let e := eval vm_compute in (Json.escape_char c) in
        change (Json.escape_char c) with e
    end;
    simpl; rewrite H; reflexivity.
Qed.

Lemma parse_body_escape (s rest : string) :
  Json.parse_body (String.append (Json.escape s) (String Json.quote rest)) =
  Ok (s, rest).
Proof.
  induction s as [|c s IH]; [reflexivity|].
  cbn [Json.escape]. rewrite append_assoc.
  apply parse_body_escape_char. exact IH.
Qed.

(** A record line, character by character. *)
Lemma record_line_eq (k v : string) :
  SSTable.record_line k v =
  String "{" (String Json.quote
    (String.append (Json.escape k)
       (String Json.quote (String ":" (String " " (String Json.quote
          (String.append (Json.escape v)
             (String Json.quote (String "}"
                (String Json.newline EmptyString))))))))))%char.
Proof.
  unfold SSTable.record_line, Json.dumps, Json.dumps_str. simpl.
  rewrite !append_assoc. simpl. rewrite !append_assoc. reflexivity.
Qed.

Lemma expect_head (c : ascii) (rest : string) :
  Json.is_space c = false -> Json.expect c (String c rest) = Ok rest.
Proof.
  intros H. unfold Json.expect. cbn [Json.skip_ws]. rewrite H.
  rewrite Ascii.eqb_refl. reflexivity.
Qed.

Lemma expect_space (c c' : ascii) (rest : string) :
  Json.is_space c' = true -> Json.expect c (String c' rest) = Json.expect c rest.
Proof. intros H. unfold Json.expect. cbn [Json.skip_ws]. rewrite H. reflexivity. Qed.

(** [json.loads] reads back what [json.dumps] wrote. *)
Lemma loads_record_line (k v : string) :
  Json.loads (SSTable.record_line k v) = Ok (k, v).
Proof.
  rewrite record_line_eq. unfold Json.loads.
  rewrite (expect_head "{" _ eq_refl). cbn [bind].
  rewrite (expect_head Json.quote _ eq_refl). cbn [bind].
  rewrite parse_body_escape. cbn [bind].
  rewrite (expect_head ":" _ eq_refl). cbn [bind].
  rewrite (expect_space Json.quote " " _ eq_refl).
  rewrite (expect_head Json.quote _ eq_refl). cbn [bind].
  rewrite parse_body_escape. cbn [bind].
  rewrite (expect_head "}" _ eq_refl). cbn [bind].
  reflexivity.
Qed.

Lemma record_line_no_newline (k v : string) (rest : string) :
  readline (String.append (SSTable.record_line k v) rest) =
  (SSTable.record_line k v, rest).
Proof.
  unfold SSTable.record_line. rewrite append_assoc.
  change (String.append (String Json.newline EmptyString) rest)
    with (String Json.newline rest).
  apply readline_line, dumps_no_newline.
Qed.

(** ** SSTable: writing a segment *)

(** The text [write_from_memtable] writes for the sorted items. *)
Fixpoint text_of (items : list kv) : string :=
  match items with
  | [] => EmptyString
  | (k, v) :: rest => String.append (SSTable.record_line k v) (text_of rest)
  end.

Lemma text_of_app (l1 l2 : list kv) :
  text_of (l1 ++ l2) = String.append (text_of l1) (text_of l2).
Proof.
  induction l1 as [|[k v] l1 IH]; [reflexivity|].
  cbn [text_of app]. rewrite IH, append_assoc. reflexivity.
Qed.

Lemma write_loop_text (items : list kv) : forall off i,
  fst (SSTable.write_loop items off i) = text_of items.
Proof.
  induction items as [|[k v] rest IH]; intros off i; [reflexivity|].
  cbn [SSTable.write_loop text_of].
  specialize (IH (off + String.length (SSTable.record_line k v))%nat (S i)).
  destruct (SSTable.write_loop rest _ _) as [text idx].
  simpl in IH. subst text. reflexivity.
Qed.

(** An index entry holds a key of the items and the length of the text
    written before its record. *)
Lemma write_loop_index (items : list kv) : forall off i k o,
  In (k, o) (snd (SSTable.write_loop items off i)) ->
  exists pre v post,
    items = pre ++ (k, v) :: post /\
    o = (off + String.length (text_of pre))%nat.
Proof.
  induction items as [|[k1 v1] rest IH]; intros off i k o; [intros []|].
  cbn [SSTable.write_loop].
  specialize (IH (off + String.length (SSTable.record_line k1 v1))%nat (S i) k o).
  destruct (SSTable.write_loop rest _ _) as [text idx]. cbn [snd] in *.
  intros Hin.
  assert (Hcases : (k, o) = (k1, off) \/ In (k, o) idx).
  { destruct (i mod SSTable.SPARSE_INDEX_STRIDE =? 0)%nat;
      [destruct Hin as [E|Hin]; [left; congruence|right; exact Hin]
      |right; exact Hin]. }
  destruct Hcases as [E|Hin'].
  - injection E as -> ->. exists [], v1, rest. split; [reflexivity|].
    simpl. lia.
  - destruct (IH Hin') as (pre & v & post & -> & ->).
    exists ((k1, v1) :: pre), v, post. split; [reflexivity|].
    cbn [text_of]. rewrite length_append. lia.
Qed.

(** One entry every [SPARSE_INDEX_STRIDE] records, counted from record
    number [i]. *)
Lemma write_loop_length (items : list kv) : forall off i,
  (length (snd (SSTable.write_loop items off i)) + (i + 9) / 10 =
   (i + length items + 9) / 10)%nat.
Proof.
  induction items as [|[k v] rest IH]; intros off i.
  - simpl. rewrite Nat.add_0_r. reflexivity.
  - cbn [SSTable.write_loop].
    specialize (IH (off + String.length (SSTable.record_line k v))%nat (S i)).
    destruct (SSTable.write_loop rest _ _) as [text idx]. cbn [snd] in *.
    cbn [length]. unfold SSTable.SPARSE_INDEX_STRIDE.
    replace (i + S (length rest) + 9)%nat with (S i + length rest + 9)%nat by lia.
    rewrite <- IH.
    pose proof (Nat.div_mod_eq i 10).
    pose proof (Nat.div_mod_eq (i + 9) 10).
    pose proof (Nat.div_mod_eq (S i + 9) 10).
    pose proof (Nat.mod_upper_bound i 10).
    pose proof (Nat.mod_upper_bound (i + 9) 10).
    pose proof (Nat.mod_upper_bound (S i + 9) 10).
    destruct (Nat.eqb_spec (i mod 10) 0); cbn [length]; lia.
Qed.

(** [sorted] rearranges the items. *)
Lemma sorted_insert_perm (x : kv) (l : list kv) :
  Permutation (sorted_insert x l) (x :: l).
Proof.
  induction l as [|y l IH]; simpl; [reflexivity|].
  destruct (pair_ltb y x); [|reflexivity].
  rewrite IH. apply perm_swap.
Qed.

Lemma py_sorted_perm (l : list kv) : Permutation (py_sorted l) l.
Proof.
  induction l as [|x l IH]; simpl; [reflexivity|].
  rewrite sorted_insert_perm. constructor. exact IH.
Qed.

(** [bisect_right]: the bound given to the loop is never reached, a larger
    one gives the same result. *)
Lemma bisect_loop_fuel (a : list string) (x : string) :
  forall fuel fuel' lo hi,
    (hi <= length a)%nat -> (hi - lo <= fuel)%nat -> (hi - lo <= fuel')%nat ->
    bisect_loop fuel a x lo hi = bisect_loop fuel' a x lo hi.
Proof.
  induction fuel as [|fuel IH]; intros fuel' lo hi Hhi Hf Hf'.
  - destruct fuel' as [|fuel']; [reflexivity|]. cbn [bisect_loop].
    destruct (Nat.ltb_spec lo hi); [lia|reflexivity].
  - cbn [bisect_loop].
    destruct (Nat.ltb_spec lo hi) as [Hlt|Hge].
    + destruct fuel' as [|fuel']; [lia|]. cbn [bisect_loop].
      destruct (Nat.ltb_spec lo hi) as [_|?]; [|lia].
      pose proof (Nat.div_mod_eq (lo + hi) 2) as Hdiv.
      pose proof (Nat.mod_upper_bound (lo + hi) 2 ltac:(lia)) as Hmod.
      destruct (a !! ((lo + hi) / 2)%nat) as [y|]; [|reflexivity].
      destruct (String.ltb x y); apply IH; lia.
    + destruct fuel' as [|fuel']; [reflexivity|]. cbn [bisect_loop].
      destruct (Nat.ltb_spec lo hi); [lia|reflexivity].
Qed.

Section SSTableFacts.
Variable md5_int : string -> Z.

(** [write_from_memtable] always returns, and what it leaves in the
    directory. *)
Lemma write_from_memtable_eq (d : Dir) (f : base)
  (M : gmap string string) (append : bool) :
  exists bf,
    BloomFilter.add_all md5_int
      (BloomFilter.init (Z.max 100 (Z.of_nat (size M) * 10)) 5)
      (map fst (map_to_list M)) = Ok bf /\
    SSTable.write_from_memtable md5_int d f M append =
    Ok (SSTable.mk f (snd (SSTable.write_loop (py_sorted (map_to_list M)) 0 0))
          (Some bf),
        mkDir
          (<[f:=String.append
                  (if append then default EmptyString (data d !! f)
                   else EmptyString)
                  (text_of (py_sorted (map_to_list M)))]> (data d))
          (<[f:=snd (SSTable.write_loop (py_sorted (map_to_list M)) 0 0)]>
             (index d))
          (<[f:=bf]> (bloom d))
          (wal d)).
Proof.
  assert (Hsz : 1 <= Z.max 100 (Z.of_nat (size M) * 10)) by lia.
  destruct (add_all_spec md5_int (map fst (map_to_list M))
              (BloomFilter.init (Z.max 100 (Z.of_nat (size M) * 10)) 5)
              (init_wf _ 5 Hsz))
    as (bf & Hrun & _).
  exists bf. split; [exact Hrun|].
  unfold SSTable.write_from_memtable. rewrite Hrun. cbn [bind].
  pose proof (write_loop_text (py_sorted (map_to_list M)) 0 0) as Ht.
  destruct (SSTable.write_loop (py_sorted (map_to_list M)) 0 0)
    as [text idx].
  cbn [fst snd] in *. subst text.
  unfold SSTable.init, set_bloom, set_data, set_index.
  cbn [data index bloom wal].
  rewrite !lookup_insert_eq. reflexivity.
Qed.

(** C5 (sparse-index correctness): [write_from_memtable] (not appending)
    with a mapping [M] of [n] records returns; the sparse index it saves,
    which is the one of the table returned, has [ceil (n / 10)] entries,
    written [(n + 9) / 10]; and for every entry [(k, off)], the line read
    at offset [off] of the data file is the record of [k] in [M], which
    [json.loads] decodes to key [k]. *)
Theorem sparse_index_correct (d : Dir) (f : base) (M : gmap string string) :
  exists sst d' text,
    SSTable.write_from_memtable md5_int d f M false = Ok (sst, d') /\
    data d' !! f = Some text /\
    index d' !! f = Some (SSTable.sparse_index sst) /\
    length (SSTable.sparse_index sst) = ((size M + 9) / 10)%nat /\
    forall k off, In (k, off) (SSTable.sparse_index sst) ->
      exists v,
        M !! k = Some v /\
        fst (readline (seek off text)) = SSTable.record_line k v /\
        Json.loads (fst (readline (seek off text))) = Ok (k, v).
Proof.
  destruct (write_from_memtable_eq d f M false) as (bf & _ & Hrun).
  eexists _, _, _. split; [exact Hrun|].
  cbn [data index SSTable.sparse_index].
  rewrite !lookup_insert_eq.
  split; [reflexivity|]. split; [reflexivity|]. split.
  - pose proof (write_loop_length (py_sorted (map_to_list M)) 0 0) as Hl.
    rewrite (Permutation_length (py_sorted_perm _)) in Hl.
    rewrite length_map_to_list in Hl.
    change ((0 + 9) / 10)%nat with 0%nat in Hl.
    rewrite Nat.add_0_r in Hl. exact Hl.
  - intros k off Hin.
    apply write_loop_index in Hin as (pre & v & post & Hitems & ->).
    exists v.
    assert (Hread : fst (readline (seek (0 + String.length (text_of pre))
                      (String.append EmptyString
                         (text_of (py_sorted (map_to_list M)))))) =
                    SSTable.record_line k v).
    { rewrite Hitems, text_of_app. cbn [text_of String.append plus].
      rewrite seek_append, record_line_no_newline. reflexivity. }
    split; [|split; [exact Hread|rewrite Hread; apply loads_record_line]].
    apply elem_of_map_to_list, list_elem_of_In.
    apply (Permutation_in _ (py_sorted_perm _)).
    rewrite Hitems. apply in_elt.
Qed.
End SSTableFacts.

(** ** The LSM engine: the memtable is the log replayed

    [WriteAheadLog.__init__] opens the log with ['a+'] and nothing removes or
    truncates it: every [put] adds a line, and every memtable the engine
    builds, at start-up and after each flush, is the replay of the whole
    log. *)

(** The lines of [btree.wal], none when the file is not there. *)
Definition log (d : Dir) : WriteAheadLog.log_file := WriteAheadLog.init (wal d).

Definition mem_inv (s : LSMTree.t) (d : Dir) : Prop :=
  exists h r,
    LSMTree.memtable s = BTree.mk r 5 /\ tree_inv 5 h r /\
    flat r = replay [] (log d).

Lemma degree_ok : (2 <= 5)%nat.
Proof. lia. Qed.

(** The records a call writes ([delete] writes the tombstone), and those of
    a sequence of calls. *)
Definition write_of (o : LSMTree.op) : list kv :=
  match o with
  | LSMTree.Put k v => [(k, v)]
  | LSMTree.Delete k => [(k, TOMBSTONE)]
  | _ => []
  end.

Definition writes_of (ops : list LSMTree.op) : list kv :=
  flat_map write_of ops.

Lemma writes_of_app (a b : list LSMTree.op) :
  writes_of (a ++ b) = writes_of a ++ writes_of b.
Proof. apply flat_map_app. Qed.

Lemma entries_of_app (a b : list kv) :
  entries_of (a ++ b) = entries_of a ++ entries_of b.
Proof. apply map_app. Qed.

Lemma mem_inv_items (s : LSMTree.t) (d : Dir) :
  mem_inv s d -> BTree.items (LSMTree.memtable s) = Ok (replay [] (log d)).
Proof.
  intros (h & r & Hm & (Hwf & _ & _) & Hf). rewrite Hm.
  unfold BTree.items. cbn [BTree.root].
  rewrite (items_flat 5 h r Hwf), Hf. reflexivity.
Qed.

Lemma mem_inv_search (s : LSMTree.t) (d : Dir) (k : string) :
  mem_inv s d ->
  BTree.search (LSMTree.memtable s) k = Ok (assoc k (replay [] (log d))).
Proof.
  intros (h & r & Hm & (Hwf & _ & Hs) & Hf). rewrite Hm.
  unfold BTree.search. cbn [BTree.root].
  rewrite (search_node_assoc 5 k h r Hwf Hs), Hf. reflexivity.
Qed.

(** *** What the segment operations leave alone *)

Lemma sstable_init_frame (d : Dir) (f : base) (s : SSTable.t) (d' : Dir) :
  SSTable.init d f = Ok (s, d') ->
  wal d' = wal d /\ data d' = data d /\ bloom d' = bloom d /\
  SSTable.filename s = f.
Proof.
  unfold SSTable.init.
  destruct (index d !! f) as [idx|].
  - intros [= <- <-]. repeat split; reflexivity.
  - destruct (data d !! f) as [text|].
    + intros H. apply bind_Ok in H as (idx & _ & H).
      injection H as <- <-. repeat split; reflexivity.
    + intros [= <- <-]. repeat split; reflexivity.
Qed.

Lemma load_loop_wal (files : list base) : forall d ss d',
  LSMTree.load_loop d files = Ok (ss, d') -> wal d' = wal d.
Proof.
  induction files as [|f files IH]; intros d ss d' H; simpl in H.
  - injection H as <- <-. reflexivity.
  - apply bind_Ok in H as ([s d1] & H1 & H).
    apply bind_Ok in H as ([ss' d2] & H2 & H).
    injection H as <- <-.
    apply sstable_init_frame in H1 as (Hw & _).
    rewrite (IH _ _ _ H2). exact Hw.
Qed.

Lemma remove_segments_wal (segs : list SSTable.t) : forall d d',
  LSMTree.remove_segments d segs = Ok d' -> wal d' = wal d.
Proof.
  induction segs as [|s segs IH]; intros d d' H; simpl in H.
  - injection H as <-. reflexivity.
  - destruct (data d !! SSTable.filename s); [|discriminate].
    apply IH in H. exact H.
Qed.

Section LSMFacts.
Variable md5_int : string -> Z.

Lemma write_from_memtable_wal d f M append s d' :
  SSTable.write_from_memtable md5_int d f M append = Ok (s, d') ->
  wal d' = wal d.
Proof.
  destruct (write_from_memtable_eq md5_int d f M append) as (bf & _ & E).
  rewrite E. intros [= <- <-]. reflexivity.
Qed.

Lemma emit_last_wal temp m d keys d' :
  LSMTree.emit_last md5_int temp m d = Ok (keys, d') -> wal d' = wal d.
Proof.
  unfold LSMTree.emit_last.
  destruct (LSMTree.last_key m) as [lk|]; [|intros [= <- <-]; reflexivity].
  destruct (LSMTree.merged_data m !! lk) as [v|]; [|discriminate].
  destruct (String.eqb v TOMBSTONE); [intros [= <- <-]; reflexivity|].
  intros H. apply bind_Ok in H as ([s1 d1] & H1 & H).
  injection H as <- <-.
  apply (write_from_memtable_wal _ _ _ _ _ _ H1).
Qed.

Lemma merge_loop_wal fuel : forall temp m d m' d',
  LSMTree.merge_loop md5_int fuel temp m d = Ok (m', d') -> wal d' = wal d.
Proof.
  induction fuel as [|fuel IH]; intros temp m d m' d' H.
  - simpl in H. destruct (LSMTree.min_heap m); [|discriminate].
    injection H as <- <-. reflexivity.
  - cbn [LSMTree.merge_loop] in H.
    destruct (LSMTree.min_heap m) as [|x heap0] eqn:Hheap.
    { injection H as <- <-. reflexivity. }
    apply bind_Ok in H as ([item heap] & Hpop & H).
    apply bind_Ok in H as ([[keys d1] lk] & Hemit & H).
    apply bind_Ok in H as (heap' & Hpush & H).
    apply IH in H. rewrite H.
    destruct (match LSMTree.last_key m with
              | Some lk0 => String.eqb (LSMTree.item_key item) lk0
              | None => false
              end).
    + injection Hemit as <- <- <-. reflexivity.
    + apply bind_Ok in Hemit as ([keys1 d2] & Hemit & Hret).
      injection Hret as <- <- <-.
      apply (emit_last_wal _ _ _ _ _ Hemit).
Qed.

(** *** The engine's operations keep the memtable in step with the log *)

Lemma lsm_init_spec (d : Dir) (threshold : Z) (s : LSMTree.t) (d' : Dir) :
  LSMTree.init d threshold = Ok (s, d') ->
  mem_inv s d' /\ log d' = log d.
Proof.
  unfold LSMTree.init.
  destruct (init_spec 5 degree_ok (wal d)) as (h & r & E & Hinv & Hf).
  rewrite E. cbn [bind]. intros H.
  apply bind_Ok in H as ([segs d1] & Hload & H).
  apply bind_Ok in H as (counter & _ & H).
  injection H as <- <-.
  apply load_loop_wal in Hload. cbn [wal set_wal] in Hload.
  assert (Hlog : log d1 = log d).
  { unfold log. rewrite Hload. reflexivity. }
  split; [|exact Hlog].
  exists h, r. cbn [LSMTree.memtable]. rewrite Hlog.
  split; [reflexivity|]. split; [exact Hinv|exact Hf].
Qed.

Lemma flush_spec (s : LSMTree.t) (d : Dir) (s' : LSMTree.t) (d' : Dir) :
  mem_inv s d ->
  LSMTree._flush_memtable md5_int s d = Ok (s', d') ->
  mem_inv s' d' /\ log d' = log d.
Proof.
  intros Hinv H. unfold LSMTree._flush_memtable in H.
  apply bind_Ok in H as (items & _ & H).
  destruct items as [|it items].
  { injection H as <- <-. split; [exact Hinv|reflexivity]. }
  apply bind_Ok in H as ([s1 d1] & Hwrite & H).
  apply bind_Ok in H as ([seg d2] & Hseg & H).
  apply write_from_memtable_wal in Hwrite.
  apply sstable_init_frame in Hseg as (Hw2 & _).
  destruct (init_spec 5 degree_ok (wal d2)) as (h & r & E & Hinv' & Hf).
  rewrite E in H. cbn [bind] in H. injection H as <- <-.
  assert (Hlog : log (set_wal d2 (Some (WriteAheadLog.init (wal d2)))) = log d).
  { unfold log. cbn [wal set_wal WriteAheadLog.init].
    rewrite Hw2, Hwrite. reflexivity. }
  split; [|exact Hlog].
  exists h, r. cbn [LSMTree.memtable]. rewrite Hlog.
  split; [reflexivity|]. split; [exact Hinv'|].
  rewrite Hf. unfold log. rewrite Hw2, Hwrite. reflexivity.
Qed.

Lemma put_spec (s : LSMTree.t) (d : Dir) (k v : string)
  (s' : LSMTree.t) (d' : Dir) :
  mem_inv s d ->
  LSMTree.put md5_int s d k v = Ok (s', d') ->
  mem_inv s' d' /\ log d' = log d ++ entries_of [(k, v)].
Proof.
  intros (h & r & Hm & Hinv & Hf) H. unfold LSMTree.put in H.
  rewrite Hm in H.
  destruct (insert_spec 5 degree_ok h r (WriteAheadLog.init (wal d)) k v true
              Hinv) as (h1 & r1 & E & Hinv1 & Hf1).
  rewrite E in H. cbn [bind] in H.
  apply bind_Ok in H as (items & _ & H).
  cbn [LSMTree.memtable_threshold] in H.
  set (s1 := LSMTree.mk (BTree.mk r1 5) (LSMTree.memtable_threshold s)
               (LSMTree.segments s) (LSMTree.segment_counter s)) in *.
  set (d1 := set_wal d (Some (WriteAheadLog.write
                                (WriteAheadLog.init (wal d)) "insert" k v)))
    in *.
  assert (Hlog1 : log d1 = log d ++ entries_of [(k, v)]) by reflexivity.
  assert (Hinv1' : mem_inv s1 d1).
  { exists h1, r1. split; [reflexivity|]. split; [exact Hinv1|].
    rewrite Hf1, Hf, Hlog1, replay_app. reflexivity. }
  destruct (LSMTree.memtable_threshold s <=? Z.of_nat (length items)).
  - destruct (flush_spec s1 d1 s' d' Hinv1' H) as (Hinv2 & Hlog2).
    split; [exact Hinv2|]. rewrite Hlog2. exact Hlog1.
  - injection H as <- <-. split; [exact Hinv1'|exact Hlog1].
Qed.

Lemma compact_spec (s : LSMTree.t) (d : Dir) (now : Z)
  (s' : LSMTree.t) (d' : Dir) :
  LSMTree.compact md5_int s d now = Ok (s', d') ->
  LSMTree.memtable s' = LSMTree.memtable s /\ log d' = log d /\
  (length (LSMTree.segments s') <= 1)%nat.
Proof.
  unfold LSMTree.compact.
  destruct (Nat.ltb_spec (length (LSMTree.segments s)) 2) as [Hlt|Hge].
  { intros [= <- <-]. split; [reflexivity|]. split; [reflexivity|lia]. }
  intros H.
  apply bind_Ok in H as (heap & _ & H).
  apply bind_Ok in H as ([m d1] & Hmerge & H).
  apply bind_Ok in H as ([keys d2] & Hemit & H).
  apply bind_Ok in H as (bf & _ & H).
  apply bind_Ok in H as (text & _ & H).
  apply bind_Ok in H as (d3 & Hrm & H).
  apply bind_Ok in H as ([seg d4] & Hseg & H).
  injection H as <- <-.
  apply merge_loop_wal in Hmerge. apply emit_last_wal in Hemit.
  apply remove_segments_wal in Hrm.
  apply sstable_init_frame in Hseg as (Hw4 & _).
  split; [reflexivity|]. split; [|simpl; lia].
  unfold log. rewrite Hw4, Hrm. cbn [wal set_data set_bloom].
  rewrite Hemit, Hmerge. reflexivity.
Qed.

Lemma step_spec (s : LSMTree.t) (d : Dir) (o : LSMTree.op)
  (s' : LSMTree.t) (d' : Dir) :
  mem_inv s d ->
  LSMTree.step md5_int s d o = Ok (s', d') ->
  mem_inv s' d' /\ log d' = log d ++ entries_of (write_of o).
Proof.
  intros Hinv H. destruct o as [k v|k| |now|threshold]; cbn [LSMTree.step] in H.
  - apply (put_spec s d k v s' d' Hinv H).
  - apply (put_spec s d k TOMBSTONE s' d' Hinv H).
  - destruct (flush_spec s d s' d' Hinv H) as (Hinv' & Hlog).
    split; [exact Hinv'|]. simpl. rewrite app_nil_r. exact Hlog.
  - destruct (compact_spec s d now s' d' H) as (Hm & Hlog & _).
    simpl. rewrite app_nil_r. split; [|exact Hlog].
    destruct Hinv as (h & r & Hmem & Hinv & Hf).
    exists h, r. rewrite Hm, Hlog. split; [exact Hmem|]. split; assumption.
  - destruct (lsm_init_spec d threshold s' d' H) as (Hinv' & Hlog).
    split; [exact Hinv'|]. simpl. rewrite app_nil_r. exact Hlog.
Qed.

Lemma run_app (a b : list LSMTree.op) : forall s d,
  LSMTree.run md5_int s d (a ++ b) =
  let* (s1, d1) := LSMTree.run md5_int s d a in LSMTree.run md5_int s1 d1 b.
Proof.
  induction a as [|o a IH]; intros s d; [reflexivity|].
  cbn [LSMTree.run app].
  destruct (LSMTree.step md5_int s d o) as [[s1 d1]|e]; [|reflexivity].
  cbn [bind]. apply IH.
Qed.

Lemma run_spec (ops : list LSMTree.op) : forall s d s' d',
  mem_inv s d ->
  LSMTree.run md5_int s d ops = Ok (s', d') ->
  mem_inv s' d' /\ log d' = log d ++ entries_of (writes_of ops).
Proof.
  induction ops as [|o ops IH]; intros s d s' d' Hinv H.
  - injection H as <- <-. split; [exact Hinv|]. simpl.
    rewrite app_nil_r. reflexivity.
  - cbn [LSMTree.run] in H.
    apply bind_Ok in H as ([s1 d1] & Hstep & H).
    destruct (step_spec s d o s1 d1 Hinv Hstep) as (Hinv1 & Hlog1).
    destruct (IH s1 d1 s' d' Hinv1 H) as (Hinv' & Hlog').
    split; [exact Hinv'|].
    rewrite Hlog', Hlog1. unfold writes_of. cbn [flat_map].
    rewrite entries_of_app, app_assoc. reflexivity.
Qed.

(** [get] of a key the log has a line for is answered by the memtable. *)
Lemma get_logged (s : LSMTree.t) (d : Dir) (k v : string) :
  mem_inv s d ->
  assoc k (replay [] (log d)) = Some v ->
  LSMTree.get md5_int s d k =
  Ok (if String.eqb v TOMBSTONE then None else Some v).
Proof.
  intros Hinv Ha. unfold LSMTree.get.
  rewrite (mem_inv_search s d k Hinv), Ha. reflexivity.
Qed.

(** After any calls on an engine opened on any directory, [get] answers
    with the last value written to the key by those calls. *)
Lemma get_last_write (d0 : Dir) (threshold : Z) (s0 : LSMTree.t) (d1 : Dir)
  (ops : list LSMTree.op) (s : LSMTree.t) (d : Dir) (k v : string) :
  LSMTree.init d0 threshold = Ok (s0, d1) ->
  LSMTree.run md5_int s0 d1 ops = Ok (s, d) ->
  last_write k (writes_of ops) = Some v ->
  LSMTree.get md5_int s d k =
  Ok (if String.eqb v TOMBSTONE then None else Some v).
Proof.
  intros Hinit Hrun Hlast.
  destruct (lsm_init_spec d0 threshold s0 d1 Hinit) as (Hinv0 & _).
  destruct (run_spec ops s0 d1 s d Hinv0 Hrun) as (Hinv & Hlog).
  apply (get_logged s d k v Hinv).
  rewrite Hlog, replay_app, replay_entries_of, assoc_upsert_all, Hlast.
  reflexivity.
Qed.
End LSMFacts.

(** ** The last write to a key *)

Lemma last_write_app (k : string) (l1 l2 : list kv) :
  last_write k (l1 ++ l2) =
  match last_write k l2 with
  | Some v => Some v
  | None => last_write k l1
  end.
Proof. unfold last_write. rewrite rev_app_distr. apply assoc_app. Qed.

Lemma last_write_one (k k' v : string) :
  last_write k [(k', v)] = if String.eqb k k' then Some v else None.
Proof. reflexivity. Qed.

Lemma assoc_in_nodup (k v : string) (l : list kv) :
  NoDup (keys_of l) -> In (k, v) l -> assoc k l = Some v.
Proof.
  induction l as [|[k1 v1] l IH]; intros Hnd Hin; [destruct Hin|].
  simpl in Hnd. apply NoDup_cons in Hnd as [Hk1 Hnd].
  simpl. destruct Hin as [E|Hin].
  - injection E as -> ->. rewrite String.eqb_refl. reflexivity.
  - destruct (String.eqb_spec k k1) as [->|_]; [|apply (IH Hnd Hin)].
    exfalso. apply Hk1. apply list_elem_of_In.
    apply (in_map fst l (k1, v) Hin).
Qed.

Lemma last_write_nodup (k v : string) (l : list kv) :
  NoDup (map fst l) -> In (k, v) l -> last_write k l = Some v.
Proof.
  intros Hnd Hin. unfold last_write. apply assoc_in_nodup.
  - unfold keys_of. rewrite map_rev, <- Permutation_rev. exact Hnd.
  - apply in_rev in Hin. exact Hin.
Qed.

(** The call is a [put] on key [k]. *)
Definition puts_key (k : string) (o : LSMTree.op) : bool :=
  match o with
  | LSMTree.Put k' _ => String.eqb k' k
  | _ => false
  end.

(** Calls none of which is a [put] on [k] write nothing but tombstones
    to it. *)
Lemma last_write_no_put (k : string) (ops : list LSMTree.op) :
  forallb (fun o => negb (puts_key k o)) ops = true ->
  last_write k (writes_of ops) = None \/
  last_write k (writes_of ops) = Some TOMBSTONE.
Proof.
  induction ops as [|o ops IH]; intros H; [left; reflexivity|].
  cbn [forallb] in H. apply andb_prop in H as [Ho Hops].
  change (writes_of (o :: ops)) with (write_of o ++ writes_of ops).
  rewrite last_write_app.
  destruct (IH Hops) as [E|E]; rewrite E; [|right; reflexivity].
  destruct o as [k' v'|k'| | |]; cbn [write_of]; try (left; reflexivity).
  - rewrite last_write_one. cbn [puts_key] in Ho.
    rewrite String.eqb_sym. destruct (String.eqb k' k); [discriminate|].
    left; reflexivity.
  - rewrite last_write_one. destruct (String.eqb k k'); [right|left]; reflexivity.
Qed.

Lemma writes_of_puts (kvs : list kv) :
  writes_of (map (fun e => LSMTree.Put (fst e) (snd e)) kvs) = kvs.
Proof.
  induction kvs as [|[k v] kvs IH]; [reflexivity|].
  unfold writes_of in *. simpl. rewrite IH. reflexivity.
Qed.

Section LSMClaims.
Variable md5_int : string -> Z.

(** C10 (compaction guard): with fewer than two segments [compact]
    returns the engine and the directory as they are: same segment list,
    segment counter and memtable, same files, and no temporary file. *)
Theorem compact_guard (s : LSMTree.t) (d : Dir) (now : Z) :
  (length (LSMTree.segments s) < 2)%nat ->
  LSMTree.compact md5_int s d now = Ok (s, d).
Proof.
  intros H. unfold LSMTree.compact.
  destruct (Nat.ltb_spec (length (LSMTree.segments s)) 2); [reflexivity|lia].
Qed.

(** C1 (delete shadowing): on an engine opened on any directory, after
    [put(k, v)] followed by [delete(k)], whatever calls come before
    ([ops1]), between ([ops2]) and after ([ops3]) them, the calls after
    them not being a [put] on [k], [get(k)] returns [None]. The calls
    range over [put], [delete], [close] (a flush), [compact] and reopening
    the engine; a [put] flushes when the threshold is reached. *)
Theorem delete_shadowing (d0 : Dir) (threshold : Z) (s0 : LSMTree.t)
  (d1 : Dir) (ops1 ops2 ops3 : list LSMTree.op) (k v : string)
  (s : LSMTree.t) (d : Dir) :
  forallb (fun o => negb (puts_key k o)) ops3 = true ->
  LSMTree.init d0 threshold = Ok (s0, d1) ->
  LSMTree.run md5_int s0 d1
    (ops1 ++ LSMTree.Put k v :: ops2 ++ LSMTree.Delete k :: ops3) =
  Ok (s, d) ->
  LSMTree.get md5_int s d k = Ok None.
Proof.
  intros Hops3 Hinit Hrun.
  apply (get_last_write md5_int d0 threshold s0 d1 _ s d k TOMBSTONE
           Hinit Hrun).
  rewrite writes_of_app.
  change (writes_of (LSMTree.Put k v :: ops2 ++ LSMTree.Delete k :: ops3))
    with ([(k, v)] ++ writes_of (ops2 ++ LSMTree.Delete k :: ops3)).
  rewrite writes_of_app.
  change (writes_of (LSMTree.Delete k :: ops3))
    with ([(k, TOMBSTONE)] ++ writes_of ops3).
  rewrite !app_assoc, last_write_app.
  destruct (last_write_no_put k ops3 Hops3) as [E|E]; rewrite E;
    [|reflexivity].
  rewrite last_write_app, last_write_one, String.eqb_refl. reflexivity.
Qed.

(** C3 (compaction convergence): when [compact] returns, after any calls
    on an engine opened on any directory, the engine holds at most one
    segment; [get(k)] returns the value last written to [k] when that was
    not a delete, and [None] when it was. A delete is a write of the
    tombstone ([delete(k)] is [put(k, TOMBSTONE)]); the calls range over
    [put], [delete], [close], [compact] and reopening the engine. *)
Theorem compaction_convergence (d0 : Dir) (threshold : Z) (s0 : LSMTree.t)
  (d1 : Dir) (ops : list LSMTree.op) (now : Z) (s : LSMTree.t) (d : Dir) :
  LSMTree.init d0 threshold = Ok (s0, d1) ->
  LSMTree.run md5_int s0 d1 (ops ++ [LSMTree.Compact now]) = Ok (s, d) ->
  (length (LSMTree.segments s) <= 1)%nat /\
  (forall k v,
      last_write k (writes_of ops) = Some v -> v <> TOMBSTONE ->
      LSMTree.get md5_int s d k = Ok (Some v)) /\
  (forall k,
      last_write k (writes_of ops) = Some TOMBSTONE ->
      LSMTree.get md5_int s d k = Ok None).
Proof.
  intros Hinit Hrun.
  assert (Hget : forall k v,
             last_write k (writes_of ops) = Some v ->
             LSMTree.get md5_int s d k =
             Ok (if String.eqb v TOMBSTONE then None else Some v)).
  { intros k v Hlast.
    apply (get_last_write md5_int d0 threshold s0 d1 _ s d k v Hinit Hrun).
    rewrite writes_of_app, last_write_app. cbn. exact Hlast. }
  split; [|split].
  - rewrite run_app in Hrun.
    apply bind_Ok in Hrun as ([s1 d2] & _ & Hrun).
    cbn [LSMTree.run LSMTree.step] in Hrun.
    apply bind_Ok in Hrun as ([s2 d3] & Hc & Hrun).
    injection Hrun as <- <-.
    apply (compact_spec md5_int s1 d2 now s2 d3 Hc).
  - intros k v Hlast Hv. rewrite (Hget k v Hlast).
    destruct (String.eqb_spec v TOMBSTONE); [contradiction|reflexivity].
  - intros k Hlast. rewrite (Hget k TOMBSTONE Hlast). reflexivity.
Qed.

(** C4 (round trip), amended: after [put(k, v)] calls with pairwise
    distinct keys and values other than the tombstone, on an engine
    opened on any directory and with any threshold (so whatever flushes
    the calls trigger), [get(k)] returns [v] for every pair written. *)
Theorem round_trip (d0 : Dir) (threshold : Z) (s0 : LSMTree.t) (d1 : Dir)
  (kvs : list kv) (s : LSMTree.t) (d : Dir) :
  NoDup (map fst kvs) ->
  Forall (fun e => snd e <> TOMBSTONE) kvs ->
  LSMTree.init d0 threshold = Ok (s0, d1) ->
  LSMTree.run md5_int s0 d1
    (map (fun e => LSMTree.Put (fst e) (snd e)) kvs) = Ok (s, d) ->
  forall k v, In (k, v) kvs -> LSMTree.get md5_int s d k = Ok (Some v).
Proof.
  intros Hnd Hvals Hinit Hrun k v Hin.
  rewrite (get_last_write md5_int d0 threshold s0 d1 _ s d k v Hinit Hrun).
  - rewrite Forall_forall in Hvals.
    specialize (Hvals (k, v) (proj2 (list_elem_of_In _ _) Hin)).
    simpl in Hvals.
    destruct (String.eqb_spec v TOMBSTONE); [contradiction|reflexivity].
  - rewrite writes_of_puts. apply (last_write_nodup k v kvs Hnd Hin).
Qed.

(** C2 (the log on flush), what the code does: a flush of a non-empty
    memtable, in any state the engine reaches, leaves the log as it is,
    and the memtable that replaces the flushed one, built by replaying
    the log, holds the same records as the one flushed. *)
Theorem flush_keeps_log (d0 : Dir) (threshold : Z) (s0 : LSMTree.t)
  (d1 : Dir) (ops : list LSMTree.op) (s : LSMTree.t) (d : Dir)
  (s' : LSMTree.t) (d' : Dir) :
  LSMTree.init d0 threshold = Ok (s0, d1) ->
  LSMTree.run md5_int s0 d1 ops = Ok (s, d) ->
  BTree.items (LSMTree.memtable s) <> Ok [] ->
  LSMTree._flush_memtable md5_int s d = Ok (s', d') ->
  length (LSMTree.segments s') = S (length (LSMTree.segments s)) /\
  log d' = log d /\
  BTree.items (LSMTree.memtable s') = BTree.items (LSMTree.memtable s).
Proof.
  intros Hinit Hrun Hne Hflush.
  destruct (lsm_init_spec d0 threshold s0 d1 Hinit) as (Hinv0 & _).
  destruct (run_spec md5_int ops s0 d1 s d Hinv0 Hrun) as (Hinv & _).
  destruct (flush_spec md5_int s d s' d' Hinv Hflush) as (Hinv' & Hlog).
  split; [|split; [exact Hlog|]].
  - unfold LSMTree._flush_memtable in Hflush.
    apply bind_Ok in Hflush as (items & Hitems & H).
    destruct items as [|it items]; [contradiction|].
    apply bind_Ok in H as ([s1 d2] & _ & H).
    apply bind_Ok in H as ([seg d3] & _ & H).
    apply bind_Ok in H as ([m file] & _ & H).
    injection H as <- <-. cbn [LSMTree.segments].
    rewrite length_app. simpl. lia.
  - rewrite (mem_inv_items s' d' Hinv'), (mem_inv_items s d Hinv), Hlog.
    reflexivity.
Qed.
End LSMClaims.

(** *** The claims on concrete runs *)

Lemma compact_guard_witness :
  (length (LSMTree.segments
             (LSMTree.mk (BTree.mk (BTree.new_node true) 5) 100 [] 0)) < 2)%nat /\
  LSMTree.compact toy_digest
    (LSMTree.mk (BTree.mk (BTree.new_node true) 5) 100 [] 0) empty_dir 1000 =
  Ok (LSMTree.mk (BTree.mk (BTree.new_node true) 5) 100 [] 0, empty_dir).
Proof.
  split; [simpl; lia|].
  apply (compact_guard toy_digest). simpl. lia.
Defined.

(** [put("a", "1"); put("b", "2")] flushes at threshold 2; [delete("a")]
    flushes again; [compact()] merges the two segments. *)
Lemma delete_shadowing_witness :
  exists s0 d1 s d,
    LSMTree.init empty_dir 2 = Ok (s0, d1) /\
    LSMTree.run toy_digest s0 d1
      [LSMTree.Put "a" "1"; LSMTree.Put "b" "2"; LSMTree.Delete "a";
       LSMTree.Compact 1000; LSMTree.Put "c" "3"; LSMTree.Close]%string =
    Ok (s, d) /\
    LSMTree.get toy_digest s d "a"%string = Ok None.
Proof.
  destruct (LSMTree.init empty_dir 2) as [[s0 d1]|e] eqn:Hinit;
    [|vm_compute in Hinit; discriminate].
  exists s0, d1.
  destruct (LSMTree.run toy_digest s0 d1
              [LSMTree.Put "a" "1"; LSMTree.Put "b" "2"; LSMTree.Delete "a";
               LSMTree.Compact 1000; LSMTree.Put "c" "3"; LSMTree.Close]%string)
    as [[s d]|e] eqn:Hrun.
  - exists s, d. split; [reflexivity|]. split; [reflexivity|].
    apply (delete_shadowing toy_digest empty_dir 2 s0 d1
             [] [LSMTree.Put "b" "2"]%string
             [LSMTree.Compact 1000; LSMTree.Put "c" "3"; LSMTree.Close]%string
             "a"%string "1"%string s d eq_refl Hinit Hrun).
  - vm_compute in Hinit. injection Hinit as <- <-.
    vm_compute in Hrun. discriminate.
Defined.

Lemma compaction_convergence_witness :
  exists s0 d1 s d,
    LSMTree.init empty_dir 2 = Ok (s0, d1) /\
    LSMTree.run toy_digest s0 d1
      ([LSMTree.Put "a" "1"; LSMTree.Put "b" "2"; LSMTree.Delete "a";
        LSMTree.Put "b" "3"]%string ++ [LSMTree.Compact 1000]) = Ok (s, d) /\
    (length (LSMTree.segments s) <= 1)%nat /\
    LSMTree.get toy_digest s d "b"%string = Ok (Some "3"%string) /\
    LSMTree.get toy_digest s d "a"%string = Ok None.
Proof.
  destruct (LSMTree.init empty_dir 2) as [[s0 d1]|e] eqn:Hinit;
    [|vm_compute in Hinit; discriminate].
  exists s0, d1.
  destruct (LSMTree.run toy_digest s0 d1
              ([LSMTree.Put "a" "1"; LSMTree.Put "b" "2"; LSMTree.Delete "a";
                LSMTree.Put "b" "3"]%string ++ [LSMTree.Compact 1000]))
    as [[s d]|e] eqn:Hrun.
  - exists s, d. split; [reflexivity|]. split; [reflexivity|].
    destruct (compaction_convergence toy_digest empty_dir 2 s0 d1 _ 1000 s d
                Hinit Hrun) as (Hlen & Hlive & Hdead).
    split; [exact Hlen|]. split.
    + apply Hlive; [reflexivity|discriminate].
    + apply Hdead. reflexivity.
  - vm_compute in Hinit. injection Hinit as <- <-.
    vm_compute in Hrun. discriminate.
Defined.

(** C4 as the specification has it fails for a value that is the tombstone:
    [put("a", "__TOMBSTONE__")] on a new engine, then [get("a")], which
    returns [None] and not the value written. *)
Lemma round_trip_counterexample :
  exists s0 d1 s d,
    NoDup (map fst [("a", TOMBSTONE)]%string) /\
    LSMTree.init empty_dir 100 = Ok (s0, d1) /\
    LSMTree.run toy_digest s0 d1
      (map (fun e => LSMTree.Put (fst e) (snd e)) [("a", TOMBSTONE)]%string) =
    Ok (s, d) /\
    In ("a"%string, TOMBSTONE) [("a", TOMBSTONE)]%string /\
    LSMTree.get toy_digest s d "a"%string = Ok None /\
    LSMTree.get toy_digest s d "a"%string <> Ok (Some TOMBSTONE).
Proof.
  eexists _, _, _, _.
  split; [repeat constructor; intros H; inversion H|].
  split; [vm_compute; reflexivity|].
  split; [vm_compute; reflexivity|].
  split; [left; reflexivity|].
  split; [vm_compute; reflexivity|].
  vm_compute. discriminate.
Qed.

Lemma round_trip_witness :
  exists s0 d1 s d,
    LSMTree.init empty_dir 2 = Ok (s0, d1) /\
    LSMTree.run toy_digest s0 d1
      (map (fun e => LSMTree.Put (fst e) (snd e))
           [("a", "1"); ("b", "2"); ("c", "3")]%string) = Ok (s, d) /\
    forall k v, In (k, v) [("a", "1"); ("b", "2"); ("c", "3")]%string ->
                LSMTree.get toy_digest s d k = Ok (Some v).
Proof.
  destruct (LSMTree.init empty_dir 2) as [[s0 d1]|e] eqn:Hinit;
    [|vm_compute in Hinit; discriminate].
  exists s0, d1.
  destruct (LSMTree.run toy_digest s0 d1
              (map (fun e => LSMTree.Put (fst e) (snd e))
                   [("a", "1"); ("b", "2"); ("c", "3")]%string))
    as [[s d]|e] eqn:Hrun.
  - exists s, d. split; [reflexivity|]. split; [reflexivity|].
    apply (round_trip toy_digest empty_dir 2 s0 d1
             [("a", "1"); ("b", "2"); ("c", "3")]%string s d);
      [ apply (bool_decide_unpack _); vm_compute; exact I
      | apply (bool_decide_unpack _); vm_compute; exact I
      | exact Hinit | exact Hrun ].
  - vm_compute in Hinit. injection Hinit as <- <-.
    vm_compute in Hrun. discriminate.
Defined.

(** The input on which the code departs from C2: a new engine with
    threshold 1 and [put("a", "1")]. The [put] flushes; the log still holds
    the line written and the new memtable holds its record. *)
Lemma flush_keeps_log_witness :
  exists s0 d1 s d s' d',
    LSMTree.init empty_dir 100 = Ok (s0, d1) /\
    LSMTree.run toy_digest s0 d1 [LSMTree.Put "a" "1"]%string = Ok (s, d) /\
    LSMTree._flush_memtable toy_digest s d = Ok (s', d') /\
    length (LSMTree.segments s') = 1%nat /\
    wal d' = Some [WriteAheadLog.mk_entry "insert" "a" "1"]%string /\
    BTree.items (LSMTree.memtable s') = Ok [("a", "1")]%string.
Proof.
  destruct (LSMTree.init empty_dir 100) as [[s0 d1]|e] eqn:Hinit;
    [|vm_compute in Hinit; discriminate].
  exists s0, d1.
  destruct (LSMTree.run toy_digest s0 d1 [LSMTree.Put "a" "1"]%string)
    as [[s d]|e] eqn:Hrun.
  - exists s, d.
    destruct (LSMTree._flush_memtable toy_digest s d) as [[s' d']|e] eqn:Hflush.
    + exists s', d'. split; [reflexivity|]. split; [reflexivity|].
      split; [reflexivity|].
      assert (Hne : BTree.items (LSMTree.memtable s) <> Ok []).
      { vm_compute in Hinit. injection Hinit as <- <-.
        vm_compute in Hrun. injection Hrun as <- <-.
        vm_compute. discriminate. }
      destruct (flush_keeps_log toy_digest empty_dir 100 s0 d1 _ s d s' d'
                  Hinit Hrun Hne Hflush) as (Hlen & Hlog & Hitems).
      vm_compute in Hinit. injection Hinit as <- <-.
      vm_compute in Hrun. injection Hrun as <- <-.
      vm_compute in Hflush. injection Hflush as <- <-.
      split; [reflexivity|]. split; reflexivity.
    + vm_compute in Hinit. injection Hinit as <- <-.
      vm_compute in Hrun. injection Hrun as <- <-.
      vm_compute in Hflush. discriminate.
  - vm_compute in Hinit. injection Hinit as <- <-.
    vm_compute in Hrun. discriminate.
Defined.

(** ** Levenshtein distance

    [Levenshtein.distance] computes the table of the usual definition row by
    row: [lev a b i j] is the distance between the first [i] characters of
    [a] and the first [j] characters of [b]. *)

(** The two characters differ. *)
Definition differ (a b : list ascii) (i j : nat) : nat :=
  match a !! i, b !! j with
  | Some x, Some y => if Ascii.eqb x y then 0 else 1
  | _, _ => 1
  end.

Fixpoint lev (a b : list ascii) (i j : nat) {struct i} : nat :=
  match i with
  | O => j
  | S i' =>
      (fix lev_row (j : nat) : nat :=
         match j with
         | O => S i'
         | S j' =>
             Nat.min (lev a b i' (S j') + 1)
               (Nat.min (lev_row j' + 1) (lev a b i' j' + differ a b i' j'))
         end) j
  end.

Lemma lev_0_r (a b : list ascii) (i : nat) : lev a b i 0 = i.
Proof. destruct i; reflexivity. Qed.

Lemma lev_S_S (a b : list ascii) (i j : nat) :
  lev a b (S i) (S j) =
  Nat.min (lev a b i (S j) + 1)
    (Nat.min (lev a b (S i) j + 1) (lev a b i j + differ a b i j)).
Proof. reflexivity. Qed.

Lemma differ_sym (a b : list ascii) (i j : nat) : differ a b i j = differ b a j i.
Proof.
  unfold differ. destruct (a !! i), (b !! j); try reflexivity.
  rewrite Ascii.eqb_sym. reflexivity.
Qed.

Lemma lev_sym (a b : list ascii) : forall i j, lev a b i j = lev b a j i.
Proof.
  induction i as [|i IHi]; intros j.
  - rewrite lev_0_r. reflexivity.
  - induction j as [|j IHj].
    + rewrite lev_0_r. reflexivity.
    + rewrite !lev_S_S, IHj, !IHi, differ_sym. lia.
Qed.

(** Row [i] of the table. *)
Definition lev_row (a b : list ascii) (i : nat) : list nat :=
  map (lev a b i) (seq 0 (S (length b))).

(** The inner loop fills row [i + 1] from row [i]. *)
Lemma row_step_lev (a b : list ascii) (i : nat) (c1 : ascii) :
  a !! i = Some c1 ->
  forall bs j,
    drop j b = bs ->
    Levenshtein.row_step c1 bs
      (map (lev a b i) (seq j (S (length bs)))) (lev a b (S i) j) =
    map (lev a b (S i)) (seq (S j) (length bs)).
Proof.
  intros Ha. induction bs as [|c2 bs IH]; intros j Hdrop; [reflexivity|].
  assert (Hj : b !! j = Some c2).
  { rewrite <- (Nat.add_0_r j), <- lookup_drop, Hdrop. reflexivity. }
  assert (Hdrop' : drop (S j) b = bs).
  { replace (S j) with (j + 1)%nat by lia.
    rewrite <- drop_drop, Hdrop. reflexivity. }
  cbn [length seq map Levenshtein.row_step].
  assert (Hx : Nat.min (lev a b i (S j) + 1)
                 (Nat.min (lev a b (S i) j + 1)
                    (lev a b i j + (if Ascii.eqb c1 c2 then 0 else 1))) =
               lev a b (S i) (S j)).
  { rewrite lev_S_S. unfold differ. rewrite Ha, Hj. reflexivity. }
  rewrite Hx. f_equal.
  apply (IH (S j) Hdrop').
Qed.

(** The outer loop, [p] being the characters gone through. *)
Lemma rows_lev (b : list ascii) : forall s1 p,
  Levenshtein.rows s1 b (length p) (lev_row (p ++ s1) b (length p)) =
  lev_row (p ++ s1) b (length (p ++ s1)).
Proof.
  induction s1 as [|c1 s1 IH]; intros p.
  - rewrite app_nil_r. reflexivity.
  - cbn [Levenshtein.rows].
    assert (Ha : (p ++ c1 :: s1) !! length p = Some c1).
    { apply list_lookup_middle. reflexivity. }
    pose proof (row_step_lev (p ++ c1 :: s1) b (length p) c1 Ha b 0%nat
                  (drop_0 b)) as Hrow.
    rewrite lev_0_r in Hrow. unfold lev_row at 1. rewrite Hrow.
    specialize (IH (p ++ [c1])).
    rewrite <- app_assoc in IH. cbn [app] in IH.
    rewrite length_app in IH. cbn [length] in IH.
    rewrite Nat.add_1_r in IH.
    rewrite <- IH. reflexivity.
Qed.

Lemma distance_ordered_lev (a b : list ascii) :
  Levenshtein.distance_ordered a b = lev a b (length a) (length b).
Proof.
  unfold Levenshtein.distance_ordered.
  assert (Hrow0 : seq 0 (S (length b)) = lev_row ([] ++ a) b (length (@nil ascii))).
  { unfold lev_row. simpl. f_equal. rewrite <- (map_id (seq 1 (length b))) at 1.
    reflexivity. }
  rewrite Hrow0.
  change 0%nat with (length (@nil ascii)) at 1.
  rewrite (rows_lev b a []). cbn [app].
  unfold lev_row. rewrite seq_S, map_app. cbn [map].
  apply last_last.
Qed.

(** [Levenshtein.distance] is the distance of the definition, whichever
    string is the longer. *)
Theorem distance_lev (s1 s2 : string) :
  Levenshtein.distance s1 s2 =
  lev (list_ascii_of_string s1) (list_ascii_of_string s2)
      (length (list_ascii_of_string s1)) (length (list_ascii_of_string s2)).
Proof.
  unfold Levenshtein.distance.
  destruct (length (list_ascii_of_string s1) <? length (list_ascii_of_string s2))%nat.
  - rewrite distance_ordered_lev. apply lev_sym.
  - apply distance_ordered_lev.
Qed.

(** ** Fuzzy get *)

(** The records [fuzzy_get] goes through, in the order it meets them: what
    [read_iter()] yields for each of the segments given. *)
Fixpoint decode_segments (d : Dir) (segs : list SSTable.t)
  : result (list kv) :=
  match segs with
  | [] => Ok []
  | seg :: rest =>
      let* items := SSTable.decode_all (SSTable.read_iter d seg) in
      let* more := decode_segments d rest in
      Ok (items ++ more)
  end.

(** The occurrences of the keys, newest first: the items of the memtable,
    then the records of the segments from the newest to the oldest. *)
Definition occurrences (s : LSMTree.t) (d : Dir) : result (list kv) :=
  let* items := BTree.items (LSMTree.memtable s) in
  let* more := decode_segments d (rev (LSMTree.segments s)) in
  Ok (items ++ more).

Section FuzzyFacts.
Variable search_key : string.
Variable max_distance : Z.

(** The key is within the distance asked for. *)
Definition near (k : string) : Prop :=
  Z.of_nat (Levenshtein.distance search_key k) <= max_distance.

(** What the two accumulators hold once the records [seen] have gone
    through the loop. *)
Definition fuzzy_ok (seen results : list kv) (checked_keys : gset string)
  : Prop :=
  NoDup (map fst results) /\
  (forall k, k ∈ checked_keys <-> In k (keys_of seen) /\ near k) /\
  (forall k v, In (k, v) results <->
               near k /\ assoc k seen = Some v /\ v <> TOMBSTONE).

Lemma fuzzy_loop_app (l1 l2 : list kv) : forall results checked_keys,
  LSMTree.fuzzy_loop search_key max_distance (l1 ++ l2) results checked_keys =
  let (r1, c1) :=
    LSMTree.fuzzy_loop search_key max_distance l1 results checked_keys in
  LSMTree.fuzzy_loop search_key max_distance l2 r1 c1.
Proof.
  induction l1 as [|[k v] l1 IH]; intros results checked_keys.
  - simpl. destruct (LSMTree.fuzzy_loop _ _ l2 _ _); reflexivity.
  - cbn [LSMTree.fuzzy_loop app].
    destruct (decide (k ∈ checked_keys)); [apply IH|].
    destruct (Z.of_nat (Levenshtein.distance search_key k) <=? max_distance);
      apply IH.
Qed.

Lemma assoc_snoc (k k' v' : string) (seen : list kv) :
  assoc k (seen ++ [(k', v')]) =
  match assoc k seen with
  | Some v => Some v
  | None => if String.eqb k k' then Some v' else None
  end.
Proof. rewrite assoc_app. reflexivity. Qed.

Lemma keys_of_snoc (k : string) (k' v' : string) (seen : list kv) :
  In k (keys_of (seen ++ [(k', v')])) <-> In k (keys_of seen) \/ k = k'.
Proof.
  rewrite keys_of_app, in_app_iff. simpl. intuition congruence.
Qed.

(** One record through the loop. *)
Lemma fuzzy_step (seen results : list kv) (checked_keys : gset string)
  (k v : string) :
  fuzzy_ok seen results checked_keys ->
  fuzzy_ok (seen ++ [(k, v)])
    (fst (LSMTree.fuzzy_loop search_key max_distance [(k, v)]
            results checked_keys))
    (snd (LSMTree.fuzzy_loop search_key max_distance [(k, v)]
            results checked_keys)).
Proof.
  intros (Hnd & Hc & Hr). cbn [LSMTree.fuzzy_loop].
  assert (Hother : forall k1, k1 <> k ->
            assoc k1 (seen ++ [(k, v)]) = assoc k1 seen).
  { intros k1 Hne. rewrite assoc_snoc.
    destruct (assoc k1 seen); [reflexivity|].
    destruct (String.eqb_spec k1 k); [contradiction|reflexivity]. }
  destruct (decide (k ∈ checked_keys)) as [Hin|Hnin]; cbn [fst snd].
  - (* [k] was met before, within the distance *)
    apply Hc in Hin as [Hseen Hnear].
    assert (Hsame : forall k1, assoc k1 (seen ++ [(k, v)]) = assoc k1 seen).
    { intros k1. destruct (String.eqb_spec k1 k) as [->|Hne];
        [|apply (Hother _ Hne)].
      rewrite assoc_snoc.
      destruct (assoc k seen) eqn:Ha; [reflexivity|].
      apply assoc_None_not_in in Ha. contradiction. }
    split; [exact Hnd|]. split.
    + intros k1. rewrite Hc, keys_of_snoc.
      split; [intros [H1 H2]; split; [left|]; assumption|].
      intros [[H1| ->] H2]; split; assumption.
    + intros k1 v1. rewrite Hsame. apply Hr.
  - destruct (Z.leb_spec (Z.of_nat (Levenshtein.distance search_key k))
                max_distance) as [Hnear|Hfar]; cbn [fst snd].
    + (* a new key within the distance *)
      assert (Hfresh : assoc k seen = None).
      { apply assoc_None_not_in. intros Hseen. apply Hnin, Hc.
        split; assumption. }
      assert (Hnew : assoc k (seen ++ [(k, v)]) = Some v).
      { rewrite assoc_snoc, Hfresh, String.eqb_refl. reflexivity. }
      assert (Hout : forall v1, ~ In (k, v1) results).
      { intros v1 Hin. apply Hr in Hin as (_ & Ha & _). congruence. }
      split; [|split].
      * destruct (String.eqb v TOMBSTONE); [exact Hnd|].
        rewrite map_app. apply NoDup_app. split; [exact Hnd|].
        split; [|apply NoDup_singleton].
        intros k1 Hk1 Hk1'. apply list_elem_of_In in Hk1, Hk1'.
        destruct Hk1' as [<-|[]]. simpl in Hk1.
        apply in_map_iff in Hk1 as ([k2 v2] & E & Hin). simpl in E. subst k2.
        apply (Hout v2 Hin).
      * intros k1. rewrite elem_of_union, elem_of_singleton, Hc, keys_of_snoc.
        split.
        -- intros [->|[H1 H2]]; split; auto.
        -- intros [[H1| ->] H2]; [right; split; assumption|left; reflexivity].
      * intros k1 v1.
        destruct (String.eqb_spec k1 k) as [->|Hne].
        -- rewrite Hnew.
           destruct (String.eqb_spec v TOMBSTONE) as [->|Hv].
           ++ split; [intros Hin; destruct (Hout v1 Hin)|].
              intros (_ & E & Hv1). congruence.
           ++ rewrite in_app_iff. simpl. split.
              ** intros [Hin|[E|[]]]; [destruct (Hout v1 Hin)|].
                 injection E as <-. repeat split; assumption.
              ** intros (_ & E & _). right. left. congruence.
        -- rewrite (Hother _ Hne), <- Hr.
           destruct (String.eqb v TOMBSTONE); [reflexivity|].
           rewrite in_app_iff. simpl. split; [intros [H|[E|[]]]|intros H].
           ++ exact H.
           ++ congruence.
           ++ left. exact H.
    + (* a key too far *)
      split; [exact Hnd|]. split.
      * intros k1. rewrite Hc, keys_of_snoc.
        split; [intros [H1 H2]; split; [left|]; assumption|].
        intros [[H1| ->] H2]; [split; assumption|].
        unfold near in H2. lia.
      * intros k1 v1.
        destruct (String.eqb_spec k1 k) as [->|Hne].
        -- split.
           ++ intros Hin. apply Hr in Hin as (Hn & _). unfold near in Hn. lia.
           ++ intros (Hn & _). unfold near in Hn. lia.
        -- rewrite (Hother _ Hne). apply Hr.
Qed.

Lemma fuzzy_loop_ok (items : list kv) : forall seen results checked_keys,
  fuzzy_ok seen results checked_keys ->
  fuzzy_ok (seen ++ items)
    (fst (LSMTree.fuzzy_loop search_key max_distance items
            results checked_keys))
    (snd (LSMTree.fuzzy_loop search_key max_distance items
            results checked_keys)).
Proof.
  induction items as [|[k v] items IH]; intros seen results checked_keys Hok.
  - simpl. rewrite app_nil_r. exact Hok.
  - change ((k, v) :: items) with ([(k, v)] ++ items).
    rewrite fuzzy_loop_app, app_assoc.
    pose proof (fuzzy_step seen results checked_keys k v Hok) as Hstep.
    destruct (LSMTree.fuzzy_loop search_key max_distance [(k, v)]
                results checked_keys) as [r1 c1].
    apply (IH _ _ _ Hstep).
Qed.

Lemma fuzzy_segments_eq (d : Dir) (segs : list SSTable.t) :
  forall more results checked_keys,
  decode_segments d segs = Ok more ->
  LSMTree.fuzzy_segments d search_key max_distance segs
    results checked_keys =
  Ok (fst (LSMTree.fuzzy_loop search_key max_distance more
             results checked_keys)).
Proof.
  induction segs as [|seg segs IH]; intros more results checked_keys H.
  - injection H as <-. reflexivity.
  - cbn [decode_segments] in H. cbn [LSMTree.fuzzy_segments].
    apply bind_Ok in H as (items & Hitems & H).
    apply bind_Ok in H as (more' & Hmore & H).
    injection H as <-. rewrite Hitems. cbn [bind].
    rewrite fuzzy_loop_app.
    destruct (LSMTree.fuzzy_loop search_key max_distance items
                results checked_keys) as [r1 c1].
    apply (IH _ _ _ Hmore).
Qed.

(** C9 (fuzzy-get visibility): when the memtable and the segment files
    can be read, [occ] being the records they hold, newest first,
    [fuzzy_get] returns; no key comes twice in its result; and [(k, v)]
    is in the result exactly when [k] is within [max_distance] of
    [search_key], the first (newest) record of [k] in [occ] has value
    [v], and [v] is not the tombstone. *)
Theorem fuzzy_get_visibility (s : LSMTree.t) (d : Dir) (occ : list kv) :
  occurrences s d = Ok occ ->
  exists results,
    LSMTree.fuzzy_get s d search_key max_distance = Ok results /\
    NoDup (map fst results) /\
    forall k v,
      In (k, v) results <->
      Z.of_nat (Levenshtein.distance search_key k) <= max_distance /\
      assoc k occ = Some v /\ v <> TOMBSTONE.
Proof.
  intros H. unfold occurrences in H.
  apply bind_Ok in H as (items & Hitems & H).
  apply bind_Ok in H as (more & Hmore & H).
  injection H as <-.
  unfold LSMTree.fuzzy_get. rewrite Hitems. cbn [bind].
  assert (Hempty : fuzzy_ok [] [] ∅).
  { split; [constructor|]. split.
    - intros k. rewrite elem_of_empty. simpl. tauto.
    - intros k v. simpl. split; [tauto|]. intros (_ & E & _). discriminate. }
  pose proof (fuzzy_loop_ok (items ++ more) [] [] ∅ Hempty) as Hok.
  rewrite fuzzy_loop_app in Hok. unfold kv in *.
  destruct (LSMTree.fuzzy_loop search_key max_distance items [] ∅)
    as [r1 c1].
  rewrite (fuzzy_segments_eq d _ more r1 c1 Hmore).
  eexists. split; [reflexivity|].
  destruct (LSMTree.fuzzy_loop search_key max_distance more r1 c1)
    as [r2 c2].
  destruct Hok as (Hnd & _ & Hr). split; [exact Hnd|exact Hr].
Qed.
End FuzzyFacts.

(** Scenario E of the specification, with a key deleted after a flush. *)
Lemma fuzzy_get_visibility_witness :
  exists s0 d1 s d occ results,
    LSMTree.init empty_dir 3 = Ok (s0, d1) /\
    LSMTree.run toy_digest s0 d1
      [LSMTree.Put "apple" "red fruit"; LSMTree.Put "apply" "to request";
       LSMTree.Put "apples" "plural"; LSMTree.Put "banana" "yellow fruit";
       LSMTree.Delete "apply"]%string = Ok (s, d) /\
    occurrences s d = Ok occ /\
    LSMTree.fuzzy_get s d "apple"%string 1 = Ok results /\
    NoDup (map fst results) /\
    forall k v,
      In (k, v) results <->
      Z.of_nat (Levenshtein.distance "apple"%string k) <= 1 /\
      assoc k occ = Some v /\ v <> TOMBSTONE.
Proof.
  destruct (LSMTree.init empty_dir 3) as [[s0 d1]|e] eqn:Hinit;
    [|vm_compute in Hinit; discriminate].
  exists s0, d1.
  destruct (LSMTree.run toy_digest s0 d1
      [LSMTree.Put "apple" "red fruit"; LSMTree.Put "apply" "to request";
       LSMTree.Put "apples" "plural"; LSMTree.Put "banana" "yellow fruit";
       LSMTree.Delete "apply"]%string) as [[s d]|e] eqn:Hrun;
    [|vm_compute in Hinit; injection Hinit as <- <-;
      vm_compute in Hrun; discriminate].
  exists s, d.
  destruct (occurrences s d) as [occ|e] eqn:Hocc;
    [|vm_compute in Hinit; injection Hinit as <- <-;
      vm_compute in Hrun; injection Hrun as <- <-;
      vm_compute in Hocc; discriminate].
  exists occ.
  destruct (fuzzy_get_visibility "apple"%string 1 s d occ Hocc)
    as (results & Hget & Hnd & Hr).
  exists results. split; [reflexivity|]. split; [reflexivity|].
  split; [reflexivity|]. split; [exact Hget|]. split; [exact Hnd|exact Hr].
Defined.

(** ** The heap: its operations return and keep the items

    The recursion bounds given to [_heapify_up] and [_heapify_down] are
    never reached. The items are followed through a property [P] they all
    have and a weight [w] whose sum is kept. *)

Section HeapFacts.
Context {A : Type}.
Variable lt : A -> A -> bool.
Variable P : A -> Prop.
Variable w : A -> nat.

Definition total (l : list A) : nat := list_sum (map w l).

Lemma total_app (l1 l2 : list A) : total (l1 ++ l2) = (total l1 + total l2)%nat.
Proof. unfold total. rewrite map_app, list_sum_app. reflexivity. Qed.

Lemma total_insert (l : list A) : forall i x a,
  l !! i = Some a ->
  (total (<[i:=x]> l) + w a = total l + w x)%nat.
Proof.
  induction l as [|y l IH]; intros i x a Hi; [discriminate|].
  destruct i as [|i]; simpl in Hi.
  - injection Hi as ->. unfold total. simpl. lia.
  - specialize (IH i x a Hi). unfold total in *. simpl. lia.
Qed.

Lemma swap_spec (heap : list A) (i j : nat) :
  (i < length heap)%nat -> (j < length heap)%nat -> Forall P heap ->
  exists heap',
    MinHeap.swap heap i j = Ok heap' /\
    length heap' = length heap /\ Forall P heap' /\
    total heap' = total heap.
Proof.
  intros Hi Hj HP. unfold MinHeap.swap, MinHeap.at_index.
  destruct (lookup_lt_is_Some_2 heap i Hi) as [a Ha].
  destruct (lookup_lt_is_Some_2 heap j Hj) as [b Hb].
  rewrite Ha, Hb. cbn [of_option bind].
  eexists. split; [reflexivity|].
  split; [rewrite !length_insert; reflexivity|]. split.
  - apply Forall_insert; [apply Forall_insert; [exact HP|]|].
    + apply (Forall_lookup_1 P heap j b HP Hb).
    + apply (Forall_lookup_1 P heap i a HP Ha).
  - destruct (Nat.eq_dec i j) as [->|Hne].
    + assert (E : a = b) by congruence. subst b.
      rewrite list_insert_insert_eq, list_insert_id; [reflexivity|exact Ha].
    + pose proof (total_insert heap i b a Ha) as H1.
      assert (Hb' : <[i:=b]> heap !! j = Some b).
      { rewrite list_lookup_insert_ne; [exact Hb|exact Hne]. }
      pose proof (total_insert (<[i:=b]> heap) j a b Hb') as H2.
      lia.
Qed.

Lemma heapify_up_spec (fuel : nat) : forall heap index,
  (index < length heap)%nat -> (index < fuel)%nat -> Forall P heap ->
  exists heap',
    MinHeap._heapify_up lt fuel heap index = Ok heap' /\
    length heap' = length heap /\ Forall P heap' /\
    total heap' = total heap.
Proof.
  induction fuel as [|fuel IH]; intros heap index Hi Hf HP; [lia|].
  cbn [MinHeap._heapify_up].
  destruct (Nat.ltb_spec 0 index) as [Hpos|_];
    [|exists heap; repeat split; [exact HP]].
  assert (Hparent : ((index - 1) / 2 < index)%nat).
  { apply Nat.Div0.div_lt_upper_bound. lia. }
  unfold MinHeap.at_index at 1 2.
  destruct (lookup_lt_is_Some_2 heap index Hi) as [a Ha].
  destruct (lookup_lt_is_Some_2 heap ((index - 1) / 2)%nat
              ltac:(lia)) as [p Hp].
  rewrite Ha, Hp. cbn [of_option bind].
  destruct (lt a p); [|exists heap; repeat split; [exact HP]].
  destruct (swap_spec heap index ((index - 1) / 2)%nat Hi ltac:(lia) HP)
    as (heap1 & Hswap & Hlen1 & HP1 & Htot1).
  rewrite Hswap. cbn [bind].
  destruct (IH heap1 ((index - 1) / 2)%nat ltac:(lia) ltac:(lia) HP1)
    as (heap2 & Hrun & Hlen2 & HP2 & Htot2).
  exists heap2. split; [exact Hrun|].
  split; [congruence|]. split; [exact HP2|congruence].
Qed.

Lemma heappush_spec (heap : list A) (item : A) :
  Forall P heap -> P item ->
  exists heap',
    MinHeap.heappush lt heap item = Ok heap' /\
    length heap' = S (length heap) /\ Forall P heap' /\
    total heap' = (total heap + w item)%nat.
Proof.
  intros HP Hitem. unfold MinHeap.heappush.
  assert (HP' : Forall P (heap ++ [item])).
  { apply Forall_app. split; [exact HP|]. constructor; [exact Hitem|constructor]. }
  assert (Hlen : length (heap ++ [item]) = S (length heap)).
  { rewrite length_app. simpl. lia. }
  destruct (heapify_up_spec (length (heap ++ [item])) (heap ++ [item])
              (length (heap ++ [item]) - 1) ltac:(lia) ltac:(lia) HP')
    as (heap' & Hrun & Hlen' & HP2 & Htot).
  exists heap'. split; [exact Hrun|]. split; [congruence|].
  split; [exact HP2|]. rewrite Htot, total_app. unfold total. simpl. lia.
Qed.

Lemma heapify_down_spec (fuel : nat) : forall heap index,
  (length heap - index <= fuel)%nat -> (0 < fuel)%nat -> Forall P heap ->
  exists heap',
    MinHeap._heapify_down lt fuel heap index = Ok heap' /\
    length heap' = length heap /\ Forall P heap' /\
    total heap' = total heap.
Proof.
  induction fuel as [|fuel IH]; intros heap index Hf Hpos HP; [lia|].
  cbn [MinHeap._heapify_down].
  set (left := (2 * index + 1)%nat). set (right := (2 * index + 2)%nat).
  (* the first comparison *)
  assert (H1 : exists s1,
             (if (left <? length heap)%nat
              then let* l := MinHeap.at_index heap left in
                   let* s := MinHeap.at_index heap index in
                   Ok (if lt l s then left else index)
              else Ok index) = Ok s1 /\
             (s1 = index \/ s1 = left /\ (left < length heap)%nat)).
  { destruct (Nat.ltb_spec left (length heap)) as [Hl|_];
      [|exists index; split; [reflexivity|left; reflexivity]].
    unfold MinHeap.at_index.
    destruct (lookup_lt_is_Some_2 heap left Hl) as [l Hl'].
    destruct (lookup_lt_is_Some_2 heap index ltac:(unfold left in Hl; lia))
      as [s Hs'].
    rewrite Hl', Hs'. cbn [of_option bind].
    destruct (lt l s); eexists; (split; [reflexivity|]);
      [right; split; [reflexivity|exact Hl]|left; reflexivity]. }
  destruct H1 as (s1 & E1 & Hs1). rewrite E1. cbn [bind].
  assert (Hs1' : (s1 < length heap)%nat \/ (length heap <= left)%nat /\ s1 = index).
  { destruct (Nat.ltb_spec left (length heap)) as [Hl|Hl].
    - left. destruct Hs1 as [->|[-> _]]; unfold left in *; lia.
    - right. split; [exact Hl|]. destruct Hs1 as [->|[_ Hlt]]; [reflexivity|lia]. }
  assert (H2 : exists s2,
             (if (right <? length heap)%nat
              then let* r := MinHeap.at_index heap right in
                   let* s := MinHeap.at_index heap s1 in
                   Ok (if lt r s then right else s1)
              else Ok s1) = Ok s2 /\
             (s2 = s1 \/ s2 = right /\ (right < length heap)%nat)).
  { destruct (Nat.ltb_spec right (length heap)) as [Hr|_];
      [|exists s1; split; [reflexivity|left; reflexivity]].
    unfold MinHeap.at_index.
    destruct (lookup_lt_is_Some_2 heap right Hr) as [r Hr'].
    assert (Hs1lt : (s1 < length heap)%nat).
    { destruct Hs1' as [H|[H _]]; [exact H|unfold left, right in *; lia]. }
    destruct (lookup_lt_is_Some_2 heap s1 Hs1lt) as [s Hs'].
    rewrite Hr', Hs'. cbn [of_option bind].
    destruct (lt r s); eexists; (split; [reflexivity|]);
      [right; split; [reflexivity|exact Hr]|left; reflexivity]. }
  destruct H2 as (s2 & E2 & Hs2). rewrite E2. cbn [bind].
  destruct (Nat.eqb_spec s2 index) as [_|Hne];
    [exists heap; repeat split; exact HP|].
  assert (Hs2' : (index < s2)%nat /\ (s2 < length heap)%nat).
  { destruct Hs2 as [->|[-> Hr]]; [|unfold right in *; lia].
    destruct Hs1 as [->|[-> Hl]]; [contradiction|unfold left in *; lia]. }
  destruct (swap_spec heap index s2 ltac:(lia) ltac:(lia) HP)
    as (heap1 & Hswap & Hlen1 & HP1 & Htot1).
  rewrite Hswap. cbn [bind].
  destruct (IH heap1 s2 ltac:(lia) ltac:(lia) HP1)
    as (heap2 & Hrun & Hlen2 & HP2 & Htot2).
  exists heap2. split; [exact Hrun|].
  split; [congruence|]. split; [exact HP2|congruence].
Qed.

Lemma heappop_spec (heap : list A) :
  heap <> [] -> Forall P heap ->
  exists x heap',
    MinHeap.heappop lt heap = Ok (x, heap') /\
    P x /\ Forall P heap' /\ total heap = (w x + total heap')%nat.
Proof.
  intros Hne HP. destruct heap as [|root rest]; [contradiction|].
  apply Forall_cons in HP as HP0. destruct HP0 as [Hroot Hrest].
  destruct rest as [|y rest].
  { exists root, []. split; [reflexivity|]. split; [exact Hroot|].
    split; [constructor|]. unfold total. simpl. lia. }
  cbn [MinHeap.heappop].
  destruct (@exists_last _ (y :: rest) ltac:(discriminate)) as (p & x & Hp).
  assert (Hheap : root :: y :: rest = (root :: p) ++ [x]).
  { simpl. rewrite <- Hp. reflexivity. }
  rewrite Hheap. rewrite last_snoc. cbn [of_option bind].
  rewrite removelast_last. cbn [insert list_insert].
  assert (HPx : P x /\ Forall P p).
  { rewrite Hp in Hrest. apply Forall_app in Hrest as [Hp' Hx].
    apply Forall_cons in Hx as [Hx _]. split; assumption. }
  destruct HPx as [Hx Hp'].
  destruct (heapify_down_spec (length (x :: p)) (x :: p) 0
              ltac:(simpl; lia) ltac:(simpl; lia)
              ltac:(constructor; assumption))
    as (heap2 & Hrun & Hlen2 & HP2 & Htot2).
  rewrite Hrun. cbn [bind]. exists root, heap2.
  split; [reflexivity|]. split; [exact Hroot|]. split; [exact HP2|].
  rewrite Htot2, total_app. unfold total. simpl. lia.
Qed.
End HeapFacts.

(** ** The engine's calls return

    On a new directory every sequence of [put], [delete], [close] and
    [compact] calls returns: the files the engine reads are those it wrote,
    which decode, and the bound given to the merge loop is never reached. *)

Lemma lines_from_line (l : string) : forall acc rest,
  no_newline l = true ->
  lines_from acc (String.append l (String Json.newline rest)) =
  String.append acc (String.append l (String Json.newline EmptyString))
    :: lines_from EmptyString rest.
Proof.
  induction l as [|c l IH]; intros acc rest H.
  - reflexivity.
  - simpl in H. apply andb_prop in H as [Hc Hl].
    change (String.append (String c l) (String Json.newline rest))
      with (String c (String.append l (String Json.newline rest))).
    cbn [lines_from]. destruct (Ascii.eqb c Json.newline); [discriminate|].
    rewrite (IH _ _ Hl), append_assoc. reflexivity.
Qed.

Lemma lines_text_of (items : list kv) :
  lines (text_of items) =
  map (fun e => SSTable.record_line (fst e) (snd e)) items.
Proof.
  induction items as [|[k v] items IH]; [reflexivity|].
  cbn [text_of map fst snd]. rewrite <- IH.
  unfold SSTable.record_line at 1. rewrite append_assoc.
  change (String.append (String Json.newline EmptyString) (text_of items))
    with (String Json.newline (text_of items)).
  unfold lines. rewrite (lines_from_line _ _ _ (dumps_no_newline k v)).
  reflexivity.
Qed.

(** The line is a record [json.loads] accepts. *)
Definition decodable (line : string) : Prop :=
  exists k v, Json.loads line = Ok (k, v).

Lemma decodable_lines (items : list kv) : Forall decodable (lines (text_of items)).
Proof.
  rewrite lines_text_of. apply Forall_forall. intros line Hin.
  apply list_elem_of_In, in_map_iff in Hin as ([k v] & <- & _).
  exists k, v. apply loads_record_line.
Qed.

Lemma build_index_loop_ok (ls : list string) :
  Forall decodable ls ->
  forall off i, exists idx, SSTable.build_index_loop ls off i = Ok idx.
Proof.
  induction 1 as [|line ls (k & v & Hline) _ IH]; intros off i.
  - exists []. reflexivity.
  - cbn [SSTable.build_index_loop]. rewrite Hline.
    destruct (IH (off + String.length line)%nat (S i)) as (idx & ->).
    destruct (i mod SSTable.SPARSE_INDEX_STRIDE =? 0)%nat;
      cbn [bind]; eexists; reflexivity.
Qed.

Lemma sstable_init_ok (d : Dir) (f : base) :
  (forall text, data d !! f = Some text -> exists items, text = text_of items) ->
  exists s d', SSTable.init d f = Ok (s, d').
Proof.
  intros Hd. unfold SSTable.init.
  destruct (index d !! f) as [idx|]; [eexists _, _; reflexivity|].
  destruct (data d !! f) as [text|]; [|eexists _, _; reflexivity].
  destruct (Hd text eq_refl) as (items & ->).
  destruct (build_index_loop_ok _ (decodable_lines items) 0%nat 0%nat)
    as (idx & ->).
  eexists _, _. reflexivity.
Qed.

(** *** The merge *)

(** A heap item whose generator has only records left to yield, and what
    it stands for in the count of loop iterations left. *)
Definition item_ok (it : LSMTree.heap_item) : Prop :=
  Forall decodable (LSMTree.item_iter it).

Definition weight (it : LSMTree.heap_item) : nat :=
  S (length (LSMTree.item_iter it)).

Lemma push_next_ok (heap : list LSMTree.heap_item) (seg_idx : nat)
  (seg_iter : list string) :
  Forall item_ok heap -> Forall decodable seg_iter ->
  exists heap',
    LSMTree.push_next heap seg_idx seg_iter = Ok heap' /\
    Forall item_ok heap' /\
    total weight heap' = (total weight heap + length seg_iter)%nat.
Proof.
  intros Hheap Hiter. unfold LSMTree.push_next.
  destruct Hiter as [|line rest (k & v & Hline) Hrest].
  - exists heap. split; [reflexivity|]. split; [exact Hheap|]. simpl. lia.
  - rewrite Hline. cbn [bind].
    destruct (heappush_spec LSMTree.item_lt item_ok weight heap
                (LSMTree.mk_item k v seg_idx rest) Hheap Hrest)
      as (heap' & Hrun & _ & Hok & Htot).
    exists heap'. split; [exact Hrun|]. split; [exact Hok|].
    rewrite Htot. reflexivity.
Qed.

Lemma prime_ok (iters : list (list string)) : forall heap i,
  Forall item_ok heap -> Forall (Forall decodable) iters ->
  exists heap',
    LSMTree.prime heap iters i = Ok heap' /\
    Forall item_ok heap' /\
    total weight heap' = (total weight heap + length (concat iters))%nat.
Proof.
  induction iters as [|it iters IH]; intros heap i Hheap Hiters.
  - exists heap. split; [reflexivity|]. split; [exact Hheap|]. simpl. lia.
  - apply Forall_cons in Hiters as [Hit Hiters]. cbn [LSMTree.prime].
    destruct (push_next_ok heap i it Hheap Hit) as (heap1 & -> & Hok1 & Htot1).
    cbn [bind].
    destruct (IH heap1 (S i) Hok1 Hiters) as (heap2 & Hrun & Hok2 & Htot2).
    exists heap2. split; [exact Hrun|]. split; [exact Hok2|].
    rewrite Htot2, Htot1. simpl. rewrite length_app. lia.
Qed.

(** The temporary file holds records. *)
Definition temp_ok (d : Dir) (temp : base) : Prop :=
  exists items, data d !! temp = Some (text_of items).

(** The key being accumulated has a value. *)
Definition last_ok (m : LSMTree.merge_state) : Prop :=
  forall lk, LSMTree.last_key m = Some lk ->
             is_Some (LSMTree.merged_data m !! lk).

Section TotalFacts.
Variable md5_int : string -> Z.

Lemma emit_last_ok (temp : base) (m : LSMTree.merge_state) (d : Dir) :
  last_ok m -> temp_ok d temp ->
  exists keys d',
    LSMTree.emit_last md5_int temp m d = Ok (keys, d') /\
    temp_ok d' temp /\
    forall f, f <> temp -> data d' !! f = data d !! f.
Proof.
  intros Hlast Htemp. unfold LSMTree.emit_last.
  destruct (LSMTree.last_key m) as [lk|] eqn:Hlk;
    [|exists (LSMTree.all_keys m), d; repeat split; exact Htemp].
  destruct (Hlast lk Hlk) as [v Hv]. rewrite Hv.
  destruct (String.eqb v TOMBSTONE);
    [exists (LSMTree.all_keys m), d; repeat split; exact Htemp|].
  destruct (write_from_memtable_eq md5_int d temp {[lk := v]} true)
    as (bf & _ & ->).
  cbn [bind]. eexists _, _. split; [reflexivity|].
  split.
  - destruct Htemp as (items & Hitems). unfold temp_ok. cbn [data].
    rewrite Hitems, lookup_insert_eq. cbn [default].
    eexists (items ++ _). rewrite text_of_app. reflexivity.
  - intros f Hf. cbn [data]. apply lookup_insert_ne. congruence.
Qed.

Lemma merge_loop_ok (fuel : nat) : forall temp m d,
  Forall item_ok (LSMTree.min_heap m) ->
  (total weight (LSMTree.min_heap m) <= fuel)%nat ->
  last_ok m -> temp_ok d temp ->
  exists m' d',
    LSMTree.merge_loop md5_int fuel temp m d = Ok (m', d') /\
    last_ok m' /\ temp_ok d' temp /\
    forall f, f <> temp -> data d' !! f = data d !! f.
Proof.
  induction fuel as [|fuel IH]; intros temp m d Hheap Hfuel Hlast Htemp.
  - destruct m as [heap lk merged keys]. cbn [LSMTree.min_heap] in *.
    destruct heap as [|x heap]; [|unfold total in Hfuel; simpl in Hfuel; lia].
    exists (LSMTree.mk_merge [] lk merged keys), d.
    repeat split; assumption.
  - cbn [LSMTree.merge_loop].
    destruct (LSMTree.min_heap m) as [|x heap0] eqn:Hm.
    { exists m, d. repeat split; assumption. }
    destruct (heappop_spec LSMTree.item_lt item_ok weight (x :: heap0)
                ltac:(discriminate) Hheap)
      as (item & heap1 & -> & Hitem & Hheap1 & Htot).
    cbn [bind].
    (* the record accumulated for the previous key *)
    assert (Hemit : exists keys d1 lk,
               (if match LSMTree.last_key m with
                   | Some lk => String.eqb (LSMTree.item_key item) lk
                   | None => false
                   end
                then Ok (LSMTree.all_keys m, d, LSMTree.last_key m)
                else
                  let* (keys, d) := LSMTree.emit_last md5_int temp m d in
                  Ok (keys, d, Some (LSMTree.item_key item))) =
               Ok (keys, d1, lk) /\
               lk = Some (LSMTree.item_key item) /\
               temp_ok d1 temp /\
               forall f, f <> temp -> data d1 !! f = data d !! f).
    { destruct (LSMTree.last_key m) as [lk|] eqn:Hlk.
      - destruct (String.eqb_spec (LSMTree.item_key item) lk) as [E|_].
        + eexists _, _, _. split; [reflexivity|].
          split; [congruence|]. split; [exact Htemp|reflexivity].
        + destruct (emit_last_ok temp m d Hlast Htemp)
            as (keys & d1 & -> & Htemp1 & Hframe1).
          cbn [bind]. eexists _, _, _. split; [reflexivity|].
          split; [reflexivity|]. split; assumption.
      - destruct (emit_last_ok temp m d Hlast Htemp)
          as (keys & d1 & -> & Htemp1 & Hframe1).
        cbn [bind]. eexists _, _, _. split; [reflexivity|].
        split; [reflexivity|]. split; assumption. }
    destruct Hemit as (keys & d1 & lk & -> & -> & Htemp1 & Hframe1).
    cbn [bind].
    destruct (push_next_ok heap1 (LSMTree.item_seg item)
                (LSMTree.item_iter item) Hheap1 Hitem)
      as (heap2 & -> & Hheap2 & Htot2).
    cbn [bind].
    destruct (IH temp
                (LSMTree.mk_merge heap2 (Some (LSMTree.item_key item))
                   (<[LSMTree.item_key item:=LSMTree.item_value item]>
                      (LSMTree.merged_data m)) keys) d1)
      as (m' & d' & Hrun & Hlast' & Htemp' & Hframe').
    + exact Hheap2.
    + cbn [LSMTree.min_heap].
      assert (weight item = S (length (LSMTree.item_iter item)))
        by reflexivity.
      lia.
    + intros lk' [= <-]. cbn [LSMTree.merged_data].
      rewrite lookup_insert_eq. eexists; reflexivity.
    + exact Htemp1.
    + exists m', d'. split; [exact Hrun|]. split; [exact Hlast'|].
      split; [exact Htemp'|].
      intros f Hf. rewrite (Hframe' f Hf). apply (Hframe1 f Hf).
Qed.

Lemma remove_segments_ok (segs : list SSTable.t) : forall d,
  NoDup (map SSTable.filename segs) ->
  (forall seg, In seg segs -> is_Some (data d !! SSTable.filename seg)) ->
  exists d',
    LSMTree.remove_segments d segs = Ok d' /\
    forall f, ~ In f (map SSTable.filename segs) ->
              data d' !! f = data d !! f.
Proof.
  induction segs as [|seg segs IH]; intros d Hnd Hex.
  - exists d. split; [reflexivity|]. reflexivity.
  - cbn [map] in Hnd. apply NoDup_cons in Hnd as [Hseg Hnd].
    cbn [LSMTree.remove_segments].
    destruct (Hex seg (or_introl eq_refl)) as [text ->].
    set (d1 := mkDir (stdpp.base.delete (SSTable.filename seg) (data d))
                 (stdpp.base.delete (SSTable.filename seg) (index d))
                 (stdpp.base.delete (SSTable.filename seg) (bloom d))
                 (wal d)).
    destruct (IH d1 Hnd) as (d' & Hrun & Hframe).
    + intros seg' Hin. cbn [d1 data].
      rewrite lookup_delete_ne; [apply Hex; right; exact Hin|].
      intros E. apply Hseg. rewrite E. apply list_elem_of_In.
      apply in_map. exact Hin.
    + exists d'. split; [exact Hrun|].
      intros f Hf. rewrite Hframe.
      * cbn [d1 data]. apply lookup_delete_ne.
        intros E. apply Hf. left. exact E.
      * intros Hin. apply Hf. right. exact Hin.
Qed.

(** *** The segments of a running engine *)

(** The segments have files of their own, numbered below the counter and
    holding records. *)
Definition seg_inv (s : LSMTree.t) (d : Dir) : Prop :=
  NoDup (map SSTable.filename (LSMTree.segments s)) /\
  forall seg, In seg (LSMTree.segments s) ->
    exists n items,
      SSTable.filename seg = Numbered n /\
      (n < LSMTree.segment_counter s)%nat /\
      data d !! Numbered n = Some (text_of items).

Lemma flush_ok (s : LSMTree.t) (d : Dir) :
  mem_inv s d -> seg_inv s d ->
  exists s' d',
    LSMTree._flush_memtable md5_int s d = Ok (s', d') /\ seg_inv s' d'.
Proof.
  intros Hmem (Hnd & Hsegs). unfold LSMTree._flush_memtable.
  rewrite (mem_inv_items s d Hmem). cbn [bind].
  destruct (replay [] (log d)) as [|it items];
    [exists s, d; split; [reflexivity|split; assumption]|].
  set (f := Numbered (LSMTree.segment_counter s)).
  destruct (write_from_memtable_eq md5_int d f (dict_of (it :: items)) false)
    as (bf & _ & ->).
  cbn [bind]. unfold SSTable.init at 1. cbn [index bloom data].
  rewrite !lookup_insert_eq. cbn [bind].
  match goal with
  | |- context [BTree.init 5 (wal ?d2)] =>
      destruct (init_spec 5 degree_ok (wal d2)) as (h & r & -> & _)
  end.
  cbn [bind]. eexists _, _. split; [reflexivity|].
  unfold seg_inv.
  cbn [LSMTree.segments LSMTree.segment_counter set_wal data]. split.
  - rewrite map_app. apply NoDup_app. split; [exact Hnd|].
    split; [|apply NoDup_singleton].
    intros f' Hin Hin'. apply list_elem_of_In in Hin, Hin'.
    destruct Hin' as [<-|[]].
    apply in_map_iff in Hin as (seg & E & Hin).
    destruct (Hsegs seg Hin) as (n & _ & Hn & Hlt & _).
    cbn [SSTable.filename] in E. unfold f in E. rewrite Hn in E.
    injection E as ->. lia.
  - intros seg Hin. apply in_app_iff in Hin as [Hin|[<-|[]]].
    + destruct (Hsegs seg Hin) as (n & its & Hn & Hlt & Hdata).
      exists n, its. split; [exact Hn|]. split; [lia|].
      rewrite lookup_insert_ne; [exact Hdata|].
      unfold f. intros [= E]. lia.
    + eexists _, _. split; [reflexivity|]. split; [lia|].
      rewrite lookup_insert_eq. reflexivity.
Qed.

Lemma put_ok (s : LSMTree.t) (d : Dir) (k v : string) :
  mem_inv s d -> seg_inv s d ->
  exists s' d',
    LSMTree.put md5_int s d k v = Ok (s', d') /\ seg_inv s' d'.
Proof.
  intros (h & r & Hm & Hinv & Hf) Hseg. unfold LSMTree.put.
  rewrite Hm.
  destruct (insert_spec 5 degree_ok h r (WriteAheadLog.init (wal d)) k v true
              Hinv) as (h1 & r1 & -> & Hinv1 & Hf1).
  cbn [bind]. cbn [LSMTree.memtable_threshold].
  set (s1 := LSMTree.mk (BTree.mk r1 5) (LSMTree.memtable_threshold s)
               (LSMTree.segments s) (LSMTree.segment_counter s)).
  set (d1 := set_wal d (Some (WriteAheadLog.write
                                (WriteAheadLog.init (wal d)) "insert" k v))).
  assert (Hmem1 : mem_inv s1 d1).
  { exists h1, r1. split; [reflexivity|]. split; [exact Hinv1|].
    rewrite Hf1, Hf.
    change (log d1) with (log d ++ entries_of [(k, v)]).
    rewrite replay_app. reflexivity. }
  assert (Hseg1 : seg_inv s1 d1) by exact Hseg.
  change (BTree.items (BTree.mk r1 5)) with (BTree.items (LSMTree.memtable s1)).
  rewrite (mem_inv_items s1 d1 Hmem1). cbn [bind].
  destruct (LSMTree.memtable_threshold s <=? _).
  - apply (flush_ok s1 d1 Hmem1 Hseg1).
  - exists s1, d1. split; [reflexivity|exact Hseg1].
Qed.

Lemma compact_ok (s : LSMTree.t) (d : Dir) (now : Z) :
  seg_inv s d ->
  exists s' d',
    LSMTree.compact md5_int s d now = Ok (s', d') /\ seg_inv s' d'.
Proof.
  intros (Hnd & Hsegs). unfold LSMTree.compact.
  destruct (length (LSMTree.segments s) <? 2)%nat;
    [exists s, d; split; [reflexivity|split; assumption]|].
  set (temp := TempCompacted now).
  set (compacted := Numbered (LSMTree.segment_counter s)).
  (* every segment is read from the file it has *)
  assert (Hiters : Forall (Forall decodable)
                     (map (SSTable.read_iter d) (LSMTree.segments s))).
  { apply Forall_forall. intros it Hin.
    apply list_elem_of_In, in_map_iff in Hin as (seg & <- & Hin).
    destruct (Hsegs seg Hin) as (n & items & Hn & _ & Hdata).
    unfold SSTable.read_iter. rewrite Hn, Hdata. apply decodable_lines. }
  destruct (prime_ok _ [] 0%nat ltac:(constructor) Hiters)
    as (heap & -> & Hheap & Htot).
  cbn [bind].
  set (d0 := set_data d (<[temp:=EmptyString]> (data d))).
  assert (Htemp0 : temp_ok d0 temp).
  { exists []. cbn [d0 set_data data]. apply lookup_insert_eq. }
  set (fuel := S (length heap + length (concat (map (SSTable.read_iter d)
                                                  (LSMTree.segments s))))).
  destruct (merge_loop_ok fuel temp (LSMTree.mk_merge heap None ∅ []) d0)
    as (m & d1 & -> & Hlast1 & Htemp1 & Hframe1).
  { exact Hheap. }
  { cbn [LSMTree.min_heap]. rewrite Htot. unfold total at 1, fuel. simpl. lia. }
  { intros lk. discriminate. }
  { exact Htemp0. }
  cbn [bind].
  destruct (emit_last_ok temp m d1 Hlast1 Htemp1)
    as (keys & d2 & -> & Htemp2 & Hframe2).
  cbn [bind].
  assert (Hsz : 1 <= Z.max 100 (Z.of_nat (length keys) * 10)) by lia.
  destruct (add_all_spec md5_int keys
              (BloomFilter.init (Z.max 100 (Z.of_nat (length keys) * 10)) 5)
              (init_wf _ 5 Hsz)) as (bf & -> & _).
  cbn [bind]. cbn [set_bloom data].
  destruct Htemp2 as (emitted & Hemitted). rewrite Hemitted.
  cbn [of_option bind].
  (* the files of the old segments are still there *)
  set (d3 := set_data _ _).
  assert (Hold : forall f, f <> temp -> f <> compacted ->
                           data d3 !! f = data d !! f).
  { intros f Hf1 Hf2. cbn [d3 set_data data].
    rewrite lookup_insert_ne by congruence.
    rewrite lookup_delete_ne by congruence.
    rewrite (Hframe2 f Hf1), (Hframe1 f Hf1).
    cbn [d0 set_data data]. apply lookup_insert_ne. congruence. }
  assert (Hnames : forall seg, In seg (LSMTree.segments s) ->
            SSTable.filename seg <> temp /\ SSTable.filename seg <> compacted).
  { intros seg Hin. destruct (Hsegs seg Hin) as (n & _ & Hn & Hlt & _).
    rewrite Hn. unfold temp, compacted. split; [discriminate|].
    intros [= E]. lia. }
  destruct (remove_segments_ok (LSMTree.segments s) d3 Hnd)
    as (d4 & -> & Hframe4).
  { intros seg Hin. destruct (Hnames seg Hin) as (Hn1 & Hn2).
    rewrite (Hold _ Hn1 Hn2).
    destruct (Hsegs seg Hin) as (n & items & Hn & _ & Hdata).
    rewrite Hn, Hdata. eexists; reflexivity. }
  cbn [bind].
  assert (Hnew : data d4 !! compacted = Some (text_of emitted)).
  { rewrite Hframe4.
    - cbn [d3 set_data data]. apply lookup_insert_eq.
    - intros Hin. apply in_map_iff in Hin as (seg & E & Hin).
      destruct (Hnames seg Hin) as (_ & Hn2). contradiction. }
  destruct (sstable_init_ok d4 compacted) as (seg & d5 & Hinit).
  { intros text Ht. rewrite Hnew in Ht. injection Ht as <-.
    exists emitted. reflexivity. }
  rewrite Hinit. cbn [bind]. eexists _, _. split; [reflexivity|].
  apply sstable_init_frame in Hinit as (_ & Hdata5 & _ & Hname).
  unfold seg_inv. cbn [LSMTree.segments LSMTree.segment_counter]. split.
  - apply NoDup_singleton.
  - intros seg' [<-|[]]. exists (LSMTree.segment_counter s), emitted.
    split; [exact Hname|]. split; [lia|]. rewrite Hdata5. exact Hnew.
Qed.

(** The call is not a reopening of the engine. *)
Definition keeps_open (o : LSMTree.op) : bool :=
  match o with
  | LSMTree.Reopen _ => false
  | _ => true
  end.

Lemma run_ok (ops : list LSMTree.op) : forall s d,
  forallb keeps_open ops = true ->
  mem_inv s d -> seg_inv s d ->
  exists s' d', LSMTree.run md5_int s d ops = Ok (s', d').
Proof.
  induction ops as [|o ops IH]; intros s d Hops Hmem Hseg.
  - exists s, d. reflexivity.
  - cbn [forallb] in Hops. apply andb_prop in Hops as [Ho Hops].
    assert (Hstep : exists s1 d1,
               LSMTree.step md5_int s d o = Ok (s1, d1) /\ seg_inv s1 d1).
    { destruct o as [k v|k| |now|threshold]; cbn [LSMTree.step].
      - apply (put_ok s d k v Hmem Hseg).
      - apply (put_ok s d k TOMBSTONE Hmem Hseg).
      - apply (flush_ok s d Hmem Hseg).
      - apply (compact_ok s d now Hseg).
      - discriminate. }
    destruct Hstep as (s1 & d1 & Hstep & Hseg1).
    destruct (step_spec md5_int s d o s1 d1 Hmem Hstep) as (Hmem1 & _).
    cbn [LSMTree.run]. rewrite Hstep. cbn [bind].
    apply (IH s1 d1 Hops Hmem1 Hseg1).
Qed.

(** A new engine on an empty directory, then any calls that keep it
    open: all return. *)
Theorem run_returns (threshold : Z) (ops : list LSMTree.op) :
  forallb keeps_open ops = true ->
  exists s0 d1 s d,
    LSMTree.init empty_dir threshold = Ok (s0, d1) /\
    LSMTree.run md5_int s0 d1 ops = Ok (s, d).
Proof.
  intros Hops.
  assert (Hinit : LSMTree.init empty_dir threshold =
                  Ok (LSMTree.mk (BTree.mk (BTree.new_node true) 5)
                        threshold [] 0,
                      set_wal empty_dir (Some []))).
  { vm_compute. reflexivity. }
  destruct (lsm_init_spec _ _ _ _ Hinit) as (Hmem & _).
  destruct (run_ok ops _ _ Hops Hmem) as (s & d & Hrun).
  { split; [constructor|]. intros seg []. }
  eexists _, _, s, d. split; [exact Hinit|exact Hrun].
Qed.
End TotalFacts.

(** * The standalone B-Tree engine: [put], [get], [delete], [items] *)

(** The pair each call writes: [delete] writes the tombstone. *)
Definition btree_writes (calls : list btree_call) : list kv :=
  map (fun c =>
         match c with
         | BPut k v => (k, v)
         | BDelete k => (k, TOMBSTONE)
         end) calls.

Lemma btree_run_insert_all calls : forall b file,
  btree_run b file calls = BTree.insert_all b file (btree_writes calls).
Proof.
  induction calls as [|c calls IH]; intros b file; [reflexivity|].
  destruct c as [k v|k]; simpl; unfold BTree.put, BTree.delete;
    (destruct (BTree.insert b file _ _ true) as [[b' file']|e];
     [simpl; apply IH|reflexivity]).
Qed.

(** The depths at which the leaves of a subtree lie. *)
Fixpoint leaf_depths (x : BTree.BTreeNode) : list nat :=
  match x with
  | BTree.mkNode lf _ _ cs =>
      if lf then [0%nat] else map S (concat (map leaf_depths cs))
  end.

(** An internal node has one more child than keys. *)
Definition fanout_ok (x : BTree.BTreeNode) : Prop :=
  BTree.leaf x = false ->
  length (BTree.child x) = S (length (BTree.keys x)).

Lemma sorted_NoDup (l : list kv) : sorted l -> NoDup (keys_of l).
Proof.
  unfold sorted. induction (keys_of l) as [|k ks IH]; intros Hs.
  - apply NoDup_nil. trivial.
  - apply StronglySorted_inv in Hs as [Hs Hk]. apply NoDup_cons. split.
    + intros Hin. rewrite Forall_forall in Hk.
      apply (slt_irrefl k). apply Hk. exact Hin.
    + apply IH. exact Hs.
Qed.

Lemma assoc_in_sorted (l : list kv) k v :
  sorted l -> (In (k, v) l <-> assoc k l = Some v).
Proof.
  intros Hs. split.
  - apply assoc_in_nodup. apply sorted_NoDup. exact Hs.
  - apply assoc_Some_in.
Qed.

(** Lines of the log that are not [insert] lines change nothing when the log
    is replayed. *)
Definition is_insert (e : WriteAheadLog.log_entry) : bool :=
  String.eqb (WriteAheadLog.op e) "insert".

Lemma replay_filter entries : forall l,
  replay l (List.filter is_insert entries) = replay l entries.
Proof.
  unfold replay.
  induction entries as [|e entries IH]; intros l; [reflexivity|].
  simpl. unfold is_insert at 1. unfold apply_entry at 3.
  destruct (String.eqb (WriteAheadLog.op e) "insert") eqn:E.
  - simpl. unfold apply_entry at 2. rewrite E. apply IH.
  - apply IH.
Qed.

Section BTreeSessions.
Import BTree.

Variable t : nat.
Hypothesis Ht : (2 <= t)%nat.

(** A tree opened on a log and used through [put] and [delete]. *)
Lemma btree_session (file0 : option WriteAheadLog.log_file)
  (calls : list btree_call) :
  exists h0 r0 h r,
    init t file0 = Ok (mk r0 t, WriteAheadLog.init file0) /\
    tree_inv t h0 r0 /\
    flat r0 = replay [] (WriteAheadLog.init file0) /\
    btree_run (mk r0 t) (WriteAheadLog.init file0) calls =
      Ok (mk r t,
          WriteAheadLog.init file0 ++ entries_of (btree_writes calls)) /\
    tree_inv t h r /\
    flat r = upsert_all (flat r0) (btree_writes calls).
Proof.
  destruct (init_spec t Ht file0) as (h0 & r0 & Hinit & Hinv0 & Hf0).
  destruct (insert_all_spec t Ht (btree_writes calls) h0 r0
              (WriteAheadLog.init file0) Hinv0)
    as (h & r & Hrun & Hinv & Hf).
  exists h0, r0, h, r. rewrite btree_run_insert_all.
  repeat (split; [assumption|]). assumption.
Qed.

Lemma get_assoc h r k :
  tree_inv t h r -> get (mk r t) k = Ok (assoc k (flat r)).
Proof.
  intros (Hwf & _ & Hs). unfold get, search. simpl.
  apply (search_node_assoc t k h r Hwf Hs).
Qed.

Lemma wf_leaf_depths : forall h x,
  wf t h x -> Forall (eq h) (leaf_depths x).
Proof.
  induction h as [|h IH]; intros [lf ks vs cs]; simpl; intros (_ & Hrest).
  - destruct Hrest as [-> _]. constructor; [reflexivity|constructor].
  - destruct Hrest as (-> & _ & Hwf & _).
    rewrite List.Forall_map.
    induction cs as [|c cs IHcs]; simpl; [constructor|].
    apply Forall_cons in Hwf as [Hc Hwf].
    apply Forall_app. split; [|apply IHcs; exact Hwf].
    eapply Forall_impl; [apply IH; exact Hc|].
    intros n ->. reflexivity.
Qed.

Lemma wf_fanout : forall h x, wf t h x -> Forall fanout_ok (nodes x).
Proof.
  induction h as [|h IH]; intros [lf ks vs cs]; simpl; intros (_ & Hrest).
  - destruct Hrest as [-> ->]. simpl.
    constructor; [|constructor]. intros H. discriminate H.
  - destruct Hrest as (-> & Hlc & Hwf & _).
    constructor; [intros _; exact Hlc|].
    clear Hlc. induction cs as [|c cs IHcs]; simpl; [constructor|].
    apply Forall_cons in Hwf as [Hc Hwf].
    apply Forall_app. split; [apply IH; exact Hc|apply IHcs; exact Hwf].
Qed.

(** X1 (B-Tree [put], [get], [delete]): on a tree of minimum degree
    [t >= 2] opened on any log, every sequence of [put] and [delete] calls
    returns, and [get(k)] then returns the value of the last [put] on [k],
    the tombstone string itself when the last call on [k] was a [delete],
    and what the tree answered when it was opened for a key no call wrote
    to; a tree opened on a missing or empty log answers [None]. *)
Theorem btree_get_last_write (file0 : option WriteAheadLog.log_file)
  (calls : list btree_call) :
  exists b0 b1 log,
    init t file0 = Ok (b0, WriteAheadLog.init file0) /\
    btree_run b0 (WriteAheadLog.init file0) calls = Ok (b1, log) /\
    (forall k,
        get b1 k =
        match last_write k (btree_writes calls) with
        | Some v => Ok (Some v)
        | None => get b0 k
        end) /\
    (WriteAheadLog.init file0 = [] -> forall k, get b0 k = Ok None).
Proof.
  destruct (btree_session file0 calls)
    as (h0 & r0 & h & r & Hinit & Hinv0 & Hf0 & Hrun & Hinv & Hf).
  eexists (mk r0 t), (mk r t), _.
  split; [exact Hinit|]. split; [exact Hrun|]. split.
  - intros k. rewrite (get_assoc h r k Hinv), (get_assoc h0 r0 k Hinv0).
    rewrite Hf, assoc_upsert_all.
    destruct (last_write k (btree_writes calls)); reflexivity.
  - intros Hempty k. rewrite (get_assoc h0 r0 k Hinv0), Hf0, Hempty.
    reflexivity.
Qed.

(** X2 (B-Tree [items]): after any [put] and [delete] calls on a tree
    opened on any log, [items()] returns a list in strictly ascending key
    order, so with no key twice, and [(k, v)] is in it exactly when
    [get(k)] returns [v]: deleted keys are listed with the tombstone. *)
Theorem btree_items_sorted (file0 : option WriteAheadLog.log_file)
  (calls : list btree_call) :
  exists b0 b1 log l,
    init t file0 = Ok (b0, WriteAheadLog.init file0) /\
    btree_run b0 (WriteAheadLog.init file0) calls = Ok (b1, log) /\
    items b1 = Ok l /\
    StronglySorted slt (map fst l) /\
    (forall k v, In (k, v) l <-> get b1 k = Ok (Some v)).
Proof.
  destruct (btree_session file0 calls)
    as (h0 & r0 & h & r & Hinit & Hinv0 & Hf0 & Hrun & Hinv & Hf).
  eexists (mk r0 t), (mk r t), _, (flat r).
  split; [exact Hinit|]. split; [exact Hrun|].
  pose proof Hinv as (Hwf & _ & Hs).
  split; [apply (items_flat t h r Hwf)|]. split; [exact Hs|].
  intros k v. rewrite (get_assoc h r k Hinv).
  rewrite (assoc_in_sorted (flat r) k v Hs).
  split; [intros ->; reflexivity|intros E; injection E as E; exact E].
Qed.

(** X3 (B-Tree balance): after any [put] and [delete] calls on a tree
    opened on any log, all the leaves of the tree lie at the same depth and
    every internal node has one more child than keys. *)
Theorem btree_balanced (file0 : option WriteAheadLog.log_file)
  (calls : list btree_call) :
  exists b0 b1 log depth,
    init t file0 = Ok (b0, WriteAheadLog.init file0) /\
    btree_run b0 (WriteAheadLog.init file0) calls = Ok (b1, log) /\
    Forall (eq depth) (leaf_depths (root b1)) /\
    Forall fanout_ok (nodes (root b1)).
Proof.
  destruct (btree_session file0 calls)
    as (h0 & r0 & h & r & Hinit & Hinv0 & Hf0 & Hrun & Hinv & Hf).
  eexists (mk r0 t), (mk r t), _, h.
  split; [exact Hinit|]. split; [exact Hrun|].
  destruct Hinv as (Hwf & _).
  split; [apply wf_leaf_depths; exact Hwf|apply (wf_fanout h); exact Hwf].
Qed.

(** X4 (the log of a B-Tree): every [put] and every [delete] on a tree
    opened on a log appends one line to the log, also when the key is
    already in the tree; the line of a [delete] is an [insert] line that
    carries the tombstone, and the lines the log held are left as they
    were. *)
Theorem btree_log_lines (file0 : option WriteAheadLog.log_file)
  (calls : list btree_call) :
  exists b0 b1,
    init t file0 = Ok (b0, WriteAheadLog.init file0) /\
    btree_run b0 (WriteAheadLog.init file0) calls =
      Ok (b1,
          WriteAheadLog.init file0 ++
          map (fun c =>
                 match c with
                 | BPut k v => WriteAheadLog.mk_entry "insert" k v
                 | BDelete k => WriteAheadLog.mk_entry "insert" k TOMBSTONE
                 end) calls).
Proof.
  destruct (btree_session file0 calls)
    as (h0 & r0 & h & r & Hinit & Hinv0 & Hf0 & Hrun & Hinv & Hf).
  exists (mk r0 t), (mk r t). split; [exact Hinit|].
  rewrite Hrun. do 3 f_equal. unfold entries_of, btree_writes.
  rewrite map_map. apply map_ext. intros [k v|k]; reflexivity.
Qed.

(** X5 (recovery reads [insert] lines only): a tree built on a log answers
    every [get] as a tree built on the [insert] lines of that log does;
    lines with any other operation are skipped, and the log is not
    written to. *)
Theorem btree_recover_inserts_only (file : WriteAheadLog.log_file) :
  exists b1 b2,
    init t (Some file) = Ok (b1, file) /\
    init t (Some (List.filter is_insert file)) =
      Ok (b2, List.filter is_insert file) /\
    forall k, get b1 k = get b2 k.
Proof.
  destruct (init_spec t Ht (Some file)) as (h1 & r1 & Hi1 & Hinv1 & Hf1).
  destruct (init_spec t Ht (Some (List.filter is_insert file)))
    as (h2 & r2 & Hi2 & Hinv2 & Hf2).
  simpl WriteAheadLog.init in *.
  exists (mk r1 t), (mk r2 t). split; [exact Hi1|]. split; [exact Hi2|].
  intros k. rewrite (get_assoc h1 r1 k Hinv1), (get_assoc h2 r2 k Hinv2).
  rewrite Hf1, Hf2, replay_filter. reflexivity.
Qed.

End BTreeSessions.

Lemma btree_get_last_write_witness :
  (2 <= 2)%nat /\
  exists b0 b1 log,
    BTree.init 2 None = Ok (b0, WriteAheadLog.init None) /\
    btree_run b0 (WriteAheadLog.init None)
      [BPut "a" "1"; BPut "b" "2"; BDelete "a"; BPut "b" "3"]%string
    = Ok (b1, log) /\
    (forall k,
        BTree.get b1 k =
        match last_write k
                (btree_writes
                   [BPut "a" "1"; BPut "b" "2"; BDelete "a"; BPut "b" "3"]%string)
        with
        | Some v => Ok (Some v)
        | None => BTree.get b0 k
        end) /\
    (WriteAheadLog.init None = [] -> forall k, BTree.get b0 k = Ok None).
Proof.
  split; [lia|].
  apply (btree_get_last_write 2 ltac:(lia)).
Defined.

Lemma btree_items_sorted_witness :
  (2 <= 2)%nat /\
  exists b0 b1 log l,
    BTree.init 2 None = Ok (b0, WriteAheadLog.init None) /\
    btree_run b0 (WriteAheadLog.init None)
      [BPut "c" "3"; BPut "a" "1"; BDelete "c"; BPut "b" "2"]%string
    = Ok (b1, log) /\
    BTree.items b1 = Ok l /\
    StronglySorted slt (map fst l) /\
    (forall k v, In (k, v) l <-> BTree.get b1 k = Ok (Some v)).
Proof.
  split; [lia|].
  apply (btree_items_sorted 2 ltac:(lia)).
Defined.

Lemma btree_balanced_witness :
  (2 <= 2)%nat /\
  exists b0 b1 log depth,
    BTree.init 2 None = Ok (b0, WriteAheadLog.init None) /\
    btree_run b0 (WriteAheadLog.init None)
      [BPut "d" "4"; BPut "b" "2"; BPut "a" "1"; BPut "c" "3"; BPut "e" "5";
       BDelete "b"]%string
    = Ok (b1, log) /\
    Forall (eq depth) (leaf_depths (BTree.root b1)) /\
    Forall fanout_ok (nodes (BTree.root b1)).
Proof.
  split; [lia|].
  apply (btree_balanced 2 ltac:(lia)).
Defined.

Lemma btree_log_lines_witness :
  (2 <= 5)%nat /\
  exists b0 b1,
    BTree.init 5 (Some [WriteAheadLog.mk_entry "insert" "a" "0"]%string) =
      Ok (b0, [WriteAheadLog.mk_entry "insert" "a" "0"]%string) /\
    btree_run b0 [WriteAheadLog.mk_entry "insert" "a" "0"]%string
      [BPut "a" "1"; BDelete "a"]%string
    = Ok (b1,
          [WriteAheadLog.mk_entry "insert" "a" "0";
           WriteAheadLog.mk_entry "insert" "a" "1";
           WriteAheadLog.mk_entry "insert" "a" TOMBSTONE]%string).
Proof.
  split; [lia|].
  apply (btree_log_lines 5 ltac:(lia)
           (Some [WriteAheadLog.mk_entry "insert" "a" "0"]%string)
           [BPut "a" "1"; BDelete "a"]%string).
Defined.

Lemma btree_recover_inserts_only_witness :
  (2 <= 5)%nat /\
  exists b1 b2,
    BTree.init 5
      (Some [WriteAheadLog.mk_entry "insert" "a" "1";
             WriteAheadLog.mk_entry "remove" "a" "1"]%string) =
      Ok (b1, [WriteAheadLog.mk_entry "insert" "a" "1";
               WriteAheadLog.mk_entry "remove" "a" "1"]%string) /\
    BTree.init 5
      (Some (List.filter is_insert
               [WriteAheadLog.mk_entry "insert" "a" "1";
                WriteAheadLog.mk_entry "remove" "a" "1"]%string)) =
      Ok (b2, List.filter is_insert
                [WriteAheadLog.mk_entry "insert" "a" "1";
                 WriteAheadLog.mk_entry "remove" "a" "1"]%string) /\
    forall k, BTree.get b1 k = BTree.get b2 k.
Proof.
  split; [lia|].
  apply (btree_recover_inserts_only 5 ltac:(lia)).
Defined.

(** * More on the bloom filter: edge cases and monotonicity *)

Section BloomFilterEdges.
Variable md5_int : string -> Z.
Import BloomFilter.

(** A positive answer means every bit looked up is set. *)
Lemma contains_loop_bits bf item n : forall i,
  bf_wf bf ->
  contains_loop md5_int bf item i n = Ok true ->
  forall j h, (i <= j < i + n)%nat ->
              hash_at md5_int bf item j = Ok h ->
              bit_set (bit_array bf) h.
Proof.
  induction n as [|n IH]; intros i Hwf Hc j h Hj Hh; [lia|].
  simpl in Hc.
  destruct (hash_at_ok md5_int bf item i Hwf) as (hi & Hi & Hrange).
  rewrite Hi in Hc. simpl in Hc. unfold getitem in Hc.
  destruct Hwf as [Hs Hlen].
  rewrite py_index_in_range in Hc by lia.
  destruct (bit_array bf !! Z.to_nat hi) as [b|] eqn:Hb; [|discriminate].
  simpl in Hc. destruct (Z.eqb_spec b 0) as [E|E]; [discriminate|].
  destruct (decide (j = i)) as [->|Hne].
  - rewrite Hi in Hh. injection Hh as <-. exists b. split; assumption.
  - apply (IH (S i) (conj Hs Hlen) Hc j h); [lia|exact Hh].
Qed.

Lemma add_all_keeps_positive items bf item :
  bf_wf bf ->
  contains md5_int bf item = Ok true ->
  exists bf',
    add_all md5_int bf items = Ok bf' /\
    contains md5_int bf' item = Ok true.
Proof.
  intros Hwf Hc.
  destruct (add_all_spec md5_int items bf Hwf)
    as (bf' & Hrun & Hwf' & Hsz & Hhc & Hkeep & _).
  exists bf'. split; [exact Hrun|].
  unfold contains. apply contains_loop_true; [exact Hwf'|].
  intros j h Hj Hh. apply Hkeep.
  unfold contains in Hc.
  apply (contains_loop_bits bf item _ 0%nat Hwf Hc j h).
  - rewrite <- Hhc. exact Hj.
  - rewrite <- Hh. symmetry. apply hash_at_same_size. exact Hsz.
Qed.

(** X6 (a new bloom filter is empty): a filter just built with
    [size >= 1] and [hash_count >= 1] answers false for every item. *)
Theorem bloom_fresh_rejects (sz hc : Z) (item : string) :
  1 <= sz -> 1 <= hc ->
  contains md5_int (init sz hc) item = Ok false.
Proof.
  intros Hsz Hhc. unfold contains.
  destruct (Z.to_nat (hash_count (init sz hc))) as [|n] eqn:Hn;
    [simpl in Hn; lia|].
  simpl.
  destruct (hash_at_ok md5_int (init sz hc) item 0%nat (init_wf sz hc Hsz))
    as (h & Hh & Hrange).
  simpl in Hh, Hrange. rewrite Hh. simpl. unfold getitem.
  rewrite length_replicate, py_index_in_range by lia.
  rewrite lookup_replicate_2 by lia. reflexivity.
Qed.

(** X7 (a bloom filter without hash functions): with [hash_count <= 0]
    the generator [_hashes] yields nothing, so [add] leaves the filter as
    it is and the membership test answers true for every item, whatever
    the size of the bit array. *)
Theorem bloom_no_hashes (bf : t) (item : string) :
  hash_count bf <= 0 ->
  add md5_int bf item = Ok bf /\ contains md5_int bf item = Ok true.
Proof.
  intros Hhc. unfold add, contains.
  replace (Z.to_nat (hash_count bf)) with 0%nat by lia.
  destruct bf; split; reflexivity.
Qed.

(** X8 (a bloom filter of size zero or less): with [hash_count >= 1], on a
    filter built with size [0] both [add] and the membership test raise
    [ZeroDivisionError], and on one built with a negative size, whose bit
    array is empty, both raise [IndexError]. *)
Theorem bloom_bad_size (sz hc : Z) (item : string) :
  sz <= 0 -> 1 <= hc ->
  add md5_int (init sz hc) item =
    Raise (if sz =? 0 then ZeroDivisionError else IndexError) /\
  contains md5_int (init sz hc) item =
    Raise (if sz =? 0 then ZeroDivisionError else IndexError).
Proof.
  intros Hsz Hhc. unfold add, contains.
  destruct (Z.to_nat (hash_count (init sz hc))) as [|n] eqn:Hn;
    [simpl in Hn; lia|].
  simpl. unfold hash_at. simpl.
  destruct (Z.eqb_spec sz 0) as [E|E]; [split; reflexivity|].
  simpl. unfold setitem, getitem.
  replace (Z.to_nat sz) with 0%nat by lia. simpl.
  set (h := md5_int _ mod sz).
  assert (Hb : sz < h <= 0) by (apply Z.mod_neg_bound; lia).
  assert (Hp : py_index 0 h = None).
  { unfold py_index. destruct (Z.leb_spec 0 h).
    - destruct (Z.ltb_spec h (Z.of_nat 0)); [lia|reflexivity].
    - destruct (Z.leb_spec 0 (h + Z.of_nat 0)); [lia|reflexivity]. }
  rewrite Hp. split; reflexivity.
Qed.

(** X9 (a positive answer is never withdrawn): on a filter built with
    [size >= 1], whatever is added later, an item the membership test
    reports present, rightly or as a false positive, is still reported
    present afterwards: [add] never clears a bit. *)
Theorem bloom_monotone (sz hc : Z) (before later : list string)
  (item : string) :
  1 <= sz ->
  exists bf1 bf2,
    add_all md5_int (init sz hc) before = Ok bf1 /\
    add_all md5_int bf1 later = Ok bf2 /\
    (contains md5_int bf1 item = Ok true ->
     contains md5_int bf2 item = Ok true).
Proof.
  intros Hsz.
  destruct (add_all_spec md5_int before (init sz hc) (init_wf sz hc Hsz))
    as (bf1 & Hrun1 & Hwf1 & _).
  destruct (add_all_spec md5_int later bf1 Hwf1) as (bf2 & Hrun2 & _).
  exists bf1, bf2. split; [exact Hrun1|]. split; [exact Hrun2|].
  intros Hc.
  destruct (add_all_keeps_positive later bf1 item Hwf1 Hc)
    as (bf2' & Hrun2' & Hc2).
  rewrite Hrun2 in Hrun2'. injection Hrun2' as <-. exact Hc2.
Qed.

End BloomFilterEdges.

Lemma bloom_fresh_rejects_witness :
  1 <= 100 /\ 1 <= 5 /\
  BloomFilter.contains toy_digest (BloomFilter.init 100 5) "key" = Ok false.
Proof.
  split; [lia|]. split; [lia|].
  apply (bloom_fresh_rejects toy_digest 100 5 "key"); lia.
Defined.

Lemma bloom_no_hashes_witness :
  BloomFilter.hash_count (BloomFilter.init 0 0) <= 0 /\
  BloomFilter.add toy_digest (BloomFilter.init 0 0) "key" =
    Ok (BloomFilter.init 0 0) /\
  BloomFilter.contains toy_digest (BloomFilter.init 0 0) "key" = Ok true.
Proof.
  split; [simpl; lia|].
  apply (bloom_no_hashes toy_digest (BloomFilter.init 0 0) "key").
  simpl. lia.
Defined.

Lemma bloom_bad_size_witness :
  -4 <= 0 /\ 1 <= 2 /\
  BloomFilter.add toy_digest (BloomFilter.init (-4) 2) "key" =
    Raise (if -4 =? 0 then ZeroDivisionError else IndexError) /\
  BloomFilter.contains toy_digest (BloomFilter.init (-4) 2) "key" =
    Raise (if -4 =? 0 then ZeroDivisionError else IndexError).
Proof.
  split; [lia|]. split; [lia|].
  apply (bloom_bad_size toy_digest (-4) 2 "key"); lia.
Defined.

Lemma bloom_monotone_witness :
  1 <= 10 /\
  exists bf1 bf2,
    BloomFilter.add_all toy_digest (BloomFilter.init 10 3) ["hello"]%string
      = Ok bf1 /\
    BloomFilter.add_all toy_digest bf1 ["world"; "again"]%string = Ok bf2 /\
    (BloomFilter.contains toy_digest bf1 "hello" = Ok true ->
     BloomFilter.contains toy_digest bf2 "hello" = Ok true).
Proof.
  split; [lia|].
  apply (bloom_monotone toy_digest 10 3 ["hello"]%string
           ["world"; "again"]%string "hello"); lia.
Defined.

(** * More on the Levenshtein distance *)

Lemma differ_le (a b : list ascii) (i j : nat) : (differ a b i j <= 1)%nat.
Proof.
  unfold differ. destruct (a !! i), (b !! j); try lia.
  destruct (Ascii.eqb _ _); lia.
Qed.

Lemma lev_upper (a b : list ascii) : forall i j,
  (lev a b i j <= Nat.max i j)%nat.
Proof.
  induction i as [|i IHi]; intros j; [simpl; lia|].
  induction j as [|j IHj]; [rewrite lev_0_r; lia|].
  rewrite lev_S_S. pose proof (IHi j). pose proof (differ_le a b i j). lia.
Qed.

Lemma lev_lower (a b : list ascii) : forall i j,
  (i <= j + lev a b i j /\ j <= i + lev a b i j)%nat.
Proof.
  induction i as [|i IHi]; intros j; [simpl; lia|].
  induction j as [|j IHj]; [rewrite lev_0_r; lia|].
  rewrite lev_S_S. pose proof (IHi j). pose proof (IHi (S j)). lia.
Qed.

Lemma lev_diag (a : list ascii) : forall i,
  (i <= length a)%nat -> lev a a i i = 0%nat.
Proof.
  induction i as [|i IH]; intros Hi; [reflexivity|].
  rewrite lev_S_S, IH by lia.
  assert (Hd : differ a a i i = 0%nat).
  { unfold differ. destruct (a !! i) as [x|] eqn:E.
    - rewrite Ascii.eqb_refl. reflexivity.
    - apply lookup_ge_None in E. lia. }
  rewrite Hd. lia.
Qed.

Lemma lev_zero (a b : list ascii) : forall i j,
  (i <= length a)%nat -> (j <= length b)%nat ->
  lev a b i j = 0%nat -> i = j /\ take i a = take j b.
Proof.
  induction i as [|i IHi]; intros j Hi Hj H0.
  - simpl in H0. subst j. split; reflexivity.
  - destruct j as [|j]; [rewrite lev_0_r in H0; discriminate|].
    rewrite lev_S_S in H0.
    assert (Hl : lev a b i j = 0%nat) by lia.
    assert (Hd : differ a b i j = 0%nat) by lia.
    destruct (IHi j ltac:(lia) ltac:(lia) Hl) as [-> Ht].
    split; [reflexivity|].
    unfold differ in Hd.
    destruct (a !! j) as [x|] eqn:Ea; [|discriminate].
    destruct (b !! j) as [y|] eqn:Eb; [|discriminate].
    destruct (Ascii.eqb_spec x y) as [->|]; [|discriminate].
    rewrite (take_S_r a j y Ea), (take_S_r b j y Eb), Ht. reflexivity.
Qed.

Lemma length_list_ascii (s : string) :
  length (list_ascii_of_string s) = String.length s.
Proof. induction s as [|c s IH]; simpl; [reflexivity|]. rewrite IH. reflexivity. Qed.

(** X10 (the distance is symmetric): [Levenshtein.distance(s1, s2)] and
    [Levenshtein.distance(s2, s1)] are the same number, whichever string is
    the longer. *)
Theorem distance_symmetric (s1 s2 : string) :
  Levenshtein.distance s1 s2 = Levenshtein.distance s2 s1.
Proof. rewrite !distance_lev. apply lev_sym. Qed.

(** X11 (distance zero): [Levenshtein.distance(s1, s2)] is [0] exactly when
    the two strings are equal. *)
Theorem distance_zero_iff (s1 s2 : string) :
  Levenshtein.distance s1 s2 = 0%nat <-> s1 = s2.
Proof.
  rewrite distance_lev. split.
  - intros H0.
    destruct (lev_zero _ _ _ _ (Nat.le_refl _) (Nat.le_refl _) H0) as [_ Ht].
    rewrite !firstn_all in Ht.
    rewrite <- (string_of_list_ascii_of_string s1),
            <- (string_of_list_ascii_of_string s2), Ht.
    reflexivity.
  - intros ->. apply lev_diag. lia.
Qed.

(** X12 (bounds of the distance): [Levenshtein.distance(s1, s2)] is at least
    the difference of the two lengths and at most the greater of them; so
    the distance to the empty string is the length of the other string. *)
Theorem distance_bounds (s1 s2 : string) :
  (String.length s1 - String.length s2 <= Levenshtein.distance s1 s2)%nat /\
  (String.length s2 - String.length s1 <= Levenshtein.distance s1 s2)%nat /\
  (Levenshtein.distance s1 s2 <=
   Nat.max (String.length s1) (String.length s2))%nat /\
  Levenshtein.distance s1 EmptyString = String.length s1 /\
  Levenshtein.distance EmptyString s1 = String.length s1.
Proof.
  rewrite !distance_lev, !length_list_ascii.
  pose proof (lev_lower (list_ascii_of_string s1) (list_ascii_of_string s2)
                (String.length s1) (String.length s2)).
  pose proof (lev_upper (list_ascii_of_string s1) (list_ascii_of_string s2)
                (String.length s1) (String.length s2)).
  repeat split; try lia.
  apply lev_0_r.
Qed.

(** * The heap keeps the heap order

    The items are compared with [lt], Python's [<]. What is assumed of it is
    what makes "not greater" a total pre-order: [lt] is asymmetric, and
    "not [lt]" is transitive. *)

Section HeapOrder.
Context {A : Type}.
Variable lt : A -> A -> bool.
Hypothesis lt_asym : forall a b, lt a b = true -> lt b a = false.
Hypothesis not_lt_trans :
  forall a b c, lt b a = false -> lt c b = false -> lt c a = false.

Local Open Scope nat_scope.

(** [b] is not below [a]. *)
Definition heap_le (a b : A) : Prop := lt b a = false.

Definition parent (i : nat) : nat := (i - 1) / 2.

(** The heap order: no item is below its parent. *)
Definition heap_ok (h : list A) : Prop :=
  forall j a p, 0 < j -> h !! j = Some a -> h !! parent j = Some p ->
                heap_le p a.

Lemma heap_le_refl a : heap_le a a.
Proof.
  unfold heap_le. destruct (lt a a) eqn:E; [|reflexivity].
  rewrite (lt_asym a a E) in E. discriminate.
Qed.

Lemma heap_le_trans a b c : heap_le a b -> heap_le b c -> heap_le a c.
Proof. unfold heap_le. intros Hab Hbc. eapply not_lt_trans; eauto. Qed.

Lemma lt_heap_le a b : lt a b = true -> heap_le a b.
Proof. apply lt_asym. Qed.

Lemma parent_lt j : 0 < j -> parent j < j.
Proof.
  intros Hj. unfold parent. apply Nat.Div0.div_lt_upper_bound. lia.
Qed.

Lemma parent_child j i :
  0 < j -> (parent j = i <-> j = 2 * i + 1 \/ j = 2 * i + 2).
Proof.
  intros Hj. unfold parent.
  pose proof (Nat.div_mod_eq (j - 1) 2) as Hd.
  pose proof (Nat.mod_upper_bound (j - 1) 2 ltac:(lia)) as Hm.
  split.
  - intros <-. lia.
  - intros [-> | ->].
    + replace (2 * i + 1 - 1) with (i * 2) by lia. apply Nat.div_mul. lia.
    + replace (2 * i + 2 - 1) with (1 + i * 2) by lia.
      rewrite Nat.div_add by lia. reflexivity.
Qed.

(** The root is not above any item. *)
Lemma heap_root_min h m :
  heap_ok h -> h !! 0 = Some m -> forall j a, h !! j = Some a -> heap_le m a.
Proof.
  intros Hok Hm j. induction j as [j IH] using lt_wf_ind. intros a Ha.
  destruct (Nat.eq_dec j 0) as [->|Hj].
  - rewrite Hm in Ha. injection Ha as <-. apply heap_le_refl.
  - pose proof (parent_lt j ltac:(lia)) as Hp.
    destruct (lookup_lt_is_Some_2 h (parent j)) as [p Hp'].
    { apply lookup_lt_Some in Ha. lia. }
    apply (heap_le_trans m p a).
    + apply (IH (parent j) Hp p Hp').
    + apply (Hok j a p ltac:(lia) Ha Hp').
Qed.

(** *** Swapping two items *)

Lemma insert_perm (h : list A) i a x :
  h !! i = Some a ->
  exists R, h ≡ₚ a :: R /\ <[i:=x]> h ≡ₚ x :: R.
Proof.
  intros Ha. exists (take i h ++ drop (S i) h). split.
  - rewrite <- (take_drop_middle h i a Ha) at 1.
    symmetry. apply Permutation_middle.
  - rewrite insert_take_drop by (eapply lookup_lt_Some; eauto).
    symmetry. apply Permutation_middle.
Qed.

Lemma swap_ok (h : list A) i j a b :
  h !! i = Some a -> h !! j = Some b ->
  exists h',
    MinHeap.swap h i j = Ok h' /\
    length h' = length h /\ h' ≡ₚ h /\
    h' !! i = Some b /\ h' !! j = Some a /\
    (forall k, k <> i -> k <> j -> h' !! k = h !! k).
Proof.
  intros Ha Hb. unfold MinHeap.swap, MinHeap.at_index.
  rewrite Ha, Hb. cbn [of_option bind].
  eexists. split; [reflexivity|].
  pose proof (lookup_lt_Some _ _ _ Ha) as Hi.
  pose proof (lookup_lt_Some _ _ _ Hb) as Hj.
  split; [rewrite !length_insert; reflexivity|].
  destruct (Nat.eq_dec i j) as [->|Hne].
  - assert (E : a = b) by congruence. subst b.
    rewrite list_insert_insert_eq, list_insert_id by exact Ha.
    split; [reflexivity|]. split; [exact Ha|]. split; [exact Ha|].
    intros; reflexivity.
  - split.
    + destruct (insert_perm h i a b Ha) as (R & HR & HR').
      assert (Hb' : <[i:=b]> h !! j = Some b).
      { rewrite list_lookup_insert_ne; [exact Hb|exact Hne]. }
      destruct (insert_perm (<[i:=b]> h) j b a Hb') as (R1 & HR1 & HR1').
      rewrite HR1', HR.
      apply Permutation_cons; [reflexivity|].
      apply (Permutation_cons_inv (a := b)).
      rewrite <- HR1, <- HR'. reflexivity.
    + split.
      { rewrite list_lookup_insert_ne by (intros E; apply Hne; symmetry; exact E).
        apply list_lookup_insert_eq. exact Hi. }
      split.
      { apply list_lookup_insert_eq. rewrite length_insert. exact Hj. }
      intros k Hki Hkj.
      rewrite !list_lookup_insert_ne by (intros E; subst; contradiction).
      reflexivity.
Qed.

(** *** [_heapify_up] *)

(** The heap order but for the item at [i], which may be below its
    parent: its children are not below that parent. *)
Definition up_inv (h : list A) (i : nat) : Prop :=
  (forall j a p, 0 < j -> j <> i -> h !! j = Some a ->
                 h !! parent j = Some p -> heap_le p a) /\
  (forall j a g, 0 < i -> 0 < j -> parent j = i -> h !! j = Some a ->
                 h !! parent i = Some g -> heap_le g a).

Lemma heapify_up_ok (fuel : nat) : forall h i,
  i < length h -> i < fuel -> up_inv h i ->
  exists h',
    MinHeap._heapify_up lt fuel h i = Ok h' /\ h' ≡ₚ h /\ heap_ok h'.
Proof.
  induction fuel as [|fuel IH]; intros h i Hi Hf [Hinv1 Hinv2]; [lia|].
  cbn [MinHeap._heapify_up]. fold (parent i).
  assert (Hdone : (forall a p, 0 < i -> h !! i = Some a ->
                               h !! parent i = Some p -> heap_le p a) ->
                  heap_ok h).
  { intros Hat j a p Hj Ha Hp.
    destruct (Nat.eq_dec j i) as [->|Hne]; [apply Hat; assumption|].
    apply (Hinv1 j a p Hj Hne Ha Hp). }
  destruct (Nat.ltb_spec 0 i) as [Hpos|Hz].
  2:{ exists h. split; [reflexivity|]. split; [reflexivity|].
      apply Hdone. intros; lia. }
  pose proof (parent_lt i Hpos) as Hparent.
  unfold MinHeap.at_index at 1 2.
  destruct (lookup_lt_is_Some_2 h i Hi) as [a Ha].
  destruct (lookup_lt_is_Some_2 h (parent i) ltac:(lia)) as [p Hp].
  rewrite Ha, Hp. cbn [of_option bind].
  destruct (lt a p) eqn:Hlt.
  2:{ exists h. split; [reflexivity|]. split; [reflexivity|].
      apply Hdone. intros a' p' _ Ha' Hp'.
      rewrite Ha in Ha'. rewrite Hp in Hp'.
      injection Ha' as <-. injection Hp' as <-. exact Hlt. }
  destruct (swap_ok h i (parent i) a p Ha Hp)
    as (h1 & Hswap & Hlen1 & Hperm1 & Hi1 & Hp1 & Hother).
  rewrite Hswap. cbn [bind].
  destruct (IH h1 (parent i) ltac:(lia) ltac:(lia)) as (h2 & Hrun & Hperm2 & Hok2).
  2:{ exists h2. split; [exact Hrun|]. split; [|exact Hok2].
      rewrite Hperm2. exact Hperm1. }
  assert (Hap : heap_le a p) by (apply lt_heap_le; exact Hlt).
  split.
  - intros j x q Hj Hjne Hx Hq.
    destruct (Nat.eq_dec j i) as [->|Hji].
    + rewrite Hi1 in Hx. rewrite Hp1 in Hq.
      injection Hx as <-. injection Hq as <-. exact Hap.
    + rewrite (Hother j Hji Hjne) in Hx.
      destruct (Nat.eq_dec (parent j) (parent i)) as [E|Hne1].
      * rewrite E, Hp1 in Hq. injection Hq as <-.
        apply (heap_le_trans a p x Hap).
        apply (Hinv1 j x p Hj Hji Hx). rewrite E. exact Hp.
      * destruct (Nat.eq_dec (parent j) i) as [E|Hne2].
        { rewrite E, Hi1 in Hq. injection Hq as <-.
          apply (Hinv2 j x p Hpos Hj E Hx Hp). }
        rewrite (Hother (parent j) Hne2 Hne1) in Hq.
        apply (Hinv1 j x q Hj Hji Hx Hq).
  - intros j x g Hpp Hj Hpj Hx Hg.
    pose proof (parent_lt (parent i) Hpp) as Hgp.
    rewrite (Hother (parent (parent i)) ltac:(lia) ltac:(lia)) in Hg.
    assert (Hgp' : heap_le g p).
    { apply (Hinv1 (parent i) p g Hpp ltac:(lia) Hp Hg). }
    destruct (Nat.eq_dec j i) as [->|Hji].
    + rewrite Hi1 in Hx. injection Hx as <-. exact Hgp'.
    + pose proof (parent_lt j Hj) as Hjp.
      rewrite (Hother j Hji ltac:(lia)) in Hx.
      apply (heap_le_trans g p x Hgp').
      apply (Hinv1 j x p Hj Hji Hx). rewrite Hpj. exact Hp.
Qed.

Lemma heappush_ok (h : list A) (item : A) :
  heap_ok h ->
  exists h',
    MinHeap.heappush lt h item = Ok h' /\ h' ≡ₚ item :: h /\ heap_ok h'.
Proof.
  intros Hok. unfold MinHeap.heappush.
  assert (Hlen : length (h ++ [item]) = S (length h)).
  { rewrite length_app. simpl. lia. }
  destruct (heapify_up_ok (length (h ++ [item])) (h ++ [item])
              (length (h ++ [item]) - 1) ltac:(lia) ltac:(lia))
    as (h' & Hrun & Hperm & Hok').
  - rewrite Hlen. replace (S (length h) - 1) with (length h) by lia. split.
    + intros j a p Hj Hne Ha Hp.
      assert (Hjl : j < length h).
      { apply lookup_lt_Some in Ha. lia. }
      pose proof (parent_lt j Hj).
      rewrite lookup_app_l in Ha by lia.
      rewrite lookup_app_l in Hp by lia.
      apply (Hok j a p Hj Ha Hp).
    + intros j a g _ Hj Hpj Ha _.
      pose proof (parent_lt j Hj). apply lookup_lt_Some in Ha. lia.
  - exists h'. split; [exact Hrun|]. split; [|exact Hok'].
    rewrite Hperm. symmetry. apply Permutation_cons_append.
Qed.

(** *** [_heapify_down] *)

(** The index [_heapify_down] finds: that of the least of the item at [i]
    and its children. *)
Definition pick (h : list A) (i : nat) : result nat :=
  let* smallest :=
    if 2 * i + 1 <? length h then
      let* l := MinHeap.at_index h (2 * i + 1) in
      let* s := MinHeap.at_index h i in
      Ok (if lt l s then 2 * i + 1 else i)
    else Ok i in
  if 2 * i + 2 <? length h then
    let* r := MinHeap.at_index h (2 * i + 2) in
    let* s := MinHeap.at_index h smallest in
    Ok (if lt r s then 2 * i + 2 else smallest)
  else Ok smallest.

Lemma heapify_down_pick fuel h i :
  MinHeap._heapify_down lt (S fuel) h i =
  let* s := pick h i in
  if s =? i then Ok h
  else let* h' := MinHeap.swap h i s in MinHeap._heapify_down lt fuel h' s.
Proof.
  cbn [MinHeap._heapify_down]. unfold pick.
  destruct (if 2 * i + 1 <? length h then _ else _); reflexivity.
Qed.

Lemma pick_spec h i x :
  h !! i = Some x ->
  exists s b,
    pick h i = Ok s /\ h !! s = Some b /\
    (s = i \/ 0 < s /\ parent s = i /\ heap_le b x) /\
    (forall c a, 0 < c -> parent c = i -> h !! c = Some a -> heap_le b a).
Proof.
  intros Hx. unfold pick, MinHeap.at_index.
  assert (Hkids : forall c, 0 < c -> parent c = i ->
                            c = 2 * i + 1 \/ c = 2 * i + 2).
  { intros c Hc. apply parent_child. exact Hc. }
  assert (Hpl : parent (2 * i + 1) = i) by (apply parent_child; lia).
  assert (Hpr : parent (2 * i + 2) = i) by (apply parent_child; lia).
  destruct (Nat.ltb_spec (2 * i + 1) (length h)) as [Hl|Hl].
  - destruct (lookup_lt_is_Some_2 h _ Hl) as [l Hl'].
    rewrite Hl', Hx. cbn [of_option bind].
    destruct (Nat.ltb_spec (2 * i + 2) (length h)) as [Hr|Hr].
    + destruct (lookup_lt_is_Some_2 h _ Hr) as [r Hr'].
      rewrite Hr'. cbn [of_option bind].
      destruct (lt l x) eqn:Hlx.
      * rewrite Hl'. cbn [of_option bind].
        destruct (lt r l) eqn:Hrl.
        -- exists (2 * i + 2), r. split; [reflexivity|]. split; [exact Hr'|].
           assert (Hrl' : heap_le r l) by (apply lt_heap_le; exact Hrl).
           split.
           ++ right. split; [lia|]. split; [exact Hpr|].
              apply (heap_le_trans r l x Hrl'). apply lt_heap_le. exact Hlx.
           ++ intros c a Hc Hpc Ha.
              destruct (Hkids c Hc Hpc) as [-> | ->].
              ** rewrite Hl' in Ha. injection Ha as <-. exact Hrl'.
              ** rewrite Hr' in Ha. injection Ha as <-. apply heap_le_refl.
        -- exists (2 * i + 1), l. split; [reflexivity|]. split; [exact Hl'|].
           split.
           ++ right. split; [lia|]. split; [exact Hpl|].
              apply lt_heap_le. exact Hlx.
           ++ intros c a Hc Hpc Ha.
              destruct (Hkids c Hc Hpc) as [-> | ->].
              ** rewrite Hl' in Ha. injection Ha as <-. apply heap_le_refl.
              ** rewrite Hr' in Ha. injection Ha as <-. exact Hrl.
      * rewrite Hx. cbn [of_option bind].
        destruct (lt r x) eqn:Hrx.
        -- exists (2 * i + 2), r. split; [reflexivity|]. split; [exact Hr'|].
           assert (Hrx' : heap_le r x) by (apply lt_heap_le; exact Hrx).
           split.
           ++ right. split; [lia|]. split; [exact Hpr|exact Hrx'].
           ++ intros c a Hc Hpc Ha.
              destruct (Hkids c Hc Hpc) as [-> | ->].
              ** rewrite Hl' in Ha. injection Ha as <-.
                 apply (heap_le_trans r x l Hrx'). exact Hlx.
              ** rewrite Hr' in Ha. injection Ha as <-. apply heap_le_refl.
        -- exists i, x. split; [reflexivity|]. split; [exact Hx|].
           split; [left; reflexivity|].
           intros c a Hc Hpc Ha.
           destruct (Hkids c Hc Hpc) as [-> | ->].
           ** rewrite Hl' in Ha. injection Ha as <-. exact Hlx.
           ** rewrite Hr' in Ha. injection Ha as <-. exact Hrx.
    + destruct (lt l x) eqn:Hlx.
      * exists (2 * i + 1), l. split; [reflexivity|]. split; [exact Hl'|].
        split.
        -- right. split; [lia|]. split; [exact Hpl|].
           apply lt_heap_le. exact Hlx.
        -- intros c a Hc Hpc Ha.
           destruct (Hkids c Hc Hpc) as [-> | ->].
           ++ rewrite Hl' in Ha. injection Ha as <-. apply heap_le_refl.
           ++ apply lookup_lt_Some in Ha. lia.
      * exists i, x. split; [reflexivity|]. split; [exact Hx|].
        split; [left; reflexivity|].
        intros c a Hc Hpc Ha.
        destruct (Hkids c Hc Hpc) as [-> | ->].
        -- rewrite Hl' in Ha. injection Ha as <-. exact Hlx.
        -- apply lookup_lt_Some in Ha. lia.
  - cbn [bind].
    destruct (Nat.ltb_spec (2 * i + 2) (length h)) as [Hr|Hr]; [lia|].
    exists i, x. split; [reflexivity|]. split; [exact Hx|].
    split; [left; reflexivity|].
    intros c a Hc Hpc Ha. apply lookup_lt_Some in Ha.
    destruct (Hkids c Hc Hpc); lia.
Qed.

(** The heap order but for the children of [i], which may be below it:
    they are not below the parent of [i]. *)
Definition down_inv (h : list A) (i : nat) : Prop :=
  (forall j a p, 0 < j -> parent j <> i -> h !! j = Some a ->
                 h !! parent j = Some p -> heap_le p a) /\
  (forall j a g, 0 < i -> 0 < j -> parent j = i -> h !! j = Some a ->
                 h !! parent i = Some g -> heap_le g a).

Lemma heapify_down_ok (fuel : nat) : forall h i,
  i < length h -> length h - i <= fuel -> down_inv h i ->
  exists h',
    MinHeap._heapify_down lt fuel h i = Ok h' /\ h' ≡ₚ h /\ heap_ok h'.
Proof.
  induction fuel as [|fuel IH]; intros h i Hi Hf [Hinv1 Hinv2]; [lia|].
  rewrite heapify_down_pick.
  destruct (lookup_lt_is_Some_2 h i Hi) as [x Hx].
  destruct (pick_spec h i x Hx) as (s & b & Hpick & Hb & Hs & Hkids).
  rewrite Hpick. cbn [bind].
  destruct (Nat.eqb_spec s i) as [->|Hne].
  - exists h. split; [reflexivity|]. split; [reflexivity|].
    rewrite Hx in Hb. injection Hb as <-.
    intros j a p Hj Ha Hp.
    destruct (Nat.eq_dec (parent j) i) as [E|Hpj].
    + rewrite E, Hx in Hp. injection Hp as <-.
      apply (Hkids j a Hj E Ha).
    + apply (Hinv1 j a p Hj Hpj Ha Hp).
  - destruct Hs as [->|(Hs0 & Hps & Hbx)]; [contradiction|].
    pose proof (parent_lt s Hs0) as Hsi. rewrite Hps in Hsi.
    pose proof (lookup_lt_Some _ _ _ Hb) as Hsl.
    destruct (swap_ok h i s x b Hx Hb)
      as (h1 & Hswap & Hlen1 & Hperm1 & Hi1 & Hs1 & Hother).
    rewrite Hswap. cbn [bind].
    destruct (IH h1 s ltac:(lia) ltac:(lia)) as (h2 & Hrun & Hperm2 & Hok2).
    2:{ exists h2. split; [exact Hrun|]. split; [|exact Hok2].
        rewrite Hperm2. exact Hperm1. }
    split.
    + intros j a p Hj Hpj Ha Hp.
      pose proof (parent_lt j Hj) as Hjp.
      destruct (Nat.eq_dec j s) as [->|Hjs].
      * rewrite Hps, Hi1 in Hp. rewrite Hs1 in Ha.
        injection Hp as <-. injection Ha as <-. exact Hbx.
      * destruct (Nat.eq_dec j i) as [->|Hji].
        -- rewrite Hi1 in Ha. injection Ha as <-.
           rewrite (Hother (parent i) ltac:(lia) ltac:(lia)) in Hp.
           apply (Hinv2 s b p ltac:(lia) Hs0 Hps Hb Hp).
        -- rewrite (Hother j Hji Hjs) in Ha.
           destruct (Nat.eq_dec (parent j) i) as [E|Hne1].
           ++ rewrite E, Hi1 in Hp. injection Hp as <-.
              apply (Hkids j a Hj E Ha).
           ++ rewrite (Hother (parent j) Hne1 Hpj) in Hp.
              apply (Hinv1 j a p Hj Hne1 Ha Hp).
    + intros j a g _ Hj Hpj Ha Hg.
      pose proof (parent_lt j Hj) as Hjp.
      rewrite Hps, Hi1 in Hg. injection Hg as <-.
      rewrite (Hother j ltac:(lia) ltac:(lia)) in Ha.
      apply (Hinv1 j a b Hj ltac:(lia) Ha). rewrite Hpj. exact Hb.
Qed.

Lemma heappop_ok (h : list A) :
  heap_ok h -> h <> [] ->
  exists m h',
    MinHeap.heappop lt h = Ok (m, h') /\ h ≡ₚ m :: h' /\ heap_ok h' /\
    Forall (heap_le m) h'.
Proof.
  intros Hok Hne. destruct h as [|root rest]; [contradiction|].
  assert (Hmin : Forall (heap_le root) (root :: rest)).
  { apply Forall_lookup_2. intros j a Ha.
    apply (heap_root_min (root :: rest) root Hok eq_refl j a Ha). }
  destruct rest as [|y rest].
  { exists root, []. split; [reflexivity|]. split; [reflexivity|].
    split; [|constructor]. intros j a p _ Ha. discriminate Ha. }
  cbn [MinHeap.heappop].
  destruct (@exists_last _ (y :: rest) ltac:(discriminate)) as (q & x & Hq).
  assert (Hheap : root :: y :: rest = (root :: q) ++ [x]).
  { simpl. rewrite <- Hq. reflexivity. }
  rewrite Hheap in *. clear Hheap Hq y rest.
  rewrite last_snoc. cbn [of_option bind].
  rewrite removelast_last. cbn [insert list_insert].
  destruct (heapify_down_ok (length (x :: q)) (x :: q) 0
              ltac:(simpl; lia) ltac:(simpl; lia))
    as (h2 & Hrun & Hperm & Hok2).
  - split; [|intros; lia].
    intros j a p Hj Hpj Ha Hp.
    destruct j as [|j]; [lia|].
    destruct (parent (S j)) as [|pj] eqn:Epj; [contradiction|].
    simpl in Ha, Hp.
    apply (Hok (S j) a p Hj).
    + simpl. apply lookup_app_l_Some. exact Ha.
    + rewrite Epj. simpl. apply lookup_app_l_Some. exact Hp.
  - rewrite Hrun. cbn [bind]. exists root, h2.
    split; [reflexivity|].
    assert (Hp2 : (root :: q) ++ [x] ≡ₚ root :: h2).
    { simpl. apply Permutation_cons; [reflexivity|].
      rewrite Hperm. symmetry. apply Permutation_cons_append. }
    split; [exact Hp2|]. split; [exact Hok2|].
    rewrite Hp2 in Hmin. apply Forall_cons in Hmin as [_ Hmin]. exact Hmin.
Qed.

(** *** Pushing and popping in sequence *)

(** [heappush] of the items one after the other. *)
Fixpoint push_all (h : list A) (items : list A) : result (list A) :=
  match items with
  | [] => Ok h
  | x :: rest => let* h' := MinHeap.heappush lt h x in push_all h' rest
  end.

(** [n] calls of [heappop]: the items popped, in order, and the heap
    left. *)
Fixpoint pop_n (n : nat) (h : list A) : result (list A * list A) :=
  match n with
  | O => Ok ([], h)
  | S n' =>
      let* (m, h') := MinHeap.heappop lt h in
      let* (out, h'') := pop_n n' h' in
      Ok (m :: out, h'')
  end.

Lemma push_all_ok items : forall h,
  heap_ok h ->
  exists h', push_all h items = Ok h' /\ h' ≡ₚ h ++ items /\ heap_ok h'.
Proof.
  induction items as [|x items IH]; intros h Hok.
  - exists h. split; [reflexivity|]. rewrite app_nil_r. split; [reflexivity|exact Hok].
  - destruct (heappush_ok h x Hok) as (h1 & Hpush & Hperm1 & Hok1).
    destruct (IH h1 Hok1) as (h2 & Hrun & Hperm2 & Hok2).
    exists h2. cbn [push_all]. rewrite Hpush. cbn [bind].
    split; [exact Hrun|]. split; [|exact Hok2].
    rewrite Hperm2, Hperm1. simpl. apply Permutation_middle.
Qed.

Lemma pop_n_ok n : forall h,
  heap_ok h -> length h = n ->
  exists out,
    pop_n n h = Ok (out, []) /\ out ≡ₚ h /\ StronglySorted heap_le out.
Proof.
  induction n as [|n IH]; intros h Hok Hlen.
  - destruct h; [|discriminate]. exists []. split; [reflexivity|].
    split; [reflexivity|constructor].
  - destruct (heappop_ok h Hok) as (m & h1 & Hpop & Hperm & Hok1 & Hmin).
    { intros ->. discriminate. }
    assert (Hlen1 : length h1 = n).
    { apply Permutation_length in Hperm. simpl in Hperm. lia. }
    destruct (IH h1 Hok1 Hlen1) as (out & Hrun & Hperm1 & Hsorted).
    exists (m :: out). cbn [pop_n]. rewrite Hpop. cbn [bind].
    rewrite Hrun. cbn [bind]. split; [reflexivity|]. split.
    + rewrite Hperm. apply Permutation_cons; [reflexivity|exact Hperm1].
    + constructor; [exact Hsorted|]. rewrite Hperm1. exact Hmin.
Qed.

Lemma heap_ok_nil : heap_ok [].
Proof. intros j a p _ Ha. discriminate Ha. Qed.

(** X13 ([heappush] keeps the heap): pushing an item onto a list in heap
    order returns, without reaching the recursion limit, a list in heap
    order that holds the item pushed and the items there were, each as
    many times as before. *)
Theorem heappush_keeps_heap (h : list A) (item : A) :
  heap_ok h ->
  exists h',
    MinHeap.heappush lt h item = Ok h' /\
    heap_ok h' /\ Permutation h' (item :: h).
Proof.
  intros Hok. destruct (heappush_ok h item Hok) as (h' & Hrun & Hperm & Hok').
  exists h'. repeat split; assumption.
Qed.

(** X14 ([heappop] returns a least item): on an empty heap [heappop]
    raises [IndexError]; on a non-empty list in heap order it returns an
    item that no item left is below, and leaves the other items, each as
    many times as before, in heap order. *)
Theorem heappop_least (h : list A) :
  heap_ok h ->
  match h with
  | [] => MinHeap.heappop lt h = Raise IndexError
  | _ :: _ =>
      exists m h',
        MinHeap.heappop lt h = Ok (m, h') /\
        Permutation h (m :: h') /\ heap_ok h' /\
        Forall (fun a => lt a m = false) h'
  end.
Proof.
  intros Hok. destruct h as [|x h]; [reflexivity|].
  destruct (heappop_ok (x :: h) Hok ltac:(discriminate))
    as (m & h' & Hpop & Hperm & Hok' & Hmin).
  exists m, h'. repeat split; assumption.
Qed.

(** X15 (the heap sorts): items pushed one by one onto an empty heap and
    then popped as many times come out in ascending order (no item is
    below an earlier one), each as many times as it was pushed, and the
    heap is empty afterwards. *)
Theorem heap_sorts (items : list A) :
  exists h out,
    push_all [] items = Ok h /\
    pop_n (length items) h = Ok (out, []) /\
    Permutation out items /\
    StronglySorted (fun a b => lt b a = false) out.
Proof.
  destruct (push_all_ok items [] heap_ok_nil) as (h & Hpush & Hperm & Hok).
  simpl in Hperm.
  destruct (pop_n_ok (length items) h Hok) as (out & Hpop & Hperm' & Hs).
  { apply Permutation_length. exact Hperm. }
  exists h, out. split; [exact Hpush|]. split; [exact Hpop|].
  split; [|exact Hs]. rewrite Hperm'. exact Hperm.
Qed.

End HeapOrder.

(** * The order of the merge heap

    The tuples [(key, value, seg_idx, seg_iter)] pushed by [compact] are
    compared on their first three components; this is an order the heap
    sorts by. *)

(** [b < a] is false, spelled out. *)
Definition item_le (a b : LSMTree.heap_item) : Prop :=
  slt (LSMTree.item_key a) (LSMTree.item_key b) \/
  LSMTree.item_key a = LSMTree.item_key b /\
  (slt (LSMTree.item_value a) (LSMTree.item_value b) \/
   LSMTree.item_value a = LSMTree.item_value b /\
   (LSMTree.item_seg a <= LSMTree.item_seg b)%nat).

Lemma item_lt_false (a b : LSMTree.heap_item) :
  LSMTree.item_lt b a = false <-> item_le a b.
Proof.
  unfold LSMTree.item_lt, item_le.
  destruct (String.eqb_spec (LSMTree.item_key b) (LSMTree.item_key a))
    as [Ek|Ek]; simpl.
  - destruct (String.eqb_spec (LSMTree.item_value b) (LSMTree.item_value a))
      as [Ev|Ev]; simpl.
    + rewrite Nat.ltb_ge. split.
      * intros H. right. split; [congruence|]. right. split; [congruence|lia].
      * intros [H|[_ [H|[_ H]]]]; [| |exact H].
        -- rewrite Ek in H. destruct (slt_irrefl _ H).
        -- rewrite Ev in H. destruct (slt_irrefl _ H).
    + split.
      * intros H. right. split; [congruence|]. left.
        apply not_slt; [exact H|exact Ev].
      * intros [H|[_ [H|[E _]]]].
        -- rewrite Ek in H. destruct (slt_irrefl _ H).
        -- destruct (String.ltb _ _) eqn:E; [|reflexivity].
           destruct (slt_asym _ _ H E).
        -- destruct Ev. congruence.
  - split.
    + intros H. left. apply not_slt; [exact H|exact Ek].
    + intros [H|[E _]].
      * destruct (String.ltb _ _) eqn:E; [|reflexivity].
        destruct (slt_asym _ _ H E).
      * destruct Ek. congruence.
Qed.

Lemma item_lt_true (a b : LSMTree.heap_item) :
  LSMTree.item_lt a b = true ->
  slt (LSMTree.item_key a) (LSMTree.item_key b) \/
  LSMTree.item_key a = LSMTree.item_key b /\
  (slt (LSMTree.item_value a) (LSMTree.item_value b) \/
   LSMTree.item_value a = LSMTree.item_value b /\
   (LSMTree.item_seg a < LSMTree.item_seg b)%nat).
Proof.
  unfold LSMTree.item_lt.
  destruct (String.eqb_spec (LSMTree.item_key a) (LSMTree.item_key b))
    as [Ek|Ek]; simpl; [|intros H; left; exact H].
  destruct (String.eqb_spec (LSMTree.item_value a) (LSMTree.item_value b))
    as [Ev|Ev]; simpl.
  - rewrite Nat.ltb_lt. intros H. right. split; [exact Ek|]. right.
    split; [exact Ev|exact H].
  - intros H. right. split; [exact Ek|]. left. exact H.
Qed.

Lemma item_lt_asym (a b : LSMTree.heap_item) :
  LSMTree.item_lt a b = true -> LSMTree.item_lt b a = false.
Proof.
  intros H. apply item_lt_false. apply item_lt_true in H.
  unfold item_le. destruct H as [H|[Ek [H|[Ev H]]]].
  - left. exact H.
  - right. split; [exact Ek|]. left. exact H.
  - right. split; [exact Ek|]. right. split; [exact Ev|lia].
Qed.

Lemma item_le_trans (a b c : LSMTree.heap_item) :
  item_le a b -> item_le b c -> item_le a c.
Proof.
  unfold item_le.
  intros [Hab|[Ekab Hab]] [Hbc|[Ekbc Hbc]].
  - left. eapply slt_trans; eauto.
  - left. rewrite <- Ekbc. exact Hab.
  - left. rewrite Ekab. exact Hbc.
  - right. split; [congruence|].
    destruct Hab as [Hab|[Evab Hab]], Hbc as [Hbc|[Evbc Hbc]].
    + left. eapply slt_trans; eauto.
    + left. rewrite <- Evbc. exact Hab.
    + left. rewrite Evab. exact Hbc.
    + right. split; [congruence|lia].
Qed.

Lemma item_not_lt_trans (a b c : LSMTree.heap_item) :
  LSMTree.item_lt b a = false -> LSMTree.item_lt c b = false ->
  LSMTree.item_lt c a = false.
Proof.
  rewrite !item_lt_false. apply item_le_trans.
Qed.

Lemma heappush_keeps_heap_witness :
  heap_ok LSMTree.item_lt [LSMTree.mk_item "b" "2" 0 []] /\
  exists h',
    MinHeap.heappush LSMTree.item_lt [LSMTree.mk_item "b" "2" 0 []]
      (LSMTree.mk_item "a" "1" 1 []) = Ok h' /\
    heap_ok LSMTree.item_lt h' /\
    Permutation h'
      [LSMTree.mk_item "a" "1" 1 []; LSMTree.mk_item "b" "2" 0 []].
Proof.
  assert (H : heap_ok LSMTree.item_lt [LSMTree.mk_item "b" "2" 0 []]).
  { intros j a p Hj Ha Hp. destruct j as [|j]; [lia|discriminate Ha]. }
  split; [exact H|].
  apply (heappush_keeps_heap LSMTree.item_lt item_lt_asym item_not_lt_trans
           _ _ H).
Defined.

Lemma heappop_least_witness :
  heap_ok LSMTree.item_lt
    [LSMTree.mk_item "a" "1" 1 []; LSMTree.mk_item "b" "2" 0 []] /\
  exists m h',
    MinHeap.heappop LSMTree.item_lt
      [LSMTree.mk_item "a" "1" 1 []; LSMTree.mk_item "b" "2" 0 []]
    = Ok (m, h') /\
    Permutation [LSMTree.mk_item "a" "1" 1 []; LSMTree.mk_item "b" "2" 0 []]
      (m :: h') /\
    heap_ok LSMTree.item_lt h' /\
    Forall (fun a => LSMTree.item_lt a m = false) h'.
Proof.
  assert (H : heap_ok LSMTree.item_lt
                [LSMTree.mk_item "a" "1" 1 []; LSMTree.mk_item "b" "2" 0 []]).
  { intros j a p Hj Ha Hp. destruct j as [|[|j]]; [lia| |discriminate Ha].
    injection Ha as <-. injection Hp as <-. reflexivity. }
  split; [exact H|].
  apply (heappop_least LSMTree.item_lt item_lt_asym item_not_lt_trans _ H).
Defined.

Lemma heap_sorts_witness :
  exists h out,
    push_all LSMTree.item_lt []
      [LSMTree.mk_item "b" "2" 0 []; LSMTree.mk_item "a" "1" 1 [];
       LSMTree.mk_item "a" "0" 2 []] = Ok h /\
    pop_n LSMTree.item_lt 3 h = Ok (out, []) /\
    Permutation out
      [LSMTree.mk_item "b" "2" 0 []; LSMTree.mk_item "a" "1" 1 [];
       LSMTree.mk_item "a" "0" 2 []] /\
    StronglySorted (fun a b => LSMTree.item_lt b a = false) out.
Proof.
  apply (heap_sorts LSMTree.item_lt item_lt_asym item_not_lt_trans
           [LSMTree.mk_item "b" "2" 0 []; LSMTree.mk_item "a" "1" 1 [];
            LSMTree.mk_item "a" "0" 2 []]).
Defined.

(** * Reading an SSTable

    What [get], [read_iter] and [_build_sparse_index] make of a data file
    that holds the records of a list of items in ascending key order, with a
    sparse index that samples it. *)

Section SSTableReads.
Variable md5_int : string -> Z.

Local Open Scope nat_scope.

(** The line of an item. *)
Definition line_of (e : kv) : string := SSTable.record_line (fst e) (snd e).

(** What [get] returns for the value found. *)
Definition visible (o : option string) : option string :=
  match o with
  | Some v => if String.eqb v TOMBSTONE then None else Some v
  | None => None
  end.

Lemma slt_asym_false a b : slt a b -> String.ltb b a = false.
Proof.
  intros H. destruct (String.ltb b a) eqn:E; [|reflexivity].
  destruct (slt_asym a b H E).
Qed.

(** *** [sorted] on items with distinct keys *)

Lemma sorted_insert_ins (x : kv) (l : list kv) :
  ~ In (fst x) (keys_of l) -> sorted_insert x l = ins (fst x) (snd x) l.
Proof.
  destruct x as [k v]. cbn [fst snd].
  induction l as [|[k' v'] l IH]; intros Hn; [reflexivity|].
  cbn [sorted_insert ins]. unfold pair_ltb. cbn [fst snd].
  assert (Hne : k' <> k) by (intros ->; apply Hn; left; reflexivity).
  destruct (String.eqb_spec k' k) as [E|_]; [contradiction|].
  rewrite andb_false_l, orb_false_r.
  destruct (String.ltb k' k) eqn:Hlt.
  - rewrite (slt_asym_false k' k Hlt).
    rewrite IH; [reflexivity|]. intros Hin. apply Hn. right. exact Hin.
  - rewrite (not_slt k' k Hlt Hne). reflexivity.
Qed.

Lemma sorted_py_sorted (l : list kv) :
  NoDup (keys_of l) -> sorted (py_sorted l).
Proof.
  induction l as [|x l IH]; intros Hnd; [apply sorted_nil|].
  cbn [keys_of map] in Hnd. apply NoDup_cons in Hnd as [Hx Hnd].
  cbn [py_sorted foldr]. fold (py_sorted l).
  assert (Hn : ~ In (fst x) (keys_of (py_sorted l))).
  { intros Hin. apply Hx. apply list_elem_of_In.
    unfold keys_of in *.
    apply (Permutation_in _ (Permutation_map fst (py_sorted_perm l))).
    exact Hin. }
  rewrite (sorted_insert_ins x _ Hn).
  apply sorted_ins; [apply IH; exact Hnd|exact Hn].
Qed.

Lemma map_to_list_keys_nodup (M : gmap string string) :
  NoDup (keys_of (map_to_list M)).
Proof.
  exact (NoDup_fst_map_to_list M).
Qed.

(** The sorted items of a mapping: in ascending key order, and they bind
    what the mapping binds. *)
Lemma sorted_items (M : gmap string string) :
  sorted (py_sorted (map_to_list M)) /\
  forall k, assoc k (py_sorted (map_to_list M)) = M !! k.
Proof.
  pose proof (sorted_py_sorted _ (map_to_list_keys_nodup M)) as Hs.
  split; [exact Hs|]. intros k.
  destruct (M !! k) as [v|] eqn:E.
  - apply assoc_in_nodup.
    + unfold sorted in Hs. clear -Hs.
      induction (keys_of (py_sorted (map_to_list M))) as [|x l IH].
      * apply NoDup_nil. trivial.
      * apply StronglySorted_inv in Hs as [Hs Hx]. apply NoDup_cons. split.
        -- intros Hin. rewrite Forall_forall in Hx.
           apply (slt_irrefl x). apply Hx. exact Hin.
        -- apply IH. exact Hs.
    + apply (Permutation_in _ (Permutation_sym (py_sorted_perm _))).
      apply list_elem_of_In. apply elem_of_map_to_list. exact E.
  - destruct (assoc k (py_sorted (map_to_list M))) as [v|] eqn:Ea;
      [|reflexivity].
    apply assoc_Some_in in Ea.
    apply (Permutation_in _ (py_sorted_perm _)) in Ea.
    apply list_elem_of_In, elem_of_map_to_list in Ea. congruence.
Qed.

(** *** [bisect_right] on an ascending list *)

Lemma sorted_lookup (a : list string) :
  StronglySorted slt a ->
  forall i j y z, i < j -> a !! i = Some y -> a !! j = Some z -> slt y z.
Proof.
  induction 1 as [|x a Hs IH Hx]; intros i j y z Hij Hy Hz;
    [discriminate|].
  destruct j as [|j]; [lia|]. simpl in Hz.
  destruct i as [|i].
  - simpl in Hy. injection Hy as <-.
    rewrite Forall_forall in Hx. apply Hx.
    apply list_elem_of_lookup. exists j. exact Hz.
  - simpl in Hy. apply (IH i j y z ltac:(lia) Hy Hz).
Qed.

Lemma bisect_loop_spec (a : list string) (x : string) :
  StronglySorted slt a ->
  forall fuel lo hi,
    lo <= hi <= length a -> hi - lo <= fuel ->
    (forall i y, i < lo -> a !! i = Some y -> String.ltb x y = false) ->
    (forall i y, hi <= i -> a !! i = Some y -> String.ltb x y = true) ->
    let r := bisect_loop fuel a x lo hi in
    r <= length a /\
    (forall i y, i < r -> a !! i = Some y -> String.ltb x y = false) /\
    (forall i y, r <= i -> a !! i = Some y -> String.ltb x y = true).
Proof.
  intros Hs. induction fuel as [|fuel IH]; intros lo hi Hb Hf Hlo Hhi.
  - assert (lo = hi) by lia. subst hi. simpl.
    split; [lia|]. split; assumption.
  - cbn [bisect_loop].
    destruct (Nat.ltb_spec lo hi) as [Hlt|Hge].
    2:{ assert (lo = hi) by lia. subst hi.
        split; [lia|]. split; assumption. }
    pose proof (Nat.div_mod_eq (lo + hi) 2) as Hdiv.
    pose proof (Nat.mod_upper_bound (lo + hi) 2 ltac:(lia)) as Hmod.
    set (mid := (lo + hi) / 2) in *.
    destruct (lookup_lt_is_Some_2 a mid ltac:(lia)) as [ym Hym].
    rewrite Hym.
    destruct (String.ltb x ym) eqn:Hx.
    + apply IH; [lia|lia|exact Hlo|].
      intros i y Hi Hy.
      destruct (Nat.eq_dec i mid) as [->|Hne]; [congruence|].
      pose proof (sorted_lookup a Hs mid i ym y ltac:(lia) Hym Hy) as Hlt'.
      apply (slt_trans x ym y Hx Hlt').
    + apply IH; [lia|lia| |exact Hhi].
      intros i y Hi Hy.
      destruct (Nat.eq_dec i mid) as [->|Hne]; [congruence|].
      pose proof (sorted_lookup a Hs i mid y ym ltac:(lia) Hy Hym) as Hlt'.
      destruct (String.ltb x y) eqn:Hxy; [|reflexivity].
      rewrite (slt_trans x y ym Hxy Hlt') in Hx. discriminate.
Qed.

Lemma bisect_right_spec (a : list string) (x : string) :
  StronglySorted slt a ->
  bisect_right a x <= length a /\
  (forall i y, i < bisect_right a x -> a !! i = Some y ->
               String.ltb x y = false) /\
  (forall i y, bisect_right a x <= i -> a !! i = Some y ->
               String.ltb x y = true).
Proof.
  intros Hs. unfold bisect_right.
  apply (bisect_loop_spec a x Hs (length a) 0 (length a)); [lia|lia| |].
  - intros; lia.
  - intros i y Hi Hy. apply lookup_lt_Some in Hy. lia.
Qed.

(** *** The sparse index cuts the items into blocks *)

(** [blocks items off idx]: the items are the blocks the entries of [idx]
    start, each entry giving the first key of its block and the offset of
    its first record, [off] being that of the first item. *)
Inductive blocks : list kv -> nat -> list (string * nat) -> Prop :=
| blocks_nil off : blocks [] off []
| blocks_cons k v blk rest off idx :
    blocks rest (off + String.length (text_of ((k, v) :: blk))) idx ->
    blocks (((k, v) :: blk) ++ rest) off ((k, off) :: idx).

Lemma write_loop_blocks (items : list kv) : forall off i,
  exists lead rest,
    items = lead ++ rest /\
    blocks rest (off + String.length (text_of lead))
      (snd (SSTable.write_loop items off i)) /\
    (i mod SSTable.SPARSE_INDEX_STRIDE = 0 -> lead = []).
Proof.
  induction items as [|[k v] items IH]; intros off i.
  - exists [], []. split; [reflexivity|]. split; [|reflexivity].
    simpl. constructor.
  - cbn [SSTable.write_loop].
    destruct (IH (off + String.length (SSTable.record_line k v)) (S i))
      as (lead & rest & Hitems & Hb & _).
    destruct (SSTable.write_loop items _ _) as [text idx]. cbn [snd] in *.
    destruct (Nat.eqb_spec (i mod SSTable.SPARSE_INDEX_STRIDE) 0) as [E|E].
    + exists [], ((k, v) :: lead ++ rest).
      split; [rewrite Hitems; reflexivity|]. split; [|reflexivity].
      cbn [text_of String.length]. rewrite Nat.add_0_r.
      apply (blocks_cons k v lead rest off idx).
      cbn [text_of]. rewrite length_append, Nat.add_assoc. exact Hb.
    + exists ((k, v) :: lead), rest.
      split; [rewrite Hitems; reflexivity|]. split; [|contradiction].
      cbn [text_of]. rewrite length_append, Nat.add_assoc. exact Hb.
Qed.

Lemma blocks_nil_inv items off : blocks items off [] -> items = [].
Proof. inversion 1. reflexivity. Qed.

Lemma blocks_head items off idx :
  blocks items off idx -> idx <> [] ->
  exists k v blk rest idx',
    items = ((k, v) :: blk) ++ rest /\ idx = (k, off) :: idx'.
Proof.
  destruct 1 as [off|k v blk rest off idx Hb]; intros Hne; [contradiction|].
  eexists _, _, _, _, _. split; reflexivity.
Qed.

Lemma blocks_lookup items off idx :
  blocks items off idx ->
  forall e k o, idx !! e = Some (k, o) ->
    exists lo v blk hi,
      items = lo ++ ((k, v) :: blk) ++ hi /\
      o = off + String.length (text_of lo) /\
      match idx !! S e with
      | Some (k', o') =>
          o' = o + String.length (text_of ((k, v) :: blk)) /\
          exists v' hi', hi = (k', v') :: hi'
      | None => hi = []
      end.
Proof.
  induction 1 as [off|k v blk rest off idx Hb IH]; intros e k0 o He;
    [discriminate|].
  destruct e as [|e].
  - simpl in He. injection He as <- <-.
    exists [], v, blk, rest. split; [reflexivity|].
    split; [simpl; lia|].
    cbn [lookup list_lookup]. inversion Hb as [off'|k' v' blk' rest' off' idx' Hb']; subst.
    + reflexivity.
    + simpl. split; [reflexivity|]. eexists _, _. reflexivity.
  - simpl in He. destruct (IH e k0 o He) as (lo & v0 & blk0 & hi & -> & -> & Hnext).
    exists (((k, v) :: blk) ++ lo), v0, blk0, hi.
    split; [rewrite <- app_assoc; reflexivity|]. split.
    + rewrite text_of_app, length_append. lia.
    + exact Hnext.
Qed.

Lemma blocks_keys items off idx :
  blocks items off idx -> forall k, In k (map fst idx) -> In k (keys_of items).
Proof.
  induction 1 as [off|k v blk rest off idx Hb IH]; intros k0 Hin;
    [destruct Hin|].
  destruct Hin as [<-|Hin]; [left; reflexivity|].
  unfold keys_of. rewrite map_app. apply in_or_app. right.
  apply IH. exact Hin.
Qed.

Lemma blocks_keys_sorted items off idx :
  blocks items off idx -> sorted items -> StronglySorted slt (map fst idx).
Proof.
  induction 1 as [off|k v blk rest off idx Hb IH]; intros Hs;
    [constructor|].
  apply sorted_app in Hs as (Hs1 & Hs2 & Hlt).
  cbn [map fst]. constructor; [apply IH; exact Hs2|].
  apply Forall_forall. intros k' Hin. apply list_elem_of_In in Hin.
  apply (blocks_keys _ _ _ Hb) in Hin.
  apply in_map_iff in Hin as (b & <- & Hb').
  apply (Hlt (k, v) b); [left; reflexivity|exact Hb'].
Qed.

(** *** The scan *)

Lemma length_record_line k v : 0 < String.length (SSTable.record_line k v).
Proof.
  unfold SSTable.record_line. rewrite length_append. simpl. lia.
Qed.

Lemma scan_absent (key : string) (next : option nat) (L : list kv) :
  forall pos,
    assoc key L = None ->
    SSTable.scan key next (map line_of L) pos = Ok None.
Proof.
  induction L as [|[k v] L IH]; intros pos Ha; [reflexivity|].
  cbn [map SSTable.scan]. unfold line_of at 1 2. cbn [fst snd].
  rewrite loads_record_line. cbn [bind].
  simpl in Ha. rewrite String.eqb_sym.
  destruct (String.eqb key k); [discriminate|].
  destruct (String.ltb key k); [reflexivity|].
  destruct next as [n|]; [|apply IH; exact Ha].
  destruct (n <=? pos + String.length (SSTable.record_line k v));
    [reflexivity|apply IH; exact Ha].
Qed.

Lemma scan_found (key v : string) (next : option nat) (post : list kv) :
  forall pre pos,
    all_lt pre key ->
    (forall n, next = Some n -> pre <> [] ->
               pos + String.length (text_of pre) < n) ->
    SSTable.scan key next (map line_of (pre ++ (key, v) :: post)) pos =
    Ok (visible (Some v)).
Proof.
  induction pre as [|[k1 v1] pre IH]; intros pos Hlt Hnext.
  - cbn [app map SSTable.scan]. unfold line_of at 1 2. cbn [fst snd].
    rewrite loads_record_line. cbn [bind].
    rewrite String.eqb_refl. reflexivity.
  - cbn [app map SSTable.scan]. unfold line_of at 1 2. cbn [fst snd].
    rewrite loads_record_line. cbn [bind].
    apply Forall_cons in Hlt as [Hk1 Hlt]. cbn [fst] in Hk1.
    destruct (String.eqb_spec k1 key) as [E|_];
      [exfalso; subst; exact (slt_irrefl _ Hk1)|].
    rewrite (slt_asym_false k1 key Hk1).
    assert (Hrec : forall pos',
               (forall n, next = Some n -> pre <> [] ->
                          pos' + String.length (text_of pre) < n) ->
               SSTable.scan key next
                 (map line_of (pre ++ (key, v) :: post)) pos' =
               Ok (visible (Some v))).
    { intros pos' H. apply IH; [exact Hlt|exact H]. }
    destruct next as [n|].
    + specialize (Hnext n eq_refl ltac:(discriminate)).
      cbn [text_of] in Hnext. rewrite length_append in Hnext.
      change (line_of (k1, v1)) with (SSTable.record_line k1 v1).
      destruct (n <=? pos + String.length (SSTable.record_line k1 v1)) eqn:E.
      { apply Nat.leb_le in E. lia. }
      apply Hrec. intros n' [= <-] _. lia.
    + apply Hrec. intros n' H. discriminate H.
Qed.

Lemma lines_seek (lo rest : list kv) :
  lines (seek (String.length (text_of lo)) (text_of (lo ++ rest))) =
  map line_of rest.
Proof.
  rewrite text_of_app, seek_append. apply lines_text_of.
Qed.

(** *** The bloom filter answers *)

Lemma contains_loop_total bf item n : forall i,
  bf_wf bf -> exists b, BloomFilter.contains_loop md5_int bf item i n = Ok b.
Proof.
  induction n as [|n IH]; intros i Hwf; [exists true; reflexivity|].
  cbn [BloomFilter.contains_loop].
  destruct (hash_at_ok md5_int bf item i Hwf) as (h & Hh & Hrange).
  rewrite Hh. cbn [bind]. unfold getitem. destruct Hwf as [Hs Hlen].
  rewrite py_index_in_range by lia.
  destruct (lookup_lt_is_Some_2 (BloomFilter.bit_array bf) (Z.to_nat h)
              ltac:(lia)) as [b Hb].
  rewrite Hb. cbn [of_option bind].
  destruct (b =? 0)%Z; [exists false; reflexivity|].
  apply IH. split; assumption.
Qed.

(** What [get] needs of the filter of a table that holds [items]. *)
Definition filter_ok (bf : option BloomFilter.t) (items : list kv) : Prop :=
  match bf with
  | Some bf =>
      bf_wf bf /\
      forall k, In k (keys_of items) ->
                BloomFilter.contains md5_int bf k = Ok true
  | None => True
  end.

(** *** [get] *)

Lemma get_spec (d : Dir) (s : SSTable.t) (items : list kv) (key : string) :
  data d !! SSTable.filename s = Some (text_of items) ->
  sorted items ->
  blocks items 0 (SSTable.sparse_index s) ->
  filter_ok (SSTable.bloom_filter s) items ->
  SSTable.get md5_int d s key = Ok (visible (assoc key items)).
Proof.
  intros Hdata Hs Hb Hbf. unfold SSTable.get.
  assert (Hneg : exists neg,
             match SSTable.bloom_filter s with
             | Some bf =>
                 let* c := BloomFilter.contains md5_int bf key in
                 Ok (negb c)
             | None => Ok false
             end = Ok neg /\
             (neg = true -> assoc key items = None)).
  { destruct (SSTable.bloom_filter s) as [bf|];
      [|exists false; split; [reflexivity|discriminate]].
    destruct Hbf as [Hwf Hin].
    destruct (contains_loop_total bf key
                (Z.to_nat (BloomFilter.hash_count bf)) 0 Hwf) as [b Hc].
    unfold BloomFilter.contains in *. rewrite Hc. cbn [bind].
    exists (negb b). split; [reflexivity|].
    intros Hb'. destruct b; [discriminate|].
    apply assoc_None_not_in. intros Hk.
    rewrite (Hin key Hk) in Hc. discriminate. }
  destruct Hneg as (neg & -> & Hneg). cbn [bind].
  destruct neg; [rewrite Hneg by reflexivity; reflexivity|]. clear Hneg.
  destruct (SSTable.sparse_index s) as [|e0 idx0] eqn:Hidx.
  { rewrite (blocks_nil_inv _ _ Hb). reflexivity. }
  assert (Hne : SSTable.sparse_index s <> []) by (rewrite Hidx; discriminate).
  rewrite <- Hidx in *. clear e0 idx0 Hidx.
  pose proof (blocks_keys_sorted items 0 _ Hb Hs) as Hks.
  destruct (bisect_right_spec (map fst (SSTable.sparse_index s)) key Hks)
    as (Hr & Hbelow & Habove).
  rewrite length_map in Hr.
  set (r := bisect_right (map fst (SSTable.sparse_index s)) key) in *.
  rewrite Hdata. cbn [of_option].
  destruct r as [|e] eqn:Er.
  - (* the key is below the first key of the index *)
    destruct (blocks_head items 0 _ Hb Hne)
      as (k0 & v0 & blk & rest & idx' & Hitems & Hidx').
    assert (Hk0 : String.ltb key k0 = true).
    { apply (Habove 0 k0 ltac:(lia)). rewrite Hidx'. reflexivity. }
    rewrite Hidx'.
    change (0 <=? Z.of_nat 0 - 1)%Z with false.
    change (Z.to_nat (Z.of_nat 0 - 1 + 1)) with 0.
    cbn [lookup list_lookup fmap option_fmap option_map snd bind seek].
    rewrite lines_text_of, Hitems. cbn [app map SSTable.scan].
    unfold line_of; cbn [fst snd].
    rewrite loads_record_line. cbn [bind].
    destruct (String.eqb_spec k0 key) as [E|_];
      [exfalso; subst; exact (slt_irrefl _ Hk0)|].
    rewrite Hk0.
    rewrite (assoc_all_gt _ key); [reflexivity|].
    rewrite Hitems in Hs. change (sorted ((k0, v0) :: blk ++ rest)) in Hs.
    apply sorted_cons in Hs as [_ Hgt]. cbn [fst] in Hgt.
    constructor; [exact Hk0|].
    apply (all_gt_trans _ k0 key Hgt Hk0).
  - (* the block of entry [e] *)
    replace (Z.of_nat (S e) - 1)%Z with (Z.of_nat e) by lia.
    destruct (Z.leb_spec 0 (Z.of_nat e)) as [_|?]; [|lia].
    unfold getitem. rewrite py_index_in_range by lia.
    rewrite Nat2Z.id.
    destruct (lookup_lt_is_Some_2 (SSTable.sparse_index s) e ltac:(lia))
      as [[ke oe] He].
    rewrite He. cbn [of_option bind snd].
    replace (Z.to_nat (Z.of_nat e + 1)) with (S e) by lia.
    destruct (blocks_lookup items 0 _ Hb e ke oe He)
      as (lo & ve & blk & hi & Hitems & Hoe & Hnext).
    simpl in Hoe. subst oe. rewrite Hitems, lines_seek.
    rewrite Hitems in Hs.
    apply sorted_app in Hs as (Hslo & Hsbh & Hlo).
    assert (Hke : String.ltb key ke = false).
    { apply (Hbelow e ke ltac:(lia)).
      rewrite list_lookup_fmap, He. reflexivity. }
    assert (Hlo' : assoc key lo = None).
    { apply assoc_all_lt. apply Forall_forall. intros b Hin.
      apply list_elem_of_In in Hin.
      pose proof (Hlo b (ke, ve) Hin ltac:(left; reflexivity)) as Hbk.
      cbn [fst] in Hbk.
      destruct (String.eqb_spec ke key) as [<-|Hkne]; [exact Hbk|].
      apply (slt_trans _ ke key Hbk). apply not_slt; [exact Hke|].
      intros E. apply Hkne. symmetry. exact E. }
    rewrite assoc_app, Hlo'.
    destruct (assoc key (((ke, ve) :: blk) ++ hi)) as [v|] eqn:Ha;
      [|apply scan_absent; exact Ha].
    (* the key is in the block *)
    assert (Hin : In (key, v) ((ke, ve) :: blk) /\
                  (forall n, snd <$> SSTable.sparse_index s !! S e = Some n ->
                             n = String.length (text_of lo) +
                                 String.length (text_of ((ke, ve) :: blk)))).
    { pose proof (assoc_Some_in _ _ _ Ha) as Hin.
      destruct (SSTable.sparse_index s !! S e) as [[k' o']|] eqn:Hn.
      - destruct Hnext as (-> & v' & hi' & ->). split.
        + apply in_app_or in Hin as [Hin|Hin]; [exact Hin|].
          exfalso.
          assert (Hk' : String.ltb key k' = true).
          { apply (Habove (S e) k' ltac:(lia)).
            rewrite list_lookup_fmap, Hn. reflexivity. }
          apply sorted_app in Hsbh as (_ & Hshi & _).
          apply sorted_cons in Hshi as [_ Hgt]. cbn [fst] in Hgt.
          destruct Hin as [E|Hin].
          * injection E as E _. subst k'. exact (slt_irrefl _ Hk').
          * unfold all_gt in Hgt. rewrite Forall_forall in Hgt.
            apply list_elem_of_In in Hin. specialize (Hgt _ Hin).
            cbn [fst] in Hgt.
            exact (slt_irrefl _ (slt_trans _ _ _ Hk' Hgt)).
        + intros n [= <-]. reflexivity.
      - subst hi. rewrite app_nil_r in Hin. split; [exact Hin|].
        intros n H. discriminate H. }
    destruct Hin as [Hin Hn].
    apply in_split in Hin as (pre & post & Hblk).
    rewrite Hblk, <- app_assoc. cbn [app].
    apply scan_found.
    + rewrite Hblk, <- app_assoc in Hsbh. cbn [app] in Hsbh.
      apply sorted_app in Hsbh as (_ & _ & Hlt).
      apply Forall_forall. intros b Hb'. apply list_elem_of_In in Hb'.
      apply (Hlt b (key, v) Hb'). left. reflexivity.
    + intros n Hn' _. specialize (Hn n Hn'). subst n.
      rewrite Hblk, text_of_app, length_append. cbn [text_of].
      rewrite length_append.
      pose proof (length_record_line key v). lia.
Qed.

(** *** A table written from a mapping *)

Lemma decode_all_lines (items : list kv) :
  SSTable.decode_all (map line_of items) = Ok items.
Proof.
  induction items as [|[k v] items IH]; [reflexivity|].
  cbn [map SSTable.decode_all]. unfold line_of at 1. cbn [fst snd].
  rewrite loads_record_line. cbn [bind]. rewrite IH. reflexivity.
Qed.

Lemma build_index_loop_lines (items : list kv) : forall off i,
  SSTable.build_index_loop (map line_of items) off i =
  Ok (snd (SSTable.write_loop items off i)).
Proof.
  induction items as [|[k v] items IH]; intros off i; [reflexivity|].
  cbn [map SSTable.build_index_loop SSTable.write_loop].
  change (line_of (k, v)) with (SSTable.record_line k v).
  rewrite loads_record_line, IH.
  destruct (SSTable.write_loop items _ _) as [text idx]. cbn [snd].
  destruct (i mod SSTable.SPARSE_INDEX_STRIDE =? 0); reflexivity.
Qed.

(** The table and the directory [write_from_memtable] leaves, not
    appending. *)
Lemma written_table (d : Dir) (f : base) (M : gmap string string) :
  exists sst d',
    SSTable.write_from_memtable md5_int d f M false = Ok (sst, d') /\
    SSTable.filename sst = f /\
    data d' = <[f:=text_of (py_sorted (map_to_list M))]> (data d) /\
    index d' = <[f:=SSTable.sparse_index sst]> (index d) /\
    bloom d' !! f = SSTable.bloom_filter sst /\
    SSTable.sparse_index sst =
      snd (SSTable.write_loop (py_sorted (map_to_list M)) 0 0) /\
    blocks (py_sorted (map_to_list M)) 0 (SSTable.sparse_index sst) /\
    filter_ok (SSTable.bloom_filter sst) (py_sorted (map_to_list M)).
Proof.
  destruct (write_from_memtable_eq md5_int d f M false)
    as (bf & Hbf & Hrun).
  eexists _, _. split; [exact Hrun|].
  cbn [SSTable.filename SSTable.sparse_index SSTable.bloom_filter
       data index bloom].
  split; [reflexivity|]. split; [reflexivity|]. split; [reflexivity|].
  split; [apply lookup_insert_eq|]. split; [reflexivity|]. split.
  - destruct (write_loop_blocks (py_sorted (map_to_list M)) 0 0)
      as (lead & rest & Hitems & Hb & Hlead).
    rewrite (Hlead eq_refl) in *. simpl in Hitems, Hb.
    rewrite <- Hitems in Hb. exact Hb.
  - assert (Hsz : (1 <= Z.max 100 (Z.of_nat (size M) * 10))%Z) by lia.
    destruct (add_all_spec md5_int (map fst (map_to_list M))
                (BloomFilter.init (Z.max 100 (Z.of_nat (size M) * 10)) 5)
                (init_wf _ 5 Hsz))
      as (bf' & Hrun' & Hwf & _ & _ & _ & Hin).
    rewrite Hbf in Hrun'. injection Hrun' as <-.
    split; [exact Hwf|]. intros k Hk. apply Hin.
    unfold keys_of in Hk.
    apply (Permutation_in _ (Permutation_map fst (py_sorted_perm _))).
    exact Hk.
Qed.

(** X16 (point read of a written table): [write_from_memtable] of any
    mapping returns a table whose [get(k)] returns, for every key [k], the
    value the mapping gives [k], and [None] when the mapping has no value
    for [k] or gives it the tombstone: the bloom filter, the bisection of
    the sparse index and the scan of one block lose no key. *)
Theorem sstable_get_written (d : Dir) (f : base) (M : gmap string string) :
  exists sst d',
    SSTable.write_from_memtable md5_int d f M false = Ok (sst, d') /\
    forall k,
      SSTable.get md5_int d' sst k =
      Ok (match M !! k with
          | Some v => if String.eqb v TOMBSTONE then None else Some v
          | None => None
          end).
Proof.
  destruct (written_table d f M)
    as (sst & d' & Hrun & Hf & Hdata & _ & _ & _ & Hb & Hbf).
  exists sst, d'. split; [exact Hrun|]. intros k.
  destruct (sorted_items M) as [Hs Ha].
  rewrite (get_spec d' sst (py_sorted (map_to_list M)) k).
  - rewrite Ha. reflexivity.
  - rewrite Hf, Hdata. apply lookup_insert_eq.
  - exact Hs.
  - exact Hb.
  - exact Hbf.
Qed.

(** X17 (reading a written table back): [read_iter] on the table
    [write_from_memtable] returns yields the pairs of the mapping, each
    once, in strictly ascending key order. *)
Theorem sstable_read_iter_written (d : Dir) (f : base)
  (M : gmap string string) :
  exists sst d' items,
    SSTable.write_from_memtable md5_int d f M false = Ok (sst, d') /\
    SSTable.decode_all (SSTable.read_iter d' sst) = Ok items /\
    StronglySorted slt (map fst items) /\
    length items = size M /\
    forall k v, In (k, v) items <-> M !! k = Some v.
Proof.
  destruct (written_table d f M)
    as (sst & d' & Hrun & Hf & Hdata & _ & _ & _ & _ & _).
  exists sst, d', (py_sorted (map_to_list M)).
  split; [exact Hrun|].
  destruct (sorted_items M) as [Hs Ha].
  split.
  - unfold SSTable.read_iter. rewrite Hf, Hdata, lookup_insert_eq.
    rewrite lines_text_of. apply decode_all_lines.
  - split; [exact Hs|]. split.
    + rewrite (Permutation_length (py_sorted_perm _)).
      apply length_map_to_list.
    + intros k v. rewrite <- Ha. split.
      * apply assoc_in_nodup.
        clear -Hs. unfold sorted in Hs.
        induction (keys_of (py_sorted (map_to_list M))) as [|x l IH].
        -- apply NoDup_nil. trivial.
        -- apply StronglySorted_inv in Hs as [Hs Hx].
           apply NoDup_cons. split.
           ++ intros Hin. rewrite Forall_forall in Hx.
              apply (slt_irrefl x). apply Hx. exact Hin.
           ++ apply IH. exact Hs.
      * apply assoc_Some_in.
Qed.

(** X18 (the sparse index is rebuilt as written): when the index file of
    a written table is missing, [SSTable(filename)] builds the index from
    the data file; the index built is the one [write_from_memtable] had
    saved, and it is saved again. *)
Theorem sstable_index_rebuilt (d : Dir) (f : base)
  (M : gmap string string) :
  exists sst d' sst2 d2,
    SSTable.write_from_memtable md5_int d f M false = Ok (sst, d') /\
    SSTable.init (set_index d' (base.delete f (index d'))) f =
      Ok (sst2, d2) /\
    sst2 = sst /\
    index d2 !! f = Some (SSTable.sparse_index sst) /\
    data d2 = data d'.
Proof.
  destruct (written_table d f M)
    as (sst & d' & Hrun & Hf & Hdata & _ & Hbloom & Hidx & _ & _).
  exists sst, d'. unfold SSTable.init.
  cbn [index data bloom set_index].
  rewrite lookup_delete_eq, Hdata, lookup_insert_eq, lines_text_of.
  rewrite build_index_loop_lines, <- Hidx. cbn [bind].
  eexists _, _. split; [exact Hrun|]. split; [reflexivity|].
  split; [|split].
  - rewrite Hbloom. destruct sst. simpl in Hf. subst. reflexivity.
  - cbn [index set_index]. apply lookup_insert_eq.
  - cbn [data set_index]. exact Hdata.
Qed.

End SSTableReads.

(** * The segments of the LSM engine

    What a flush writes, how many segments the engine makes, and what [get]
    finds in them. *)

Lemma dict_of_snoc (l : list kv) (e : kv) :
  dict_of (l ++ [e]) = <[fst e:=snd e]> (dict_of l).
Proof. unfold dict_of. rewrite fold_left_app. reflexivity. Qed.

Lemma dict_of_lookup (l : list kv) (k : string) :
  dict_of l !! k = last_write k l.
Proof.
  induction l as [|[k1 v1] l IH] using rev_ind; [apply lookup_empty|].
  rewrite dict_of_snoc. unfold last_write in *. rewrite rev_unit.
  cbn [fst snd assoc].
  destruct (String.eqb_spec k k1) as [->|Hne].
  - apply lookup_insert_eq.
  - rewrite lookup_insert_ne by congruence. exact IH.
Qed.

Lemma last_write_sorted (l : list kv) (k : string) :
  sorted l -> last_write k l = assoc k l.
Proof.
  intros Hs. destruct (assoc k l) as [v|] eqn:Ea.
  - apply last_write_nodup; [|apply assoc_Some_in; exact Ea].
    apply (sorted_NoDup l Hs).
  - unfold last_write. apply assoc_None_not_in.
    apply assoc_None_not_in in Ea. intros Hin. apply Ea.
    unfold keys_of in *. rewrite map_rev in Hin.
    apply in_rev in Hin. exact Hin.
Qed.

Lemma length_ins (k v : string) (l : list kv) :
  length (ins k v l) = S (length l).
Proof.
  induction l as [|[k' v'] l IH]; [reflexivity|].
  simpl. destruct (String.ltb k k'); simpl; [reflexivity|].
  rewrite IH. reflexivity.
Qed.

Lemma upsert_not_nil (k v : string) (l : list kv) : upsert k v l <> [].
Proof.
  intros E. pose proof (assoc_upsert k v l k) as H.
  rewrite E, String.eqb_refl in H. discriminate H.
Qed.

Lemma replay_keys_mono (k : string) (b : WriteAheadLog.log_file) :
  forall l, In k (keys_of l) -> In k (keys_of (replay l b)).
Proof.
  unfold replay. induction b as [|e b IH]; intros l Hin; [exact Hin|].
  cbn [fold_left]. apply IH. unfold apply_entry.
  destruct (String.eqb (WriteAheadLog.op e) "insert"); [|exact Hin].
  destruct (assoc k (upsert (WriteAheadLog.key e) (WriteAheadLog.value e) l))
    eqn:Ea.
  - apply assoc_Some_in in Ea. apply (in_map fst) in Ea. exact Ea.
  - rewrite assoc_upsert in Ea.
    destruct (String.eqb k (WriteAheadLog.key e)); [discriminate|].
    apply assoc_None_not_in in Ea. contradiction.
Qed.

(** The call is a [put], a [delete] or a [close]. *)
Definition writes_only (o : LSMTree.op) : bool :=
  match o with
  | LSMTree.Put _ _ | LSMTree.Delete _ | LSMTree.Close => true
  | _ => false
  end.

Section LSMSegments.
Variable md5_int : string -> Z.

(** The files and the state of a segment are those of a table that holds
    [items]. *)
Definition seg_holds (d : Dir) (seg : SSTable.t) (items : list kv) : Prop :=
  data d !! SSTable.filename seg = Some (text_of items) /\
  sorted items /\
  blocks items 0 (SSTable.sparse_index seg) /\
  filter_ok md5_int (SSTable.bloom_filter seg) items.

Lemma seg_holds_get d seg items k :
  seg_holds d seg items ->
  SSTable.get md5_int d seg k = Ok (visible (assoc k items)).
Proof.
  intros (Hdata & Hs & Hb & Hbf). apply get_spec; assumption.
Qed.

(** Every segment holds records of keys the log has. *)
Definition segs_hold (s : LSMTree.t) (d : Dir) : Prop :=
  Forall (fun seg =>
            exists items,
              seg_holds d seg items /\
              forall k, In k (keys_of items) ->
                        In k (keys_of (replay [] (log d))))
         (LSMTree.segments s).

Lemma mem_inv_sorted s d : mem_inv s d -> sorted (replay [] (log d)).
Proof. intros (h & r & _ & (_ & _ & Hs) & Hf). rewrite <- Hf. exact Hs. Qed.

(** *** A flush *)

Lemma flush_detail (s : LSMTree.t) (d : Dir) :
  mem_inv s d ->
  replay [] (log d) <> [] ->
  exists seg items s' d',
    LSMTree._flush_memtable md5_int s d = Ok (s', d') /\
    LSMTree.segments s' = LSMTree.segments s ++ [seg] /\
    LSMTree.segment_counter s' = S (LSMTree.segment_counter s) /\
    LSMTree.memtable_threshold s' = LSMTree.memtable_threshold s /\
    SSTable.filename seg = Numbered (LSMTree.segment_counter s) /\
    seg_holds d' seg items /\
    (forall k, assoc k items = assoc k (replay [] (log d))) /\
    data d' =
      <[Numbered (LSMTree.segment_counter s):=text_of items]> (data d).
Proof.
  intros Hmem Hne.
  pose proof (mem_inv_sorted s d Hmem) as Hsorted.
  unfold LSMTree._flush_memtable.
  rewrite (mem_inv_items s d Hmem). cbn [bind].
  destruct (replay [] (log d)) as [|it items0] eqn:Hrep; [contradiction|].
  set (f := Numbered (LSMTree.segment_counter s)).
  set (M := dict_of (it :: items0)).
  destruct (written_table md5_int d f M)
    as (sst & d2 & Hrun & Hf & Hdata & Hindex & Hbloom & Hidx & Hb & Hbf).
  rewrite Hrun. cbn [bind]. unfold SSTable.init.
  rewrite Hindex, lookup_insert_eq, Hbloom. cbn [bind].
  destruct (init_spec 5 degree_ok (wal d2)) as (h & r & -> & _).
  cbn [bind].
  exists (SSTable.mk f (SSTable.sparse_index sst) (SSTable.bloom_filter sst)),
    (py_sorted (map_to_list M)).
  eexists _, _. split; [reflexivity|].
  cbn [LSMTree.segments LSMTree.segment_counter LSMTree.memtable_threshold
       SSTable.filename].
  split; [reflexivity|]. split; [reflexivity|]. split; [reflexivity|].
  split; [reflexivity|].
  destruct (sorted_items M) as [Hs Ha].
  split; [|split].
  - unfold seg_holds.
    cbn [SSTable.filename SSTable.sparse_index SSTable.bloom_filter
         set_wal data].
    split; [rewrite Hdata; apply lookup_insert_eq|].
    split; [exact Hs|]. split; [exact Hb|exact Hbf].
  - intros k. rewrite Ha. unfold M. rewrite dict_of_lookup.
    apply last_write_sorted. exact Hsorted.
  - cbn [set_wal data]. exact Hdata.
Qed.

(** The segments that were there are not touched by a flush. *)
Lemma seg_holds_frame (s : LSMTree.t) (d d' : Dir) (text : string) :
  seg_inv s d ->
  data d' = <[Numbered (LSMTree.segment_counter s):=text]> (data d) ->
  forall seg items,
    In seg (LSMTree.segments s) ->
    seg_holds d seg items -> seg_holds d' seg items.
Proof.
  intros (_ & Hsegs) Hdata seg items Hin (Hd & Hrest).
  split; [|exact Hrest].
  destruct (Hsegs seg Hin) as (n & _ & Hn & Hlt & _).
  rewrite Hdata, lookup_insert_ne; [exact Hd|].
  rewrite Hn. intros [= E]. lia.
Qed.

Lemma flush_holds (s : LSMTree.t) (d : Dir) :
  mem_inv s d -> seg_inv s d -> segs_hold s d ->
  exists s' d',
    LSMTree._flush_memtable md5_int s d = Ok (s', d') /\
    mem_inv s' d' /\ seg_inv s' d' /\ segs_hold s' d' /\ log d' = log d.
Proof.
  intros Hmem Hseg Hhold.
  destruct (flush_ok md5_int s d Hmem Hseg) as (s' & d' & Hrun & Hseg').
  destruct (flush_spec md5_int s d s' d' Hmem Hrun) as (Hmem' & Hlog).
  exists s', d'. split; [exact Hrun|]. split; [exact Hmem'|].
  split; [exact Hseg'|]. split; [|exact Hlog].
  destruct (replay [] (log d)) as [|it items0] eqn:Hrep.
  - unfold LSMTree._flush_memtable in Hrun.
    rewrite (mem_inv_items s d Hmem), Hrep in Hrun. cbn [bind] in Hrun.
    injection Hrun as <- <-. exact Hhold.
  - destruct (flush_detail s d Hmem) as
      (seg & items & s2 & d2 & Hrun2 & Hsegs & _ & _ & _ & Hnew & Ha & Hdata).
    { rewrite Hrep. discriminate. }
    rewrite Hrun in Hrun2. injection Hrun2 as <- <-.
    unfold segs_hold. rewrite Hsegs, Hlog. apply Forall_app. split.
    + apply Forall_forall. intros seg0 Hin. apply list_elem_of_In in Hin.
      unfold segs_hold in Hhold. rewrite Forall_forall in Hhold.
      destruct (Hhold seg0 (proj2 (list_elem_of_In _ _) Hin))
        as (items0' & Hh & Hk).
      exists items0'. split; [|exact Hk].
      apply (seg_holds_frame s d d' _ Hseg Hdata seg0 items0' Hin Hh).
    + constructor; [|constructor]. exists items. split; [exact Hnew|].
      intros k Hk.
      destruct (assoc k (replay [] (log d))) as [v|] eqn:Ea.
      * apply assoc_Some_in in Ea. apply (in_map fst) in Ea. exact Ea.
      * exfalso. rewrite <- Ha in Ea. apply assoc_None_not_in in Ea.
        contradiction.
Qed.

(** *** A put *)

Lemma put_detail (s : LSMTree.t) (d : Dir) (k v : string) :
  mem_inv s d -> seg_inv s d ->
  exists s' d',
    LSMTree.put md5_int s d k v = Ok (s', d') /\
    mem_inv s' d' /\ seg_inv s' d' /\
    log d' = log d ++ entries_of [(k, v)] /\
    LSMTree.memtable_threshold s' = LSMTree.memtable_threshold s /\
    length (LSMTree.segments s') =
      (length (LSMTree.segments s) +
       if (LSMTree.memtable_threshold s <=?
           Z.of_nat (length (replay [] (log d'))))%Z
       then 1 else 0)%nat /\
    (segs_hold s d -> segs_hold s' d').
Proof.
  intros Hmem Hseg.
  destruct (put_ok md5_int s d k v Hmem Hseg) as (s' & d' & Hrun & Hseg').
  destruct (put_spec md5_int s d k v s' d' Hmem Hrun) as (Hmem' & Hlog).
  exists s', d'. split; [exact Hrun|]. split; [exact Hmem'|].
  split; [exact Hseg'|]. split; [exact Hlog|].
  (* the state between the insertion and the flush *)
  destruct Hmem as (h & r & Hm & Hinv & Hf).
  unfold LSMTree.put in Hrun. rewrite Hm in Hrun.
  destruct (insert_spec 5 degree_ok h r (WriteAheadLog.init (wal d)) k v true
              Hinv) as (h1 & r1 & E & Hinv1 & Hf1).
  rewrite E in Hrun. cbn [bind] in Hrun.
  cbn [LSMTree.memtable_threshold] in Hrun.
  set (s1 := LSMTree.mk (BTree.mk r1 5) (LSMTree.memtable_threshold s)
               (LSMTree.segments s) (LSMTree.segment_counter s)) in *.
  set (d1 := set_wal d (Some (WriteAheadLog.write
                                (WriteAheadLog.init (wal d)) "insert" k v)))
    in *.
  assert (Hlog1 : log d1 = log d ++ entries_of [(k, v)]) by reflexivity.
  assert (Hmem1 : mem_inv s1 d1).
  { exists h1, r1. split; [reflexivity|]. split; [exact Hinv1|].
    rewrite Hf1, Hf, Hlog1, replay_app. reflexivity. }
  assert (Hseg1 : seg_inv s1 d1) by exact Hseg.
  change (BTree.items (BTree.mk r1 5))
    with (BTree.items (LSMTree.memtable s1)) in Hrun.
  rewrite (mem_inv_items s1 d1 Hmem1) in Hrun. cbn [bind] in Hrun.
  rewrite Hlog, <- Hlog1.
  assert (Hne : replay [] (log d1) <> []).
  { rewrite Hlog1, replay_app. apply upsert_not_nil. }
  match type of Hrun with
  | (if ?c then _ else _) = _ =>
      change (LSMTree.memtable_threshold s <=?
              Z.of_nat (length (replay [] (log d1))))%Z with c;
      destruct c eqn:Hc
  end.
  - destruct (flush_detail s1 d1 Hmem1 Hne)
      as (seg & items & s2 & d2 & Hrun2 & Hsegs & _ & Hthr & _ & _ & _ & _).
    rewrite Hrun in Hrun2. injection Hrun2 as <- <-.
    split; [exact Hthr|]. split.
    + rewrite Hsegs, length_app. reflexivity.
    + intros Hhold.
      destruct (flush_holds s1 d1 Hmem1 Hseg1) as (s3 & d3 & Hrun3 & _ & _ & Hh & _).
      { unfold segs_hold in *. cbn [s1 LSMTree.segments].
        eapply Forall_impl; [exact Hhold|].
        intros seg0 (items0 & Hh0 & Hk0). exists items0.
        split; [exact Hh0|]. intros k0 Hin0.
        rewrite Hlog1, replay_app. apply replay_keys_mono.
        apply Hk0. exact Hin0. }
      rewrite Hrun in Hrun3. injection Hrun3 as <- <-. exact Hh.
  - injection Hrun as <- <-.
    split; [reflexivity|]. split; [cbn [s1 LSMTree.segments]; lia|].
    intros Hhold. unfold segs_hold in *. cbn [s1 LSMTree.segments].
    eapply Forall_impl; [exact Hhold|].
    intros seg0 (items0 & Hh0 & Hk0). exists items0.
    split; [exact Hh0|]. intros k0 Hin0.
    rewrite Hlog1, replay_app. apply replay_keys_mono.
    apply Hk0. exact Hin0.
Qed.

(** *** Sequences of calls *)

Lemma run_inv (ops : list LSMTree.op) : forall s d,
  forallb keeps_open ops = true ->
  mem_inv s d -> seg_inv s d ->
  exists s' d',
    LSMTree.run md5_int s d ops = Ok (s', d') /\
    mem_inv s' d' /\ seg_inv s' d' /\
    log d' = log d ++ entries_of (writes_of ops).
Proof.
  induction ops as [|o ops IH]; intros s d Hops Hmem Hseg.
  - exists s, d. split; [reflexivity|]. split; [exact Hmem|].
    split; [exact Hseg|]. simpl. rewrite app_nil_r. reflexivity.
  - cbn [forallb] in Hops. apply andb_prop in Hops as [Ho Hops].
    assert (Hstep : exists s1 d1,
               LSMTree.step md5_int s d o = Ok (s1, d1) /\ seg_inv s1 d1).
    { destruct o as [k v|k| |now|threshold]; cbn [LSMTree.step].
      - apply (put_ok md5_int s d k v Hmem Hseg).
      - apply (put_ok md5_int s d k TOMBSTONE Hmem Hseg).
      - apply (flush_ok md5_int s d Hmem Hseg).
      - apply (compact_ok md5_int s d now Hseg).
      - discriminate. }
    destruct Hstep as (s1 & d1 & Hstep & Hseg1).
    destruct (step_spec md5_int s d o s1 d1 Hmem Hstep) as (Hmem1 & Hlog1).
    destruct (IH s1 d1 Hops Hmem1 Hseg1)
      as (s' & d' & Hrun & Hmem' & Hseg' & Hlog').
    exists s', d'. cbn [LSMTree.run]. rewrite Hstep. cbn [bind].
    split; [exact Hrun|]. split; [exact Hmem'|]. split; [exact Hseg'|].
    rewrite Hlog', Hlog1. unfold writes_of. cbn [flat_map].
    rewrite entries_of_app, app_assoc. reflexivity.
Qed.

Lemma run_holds (ops : list LSMTree.op) : forall s d,
  forallb writes_only ops = true ->
  mem_inv s d -> seg_inv s d -> segs_hold s d ->
  exists s' d',
    LSMTree.run md5_int s d ops = Ok (s', d') /\
    mem_inv s' d' /\ seg_inv s' d' /\ segs_hold s' d' /\
    log d' = log d ++ entries_of (writes_of ops).
Proof.
  induction ops as [|o ops IH]; intros s d Hops Hmem Hseg Hhold.
  - exists s, d. split; [reflexivity|]. split; [exact Hmem|].
    split; [exact Hseg|]. split; [exact Hhold|].
    simpl. rewrite app_nil_r. reflexivity.
  - cbn [forallb] in Hops. apply andb_prop in Hops as [Ho Hops].
    assert (Hstep : exists s1 d1,
               LSMTree.step md5_int s d o = Ok (s1, d1) /\
               mem_inv s1 d1 /\ seg_inv s1 d1 /\ segs_hold s1 d1 /\
               log d1 = log d ++ entries_of (write_of o)).
    { destruct o as [k v|k| |now|threshold]; cbn [LSMTree.step];
        try discriminate.
      - destruct (put_detail s d k v Hmem Hseg)
          as (s1 & d1 & H1 & H2 & H3 & H4 & _ & _ & H5).
        exists s1, d1. specialize (H5 Hhold).
        repeat (split; [assumption|]). exact H4.
      - destruct (put_detail s d k TOMBSTONE Hmem Hseg)
          as (s1 & d1 & H1 & H2 & H3 & H4 & _ & _ & H5).
        exists s1, d1. unfold LSMTree.delete. specialize (H5 Hhold).
        repeat (split; [assumption|]). exact H4.
      - destruct (flush_holds s d Hmem Hseg Hhold)
          as (s1 & d1 & H1 & H2 & H3 & H4 & H5).
        exists s1, d1. unfold LSMTree.close.
        repeat (split; [assumption|]).
        simpl. rewrite app_nil_r. exact H5. }
    destruct Hstep as (s1 & d1 & Hstep & Hmem1 & Hseg1 & Hhold1 & Hlog1).
    destruct (IH s1 d1 Hops Hmem1 Hseg1 Hhold1)
      as (s' & d' & Hrun & Hmem' & Hseg' & Hhold' & Hlog').
    exists s', d'. cbn [LSMTree.run]. rewrite Hstep. cbn [bind].
    split; [exact Hrun|]. split; [exact Hmem'|]. split; [exact Hseg'|].
    split; [exact Hhold'|].
    rewrite Hlog', Hlog1. unfold writes_of. cbn [flat_map].
    rewrite entries_of_app, app_assoc. reflexivity.
Qed.

(** The engine [LSMTree(directory, threshold)] makes of a new
    directory. *)
Lemma init_new (threshold : Z) :
  exists s0 d0,
    LSMTree.init empty_dir threshold = Ok (s0, d0) /\
    mem_inv s0 d0 /\ seg_inv s0 d0 /\ segs_hold s0 d0 /\
    log d0 = [] /\ LSMTree.segments s0 = [] /\
    LSMTree.memtable_threshold s0 = threshold.
Proof.
  assert (Hinit : LSMTree.init empty_dir threshold =
                  Ok (LSMTree.mk (BTree.mk (BTree.new_node true) 5)
                        threshold [] 0,
                      set_wal empty_dir (Some []))).
  { vm_compute. reflexivity. }
  destruct (lsm_init_spec _ _ _ _ Hinit) as (Hmem & _).
  eexists _, _. split; [exact Hinit|]. split; [exact Hmem|].
  split; [split; [constructor|intros seg []]|].
  split; [constructor|]. repeat split.
Qed.

(** *** [get] in the segments *)

Lemma get_loop_absent (d : Dir) (k : string) (segs : list SSTable.t) :
  Forall (fun seg => exists items,
              seg_holds d seg items /\ assoc k items = None) segs ->
  LSMTree.get_loop md5_int d segs k = Ok None.
Proof.
  induction 1 as [|seg segs (items & Hh & Ha) _ IH]; [reflexivity|].
  cbn [LSMTree.get_loop].
  rewrite (seg_holds_get d seg items k Hh), Ha. cbn [visible bind].
  destruct Hh as (_ & _ & _ & Hbf).
  destruct (SSTable.bloom_filter seg) as [bf|]; [|cbn [bind]; exact IH].
  destruct Hbf as [Hwf _].
  destruct (contains_loop_total md5_int bf k
              (Z.to_nat (BloomFilter.hash_count bf)) 0%nat Hwf) as [b Hc].
  unfold BloomFilter.contains. rewrite Hc. cbn [bind].
  destruct b; exact IH.
Qed.

(** [get] when every segment holds keys of the log only. *)
Lemma get_in_segments (s : LSMTree.t) (d : Dir) (k : string) :
  mem_inv s d -> segs_hold s d ->
  LSMTree.get md5_int s d k = Ok (visible (assoc k (replay [] (log d)))).
Proof.
  intros Hmem Hhold. unfold LSMTree.get.
  rewrite (mem_inv_search s d k Hmem). cbn [bind].
  destruct (assoc k (replay [] (log d))) as [v|] eqn:Ha; [reflexivity|].
  apply get_loop_absent. apply Forall_rev.
  eapply Forall_impl; [exact Hhold|].
  intros seg (items & Hh & Hkeys). exists items. split; [exact Hh|].
  apply assoc_None_not_in. intros Hin.
  apply assoc_None_not_in in Ha. apply Ha. apply Hkeys. exact Hin.
Qed.

Lemma replay_writes_not_nil (w : list kv) :
  w <> [] -> replay [] (entries_of w) <> [].
Proof.
  intros Hw E.
  destruct (@exists_last _ w Hw) as (w' & [k v] & ->).
  apply (f_equal (assoc k)) in E.
  rewrite replay_entries_of, assoc_upsert_all in E. unfold last_write in E.
  rewrite rev_unit in E. cbn [assoc] in E.
  rewrite String.eqb_refl in E. discriminate E.
Qed.

(** X19 (a flush writes the memtable to a segment): on a new directory,
    after any [put], [delete], [close] and [compact] calls of which one at
    least writes, [close()] returns and leaves as last segment a table
    whose own [get(k)] returns, for every key [k], the last value written
    to [k], and [None] when [k] was not written or was deleted last: the
    records are in the segment files, not only in the log. *)
Theorem closed_segment_holds_writes (threshold : Z)
  (ops : list LSMTree.op) :
  forallb keeps_open ops = true ->
  writes_of ops <> [] ->
  exists s0 d0 s d seg,
    LSMTree.init empty_dir threshold = Ok (s0, d0) /\
    LSMTree.run md5_int s0 d0 (ops ++ [LSMTree.Close]) = Ok (s, d) /\
    last (LSMTree.segments s) = Some seg /\
    forall k,
      SSTable.get md5_int d seg k =
      Ok (match last_write k (writes_of ops) with
          | Some v => if String.eqb v TOMBSTONE then None else Some v
          | None => None
          end).
Proof.
  intros Hops Hw.
  destruct (init_new threshold)
    as (s0 & d0 & Hinit & Hmem0 & Hseg0 & _ & Hlog0 & _).
  destruct (run_inv ops s0 d0 Hops Hmem0 Hseg0)
    as (s1 & d1 & Hrun & Hmem1 & Hseg1 & Hlog1).
  rewrite Hlog0 in Hlog1. cbn [app] in Hlog1.
  destruct (flush_detail s1 d1 Hmem1)
    as (seg & items & s & d & Hflush & Hsegs & _ & _ & _ & Hnew & Ha & _).
  { rewrite Hlog1. apply replay_writes_not_nil. exact Hw. }
  exists s0, d0, s, d, seg. split; [exact Hinit|]. split.
  - rewrite run_app, Hrun. cbn [bind LSMTree.run LSMTree.step].
    unfold LSMTree.close. rewrite Hflush. reflexivity.
  - split; [rewrite Hsegs; apply last_snoc|].
    intros k. rewrite (seg_holds_get d seg items k Hnew), Ha, Hlog1.
    rewrite replay_entries_of, assoc_upsert_all.
    destruct (last_write k (writes_of ops)); reflexivity.
Qed.

(** The state after [put] calls on distinct keys. *)
Lemma puts_state (threshold : Z) (s0 : LSMTree.t) (d0 : Dir) :
  mem_inv s0 d0 -> seg_inv s0 d0 -> log d0 = [] ->
  LSMTree.segments s0 = [] ->
  LSMTree.memtable_threshold s0 = threshold ->
  forall kvs : list (string * string),
    NoDup (map fst kvs) ->
    exists s d,
      LSMTree.run md5_int s0 d0
        (map (fun e => LSMTree.Put (fst e) (snd e)) kvs) = Ok (s, d) /\
      mem_inv s d /\ seg_inv s d /\
      log d = entries_of kvs /\
      LSMTree.memtable_threshold s = threshold /\
      length (replay [] (log d)) = length kvs /\
      length (LSMTree.segments s) =
        Z.to_nat (Z.of_nat (length kvs) + 1 - Z.max threshold 1).
Proof.
  intros Hmem0 Hseg0 Hlog0 Hsegs0 Hthr0.
  induction kvs as [|[k v] kvs IH] using rev_ind; intros Hnd.
  - exists s0, d0. split; [reflexivity|]. split; [exact Hmem0|].
    split; [exact Hseg0|]. split; [exact Hlog0|]. split; [exact Hthr0|].
    rewrite Hlog0, Hsegs0. split; [reflexivity|]. simpl. lia.
  - rewrite map_app in Hnd. apply NoDup_app in Hnd as (Hnd & Hnew & _).
    destruct (IH Hnd) as (s & d & Hrun & Hmem & Hseg & Hlog & Hthr & Hlen & Hn).
    destruct (put_detail s d k v Hmem Hseg)
      as (s' & d' & Hput & Hmem' & Hseg' & Hlog' & Hthr' & Hn' & _).
    exists s', d'. split.
    { rewrite map_app, run_app, Hrun. cbn [bind map LSMTree.run LSMTree.step fst snd].
      rewrite Hput. reflexivity. }
    split; [exact Hmem'|]. split; [exact Hseg'|].
    split; [rewrite Hlog', Hlog, entries_of_app; reflexivity|].
    split; [congruence|].
    assert (Hlen' : length (replay [] (log d')) = S (length kvs)).
    { rewrite Hlog', replay_app. unfold replay at 1. cbn [fold_left entries_of map].
      unfold apply_entry. cbn [WriteAheadLog.op WriteAheadLog.key WriteAheadLog.value fst snd].
      change (String.eqb "insert" "insert") with true. cbv iota.
      unfold upsert.
      assert (Ha : assoc k (replay [] (log d)) = None).
      { rewrite Hlog, replay_entries_of, assoc_upsert_all.
        destruct (last_write k kvs) as [v0|] eqn:El; [|reflexivity].
        exfalso. unfold last_write in El. apply assoc_Some_in in El.
        apply in_rev in El. apply (in_map fst) in El.
        apply (Hnew k); [apply list_elem_of_In; exact El|].
        apply list_elem_of_In. left. reflexivity. }
      rewrite Ha, length_ins, Hlen. reflexivity. }
    rewrite length_app. cbn [length]. rewrite Nat.add_1_r.
    split; [exact Hlen'|].
    rewrite Hn', Hn, Hlen', Hthr.
    destruct (Z.leb_spec threshold (Z.of_nat (S (length kvs)))); lia.
Qed.

(** X20 (how many segments the puts make): on a new directory, [n] calls
    of [put] on distinct keys leave [n + 1 - max(threshold, 1)] segments,
    none when that is negative: from the call that fills the memtable to
    the threshold on, every [put] writes a segment. *)
Theorem segments_after_puts (threshold : Z)
  (kvs : list (string * string)) :
  NoDup (map fst kvs) ->
  exists s0 d0 s d,
    LSMTree.init empty_dir threshold = Ok (s0, d0) /\
    LSMTree.run md5_int s0 d0
      (map (fun e => LSMTree.Put (fst e) (snd e)) kvs) = Ok (s, d) /\
    length (LSMTree.segments s) =
      Z.to_nat (Z.of_nat (length kvs) + 1 - Z.max threshold 1).
Proof.
  intros Hnd.
  destruct (init_new threshold)
    as (s0 & d0 & Hinit & Hmem0 & Hseg0 & _ & Hlog0 & Hsegs0 & Hthr0).
  destruct (puts_state threshold s0 d0 Hmem0 Hseg0 Hlog0 Hsegs0 Hthr0 kvs Hnd)
    as (s & d & Hrun & _ & _ & _ & _ & _ & Hn).
  exists s0, d0, s, d. split; [exact Hinit|]. split; [exact Hrun|exact Hn].
Qed.

(** X21 ([get] of a key never written): on a new directory, after any
    [put], [delete] and [close] calls none of which is on key [k],
    [get(k)] goes through the memtable and every segment, newest first,
    raises nothing and returns [None]. *)
Theorem get_unwritten_key (threshold : Z) (ops : list LSMTree.op)
  (k : string) :
  forallb writes_only ops = true ->
  last_write k (writes_of ops) = None ->
  exists s0 d0 s d,
    LSMTree.init empty_dir threshold = Ok (s0, d0) /\
    LSMTree.run md5_int s0 d0 ops = Ok (s, d) /\
    LSMTree.get md5_int s d k = Ok None.
Proof.
  intros Hops Hk.
  destruct (init_new threshold)
    as (s0 & d0 & Hinit & Hmem0 & Hseg0 & Hhold0 & Hlog0 & _).
  destruct (run_holds ops s0 d0 Hops Hmem0 Hseg0 Hhold0)
    as (s & d & Hrun & Hmem & Hseg & Hhold & Hlog).
  rewrite Hlog0 in Hlog. cbn [app] in Hlog.
  exists s0, d0, s, d. split; [exact Hinit|]. split; [exact Hrun|].
  rewrite (get_in_segments s d k Hmem Hhold), Hlog.
  rewrite replay_entries_of, assoc_upsert_all, Hk. reflexivity.
Qed.

End LSMSegments.

Lemma closed_segment_holds_writes_witness :
  exists s0 d0 s d seg,
    LSMTree.init empty_dir 100 = Ok (s0, d0) /\
    LSMTree.run toy_digest s0 d0
      ([LSMTree.Put "a" "1"; LSMTree.Delete "a"; LSMTree.Put "b" "2"] ++
       [LSMTree.Close]) = Ok (s, d) /\
    last (LSMTree.segments s) = Some seg /\
    forall k,
      SSTable.get toy_digest d seg k =
      Ok (match last_write k
                  (writes_of [LSMTree.Put "a" "1"; LSMTree.Delete "a";
                              LSMTree.Put "b" "2"]) with
          | Some v => if String.eqb v TOMBSTONE then None else Some v
          | None => None
          end).
Proof.
  apply (closed_segment_holds_writes toy_digest 100
           [LSMTree.Put "a" "1"; LSMTree.Delete "a"; LSMTree.Put "b" "2"]).
  - reflexivity.
  - discriminate.
Defined.

Lemma segments_after_puts_witness :
  exists s0 d0 s d,
    LSMTree.init empty_dir 2 = Ok (s0, d0) /\
    LSMTree.run toy_digest s0 d0
      (map (fun e => LSMTree.Put (fst e) (snd e))
         [("a", "1"); ("b", "2"); ("c", "3")]%string) = Ok (s, d) /\
    length (LSMTree.segments s) =
      Z.to_nat (Z.of_nat (length [("a", "1"); ("b", "2"); ("c", "3")]%string)
                + 1 - Z.max 2 1).
Proof.
  apply (segments_after_puts toy_digest 2
           [("a", "1"); ("b", "2"); ("c", "3")]%string).
  apply (bool_decide_unpack _). vm_compute. exact I.
Defined.

Lemma get_unwritten_key_witness :
  exists s0 d0 s d,
    LSMTree.init empty_dir 1 = Ok (s0, d0) /\
    LSMTree.run toy_digest s0 d0
      [LSMTree.Put "a" "1"; LSMTree.Close; LSMTree.Delete "b"] = Ok (s, d) /\
    LSMTree.get toy_digest s d "c" = Ok None.
Proof.
  apply (get_unwritten_key toy_digest 1
           [LSMTree.Put "a" "1"; LSMTree.Close; LSMTree.Delete "b"] "c").
  - reflexivity.
  - reflexivity.
Defined.

(** * The [DB] wrapper *)

(** The pairs the calls write, on either engine. *)
Definition db_writes (ops : list DB.op) : list kv :=
  flat_map (fun o =>
              match o with
              | DB.Put k v => [(k, v)]
              | DB.Delete k => [(k, TOMBSTONE)]
              | DB.Close => []
              end) ops.

(** The calls as the LSM engine receives them. *)
Definition lsm_op (o : DB.op) : LSMTree.op :=
  match o with
  | DB.Put k v => LSMTree.Put k v
  | DB.Delete k => LSMTree.Delete k
  | DB.Close => LSMTree.Close
  end.

Lemma writes_of_lsm_ops (ops : list DB.op) :
  writes_of (map lsm_op ops) = db_writes ops.
Proof.
  unfold writes_of, db_writes.
  induction ops as [|o ops IH]; [reflexivity|].
  cbn [map flat_map]. rewrite IH. destruct o; reflexivity.
Qed.

Lemma lsm_ops_write_only (ops : list DB.op) :
  forallb writes_only (map lsm_op ops) = true.
Proof.
  induction ops as [|o ops IH]; [reflexivity|].
  cbn [map forallb]. rewrite IH. destruct o; reflexivity.
Qed.

Section DBFacts.
Variable md5_int : string -> Z.

Lemma db_run_lsm (ops : list DB.op) : forall s d,
  DB.run md5_int (DB.LSMEngine s) d ops =
  let* (s', d') := LSMTree.run md5_int s d (map lsm_op ops) in
  Ok (DB.LSMEngine s', d').
Proof.
  induction ops as [|o ops IH]; intros s d; [reflexivity|].
  cbn [DB.run map LSMTree.run].
  assert (Hstep : DB.step md5_int (DB.LSMEngine s) d o =
                  let* (s1, d1) := LSMTree.step md5_int s d (lsm_op o) in
                  Ok (DB.LSMEngine s1, d1)).
  { destruct o; reflexivity. }
  rewrite Hstep.
  destruct (LSMTree.step md5_int s d (lsm_op o)) as [[s1 d1]|e];
    [|reflexivity].
  cbn [bind]. apply IH.
Qed.

(** The B-Tree engine: the tree holds what its log replays to. *)
Lemma db_run_btree (ops : list DB.op) : forall h r d,
  tree_inv 5 h r -> flat r = replay [] (log d) ->
  exists h' r' d',
    DB.run md5_int (DB.BTreeEngine (BTree.mk r 5)) d ops =
      Ok (DB.BTreeEngine (BTree.mk r' 5), d') /\
    tree_inv 5 h' r' /\ flat r' = replay [] (log d') /\
    log d' = log d ++ entries_of (db_writes ops).
Proof.
  induction ops as [|o ops IH]; intros h r d Hinv Hf.
  - exists h, r, d. split; [reflexivity|]. split; [exact Hinv|].
    split; [exact Hf|]. simpl. rewrite app_nil_r. reflexivity.
  - assert (Hput : forall k v,
               exists h1 r1,
                 BTree.insert (BTree.mk r 5) (WriteAheadLog.init (wal d))
                   k v true =
                   Ok (BTree.mk r1 5,
                       WriteAheadLog.write (WriteAheadLog.init (wal d))
                         "insert" k v) /\
                 tree_inv 5 h1 r1 /\
                 flat r1 = replay [] (log d ++ entries_of [(k, v)])).
    { intros k v.
      destruct (insert_spec 5 degree_ok h r (WriteAheadLog.init (wal d))
                  k v true Hinv) as (h1 & r1 & E & Hinv1 & Hf1).
      exists h1, r1. split; [exact E|]. split; [exact Hinv1|].
      rewrite Hf1, Hf, replay_app. reflexivity. }
    cbn [DB.run]. unfold db_writes. cbn [flat_map]. fold (db_writes ops).
    destruct o as [k v|k|]; cbn [DB.step DB.put DB.delete DB.close].
    + destruct (Hput k v) as (h1 & r1 & E & Hinv1 & Hf1).
      unfold BTree.put. rewrite E. cbn [bind].
      set (d1 := set_wal d (Some (WriteAheadLog.write
                                    (WriteAheadLog.init (wal d))
                                    "insert" k v))).
      destruct (IH h1 r1 d1 Hinv1 Hf1)
        as (h' & r' & d' & Hrun & Hinv' & Hf' & Hlog').
      exists h', r', d'. split; [exact Hrun|]. split; [exact Hinv'|].
      split; [exact Hf'|]. rewrite Hlog'.
      change (log d1) with (log d ++ entries_of [(k, v)]).
      rewrite entries_of_app, app_assoc. reflexivity.
    + destruct (Hput k TOMBSTONE) as (h1 & r1 & E & Hinv1 & Hf1).
      unfold BTree.delete. rewrite E. cbn [bind].
      set (d1 := set_wal d (Some (WriteAheadLog.write
                                    (WriteAheadLog.init (wal d))
                                    "insert" k TOMBSTONE))).
      destruct (IH h1 r1 d1 Hinv1 Hf1)
        as (h' & r' & d' & Hrun & Hinv' & Hf' & Hlog').
      exists h', r', d'. split; [exact Hrun|]. split; [exact Hinv'|].
      split; [exact Hf'|]. rewrite Hlog'.
      change (log d1) with (log d ++ entries_of [(k, TOMBSTONE)]).
      rewrite entries_of_app, app_assoc. reflexivity.
    + cbn [bind app]. apply (IH h r d Hinv Hf).
Qed.

(** X22 (the [DB] wrapper hides tombstones on both engines): a [DB] opened
    on a new directory with engine ["btree"] or ["lsmtree"] accepts every
    sequence of [put], [delete] and [close] calls, and [get(k)] then
    returns the last value written to [k], and [None] when [k] was not
    written, was deleted last, or was last given the tombstone string as
    its value: the two engines answer alike. *)
Theorem db_get_last_write (engine_type : string) (ops : list DB.op) :
  engine_type = "btree"%string \/ engine_type = "lsmtree"%string ->
  exists e0 d0 e d,
    DB.init engine_type empty_dir = Ok (e0, d0) /\
    DB.run md5_int e0 d0 ops = Ok (e, d) /\
    forall k,
      DB.get md5_int e d k =
      Ok (match last_write k (db_writes ops) with
          | Some v => if String.eqb v TOMBSTONE then None else Some v
          | None => None
          end).
Proof.
  intros [-> | ->].
  - (* the B-Tree *)
    assert (Hinit : DB.init "btree" empty_dir =
                    Ok (DB.BTreeEngine (BTree.mk (BTree.new_node true) 5),
                        set_wal empty_dir (Some []))).
    { vm_compute. reflexivity. }
    destruct (db_run_btree ops 0%nat (BTree.new_node true)
                (set_wal empty_dir (Some [])) (tree_inv_empty 5 degree_ok) eq_refl)
      as (h & r & d & Hrun & Hinv & Hf & Hlog).
    eexists _, _, _, d. split; [exact Hinit|]. split; [exact Hrun|].
    intros k. unfold DB.get.
    rewrite (get_assoc 5 h r k Hinv). cbn [bind].
    rewrite Hf, Hlog. cbn [log set_wal wal WriteAheadLog.init app].
    rewrite replay_entries_of, assoc_upsert_all.
    destruct (last_write k (db_writes ops)) as [v|]; reflexivity.
  - (* the LSM tree *)
    destruct (init_new md5_int 100)
      as (s0 & d0 & Hinit & Hmem0 & Hseg0 & Hhold0 & Hlog0 & _).
    destruct (run_holds md5_int (map lsm_op ops) s0 d0
                (lsm_ops_write_only ops) Hmem0 Hseg0 Hhold0)
      as (s & d & Hrun & Hmem & Hseg & Hhold & Hlog).
    rewrite Hlog0, writes_of_lsm_ops in Hlog. cbn [app] in Hlog.
    exists (DB.LSMEngine s0), d0, (DB.LSMEngine s), d. split.
    { unfold DB.init. cbn [String.eqb Ascii.eqb Bool.eqb].
      rewrite Hinit. reflexivity. }
    split; [rewrite db_run_lsm, Hrun; reflexivity|].
    intros k. unfold DB.get.
    rewrite (get_in_segments md5_int s d k Hmem Hhold). cbn [bind].
    rewrite Hlog, replay_entries_of, assoc_upsert_all.
    destruct (last_write k (db_writes ops)) as [v|]; [|reflexivity].
    cbn [visible]. destruct (String.eqb v TOMBSTONE) eqn:E; [reflexivity|].
    change "__TOMBSTONE__"%string with TOMBSTONE. rewrite E. reflexivity.
Qed.

End DBFacts.

Lemma db_get_last_write_witness :
  exists e0 d0 e d,
    DB.init "btree" empty_dir = Ok (e0, d0) /\
    DB.run toy_digest e0 d0
      [DB.Put "a" "1"; DB.Delete "a"; DB.Put "b" "2"; DB.Close] = Ok (e, d) /\
    forall k,
      DB.get toy_digest e d k =
      Ok (match last_write k
                  (db_writes [DB.Put "a" "1"; DB.Delete "a"; DB.Put "b" "2";
                              DB.Close]) with
          | Some v => if String.eqb v TOMBSTONE then None else Some v
          | None => None
          end).
Proof.
  apply (db_get_last_write toy_digest "btree"
           [DB.Put "a" "1"; DB.Delete "a"; DB.Put "b" "2"; DB.Close]).
  left. reflexivity.
Defined.

(** * The merge of a compaction

    [merge_loop] pops the heap and accumulates the records in one loop. The
    two are told apart here: [kway] is the sequence of items the loop pops,
    [consume_all] what the loop does with them. *)

(** The key and value of a heap item. *)
Definition kv_of (it : LSMTree.heap_item) : kv :=
  (LSMTree.item_key it, LSMTree.item_value it).

(** The heap items the records [l] of segment number [j] give, each with
    the lines that follow it. *)
Fixpoint items_of (j : nat) (l : list kv) : list LSMTree.heap_item :=
  match l with
  | [] => []
  | e :: rest =>
      LSMTree.mk_item (fst e) (snd e) j (map line_of rest) :: items_of j rest
  end.

(** The items popped by [merge_loop], in order. *)
Fixpoint kway (fuel : nat) (heap : list LSMTree.heap_item)
  : result (list LSMTree.heap_item) :=
  match heap with
  | [] => Ok []
  | _ =>
      match fuel with
      | O => Raise OutOfFuel
      | S fuel' =>
          let* (item, heap1) := MinHeap.heappop LSMTree.item_lt heap in
          let* heap2 :=
            LSMTree.push_next heap1 (LSMTree.item_seg item)
                              (LSMTree.item_iter item) in
          let* rest := kway fuel' heap2 in
          Ok (item :: rest)
      end
  end.

(** A generator being read: the segment number, the record at the head and
    the records that follow. *)
Definition cursor := (nat * kv * list kv)%type.

Definition hd_item (c : cursor) : LSMTree.heap_item :=
  let '(j, e, rest) := c in
  LSMTree.mk_item (fst e) (snd e) j (map line_of rest).

Definition cursor_ok (c : cursor) : Prop :=
  let '(j, e, rest) := c in sorted (e :: rest).

(** Everything the cursors have still to yield. *)
Definition remaining (cs : list cursor) : list LSMTree.heap_item :=
  concat (map (fun c : cursor => let '(j, e, rest) := c in
                                 items_of j (e :: rest)) cs).

(** The cursors [prime] opens on the segments numbered from [i]. *)
Fixpoint starts (i : nat) (Ls : list (list kv)) : list cursor :=
  match Ls with
  | [] => []
  | [] :: Ls' => starts (S i) Ls'
  | (e :: rest) :: Ls' => (i, e, rest) :: starts (S i) Ls'
  end.

(** All the records of the segments numbered from [i], as heap items. *)
Fixpoint all_items (i : nat) (Ls : list (list kv))
  : list LSMTree.heap_item :=
  match Ls with
  | [] => []
  | l :: Ls' => items_of i l ++ all_items (S i) Ls'
  end.

Lemma remaining_starts (Ls : list (list kv)) : forall i,
  remaining (starts i Ls) = all_items i Ls.
Proof.
  induction Ls as [|l Ls IH]; intros i; [reflexivity|].
  destruct l as [|e rest]; cbn [starts all_items items_of app].
  - apply IH.
  - unfold remaining. cbn [map concat]. fold (remaining (starts (S i) Ls)).
    rewrite IH. reflexivity.
Qed.

Lemma remaining_app (a b : list cursor) :
  remaining (a ++ b) = remaining a ++ remaining b.
Proof. unfold remaining. rewrite map_app, concat_app. reflexivity. Qed.

Lemma items_of_in (j : nat) (l : list kv) (it : LSMTree.heap_item) :
  In it (items_of j l) ->
  In (kv_of it) l /\ LSMTree.item_seg it = j.
Proof.
  induction l as [|e rest IH]; [intros []|].
  intros [<-|Hin].
  - split; [left; destruct e; reflexivity|reflexivity].
  - destruct (IH Hin) as [H1 H2]. split; [right; exact H1|exact H2].
Qed.

Lemma in_items_of (j : nat) (l : list kv) (e : kv) :
  In e l -> exists it, In it (items_of j l) /\ kv_of it = e.
Proof.
  induction l as [|e0 rest IH]; [intros []|].
  intros [->|Hin].
  - eexists. split; [left; reflexivity|]. destruct e; reflexivity.
  - destruct (IH Hin) as (it & H1 & H2). exists it.
    split; [right; exact H1|exact H2].
Qed.

(** The head of a cursor is not above anything the cursor yields. *)
Lemma cursor_head_le (c : cursor) (it : LSMTree.heap_item) :
  cursor_ok c ->
  In it (let '(j, e, rest) := c in items_of j (e :: rest)) ->
  item_le (hd_item c) it.
Proof.
  destruct c as [[j e] rest]. intros Hs [<-|Hin].
  - apply item_lt_false.
    apply (heap_le_refl LSMTree.item_lt item_lt_asym).
  - apply items_of_in in Hin as [Hin _].
    unfold cursor_ok in Hs. apply sorted_cons in Hs as [_ Hgt].
    unfold all_gt in Hgt. rewrite Forall_forall in Hgt.
    left. cbn [hd_item LSMTree.item_key].
    apply (Hgt (kv_of it)). apply list_elem_of_In. exact Hin.
Qed.

Lemma remaining_length_pos (c : cursor) (cs : list cursor) :
  (0 < length (remaining (c :: cs)))%nat.
Proof.
  destruct c as [[j e] rest]. unfold remaining. cbn [map concat items_of].
  simpl. lia.
Qed.

(** [push_next] after the head of a cursor has been popped. *)
Lemma push_next_cursor (heap : list LSMTree.heap_item) (cs : list cursor)
  (j : nat) (e : kv) (rest : list kv) :
  heap_ok LSMTree.item_lt heap ->
  heap ≡ₚ map hd_item cs ->
  sorted (e :: rest) ->
  exists heap' cs',
    LSMTree.push_next heap j (map line_of rest) = Ok heap' /\
    heap_ok LSMTree.item_lt heap' /\
    heap' ≡ₚ map hd_item cs' /\
    remaining cs' = items_of j rest ++ remaining cs /\
    (Forall cursor_ok cs -> Forall cursor_ok cs').
Proof.
  intros Hok Hperm Hs. unfold LSMTree.push_next.
  destruct rest as [|e2 rest2].
  - exists heap, cs. cbn [map]. split; [reflexivity|].
    split; [exact Hok|]. split; [exact Hperm|]. split; [reflexivity|auto].
  - cbn [map]. unfold line_of at 1. rewrite loads_record_line. cbn [bind].
    destruct (heappush_ok LSMTree.item_lt item_lt_asym item_not_lt_trans heap
                (LSMTree.mk_item (fst e2) (snd e2) j (map line_of rest2)) Hok)
      as (heap' & Hpush & Hperm' & Hok').
    exists heap', ((j, e2, rest2) :: cs). split; [exact Hpush|].
    split; [exact Hok'|]. split.
    + rewrite Hperm'. cbn [map hd_item]. constructor. exact Hperm.
    + split; [reflexivity|]. intros Hcs. constructor; [|exact Hcs].
      unfold cursor_ok. apply sorted_cons in Hs as [Hs _]. exact Hs.
Qed.

Lemma kway_spec (fuel : nat) : forall heap cs,
  heap_ok LSMTree.item_lt heap ->
  heap ≡ₚ map hd_item cs ->
  Forall cursor_ok cs ->
  (length (remaining cs) <= fuel)%nat ->
  exists P,
    kway fuel heap = Ok P /\
    P ≡ₚ remaining cs /\
    StronglySorted item_le P.
Proof.
  induction fuel as [|fuel IH]; intros heap cs Hok Hperm Hcs Hfuel.
  - destruct cs as [|c cs].
    + apply Permutation_nil_r in Hperm. subst heap.
      exists []. split; [reflexivity|]. split; [reflexivity|constructor].
    + pose proof (remaining_length_pos c cs). lia.
  - destruct heap as [|x0 h0].
    { symmetry in Hperm. apply Permutation_nil_r in Hperm.
      destruct cs; [|discriminate].
      exists []. split; [reflexivity|]. split; [reflexivity|constructor]. }
    cbn [kway].
    destruct (heappop_ok LSMTree.item_lt item_lt_asym item_not_lt_trans
                (x0 :: h0) Hok ltac:(discriminate))
      as (m & h1 & Hpop & Hperm1 & Hok1 & Hmin).
    rewrite Hpop. cbn [bind].
    (* the cursor whose head was popped *)
    assert (Hsplit : exists c cs1, hd_item c = m /\ h1 = map hd_item cs1 /\
                                   cs ≡ₚ c :: cs1).
    { rewrite Hperm1 in Hperm.
      apply Permutation_map_inv in Hperm as (cs2 & E & Hp).
      destruct cs2 as [|c cs1]; [discriminate|].
      cbn [map] in E. injection E as E1 E2.
      exists c, cs1. split; [symmetry; exact E1|].
      split; [exact E2|exact Hp]. }
    destruct Hsplit as (c & cs1 & Hc & Hh1 & Hp).
    assert (Hcs' : Forall cursor_ok (c :: cs1)) by (rewrite <- Hp; exact Hcs).
    apply Forall_cons in Hcs' as [Hc_ok Hcs1].
    destruct c as [[j e] rest]. subst m.
    cbn [hd_item LSMTree.item_seg LSMTree.item_iter].
    destruct (push_next_cursor h1 cs1 j e rest Hok1
                ltac:(rewrite Hh1; reflexivity) Hc_ok)
      as (h2 & cs2 & Hpush & Hok2 & Hperm2 & Hrem2 & Hcs2).
    rewrite Hpush. cbn [bind].
    assert (Hrem : remaining cs ≡ₚ
                   hd_item (j, e, rest) :: remaining cs2).
    { unfold remaining at 1. rewrite Hp. cbn [map concat items_of app].
      fold (remaining cs1). rewrite Hrem2. reflexivity. }
    destruct (IH h2 cs2 Hok2 Hperm2 (Hcs2 Hcs1)) as (P & HP & HpermP & HsP).
    { apply Permutation_length in Hrem. cbn [length] in Hrem. lia. }
    rewrite HP. cbn [bind]. eexists. split; [reflexivity|].
    split; [rewrite Hrem; constructor; exact HpermP|].
    constructor; [exact HsP|].
    rewrite HpermP, Hrem2. apply Forall_app. split.
    + apply Forall_forall. intros it Hin. apply list_elem_of_In in Hin.
      apply (cursor_head_le (j, e, rest) it Hc_ok). right. exact Hin.
    + apply Forall_forall. intros it Hin. apply list_elem_of_In in Hin.
      unfold remaining in Hin. apply in_concat in Hin as (l & Hl & Hit).
      apply in_map_iff in Hl as (c1 & <- & Hc1).
      apply (item_le_trans _ (hd_item c1)).
      * apply item_lt_false. rewrite Forall_forall in Hmin.
        apply Hmin. rewrite Hh1. apply list_elem_of_In.
        apply in_map. exact Hc1.
      * apply cursor_head_le; [|exact Hit].
        rewrite Forall_forall in Hcs1. apply Hcs1.
        apply list_elem_of_In. exact Hc1.
Qed.

(** Priming the heap. *)
Lemma prime_spec (Ls : list (list kv)) : forall heap cs i,
  heap_ok LSMTree.item_lt heap ->
  heap ≡ₚ map hd_item cs ->
  Forall sorted Ls ->
  exists heap',
    LSMTree.prime heap (map (map line_of) Ls) i = Ok heap' /\
    heap_ok LSMTree.item_lt heap' /\
    heap' ≡ₚ map hd_item (starts i Ls ++ cs) /\
    length heap' = length (starts i Ls ++ cs).
Proof.
  induction Ls as [|l Ls IH]; intros heap cs i Hok Hperm HLs.
  - exists heap. split; [reflexivity|]. split; [exact Hok|].
    split; [exact Hperm|].
    rewrite (Permutation_length Hperm), length_map. reflexivity.
  - apply Forall_cons in HLs as [Hl HLs]. cbn [map LSMTree.prime].
    destruct l as [|e rest].
    + cbn [map LSMTree.push_next bind starts]. apply IH; assumption.
    + cbn [map LSMTree.push_next]. unfold line_of at 1.
      rewrite loads_record_line. cbn [bind].
      destruct (heappush_ok LSMTree.item_lt item_lt_asym item_not_lt_trans
                  heap (LSMTree.mk_item (fst e) (snd e) i (map line_of rest))
                  Hok) as (heap1 & Hpush & Hperm1 & Hok1).
      rewrite Hpush. cbn [bind].
      destruct (IH heap1 ((i, e, rest) :: cs) (S i) Hok1) as
        (heap' & Hrun & Hok' & Hperm' & Hlen'); [|exact HLs|].
      { rewrite Hperm1. cbn [map hd_item]. constructor. exact Hperm. }
      exists heap'. split; [exact Hrun|]. split; [exact Hok'|].
      cbn [starts]. split.
      * rewrite Hperm'. rewrite !map_app. cbn [map app].
        symmetry. apply Permutation_middle.
      * rewrite Hlen', !length_app. cbn [length]. lia.
Qed.

(** *** What the loop does with the items popped *)

(** The record of a key, unless it is a tombstone. *)
Definition live1 (e : kv) : list kv :=
  if String.eqb (snd e) TOMBSTONE then [] else [e].

(** The accumulation of [merge_loop] on the pairs popped: the last pair
    seen and the records written so far. *)
Definition group_step (st : option kv * list kv) (e : kv)
  : option kv * list kv :=
  match fst st with
  | Some l =>
      if String.eqb (fst e) (fst l) then (Some e, snd st)
      else (Some e, snd st ++ live1 l)
  | None => (Some e, snd st)
  end.

Definition run_groups (st : option kv * list kv) (l : list kv)
  : option kv * list kv :=
  fold_left group_step l st.

(** The records written once the last pair is written too. *)
Definition finish (st : option kv * list kv) : list kv :=
  snd st ++ match fst st with Some l => live1 l | None => [] end.

Definition opt_list (o : option kv) : list kv :=
  match o with Some e => [e] | None => [] end.

(** Keys in ascending order, equal keys allowed. *)
Definition key_le (a b : kv) : Prop := fst a = fst b \/ slt (fst a) (fst b).

Lemma last_write_cons (k : string) (a : kv) (l : list kv) :
  last_write k (a :: l) =
  match last_write k l with
  | Some v => Some v
  | None => if String.eqb k (fst a) then Some (snd a) else None
  end.
Proof.
  change (a :: l) with ([a] ++ l). rewrite last_write_app.
  destruct a. reflexivity.
Qed.

Lemma last_write_above (k : string) (a : kv) (l : list kv) :
  Forall (key_le a) l -> slt k (fst a) -> last_write k l = None.
Proof.
  intros Hall Hk. unfold last_write. apply assoc_None_not_in.
  unfold keys_of. rewrite map_rev. intros Hin. apply in_rev in Hin.
  apply in_map_iff in Hin as (b & <- & Hb).
  rewrite Forall_forall in Hall.
  destruct (Hall b (proj2 (list_elem_of_In _ _) Hb)) as [E|Hlt].
  - rewrite E in Hk. exact (slt_irrefl _ Hk).
  - exact (slt_irrefl _ (slt_trans _ _ _ Hk Hlt)).
Qed.

Lemma assoc_live1 (k : string) (e : kv) :
  assoc k (live1 e) =
  if String.eqb k (fst e) then visible (Some (snd e)) else None.
Proof.
  destruct e as [k1 v1]. unfold live1. cbn [fst snd visible].
  destruct (String.eqb v1 TOMBSTONE); cbn [assoc].
  - destruct (String.eqb k k1); reflexivity.
  - reflexivity.
Qed.

Lemma sorted_snoc_live1 (E : list kv) (e : kv) :
  sorted E -> all_lt E (fst e) -> sorted (E ++ live1 e).
Proof.
  intros Hs Hlt. unfold live1.
  destruct (String.eqb (snd e) TOMBSTONE); [rewrite app_nil_r; exact Hs|].
  apply sorted_app. split; [exact Hs|]. split.
  - apply sorted_cons. split; [apply sorted_nil|constructor].
  - intros a b Ha [<-|[]]. unfold all_lt in Hlt. rewrite Forall_forall in Hlt.
    apply Hlt. apply list_elem_of_In. exact Ha.
Qed.

Lemma all_lt_snoc_live1 (E : list kv) (e : kv) (k : string) :
  all_lt E (fst e) -> slt (fst e) k -> all_lt (E ++ live1 e) k.
Proof.
  intros Hlt Hk. apply all_lt_app. split.
  - apply (all_lt_trans E (fst e) k Hlt Hk).
  - unfold live1. destruct (String.eqb (snd e) TOMBSTONE); constructor;
      [exact Hk|constructor].
Qed.

(** On pairs in ascending key order the records written are in strictly
    ascending key order, and each key has the value of its last pair. *)
Lemma groups_spec (l : list kv) : forall last E,
  StronglySorted key_le (opt_list last ++ l) ->
  sorted E ->
  (forall e, last = Some e -> all_lt E (fst e)) ->
  (last = None -> E = []) ->
  sorted (finish (run_groups (last, E) l)) /\
  forall k,
    assoc k (finish (run_groups (last, E) l)) =
    match visible (last_write k (opt_list last ++ l)) with
    | Some v => Some v
    | None => assoc k E
    end.
Proof.
  induction l as [|e1 l IH]; intros last E Hs HE Hlt Hnone.
  - cbn [run_groups fold_left]. unfold finish. cbn [fst snd].
    rewrite app_nil_r. destruct last as [e|]; cbn [opt_list].
    + split; [apply sorted_snoc_live1; [exact HE|apply Hlt; reflexivity]|].
      intros k. rewrite assoc_app, assoc_live1.
      destruct e as [lk lv]. cbn [fst snd].
      change (last_write k [(lk, lv)])
        with (if String.eqb k lk then Some lv else None).
      destruct (String.eqb_spec k lk) as [->|Hne].
      * rewrite (assoc_all_lt E lk (Hlt _ eq_refl)).
        destruct (visible (Some lv)); reflexivity.
      * destruct (assoc k E); reflexivity.
    + rewrite app_nil_r. split; [exact HE|].
      intros k. reflexivity.
  - cbn [run_groups fold_left]. fold (run_groups (group_step (last, E) e1) l).
    destruct last as [[lk lv]|]; unfold group_step; cbn [fst snd opt_list app] in *.
    + apply StronglySorted_inv in Hs as [Hs Hall].
      apply Forall_cons in Hall as Hall'. destruct Hall' as [Hle1 Hall1].
      destruct (String.eqb_spec (fst e1) lk) as [E1|Hne].
      * (* the same key again *)
        destruct (IH (Some e1) E Hs HE) as [IH1 IH2].
        { intros e [= <-]. rewrite E1. apply (Hlt (lk, lv) eq_refl). }
        { discriminate. }
        split; [exact IH1|]. intros k. rewrite IH2. cbn [opt_list app].
        rewrite (last_write_cons k (lk, lv) (e1 :: l)).
        destruct (last_write k (e1 :: l)) as [v|] eqn:El; [reflexivity|].
        cbn [fst snd]. destruct (String.eqb_spec k lk) as [->|_];
          [|reflexivity].
        exfalso. rewrite last_write_cons in El.
        destruct (last_write lk l); [discriminate|].
        rewrite E1, String.eqb_refl in El. discriminate.
      * (* a new key *)
        assert (Hlk : slt lk (fst e1)).
        { destruct Hle1 as [E1|H1]; [|exact H1]. cbn [fst] in E1.
          exfalso. apply Hne. symmetry. exact E1. }
        destruct (IH (Some e1) (E ++ live1 (lk, lv)) Hs) as [IH1 IH2].
        { apply sorted_snoc_live1; [exact HE|apply Hlt; reflexivity]. }
        { intros e [= <-]. apply all_lt_snoc_live1; [|exact Hlk].
          apply (Hlt _ eq_refl). }
        { discriminate. }
        split; [exact IH1|]. intros k. rewrite IH2. cbn [opt_list app].
        rewrite (last_write_cons k (lk, lv) (e1 :: l)).
        destruct (last_write k (e1 :: l)) as [v|] eqn:El.
        { destruct (visible (Some v)) eqn:Ev; [reflexivity|].
          rewrite assoc_app, assoc_live1. cbn [fst snd].
          destruct (String.eqb_spec k lk) as [->|_].
          - apply StronglySorted_inv in Hs as [_ Hall2].
            rewrite (last_write_cons lk e1 l) in El.
            rewrite (last_write_above lk e1 l Hall2 Hlk) in El.
            destruct (String.eqb_spec lk (fst e1)) as [E1|_];
              [|discriminate].
            exfalso. apply Hne. symmetry. exact E1.
          - destruct (assoc k E); reflexivity. }
        cbn [fst snd]. rewrite assoc_app, assoc_live1. cbn [fst snd].
        destruct (String.eqb_spec k lk) as [->|_].
        -- rewrite (assoc_all_lt E lk (Hlt _ eq_refl)).
           destruct (visible (Some lv)); reflexivity.
        -- cbn [visible]. destruct (assoc k E); reflexivity.
    + rewrite (Hnone eq_refl) in *.
      destruct (IH (Some e1) [] Hs sorted_nil) as [IH1 IH2].
      { intros e _. constructor. }
      { discriminate. }
      split; [exact IH1|]. intros k. rewrite IH2. reflexivity.
Qed.

Lemma kvs_key_le (P : list LSMTree.heap_item) :
  StronglySorted item_le P -> StronglySorted key_le (map kv_of P).
Proof.
  induction 1 as [|x P Hs IH Hall]; [constructor|].
  cbn [map]. constructor; [exact IH|].
  rewrite List.Forall_map. eapply Forall_impl; [exact Hall|].
  intros y [Hlt|[E _]]; [right; exact Hlt|left; exact E].
Qed.

Section MergeFacts.
Variable md5_int : string -> Z.

(** What [merge_loop] carries, the heap apart. *)
Definition merge_acc : Type :=
  option string * gmap string string * list string * Dir.

(** One iteration of [merge_loop] on the item popped. *)
Definition consume (temp : base) (st : merge_acc)
  (item : LSMTree.heap_item) : result merge_acc :=
  let '(lk, merged, keys, d) := st in
  let key := LSMTree.item_key item in
  let* (keys', d', lk') :=
    if match lk with
       | Some l => String.eqb key l
       | None => false
       end
    then Ok (keys, d, lk)
    else
      let* (keys', d') :=
        LSMTree.emit_last md5_int temp
          (LSMTree.mk_merge [] lk merged keys) d in
      Ok (keys', d', Some key) in
  Ok (lk', <[key:=LSMTree.item_value item]> merged, keys', d').

Fixpoint consume_all (temp : base) (P : list LSMTree.heap_item)
  (st : merge_acc) : result merge_acc :=
  match P with
  | [] => Ok st
  | item :: rest =>
      let* st' := consume temp st item in consume_all temp rest st'
  end.

(** [merge_loop] is [consume_all] on the items [kway] pops. *)
Lemma merge_loop_kway (fuel : nat) : forall temp m d P,
  kway fuel (LSMTree.min_heap m) = Ok P ->
  LSMTree.merge_loop md5_int fuel temp m d =
  let* st :=
    consume_all temp P
      (LSMTree.last_key m, LSMTree.merged_data m, LSMTree.all_keys m, d) in
  let '(lk, merged, keys, d') := st in
  Ok (LSMTree.mk_merge [] lk merged keys, d').
Proof.
  induction fuel as [|fuel IH]; intros temp [heap lk merged keys] d P HP;
    cbn [LSMTree.min_heap LSMTree.last_key LSMTree.merged_data
         LSMTree.all_keys] in *.
  - destruct heap; [|discriminate]. injection HP as <-. reflexivity.
  - destruct heap as [|x h]; [injection HP as <-; reflexivity|].
    cbn [kway] in HP.
    apply bind_Ok in HP as ([item heap1] & Hpop & HP).
    apply bind_Ok in HP as (heap2 & Hpush & HP).
    apply bind_Ok in HP as (rest & Hrest & HP). injection HP as <-.
    cbn [LSMTree.merge_loop LSMTree.min_heap LSMTree.last_key
         LSMTree.merged_data LSMTree.all_keys].
    rewrite Hpop. cbn [bind consume_all consume].
    change (LSMTree.emit_last md5_int temp
              (LSMTree.mk_merge (x :: h) lk merged keys) d)
      with (LSMTree.emit_last md5_int temp
              (LSMTree.mk_merge [] lk merged keys) d).
    destruct (if match lk with
                 | Some l => String.eqb (LSMTree.item_key item) l
                 | None => false
                 end
              then Ok (keys, d, lk)
              else
                let* (keys', d') :=
                  LSMTree.emit_last md5_int temp
                    (LSMTree.mk_merge [] lk merged keys) d in
                Ok (keys', d', Some (LSMTree.item_key item)))
      as [[[keys1 d1] lk1]|e]; [|reflexivity].
    cbn [bind]. rewrite Hpush. cbn [bind].
    rewrite (IH temp (LSMTree.mk_merge heap2 lk1
                            (<[LSMTree.item_key item:=LSMTree.item_value item]>
                               merged) keys1) d1 rest Hrest).
    reflexivity.
Qed.

(** The state of the loop and the directory, [d0] being the directory
    when the temporary file was opened. *)
Definition acc_rel (temp : base) (d0 : Dir) (st : merge_acc)
  (g : option kv * list kv) : Prop :=
  let '(lk, merged, keys, d) := st in
  lk = fst <$> fst g /\
  (forall e, fst g = Some e -> merged !! fst e = Some (snd e)) /\
  keys = keys_of (snd g) /\
  data d = <[temp:=text_of (snd g)]> (data d0) /\
  wal d = wal d0 /\
  (forall f, f <> temp -> index d !! f = index d0 !! f) /\
  (forall f, f <> temp -> bloom d !! f = bloom d0 !! f).

Lemma emit_last_spec (temp : base) (d0 : Dir) (lk : option string)
  (merged : gmap string string) (keys : list string) (d : Dir)
  (g : option kv * list kv) :
  acc_rel temp d0 (lk, merged, keys, d) g ->
  exists keys' d',
    LSMTree.emit_last md5_int temp (LSMTree.mk_merge [] lk merged keys) d =
      Ok (keys', d') /\
    acc_rel temp d0 (lk, merged, keys', d') (fst g, finish g).
Proof.
  destruct g as [last E]. unfold acc_rel, finish. cbn [fst snd].
  intros (Hlk & Hm & Hkeys & Hdata & Hwal & Hidx & Hbf).
  unfold LSMTree.emit_last.
  cbn [LSMTree.last_key LSMTree.merged_data LSMTree.all_keys].
  destruct last as [[l_k l_v]|]; cbn [fmap option_fmap option_map fst] in Hlk;
    subst lk.
  2:{ exists keys, d. split; [reflexivity|]. rewrite app_nil_r.
      split; [reflexivity|]. repeat (split; [assumption|]). assumption. }
  pose proof (Hm _ eq_refl) as Hv. cbn [fst snd] in Hv. rewrite Hv.
  unfold live1. cbn [fst snd].
  destruct (String.eqb l_v TOMBSTONE).
  { exists keys, d. split; [reflexivity|]. rewrite app_nil_r.
    split; [reflexivity|]. repeat (split; [assumption|]). assumption. }
  destruct (write_from_memtable_eq md5_int d temp {[l_k := l_v]} true)
    as (bf & _ & ->).
  cbn [bind]. eexists _, _. split; [reflexivity|].
  cbn [data index bloom wal].
  rewrite map_to_list_singleton. cbn [py_sorted foldr sorted_insert].
  split; [reflexivity|]. split; [exact Hm|].
  split; [unfold keys_of; rewrite map_app, Hkeys; reflexivity|].
  split.
  - rewrite Hdata, lookup_insert_eq. cbn [default].
    rewrite insert_insert_eq, text_of_app. reflexivity.
  - split; [exact Hwal|]. split.
    + intros f Hf. rewrite lookup_insert_ne by congruence. apply Hidx, Hf.
    + intros f Hf. rewrite lookup_insert_ne by congruence. apply Hbf, Hf.
Qed.

Lemma consume_all_spec (temp : base) (d0 : Dir)
  (P : list LSMTree.heap_item) : forall st g,
  acc_rel temp d0 st g ->
  exists st',
    consume_all temp P st = Ok st' /\
    acc_rel temp d0 st' (run_groups g (map kv_of P)).
Proof.
  induction P as [|x P IH]; intros st g Hrel.
  - exists st. split; [reflexivity|exact Hrel].
  - destruct st as [[[lk merged] keys] d]. cbn [consume_all].
    cbn [map run_groups fold_left].
    fold (run_groups (group_step g (kv_of x)) (map kv_of P)).
    assert (Hstep : exists st1,
               consume temp (lk, merged, keys, d) x = Ok st1 /\
               acc_rel temp d0 st1 (group_step g (kv_of x))).
    { unfold consume.
      destruct g as [last E].
      pose proof Hrel as (Hlk & Hm & Hkeys & Hdata & Hwal & Hidx & Hbf).
      cbn [fst snd] in Hlk, Hm, Hkeys, Hdata.
      unfold group_step. cbn [fst snd kv_of].
      destruct last as [[l_k l_v]|];
        cbn [fmap option_fmap option_map fst] in Hlk; subst lk;
        cbn [fst snd].
      - destruct (String.eqb_spec (LSMTree.item_key x) l_k) as [E1|Hne].
        + cbn [bind]. eexists. split; [reflexivity|].
          unfold acc_rel. cbn [fst snd fmap option_fmap option_map].
          split; [rewrite <- E1; reflexivity|]. split.
          { intros e [= <-]. cbn [fst snd]. apply lookup_insert_eq. }
          repeat (split; [assumption|]). assumption.
        + destruct (emit_last_spec temp d0 (Some l_k) merged keys d
                      (Some (l_k, l_v), E) Hrel)
            as (keys' & d' & -> & Hrel').
          cbn [bind]. eexists. split; [reflexivity|].
          unfold acc_rel, finish in *.
          cbn [fst snd fmap option_fmap option_map] in *.
          destruct Hrel' as (_ & _ & Hkeys' & Hdata' & Hwal' & Hidx' & Hbf').
          split; [reflexivity|]. split.
          { intros e [= <-]. cbn [fst snd]. apply lookup_insert_eq. }
          repeat (split; [assumption|]). assumption.
      - unfold LSMTree.emit_last. cbn [LSMTree.last_key LSMTree.all_keys bind].
        eexists. split; [reflexivity|].
        unfold acc_rel. cbn [fst snd fmap option_fmap option_map].
        split; [reflexivity|]. split.
        { intros e [= <-]. cbn [fst snd]. apply lookup_insert_eq. }
        repeat (split; [assumption|]). assumption. }
    destruct Hstep as (st1 & -> & Hrel1). cbn [bind].
    apply (IH st1 _ Hrel1).
Qed.

End MergeFacts.

(** * What a compaction keeps *)

(** The segments [segs] hold the records [Ls], those of each segment in
    ascending key order. *)
Definition holds_all (d : Dir) (segs : list SSTable.t) (Ls : list (list kv))
  : Prop :=
  Forall2 (fun seg l =>
             data d !! SSTable.filename seg = Some (text_of l) /\ sorted l)
          segs Ls.

Lemma read_iter_holds (d : Dir) (seg : SSTable.t) (l : list kv) :
  data d !! SSTable.filename seg = Some (text_of l) ->
  SSTable.read_iter d seg = map line_of l.
Proof.
  intros H. unfold SSTable.read_iter. rewrite H. exact (lines_text_of l).
Qed.

Lemma read_iter_decoded (d : Dir) (seg : SSTable.t) (l : list kv) :
  data d !! SSTable.filename seg = Some (text_of l) ->
  SSTable.decode_all (SSTable.read_iter d seg) = Ok l.
Proof.
  intros H. rewrite (read_iter_holds d seg l H). apply decode_all_lines.
Qed.

Lemma holds_all_iters (d : Dir) (segs : list SSTable.t) (Ls : list (list kv)) :
  holds_all d segs Ls ->
  map (SSTable.read_iter d) segs = map (map line_of) Ls /\ Forall sorted Ls.
Proof.
  induction 1 as [|seg l segs Ls [Hd Hs] _ [IH1 IH2]];
    [split; [reflexivity|constructor]|].
  cbn [map]. rewrite (read_iter_holds d seg l Hd), IH1.
  split; [reflexivity|]. constructor; assumption.
Qed.

Lemma holds_all_in (d : Dir) (segs : list SSTable.t) (Ls : list (list kv))
  (l : list kv) :
  holds_all d segs Ls -> In l Ls ->
  exists seg, In seg segs /\
              data d !! SSTable.filename seg = Some (text_of l) /\ sorted l.
Proof.
  induction 1 as [|seg l0 segs Ls H0 _ IH]; [intros []|].
  intros [<-|Hin].
  - exists seg. split; [left; reflexivity|exact H0].
  - destruct (IH Hin) as (seg' & H1 & H2). exists seg'.
    split; [right; exact H1|exact H2].
Qed.

Lemma holds_all_seg (d : Dir) (segs : list SSTable.t) (Ls : list (list kv))
  (seg : SSTable.t) :
  holds_all d segs Ls -> In seg segs ->
  exists l, In l Ls /\
            data d !! SSTable.filename seg = Some (text_of l) /\ sorted l.
Proof.
  induction 1 as [|seg0 l0 segs Ls H0 _ IH]; [intros []|].
  intros [<-|Hin].
  - exists l0. split; [left; reflexivity|exact H0].
  - destruct (IH Hin) as (l' & H1 & H2). exists l'.
    split; [right; exact H1|exact H2].
Qed.

Lemma starts_ok (Ls : list (list kv)) : forall i,
  Forall sorted Ls -> Forall cursor_ok (starts i Ls).
Proof.
  induction Ls as [|l Ls IH]; intros i H; [constructor|].
  apply Forall_cons in H as [Hl H].
  destruct l as [|e rest]; cbn [starts]; [apply IH; exact H|].
  constructor; [exact Hl|apply IH; exact H].
Qed.

Lemma length_items_of (j : nat) (l : list kv) :
  length (items_of j l) = length l.
Proof. induction l as [|e l IH]; [reflexivity|]. simpl. rewrite IH. reflexivity. Qed.

Lemma length_all_items (Ls : list (list kv)) : forall i,
  length (all_items i Ls) = length (concat Ls).
Proof.
  induction Ls as [|l Ls IH]; intros i; [reflexivity|].
  cbn [all_items concat]. rewrite !length_app, length_items_of, IH.
  reflexivity.
Qed.

Lemma length_concat_lines (Ls : list (list kv)) :
  length (concat (map (map line_of) Ls)) = length (concat Ls).
Proof.
  induction Ls as [|l Ls IH]; [reflexivity|].
  cbn [map concat]. rewrite !length_app, length_map, IH. reflexivity.
Qed.

(** The pairs of the heap items are the records of the segments. *)
Lemma in_all_items (e : kv) (Ls : list (list kv)) : forall i,
  In e (map kv_of (all_items i Ls)) <-> exists l, In l Ls /\ In e l.
Proof.
  induction Ls as [|l Ls IH]; intros i; cbn [all_items].
  - simpl. split; [intros []|intros (l & [] & _)].
  - rewrite map_app, in_app_iff, IH. split.
    + intros [H|(l' & H1 & H2)].
      * apply in_map_iff in H as (it & <- & Hit).
        apply items_of_in in Hit as [Hit _].
        exists l. split; [left; reflexivity|exact Hit].
      * exists l'. split; [right; exact H1|exact H2].
    + intros (l' & [<-|H1] & H2).
      * left. destruct (in_items_of i l e H2) as (it & Hit & <-).
        apply in_map. exact Hit.
      * right. exists l'. split; assumption.
Qed.

Lemma ltb_refl_false (v : string) : String.ltb v v = false.
Proof.
  destruct (String.ltb v v) eqn:E; [|reflexivity].
  destruct (slt_irrefl v E).
Qed.

(** Among items in heap order, the last pair of a key has the greatest of
    the values the key has. *)
Lemma last_write_greatest (k : string) (P : list LSMTree.heap_item) :
  StronglySorted item_le P ->
  match last_write k (map kv_of P) with
  | Some v =>
      In (k, v) (map kv_of P) /\
      forall v', In (k, v') (map kv_of P) -> String.ltb v v' = false
  | None => forall v', ~ In (k, v') (map kv_of P)
  end.
Proof.
  induction 1 as [|x P Hs IH Hall]; [intros v' []|].
  cbn [map]. rewrite last_write_cons.
  destruct (last_write k (map kv_of P)) as [v|] eqn:El.
  - destruct IH as [Hin Hmax]. split; [right; exact Hin|].
    intros v' [E|Hin']; [|apply Hmax; exact Hin'].
    apply in_map_iff in Hin as (y & Ey & Hy).
    rewrite Forall_forall in Hall.
    specialize (Hall y (proj2 (list_elem_of_In _ _) Hy)).
    unfold kv_of in E, Ey. injection E as Ek Ev. injection Ey as Eyk Eyv.
    destruct Hall as [Hlt|[_ [Hlt|[Ev' _]]]].
    + rewrite Ek, Eyk in Hlt. destruct (slt_irrefl _ Hlt).
    + rewrite Ev, Eyv in Hlt. apply slt_asym_false. exact Hlt.
    + rewrite <- Ev, Ev', Eyv. apply ltb_refl_false.
  - cbn [kv_of fst snd].
    destruct (String.eqb_spec k (LSMTree.item_key x)) as [->|Hne].
    + split; [left; reflexivity|].
      intros v' [E|Hin'].
      * injection E as <-. apply ltb_refl_false.
      * destruct (IH v' Hin').
    + intros v' [E|Hin'].
      * injection E as E1 _. apply Hne. symmetry. exact E1.
      * destruct (IH v' Hin').
Qed.

(** From a list of things that each have a partner to the list of the
    partners. *)
Lemma Forall_exists_Forall2 {A B : Type} (R : A -> B -> Prop) (l : list A) :
  Forall (fun x => exists y, R x y) l -> exists l', Forall2 R l l'.
Proof.
  induction 1 as [|x l [y Hy] _ [l' IH]]; [exists []; constructor|].
  exists (y :: l'). constructor; assumption.
Qed.

(** The files left once the old segments are removed. *)
Lemma remove_segments_spec (segs : list SSTable.t) : forall d,
  NoDup (map SSTable.filename segs) ->
  (forall seg, In seg segs -> is_Some (data d !! SSTable.filename seg)) ->
  exists d',
    LSMTree.remove_segments d segs = Ok d' /\
    wal d' = wal d /\
    forall f, ~ In f (map SSTable.filename segs) ->
              data d' !! f = data d !! f /\
              index d' !! f = index d !! f /\
              bloom d' !! f = bloom d !! f.
Proof.
  induction segs as [|seg segs IH]; intros d Hnd Hex.
  - exists d. split; [reflexivity|]. split; [reflexivity|].
    intros f _. repeat split.
  - cbn [map] in Hnd. apply NoDup_cons in Hnd as [Hseg Hnd].
    cbn [LSMTree.remove_segments].
    destruct (Hex seg (or_introl eq_refl)) as [text ->].
    set (d1 := mkDir (stdpp.base.delete (SSTable.filename seg) (data d))
                 (stdpp.base.delete (SSTable.filename seg) (index d))
                 (stdpp.base.delete (SSTable.filename seg) (bloom d))
                 (wal d)).
    destruct (IH d1 Hnd) as (d' & Hrun & Hwal & Hframe).
    + intros seg' Hin. cbn [d1 data].
      rewrite lookup_delete_ne; [apply Hex; right; exact Hin|].
      intros E. apply Hseg. rewrite E. apply list_elem_of_In.
      apply in_map. exact Hin.
    + exists d'. split; [exact Hrun|]. split; [exact Hwal|].
      intros f Hf.
      destruct (Hframe f) as (H1 & H2 & H3).
      { intros Hin. apply Hf. right. exact Hin. }
      assert (Hne : SSTable.filename seg <> f).
      { intros E. apply Hf. left. exact E. }
      rewrite H1, H2, H3. cbn [d1 data index bloom].
      rewrite !lookup_delete_ne by exact Hne. repeat split.
Qed.

(** What is not there before the old segments are removed is not there
    after. *)
Lemma remove_segments_none (segs : list SSTable.t) : forall d d' f,
  LSMTree.remove_segments d segs = Ok d' ->
  (data d !! f = None -> data d' !! f = None) /\
  (index d !! f = None -> index d' !! f = None) /\
  (bloom d !! f = None -> bloom d' !! f = None).
Proof.
  induction segs as [|seg segs IH]; intros d d' f H.
  - injection H as <-. repeat split; trivial.
  - cbn [LSMTree.remove_segments] in H.
    destruct (data d !! SSTable.filename seg); [|discriminate].
    destruct (IH _ _ f H) as (H1 & H2 & H3). cbn [data index bloom] in *.
    split; [|split]; intros Hn; [apply H1|apply H2|apply H3];
      apply lookup_delete_None; right; exact Hn.
Qed.

(** The three files of every segment removed are gone. *)
Lemma remove_segments_gone (segs : list SSTable.t) : forall d d' f,
  LSMTree.remove_segments d segs = Ok d' ->
  In f (map SSTable.filename segs) ->
  data d' !! f = None /\ index d' !! f = None /\ bloom d' !! f = None.
Proof.
  induction segs as [|seg segs IH]; intros d d' f H Hin; [destruct Hin|].
  cbn [LSMTree.remove_segments] in H.
  destruct (data d !! SSTable.filename seg); [|discriminate].
  destruct Hin as [<-|Hin]; [|apply (IH _ _ f H Hin)].
  destruct (remove_segments_none segs _ _ (SSTable.filename seg) H)
    as (H1 & H2 & H3). cbn [data index bloom] in *.
  split; [|split]; [apply H1|apply H2|apply H3]; apply lookup_delete_eq.
Qed.

Section CompactFacts.
Variable md5_int : string -> Z.

(** *** The side files of the temporary file *)

(** Once a record is written, the temporary file has an index file and a
    bloom filter file. *)
Definition sidecars (temp : base) (keys : list string) (d : Dir) : Prop :=
  keys <> [] ->
  is_Some (index d !! temp) /\ is_Some (bloom d !! temp).

Lemma emit_last_sidecars (temp : base) (lk : option string)
  (merged : gmap string string) (keys : list string) (d : Dir)
  (keys' : list string) (d' : Dir) :
  LSMTree.emit_last md5_int temp (LSMTree.mk_merge [] lk merged keys) d =
    Ok (keys', d') ->
  sidecars temp keys d -> sidecars temp keys' d'.
Proof.
  unfold LSMTree.emit_last.
  cbn [LSMTree.last_key LSMTree.merged_data LSMTree.all_keys].
  destruct lk as [l|]; [|intros [= <- <-]; trivial].
  destruct (merged !! l) as [v|]; [|discriminate].
  destruct (String.eqb v TOMBSTONE); [intros [= <- <-]; trivial|].
  destruct (write_from_memtable_eq md5_int d temp {[l := v]} true)
    as (bf & _ & ->).
  cbn [bind]. intros [= <- <-] _ _. cbn [index bloom].
  rewrite !lookup_insert_eq. split; eexists; reflexivity.
Qed.

Lemma consume_all_sidecars (temp : base) (P : list LSMTree.heap_item) :
  forall lk merged keys d lk' merged' keys' d',
  consume_all md5_int temp P (lk, merged, keys, d) =
    Ok (lk', merged', keys', d') ->
  sidecars temp keys d -> sidecars temp keys' d'.
Proof.
  induction P as [|x P IH]; intros lk merged keys d lk' merged' keys' d' H;
    [injection H as <- <- <- <-; trivial|].
  cbn [consume_all] in H.
  apply bind_Ok in H as ([[[lk1 merged1] keys1] d1] & Hc & H).
  intros Hs. apply (IH _ _ _ _ _ _ _ _ H). clear H IH.
  unfold consume in Hc.
  apply bind_Ok in Hc as ([[keys2 d2] lk2] & Hc & H).
  injection H as <- <- <- <-.
  destruct (match lk with
            | Some l => String.eqb (LSMTree.item_key x) l
            | None => false
            end); [injection Hc as <- <- <-; exact Hs|].
  apply bind_Ok in Hc as ([keys3 d3] & He & H). injection H as <- <- <-.
  apply (emit_last_sidecars _ _ _ _ _ _ _ He Hs).
Qed.

(** The segment a compaction of two segments or more leaves: its records
    are those the merge loop writes on the records of the old segments
    taken in heap order. *)
Lemma compact_full (s : LSMTree.t) (d : Dir) (now : Z)
  (Ls : list (list kv)) :
  seg_inv s d ->
  (2 <= length (LSMTree.segments s))%nat ->
  holds_all d (LSMTree.segments s) Ls ->
  index d !! Numbered (LSMTree.segment_counter s) = None ->
  exists seg d' P,
    LSMTree.compact md5_int s d now =
      Ok (LSMTree.mk (LSMTree.memtable s) (LSMTree.memtable_threshold s)
            [seg] (S (LSMTree.segment_counter s)), d') /\
    SSTable.filename seg = Numbered (LSMTree.segment_counter s) /\
    P ≡ₚ all_items 0 Ls /\
    StronglySorted item_le P /\
    seg_holds md5_int d' seg
      (finish (run_groups (None, []) (map kv_of P))) /\
    wal d' = wal d /\
    (forall n, (LSMTree.segment_counter s < n)%nat ->
               index d !! Numbered n = None ->
               index d' !! Numbered n = None) /\
    (forall old, In old (LSMTree.segments s) ->
                 data d' !! SSTable.filename old = None /\
                 index d' !! SSTable.filename old = None /\
                 bloom d' !! SSTable.filename old = None) /\
    index d' !! SSTable.filename seg = Some (SSTable.sparse_index seg) /\
    is_Some (bloom d' !! SSTable.filename seg) /\
    data d' !! TempCompacted now = None /\
    (finish (run_groups (None, []) (map kv_of P)) <> [] ->
     is_Some (index d' !! TempCompacted now) /\
     is_Some (bloom d' !! TempCompacted now)) /\
    bloom d' !! SSTable.filename seg = SSTable.bloom_filter seg /\
    (forall f, ~ In f (map SSTable.filename (LSMTree.segments s)) ->
               f <> TempCompacted now ->
               f <> Numbered (LSMTree.segment_counter s) ->
               data d' !! f = data d !! f).
Proof.
  intros (Hnd & Hsegs) Hlen Hhold Hfresh. unfold LSMTree.compact.
  destruct (Nat.ltb_spec (length (LSMTree.segments s)) 2) as [Hlt|_];
    [lia|].
  set (temp := TempCompacted now).
  set (compacted := Numbered (LSMTree.segment_counter s)) in *.
  destruct (holds_all_iters d _ Ls Hhold) as [Hiters HLs].
  rewrite Hiters.
  destruct (prime_spec Ls [] [] 0%nat (heap_ok_nil LSMTree.item_lt)
              (Permutation_refl _) HLs)
    as (heap & -> & Hok & Hperm & Hlenh).
  cbn [bind]. rewrite app_nil_r in Hperm, Hlenh.
  set (d0 := set_data d (<[temp:=EmptyString]> (data d))).
  set (fuel := S (length heap + length (concat (map (map line_of) Ls)))).
  destruct (kway_spec fuel heap (starts 0 Ls) Hok Hperm
              (starts_ok Ls 0%nat HLs))
    as (P & HP & HpermP & HsP).
  { rewrite remaining_starts, length_all_items. unfold fuel.
    rewrite length_concat_lines. lia. }
  rewrite (merge_loop_kway md5_int fuel temp
             (LSMTree.mk_merge heap None ∅ []) d0 P HP).
  cbn [LSMTree.last_key LSMTree.merged_data LSMTree.all_keys].
  destruct (consume_all_spec md5_int temp d P (None, ∅, [], d0) (None, []))
    as ([[[lk merged] keys] d1] & Hcons & Hrel).
  { unfold acc_rel. cbn [fst snd d0 set_data data index bloom wal].
    split; [reflexivity|]. split; [intros e; discriminate|].
    split; [reflexivity|]. split; [reflexivity|]. split; [reflexivity|].
    split; intros f _; reflexivity. }
  rewrite Hcons. cbn [bind].
  set (g := run_groups (None, []) (map kv_of P)) in *.
  destruct (emit_last_spec md5_int temp d lk merged keys d1 g Hrel)
    as (keys' & d2 & Hemit & Hrel2).
  rewrite Hemit. cbn [bind].
  assert (Hside : sidecars temp keys' d2).
  { apply (emit_last_sidecars _ _ _ _ _ _ _ Hemit).
    apply (consume_all_sidecars _ _ _ _ _ _ _ _ _ _ Hcons).
    intros Hne. destruct Hne. reflexivity. }
  destruct Hrel2 as (_ & _ & Hkeys & Hdata2 & Hwal2 & Hidx2 & Hbf2).
  cbn [fst snd] in Hkeys, Hdata2.
  set (E := finish g) in *.
  assert (Hsz : 1 <= Z.max 100 (Z.of_nat (length keys') * 10)) by lia.
  destruct (add_all_spec md5_int keys'
              (BloomFilter.init (Z.max 100 (Z.of_nat (length keys') * 10)) 5)
              (init_wf _ 5 Hsz)) as (bf & -> & Hwf & _ & _ & _ & Hin).
  cbn [bind]. cbn [set_bloom data].
  rewrite Hdata2, lookup_insert_eq. cbn [of_option bind].
  set (d3 := set_data _ _).
  assert (Hnames : forall seg, In seg (LSMTree.segments s) ->
            SSTable.filename seg <> temp /\ SSTable.filename seg <> compacted).
  { intros seg Hin'. destruct (Hsegs seg Hin') as (n & _ & Hn & Hlt & _).
    rewrite Hn. unfold temp, compacted. split; [discriminate|].
    intros [= E']. lia. }
  assert (Hnot : ~ In compacted (map SSTable.filename (LSMTree.segments s))).
  { intros Hin'. apply in_map_iff in Hin' as (seg & E' & Hin').
    destruct (Hnames seg Hin') as (_ & Hn2). contradiction. }
  destruct (remove_segments_spec (LSMTree.segments s) d3 Hnd)
    as (d4 & Hrm & Hwal4 & Hframe4).
  { intros seg Hin'. destruct (Hnames seg Hin') as (Hn1 & Hn2).
    cbn [d3 set_data data].
    rewrite lookup_insert_ne by congruence.
    rewrite lookup_delete_ne by congruence.
    rewrite lookup_insert_ne by congruence.
    destruct (Hsegs seg Hin') as (n & items & Hn & _ & Hdata).
    rewrite Hn, Hdata. eexists; reflexivity. }
  rewrite Hrm. cbn [bind].
  destruct (Hframe4 compacted Hnot) as (Hdata4 & Hindex4 & Hbloom4).
  cbn [d3 set_data set_bloom data index bloom] in Hdata4, Hindex4, Hbloom4.
  rewrite lookup_insert_eq in Hdata4. rewrite lookup_insert_eq in Hbloom4.
  rewrite (Hidx2 compacted ltac:(discriminate)), Hfresh in Hindex4.
  unfold SSTable.init. rewrite Hindex4, Hdata4, Hbloom4.
  rewrite lines_text_of.
  change (map (fun e : kv => SSTable.record_line (fst e) (snd e)) E)
    with (map line_of E).
  rewrite build_index_loop_lines. cbn [bind].
  eexists _, _, P. split; [reflexivity|].
  cbn [SSTable.filename]. split; [reflexivity|].
  split; [rewrite HpermP, remaining_starts; reflexivity|].
  split; [exact HsP|].
  assert (HsE : sorted E).
  { destruct (groups_spec (map kv_of P) None []) as [H1 _].
    - cbn [opt_list app]. apply kvs_key_le. exact HsP.
    - apply sorted_nil.
    - intros e; discriminate.
    - reflexivity.
    - exact H1. }
  assert (Htemp : ~ In temp (map SSTable.filename (LSMTree.segments s))).
  { intros Hin'. apply in_map_iff in Hin' as (seg & E' & Hin').
    destruct (Hnames seg Hin') as (Hn1 & _). contradiction. }
  destruct (Hframe4 temp Htemp) as (Hdt & Hit & Hbt).
  cbn [d3 set_data set_bloom data index bloom] in Hdt, Hit, Hbt.
  split; [|split; [|split; [|split; [|split; [|split; [|split;
    [|split; [|split]]]]]]]].
  - unfold seg_holds.
    cbn [SSTable.filename SSTable.sparse_index SSTable.bloom_filter
         set_index data].
    split; [exact Hdata4|]. split; [exact HsE|]. split.
    + destruct (write_loop_blocks E 0 0)
        as (lead & rest & Hitems & Hb & Hlead).
      rewrite (Hlead eq_refl) in *. simpl in Hitems, Hb.
      rewrite <- Hitems in Hb. exact Hb.
    + cbn [filter_ok]. split; [exact Hwf|].
      intros k Hk. apply Hin. rewrite Hkeys. exact Hk.
  - cbn [set_index wal]. rewrite Hwal4. cbn [d3 set_data set_bloom wal].
    exact Hwal2.
  - intros n Hn Hnone. cbn [set_index index].
    rewrite lookup_insert_ne by (unfold compacted; intros [= E']; lia).
    destruct (Hframe4 (Numbered n)) as (_ & H2 & _).
    { intros Hin'. apply in_map_iff in Hin' as (seg & E' & Hin').
      destruct (Hsegs seg Hin') as (n' & _ & Hn' & Hlt' & _).
      rewrite Hn' in E'. injection E' as E'. lia. }
    rewrite H2. cbn [d3 set_data set_bloom index].
    rewrite (Hidx2 (Numbered n) ltac:(discriminate)). exact Hnone.
  - intros old Hold.
    destruct (remove_segments_gone _ _ _ (SSTable.filename old) Hrm
                (in_map _ _ _ Hold)) as (G1 & G2 & G3).
    cbn [set_index data index bloom].
    split; [exact G1|]. split; [|exact G3].
    rewrite lookup_insert_ne; [exact G2|].
    intros E'. destruct (Hnames old Hold) as (_ & Hn2). congruence.
  - cbn [set_index index]. apply lookup_insert_eq.
  - cbn [set_index bloom]. rewrite Hbloom4. eexists; reflexivity.
  - cbn [set_index data]. rewrite Hdt.
    rewrite lookup_insert_ne by discriminate. apply lookup_delete_eq.
  - intros HE. cbn [set_index index bloom].
    rewrite lookup_insert_ne by discriminate. rewrite Hit, Hbt.
    rewrite lookup_insert_ne by discriminate.
    apply Hside. rewrite Hkeys. intros E'. apply HE.
    exact (map_eq_nil fst E E').
  - cbn [set_index bloom SSTable.filename SSTable.bloom_filter].
    exact Hbloom4.
  - intros f Hf1 Hf2 Hf3. cbn [set_index data].
    destruct (Hframe4 f Hf1) as (Hdf & _). rewrite Hdf.
    cbn [d3 set_data set_bloom data].
    rewrite lookup_insert_ne by congruence.
    rewrite lookup_delete_ne by congruence.
    apply lookup_insert_ne. congruence.
Qed.

Lemma compact_detail (s : LSMTree.t) (d : Dir) (now : Z)
  (Ls : list (list kv)) :
  seg_inv s d ->
  (2 <= length (LSMTree.segments s))%nat ->
  holds_all d (LSMTree.segments s) Ls ->
  index d !! Numbered (LSMTree.segment_counter s) = None ->
  exists seg d' P,
    LSMTree.compact md5_int s d now =
      Ok (LSMTree.mk (LSMTree.memtable s) (LSMTree.memtable_threshold s)
            [seg] (S (LSMTree.segment_counter s)), d') /\
    SSTable.filename seg = Numbered (LSMTree.segment_counter s) /\
    P ≡ₚ all_items 0 Ls /\
    StronglySorted item_le P /\
    seg_holds md5_int d' seg
      (finish (run_groups (None, []) (map kv_of P))) /\
    wal d' = wal d /\
    forall n, (LSMTree.segment_counter s < n)%nat ->
              index d !! Numbered n = None ->
              index d' !! Numbered n = None.
Proof.
  intros Hseg Hlen Hhold Hfresh.
  destruct (compact_full s d now Ls Hseg Hlen Hhold Hfresh)
    as (seg & d' & P & H1 & H2 & H3 & H4 & H5 & H6 & H7 & _).
  exists seg, d', P. repeat (split; [assumption|]). exact H7.
Qed.

(** *** The calls that lead to a compaction *)

(** No index file is numbered from the counter on. *)
Definition fresh (s : LSMTree.t) (d : Dir) : Prop :=
  forall n, (LSMTree.segment_counter s <= n)%nat ->
            index d !! Numbered n = None.

Lemma flush_fresh (s : LSMTree.t) (d : Dir) (s' : LSMTree.t) (d' : Dir) :
  LSMTree._flush_memtable md5_int s d = Ok (s', d') ->
  fresh s d -> fresh s' d'.
Proof.
  unfold LSMTree._flush_memtable. intros H Hf.
  apply bind_Ok in H as (items & _ & H).
  destruct items as [|it items]; [injection H as <- <-; exact Hf|].
  destruct (write_from_memtable_eq md5_int d
              (Numbered (LSMTree.segment_counter s))
              (dict_of (it :: items)) false) as (bf & _ & E).
  rewrite E in H. cbn [bind] in H. unfold SSTable.init in H.
  cbn [index bloom data] in H. rewrite !lookup_insert_eq in H.
  cbn [bind] in H.
  apply bind_Ok in H as ([mt file] & _ & H). injection H as <- <-.
  intros n Hn. cbn [LSMTree.segment_counter set_wal index] in *.
  rewrite lookup_insert_ne by (intros [= E']; lia).
  apply Hf. lia.
Qed.

Lemma put_fresh (s : LSMTree.t) (d : Dir) (k v : string)
  (s' : LSMTree.t) (d' : Dir) :
  LSMTree.put md5_int s d k v = Ok (s', d') ->
  fresh s d -> fresh s' d'.
Proof.
  unfold LSMTree.put. intros H Hf.
  apply bind_Ok in H as ([mt file] & _ & H).
  apply bind_Ok in H as (items & _ & H).
  cbn [LSMTree.memtable_threshold] in H.
  destruct (LSMTree.memtable_threshold s <=? Z.of_nat (length items)).
  - apply (flush_fresh _ _ _ _ H). exact Hf.
  - injection H as <- <-. exact Hf.
Qed.

(** The records of a segment and the keys they may have. *)
Definition held_in (d : Dir) (seg : SSTable.t) (l : list kv) : Prop :=
  seg_holds md5_int d seg l /\
  forall k, In k (keys_of l) -> In k (keys_of (replay [] (log d))).

Lemma held_lists (s : LSMTree.t) (d : Dir) :
  segs_hold md5_int s d ->
  exists Ls, Forall2 (held_in d) (LSMTree.segments s) Ls.
Proof. intros H. apply Forall_exists_Forall2. exact H. Qed.

Lemma held_holds_all (d : Dir) (segs : list SSTable.t)
  (Ls : list (list kv)) :
  Forall2 (held_in d) segs Ls -> holds_all d segs Ls.
Proof.
  induction 1 as [|seg l segs Ls [(Hd & Hs & _) _] _ IH]; constructor.
  - split; assumption.
  - exact IH.
Qed.

Lemma held_keys (d : Dir) (segs : list SSTable.t) (Ls : list (list kv))
  (l : list kv) (k : string) :
  Forall2 (held_in d) segs Ls -> In l Ls -> In k (keys_of l) ->
  In k (keys_of (replay [] (log d))).
Proof.
  induction 1 as [|seg l0 segs Ls [_ Hk] _ IH]; [intros []|].
  intros [<-|Hin] Hkl; [apply Hk; exact Hkl|apply IH; assumption].
Qed.

Lemma visible_idem (o : option string) : visible (visible o) = visible o.
Proof.
  destruct o as [v|]; [|reflexivity]. cbn [visible].
  destruct (String.eqb v TOMBSTONE) eqn:E; [reflexivity|].
  cbn [visible]. rewrite E. reflexivity.
Qed.

(** The value the merge writes for a key is the one of its last pair in
    heap order. *)
Lemma merged_assoc (P : list LSMTree.heap_item) (k : string) :
  StronglySorted item_le P ->
  sorted (finish (run_groups (None, []) (map kv_of P))) /\
  assoc k (finish (run_groups (None, []) (map kv_of P))) =
  visible (last_write k (map kv_of P)).
Proof.
  intros HsP.
  destruct (groups_spec (map kv_of P) None []) as [H1 H2].
  - cbn [opt_list app]. apply kvs_key_le. exact HsP.
  - apply sorted_nil.
  - intros e; discriminate.
  - reflexivity.
  - split; [exact H1|]. rewrite H2. cbn [opt_list app assoc].
    destruct (visible (last_write k (map kv_of P))); reflexivity.
Qed.

(** A compaction keeps what the calls before it have established. *)
Lemma compact_all (s : LSMTree.t) (d : Dir) (now : Z) :
  mem_inv s d -> seg_inv s d -> segs_hold md5_int s d -> fresh s d ->
  exists s1 d1,
    LSMTree.compact md5_int s d now = Ok (s1, d1) /\
    mem_inv s1 d1 /\ seg_inv s1 d1 /\ segs_hold md5_int s1 d1 /\
    fresh s1 d1 /\ log d1 = log d.
Proof.
  intros Hmem Hseg Hhold Hfresh.
  destruct (compact_ok md5_int s d now Hseg) as (s1 & d1 & Hrun & Hseg1).
  destruct (step_spec md5_int s d (LSMTree.Compact now) s1 d1 Hmem Hrun)
    as (Hmem1 & Hlog1).
  cbn [write_of entries_of map] in Hlog1. rewrite app_nil_r in Hlog1.
  exists s1, d1. split; [exact Hrun|]. split; [exact Hmem1|].
  split; [exact Hseg1|].
  destruct (Nat.lt_ge_cases (length (LSMTree.segments s)) 2) as [Hlt|Hge].
  - unfold LSMTree.compact in Hrun.
    rewrite (proj2 (Nat.ltb_lt _ _) Hlt) in Hrun. injection Hrun as <- <-.
    split; [exact Hhold|]. split; [exact Hfresh|reflexivity].
  - destruct (held_lists s d Hhold) as (Ls & HLs).
    destruct (compact_detail s d now Ls Hseg Hge (held_holds_all _ _ _ HLs)
                (Hfresh _ (Nat.le_refl _)))
      as (seg & d' & P & Hc & _ & HpermP & HsP & Hholds & _ & Hidx).
    rewrite Hrun in Hc. injection Hc as -> ->.
    split; [|split; [|exact Hlog1]].
    + unfold segs_hold. cbn [LSMTree.segments].
      constructor; [|constructor]. eexists. split; [exact Hholds|].
      intros k Hk. rewrite Hlog1.
      destruct (merged_assoc P k HsP) as [_ Ha].
      destruct (assoc k (finish (run_groups (None, []) (map kv_of P))))
        as [v|] eqn:Ea.
      2:{ apply assoc_None_not_in in Ea. contradiction. }
      pose proof (last_write_greatest k P HsP) as Hg.
      destruct (last_write k (map kv_of P)) as [v0|]; [|discriminate].
      destruct Hg as [Hin _].
      apply (Permutation_in _ (Permutation_map kv_of HpermP)) in Hin.
      apply in_all_items in Hin as (l & Hl & Hkl).
      apply (held_keys d _ Ls l k HLs Hl).
      apply (in_map fst) in Hkl. exact Hkl.
    + intros n Hn. cbn [LSMTree.segment_counter] in Hn.
      apply Hidx; [lia|]. apply Hfresh. lia.
Qed.

Lemma step_all (s : LSMTree.t) (d : Dir) (o : LSMTree.op) :
  keeps_open o = true ->
  mem_inv s d -> seg_inv s d -> segs_hold md5_int s d -> fresh s d ->
  exists s1 d1,
    LSMTree.step md5_int s d o = Ok (s1, d1) /\
    mem_inv s1 d1 /\ seg_inv s1 d1 /\ segs_hold md5_int s1 d1 /\
    fresh s1 d1.
Proof.
  intros Ho Hmem Hseg Hhold Hfresh.
  destruct o as [k v|k| |now|threshold]; cbn [LSMTree.step];
    try discriminate.
  - destruct (put_detail md5_int s d k v Hmem Hseg)
      as (s1 & d1 & H1 & H2 & H3 & _ & _ & _ & H5).
    exists s1, d1. split; [exact H1|]. split; [exact H2|].
    split; [exact H3|]. split; [exact (H5 Hhold)|].
    exact (put_fresh _ _ _ _ _ _ H1 Hfresh).
  - destruct (put_detail md5_int s d k TOMBSTONE Hmem Hseg)
      as (s1 & d1 & H1 & H2 & H3 & _ & _ & _ & H5).
    exists s1, d1. unfold LSMTree.delete. split; [exact H1|].
    split; [exact H2|]. split; [exact H3|]. split; [exact (H5 Hhold)|].
    exact (put_fresh _ _ _ _ _ _ H1 Hfresh).
  - destruct (flush_holds md5_int s d Hmem Hseg Hhold)
      as (s1 & d1 & H1 & H2 & H3 & H4 & _).
    exists s1, d1. unfold LSMTree.close. split; [exact H1|].
    split; [exact H2|]. split; [exact H3|]. split; [exact H4|].
    exact (flush_fresh _ _ _ _ H1 Hfresh).
  - destruct (compact_all s d now Hmem Hseg Hhold Hfresh)
      as (s1 & d1 & H1 & H2 & H3 & H4 & H5 & _).
    exists s1, d1. repeat (split; [assumption|]). assumption.
Qed.

Lemma run_all (ops : list LSMTree.op) : forall s d,
  forallb keeps_open ops = true ->
  mem_inv s d -> seg_inv s d -> segs_hold md5_int s d -> fresh s d ->
  exists s' d',
    LSMTree.run md5_int s d ops = Ok (s', d') /\
    mem_inv s' d' /\ seg_inv s' d' /\ segs_hold md5_int s' d' /\
    fresh s' d'.
Proof.
  induction ops as [|o ops IH]; intros s d Hops Hmem Hseg Hhold Hfresh.
  - exists s, d. split; [reflexivity|]. repeat (split; [assumption|]).
    assumption.
  - cbn [forallb] in Hops. apply andb_prop in Hops as [Ho Hops].
    destruct (step_all s d o Ho Hmem Hseg Hhold Hfresh)
      as (s1 & d1 & Hstep & Hmem1 & Hseg1 & Hhold1 & Hfresh1).
    cbn [LSMTree.run]. rewrite Hstep. cbn [bind].
    apply (IH s1 d1 Hops Hmem1 Hseg1 Hhold1 Hfresh1).
Qed.

(** X23 (a compaction keeps the greatest value of each key): after any
    [put], [delete], [close] and [compact] calls on a new directory that
    leave two segments or more, [compact()] returns and leaves one
    segment. For every key [k], [get(k)] on that segment returns [None]
    when no old segment had a record of [k]; otherwise it answers with the
    greatest, in string order, of the values the old segments had for
    [k], the newest segment having no precedence: that value, or [None]
    when it is the tombstone. *)
Theorem compact_keeps_greatest (threshold now : Z)
  (ops : list LSMTree.op) :
  forallb keeps_open ops = true ->
  exists s0 d0 s d,
    LSMTree.init empty_dir threshold = Ok (s0, d0) /\
    LSMTree.run md5_int s0 d0 ops = Ok (s, d) /\
    ((2 <= length (LSMTree.segments s))%nat ->
     exists seg d',
       LSMTree.compact md5_int s d now =
         Ok (LSMTree.mk (LSMTree.memtable s) (LSMTree.memtable_threshold s)
               [seg] (S (LSMTree.segment_counter s)), d') /\
       forall k, exists o,
         SSTable.get md5_int d' seg k =
           Ok (match o with
               | Some v => if String.eqb v TOMBSTONE then None else Some v
               | None => None
               end) /\
         match o with
         | Some v =>
             (exists old recs,
                 In old (LSMTree.segments s) /\
                 SSTable.decode_all (SSTable.read_iter d old) = Ok recs /\
                 In (k, v) recs) /\
             (forall old recs v',
                 In old (LSMTree.segments s) ->
                 SSTable.decode_all (SSTable.read_iter d old) = Ok recs ->
                 In (k, v') recs -> String.ltb v v' = false)
         | None =>
             forall old recs v',
               In old (LSMTree.segments s) ->
               SSTable.decode_all (SSTable.read_iter d old) = Ok recs ->
               ~ In (k, v') recs
         end).
Proof.
  intros Hops.
  assert (Hinit : LSMTree.init empty_dir threshold =
                  Ok (LSMTree.mk (BTree.mk (BTree.new_node true) 5)
                        threshold [] 0,
                      set_wal empty_dir (Some []))).
  { vm_compute. reflexivity. }
  destruct (init_new md5_int threshold)
    as (s0 & d0 & Hinit' & Hmem0 & Hseg0 & Hhold0 & _).
  rewrite Hinit in Hinit'. injection Hinit' as <- <-.
  destruct (run_all ops _ _ Hops Hmem0 Hseg0 Hhold0)
    as (s & d & Hrun & Hmem & Hseg & Hhold & Hfresh).
  { intros n _. reflexivity. }
  eexists _, _, s, d. split; [exact Hinit|]. split; [exact Hrun|].
  intros Hlen.
  destruct (held_lists s d Hhold) as (Ls & HLs).
  pose proof (held_holds_all _ _ _ HLs) as Hall.
  destruct (compact_detail s d now Ls Hseg Hlen Hall
              (Hfresh _ (Nat.le_refl _)))
    as (seg & d' & P & Hc & _ & HpermP & HsP & Hholds & _).
  exists seg, d'. split; [exact Hc|]. intros k.
  exists (last_write k (map kv_of P)). split.
  - rewrite (seg_holds_get md5_int d' seg _ k Hholds).
    destruct (merged_assoc P k HsP) as [_ ->].
    rewrite visible_idem. reflexivity.
  - (* the pairs popped are the records of the old segments *)
    assert (Hrecs : forall old recs v',
               In old (LSMTree.segments s) ->
               SSTable.decode_all (SSTable.read_iter d old) = Ok recs ->
               In (k, v') recs -> In (k, v') (map kv_of P)).
    { intros old recs v' Hold Hdec Hin.
      destruct (holds_all_seg d _ Ls old Hall Hold) as (l & Hl & Hd & _).
      rewrite (read_iter_decoded d old l Hd) in Hdec.
      injection Hdec as <-.
      apply (Permutation_in _ (Permutation_sym
                                 (Permutation_map kv_of HpermP))).
      apply (in_all_items (k, v') Ls 0%nat). exists l.
      split; assumption. }
    pose proof (last_write_greatest k P HsP) as Hg.
    destruct (last_write k (map kv_of P)) as [v|].
    + destruct Hg as [Hin Hmax]. split.
      * apply (Permutation_in _ (Permutation_map kv_of HpermP)) in Hin.
        apply in_all_items in Hin as (l & Hl & Hkl).
        destruct (holds_all_in d _ Ls l Hall Hl) as (old & Hold & Hd & _).
        exists old, l. split; [exact Hold|].
        split; [apply read_iter_decoded; exact Hd|exact Hkl].
      * intros old recs v' Hold Hdec Hin'. apply Hmax.
        apply (Hrecs old recs v' Hold Hdec Hin').
    + intros old recs v' Hold Hdec Hin'.
      apply (Hg v'). apply (Hrecs old recs v' Hold Hdec Hin').
Qed.

(** *** The newest value is not the one kept *)

(** A [put] on an engine whose threshold is at most 1 writes a segment
    that holds the whole memtable, and leaves the other segments as they
    were. *)
Lemma put_flush_detail (s : LSMTree.t) (d : Dir) (k v : string) :
  mem_inv s d -> seg_inv s d ->
  LSMTree.memtable_threshold s <= 1 ->
  exists seg items s' d',
    LSMTree.put md5_int s d k v = Ok (s', d') /\
    mem_inv s' d' /\ seg_inv s' d' /\
    log d' = log d ++ entries_of [(k, v)] /\
    LSMTree.segments s' = LSMTree.segments s ++ [seg] /\
    LSMTree.memtable_threshold s' = LSMTree.memtable_threshold s /\
    seg_holds md5_int d' seg items /\
    (forall k', assoc k' items = assoc k' (replay [] (log d'))) /\
    (forall seg0 items0,
        In seg0 (LSMTree.segments s) ->
        seg_holds md5_int d seg0 items0 ->
        seg_holds md5_int d' seg0 items0).
Proof.
  intros Hmem Hseg Hthr.
  destruct (put_ok md5_int s d k v Hmem Hseg) as (s' & d' & Hrun & Hseg').
  destruct (put_spec md5_int s d k v s' d' Hmem Hrun) as (Hmem' & Hlog).
  pose proof Hrun as Hput.
  destruct Hmem as (h & r & Hm & Hinv & Hf).
  unfold LSMTree.put in Hrun. rewrite Hm in Hrun.
  destruct (insert_spec 5 degree_ok h r (WriteAheadLog.init (wal d)) k v true
              Hinv) as (h1 & r1 & E & Hinv1 & Hf1).
  rewrite E in Hrun. cbn [bind] in Hrun.
  cbn [LSMTree.memtable_threshold] in Hrun.
  set (s1 := LSMTree.mk (BTree.mk r1 5) (LSMTree.memtable_threshold s)
               (LSMTree.segments s) (LSMTree.segment_counter s)) in *.
  set (d1 := set_wal d (Some (WriteAheadLog.write
                                (WriteAheadLog.init (wal d)) "insert" k v)))
    in *.
  assert (Hlog1 : log d1 = log d ++ entries_of [(k, v)]) by reflexivity.
  assert (Hmem1 : mem_inv s1 d1).
  { exists h1, r1. split; [reflexivity|]. split; [exact Hinv1|].
    rewrite Hf1, Hf, Hlog1, replay_app. reflexivity. }
  assert (Hseg1 : seg_inv s1 d1) by exact Hseg.
  change (BTree.items (BTree.mk r1 5))
    with (BTree.items (LSMTree.memtable s1)) in Hrun.
  rewrite (mem_inv_items s1 d1 Hmem1) in Hrun. cbn [bind] in Hrun.
  assert (Hne : replay [] (log d1) <> []).
  { rewrite Hlog1, replay_app. apply upsert_not_nil. }
  assert (Hc : (LSMTree.memtable_threshold s <=?
                Z.of_nat (length (replay [] (log d1))))%Z = true).
  { apply Z.leb_le. destruct (replay [] (log d1)); [contradiction|].
    cbn [length]. lia. }
  match type of Hrun with
  | (if ?c then _ else _) = _ =>
      change c with (LSMTree.memtable_threshold s <=?
                     Z.of_nat (length (replay [] (log d1))))%Z in Hrun
  end.
  rewrite Hc in Hrun.
  destruct (flush_detail md5_int s1 d1 Hmem1 Hne)
    as (seg & items & s2 & d2 & Hrun2 & Hsegs & _ & Hthr2 & _ & Hnew & Ha
        & Hdata).
  rewrite Hrun in Hrun2. injection Hrun2 as <- <-.
  destruct (flush_spec md5_int s1 d1 s' d' Hmem1 Hrun) as (_ & Hlog2).
  exists seg, items, s', d'. split; [exact Hput|]. split; [exact Hmem'|].
  split; [exact Hseg'|]. split; [exact Hlog|]. split; [exact Hsegs|].
  split; [exact Hthr2|]. split; [exact Hnew|]. split.
  - intros k'. rewrite Ha, Hlog2. reflexivity.
  - intros seg0 items0 Hin Hh.
    apply (seg_holds_frame md5_int s1 d1 d' _ Hseg1 Hdata seg0 items0 Hin).
    exact Hh.
Qed.

(** X24 (a compaction can keep the older value): on a new directory with
    a threshold of at most 1, [put(k, v1)] then [put(k, v2)] with
    [v2 < v1] in string order leave two segments; after [compact()] the
    one segment left answers [get(k)] with the older value [v1] (with
    [None] when [v1] is the tombstone), while [get(k)] on the engine still
    answers with [v2], which the memtable holds. *)
Theorem compact_keeps_older_value (threshold now : Z) (k v1 v2 : string) :
  threshold <= 1 ->
  String.ltb v2 v1 = true ->
  exists s0 d0 s d s' d' seg,
    LSMTree.init empty_dir threshold = Ok (s0, d0) /\
    LSMTree.run md5_int s0 d0 [LSMTree.Put k v1; LSMTree.Put k v2] =
      Ok (s, d) /\
    length (LSMTree.segments s) = 2%nat /\
    LSMTree.compact md5_int s d now = Ok (s', d') /\
    LSMTree.segments s' = [seg] /\
    SSTable.get md5_int d' seg k =
      Ok (if String.eqb v1 TOMBSTONE then None else Some v1) /\
    LSMTree.get md5_int s' d' k =
      Ok (if String.eqb v2 TOMBSTONE then None else Some v2).
Proof.
  intros Hthr Hlt.
  assert (Hinit : LSMTree.init empty_dir threshold =
                  Ok (LSMTree.mk (BTree.mk (BTree.new_node true) 5)
                        threshold [] 0,
                      set_wal empty_dir (Some []))).
  { vm_compute. reflexivity. }
  destruct (init_new md5_int threshold)
    as (s0 & d0 & Hinit' & Hmem0 & Hseg0 & _ & Hlog0 & Hsegs0 & Hthr0).
  assert (Hfresh0 : fresh s0 d0).
  { rewrite Hinit in Hinit'. injection Hinit' as <- <-.
    intros n _. reflexivity. }
  destruct (put_flush_detail s0 d0 k v1 Hmem0 Hseg0)
    as (seg0 & items0 & s1 & d1 & Hput1 & Hmem1 & Hseg1 & Hlog1 & Hsegs1
        & Hthr1 & Hh0 & Ha0 & _).
  { rewrite Hthr0. exact Hthr. }
  destruct (put_flush_detail s1 d1 k v2 Hmem1 Hseg1)
    as (seg1 & items1 & s & d & Hput2 & Hmem & Hseg & Hlog & Hsegs
        & _ & Hh1 & Ha1 & Hframe).
  { rewrite Hthr1, Hthr0. exact Hthr. }
  rewrite Hsegs0 in Hsegs1. cbn [app] in Hsegs1.
  rewrite Hsegs1 in Hsegs. cbn [app] in Hsegs.
  specialize (Hframe seg0 items0 ltac:(rewrite Hsegs1; left; reflexivity)
                Hh0).
  pose proof (put_fresh _ _ _ _ _ _ Hput2
                (put_fresh _ _ _ _ _ _ Hput1 Hfresh0)) as Hfresh.
  (* what the two segments hold for [k] *)
  rewrite Hlog0 in Hlog1. cbn [app] in Hlog1.
  rewrite Hlog1 in Hlog.
  assert (Hk0 : forall v, In (k, v) items0 -> v = v1).
  { intros v Hin. destruct Hh0 as (_ & Hs & _).
    apply (assoc_in_sorted items0 k v Hs) in Hin.
    rewrite Ha0, Hlog1 in Hin. cbn in Hin.
    rewrite String.eqb_refl in Hin. congruence. }
  assert (Hin0 : In (k, v1) items0).
  { destruct Hh0 as (_ & Hs & _). apply (assoc_in_sorted items0 k v1 Hs).
    rewrite Ha0, Hlog1. cbn. rewrite String.eqb_refl. reflexivity. }
  assert (Hlast : assoc k (replay [] (log d)) = Some v2).
  { rewrite Hlog.
    change (entries_of [(k, v1)] ++ entries_of [(k, v2)])
      with (entries_of [(k, v1); (k, v2)]).
    rewrite replay_entries_of, assoc_upsert_all. unfold last_write.
    cbn [rev app assoc]. rewrite String.eqb_refl. reflexivity. }
  assert (Hk1 : forall v, In (k, v) items1 -> v = v2).
  { intros v Hin. destruct Hh1 as (_ & Hs & _).
    apply (assoc_in_sorted items1 k v Hs) in Hin.
    rewrite Ha1, Hlast in Hin. congruence. }
  assert (Hall : holds_all d (LSMTree.segments s) [items0; items1]).
  { rewrite Hsegs. constructor.
    - destruct Hframe as (H1 & H2 & _). split; assumption.
    - constructor; [|constructor].
      destruct Hh1 as (H1 & H2 & _). split; assumption. }
  destruct (compact_detail s d now [items0; items1] Hseg
              ltac:(rewrite Hsegs; cbn [length]; lia) Hall
              (Hfresh _ (Nat.le_refl _)))
    as (seg & d' & P & Hc & _ & HpermP & HsP & Hholds & _).
  destruct (step_spec md5_int s d (LSMTree.Compact now) _ _ Hmem Hc)
    as (Hmem' & Hlog').
  cbn [write_of entries_of map] in Hlog'. rewrite app_nil_r in Hlog'.
  eexists s0, d0, s, d, _, d', seg. split; [exact Hinit'|].
  split; [cbn [LSMTree.run LSMTree.step]; rewrite Hput1; cbn [bind];
          rewrite Hput2; reflexivity|].
  split; [rewrite Hsegs; reflexivity|].
  split; [exact Hc|]. split; [reflexivity|]. split.
  - rewrite (seg_holds_get md5_int d' seg _ k Hholds).
    destruct (merged_assoc P k HsP) as [_ ->]. rewrite visible_idem.
    assert (Hin : forall v, In (k, v) (map kv_of P) <->
                            In (k, v) items0 \/ In (k, v) items1).
    { intros v. split.
      - intros H.
        apply (Permutation_in _ (Permutation_map kv_of HpermP)) in H.
        apply in_all_items in H as (l & [<-|[<-|[]]] & Hl); auto.
      - intros H.
        apply (Permutation_in _ (Permutation_sym
                                   (Permutation_map kv_of HpermP))).
        apply (in_all_items (k, v) [items0; items1] 0%nat).
        destruct H as [H|H]; eexists; (split; [|exact H]); simpl; auto. }
    pose proof (last_write_greatest k P HsP) as Hg.
    destruct (last_write k (map kv_of P)) as [v|].
    + destruct Hg as [Hv Hmax].
      apply Hin in Hv as [Hv|Hv].
      * rewrite (Hk0 v Hv). reflexivity.
      * rewrite (Hk1 v Hv) in Hmax.
        rewrite (Hmax v1 (proj2 (Hin v1) (or_introl Hin0))) in Hlt.
        discriminate Hlt.
    + destruct (Hg v1 (proj2 (Hin v1) (or_introl Hin0))).
  - apply (get_logged md5_int _ d' k v2 Hmem').
    rewrite Hlog'. exact Hlast.
Qed.

(** X26 (the files a compaction leaves): after any [put], [delete],
    [close] and [compact] calls on a new directory that leave two
    segments or more, [compact()] removes the data file, the index file
    and the bloom filter file of every old segment and leaves the three
    files of the new segment. The temporary data file is gone, moved to
    the new segment; but when the new segment holds a record, the index
    file and the bloom filter file that the appending writes made beside
    the temporary file are left in the directory. *)
Theorem compact_files (threshold now : Z) (ops : list LSMTree.op) :
  forallb keeps_open ops = true ->
  exists s0 d0 s d,
    LSMTree.init empty_dir threshold = Ok (s0, d0) /\
    LSMTree.run md5_int s0 d0 ops = Ok (s, d) /\
    ((2 <= length (LSMTree.segments s))%nat ->
     exists s' d' seg,
       LSMTree.compact md5_int s d now = Ok (s', d') /\
       LSMTree.segments s' = [seg] /\
       (forall old, In old (LSMTree.segments s) ->
                    data d' !! SSTable.filename old = None /\
                    index d' !! SSTable.filename old = None /\
                    bloom d' !! SSTable.filename old = None) /\
       is_Some (data d' !! SSTable.filename seg) /\
       is_Some (index d' !! SSTable.filename seg) /\
       is_Some (bloom d' !! SSTable.filename seg) /\
       data d' !! TempCompacted now = None /\
       (SSTable.read_iter d' seg <> [] ->
        is_Some (index d' !! TempCompacted now) /\
        is_Some (bloom d' !! TempCompacted now))).
Proof.
  intros Hops.
  assert (Hinit : LSMTree.init empty_dir threshold =
                  Ok (LSMTree.mk (BTree.mk (BTree.new_node true) 5)
                        threshold [] 0,
                      set_wal empty_dir (Some []))).
  { vm_compute. reflexivity. }
  destruct (init_new md5_int threshold)
    as (s0 & d0 & Hinit' & Hmem0 & Hseg0 & Hhold0 & _).
  assert (Hfresh0 : fresh s0 d0).
  { rewrite Hinit in Hinit'. injection Hinit' as <- <-.
    intros n _. reflexivity. }
  destruct (run_all ops _ _ Hops Hmem0 Hseg0 Hhold0 Hfresh0)
    as (s & d & Hrun & Hmem & Hseg & Hhold & Hfresh).
  exists s0, d0, s, d. split; [exact Hinit'|]. split; [exact Hrun|].
  intros Hlen.
  destruct (held_lists s d Hhold) as (Ls & HLs).
  destruct (compact_full s d now Ls Hseg Hlen (held_holds_all _ _ _ HLs)
              (Hfresh _ (Nat.le_refl _)))
    as (seg & d' & P & Hc & _ & _ & _ & Hholds & _ & _ & Hgone & Hidx
        & Hbf & Htemp & Hside & _).
  eexists _, d', seg. split; [exact Hc|]. split; [reflexivity|].
  split; [exact Hgone|].
  destruct Hholds as (Hdata & _).
  split; [rewrite Hdata; eexists; reflexivity|].
  split; [rewrite Hidx; eexists; reflexivity|].
  split; [exact Hbf|]. split; [exact Htemp|].
  intros Hne. apply Hside. intros HE. apply Hne.
  rewrite (read_iter_holds d' seg _ Hdata), HE. reflexivity.
Qed.

(** X30 (a compaction purges tombstones and duplicates): after any
    [put], [delete], [close] and [compact] calls on a new directory that
    leave two segments or more, [read_iter] on the segment [compact()]
    leaves yields records in strictly ascending key order, so no key
    twice, none of them a tombstone, and each of them a record of an old
    segment. *)
Theorem compact_purges (threshold now : Z) (ops : list LSMTree.op) :
  forallb keeps_open ops = true ->
  exists s0 d0 s d,
    LSMTree.init empty_dir threshold = Ok (s0, d0) /\
    LSMTree.run md5_int s0 d0 ops = Ok (s, d) /\
    ((2 <= length (LSMTree.segments s))%nat ->
     exists s' d' seg recs,
       LSMTree.compact md5_int s d now = Ok (s', d') /\
       LSMTree.segments s' = [seg] /\
       SSTable.decode_all (SSTable.read_iter d' seg) = Ok recs /\
       StronglySorted slt (map fst recs) /\
       forall k v,
         In (k, v) recs ->
         v <> TOMBSTONE /\
         exists old old_recs,
           In old (LSMTree.segments s) /\
           SSTable.decode_all (SSTable.read_iter d old) = Ok old_recs /\
           In (k, v) old_recs).
Proof.
  intros Hops.
  assert (Hinit : LSMTree.init empty_dir threshold =
                  Ok (LSMTree.mk (BTree.mk (BTree.new_node true) 5)
                        threshold [] 0,
                      set_wal empty_dir (Some []))).
  { vm_compute. reflexivity. }
  destruct (init_new md5_int threshold)
    as (s0 & d0 & Hinit' & Hmem0 & Hseg0 & Hhold0 & _).
  assert (Hfresh0 : fresh s0 d0).
  { rewrite Hinit in Hinit'. injection Hinit' as <- <-.
    intros n _. reflexivity. }
  destruct (run_all ops _ _ Hops Hmem0 Hseg0 Hhold0 Hfresh0)
    as (s & d & Hrun & Hmem & Hseg & Hhold & Hfresh).
  exists s0, d0, s, d. split; [exact Hinit'|]. split; [exact Hrun|].
  intros Hlen.
  destruct (held_lists s d Hhold) as (Ls & HLs).
  pose proof (held_holds_all _ _ _ HLs) as Hall.
  destruct (compact_detail s d now Ls Hseg Hlen Hall
              (Hfresh _ (Nat.le_refl _)))
    as (seg & d' & P & Hc & _ & HpermP & HsP & Hholds & _).
  set (E := finish (run_groups (None, []) (map kv_of P))) in *.
  eexists _, d', seg, E. split; [exact Hc|]. split; [reflexivity|].
  destruct Hholds as (Hdata & HsE & _).
  split; [apply read_iter_decoded; exact Hdata|].
  split; [exact HsE|].
  intros k v Hin.
  apply (assoc_in_sorted E k v HsE) in Hin.
  destruct (merged_assoc P k HsP) as [_ Ha]. fold E in Ha.
  rewrite Ha in Hin.
  pose proof (last_write_greatest k P HsP) as Hg.
  destruct (last_write k (map kv_of P)) as [v0|]; [|discriminate Hin].
  cbn [visible] in Hin.
  destruct (String.eqb_spec v0 TOMBSTONE) as [|Hv]; [discriminate Hin|].
  injection Hin as <-. split; [exact Hv|].
  destruct Hg as [Hp _].
  apply (Permutation_in _ (Permutation_map kv_of HpermP)) in Hp.
  apply in_all_items in Hp as (l & Hl & Hkl).
  destruct (holds_all_in d _ Ls l Hall Hl) as (old & Hold & Hd & _).
  exists old, l. split; [exact Hold|].
  split; [apply read_iter_decoded; exact Hd|exact Hkl].
Qed.

End CompactFacts.

Lemma compact_keeps_greatest_witness :
  exists s0 d0 s d,
    LSMTree.init empty_dir 1 = Ok (s0, d0) /\
    LSMTree.run toy_digest s0 d0
      [LSMTree.Put "a" "2"; LSMTree.Put "a" "1"; LSMTree.Put "b" "3"] =
      Ok (s, d) /\
    ((2 <= length (LSMTree.segments s))%nat ->
     exists seg d',
       LSMTree.compact toy_digest s d 0 =
         Ok (LSMTree.mk (LSMTree.memtable s) (LSMTree.memtable_threshold s)
               [seg] (S (LSMTree.segment_counter s)), d') /\
       forall k, exists o,
         SSTable.get toy_digest d' seg k =
           Ok (match o with
               | Some v => if String.eqb v TOMBSTONE then None else Some v
               | None => None
               end) /\
         match o with
         | Some v =>
             (exists old recs,
                 In old (LSMTree.segments s) /\
                 SSTable.decode_all (SSTable.read_iter d old) = Ok recs /\
                 In (k, v) recs) /\
             (forall old recs v',
                 In old (LSMTree.segments s) ->
                 SSTable.decode_all (SSTable.read_iter d old) = Ok recs ->
                 In (k, v') recs -> String.ltb v v' = false)
         | None =>
             forall old recs v',
               In old (LSMTree.segments s) ->
               SSTable.decode_all (SSTable.read_iter d old) = Ok recs ->
               ~ In (k, v') recs
         end).
Proof.
  apply (compact_keeps_greatest toy_digest 1 0
           [LSMTree.Put "a" "2"; LSMTree.Put "a" "1"; LSMTree.Put "b" "3"]).
  reflexivity.
Defined.

Lemma compact_keeps_older_value_witness :
  exists s0 d0 s d s' d' seg,
    LSMTree.init empty_dir 1 = Ok (s0, d0) /\
    LSMTree.run toy_digest s0 d0 [LSMTree.Put "a" "2"; LSMTree.Put "a" "1"] =
      Ok (s, d) /\
    length (LSMTree.segments s) = 2%nat /\
    LSMTree.compact toy_digest s d 0 = Ok (s', d') /\
    LSMTree.segments s' = [seg] /\
    SSTable.get toy_digest d' seg "a" =
      Ok (if String.eqb "2" TOMBSTONE then None else Some "2"%string) /\
    LSMTree.get toy_digest s' d' "a" =
      Ok (if String.eqb "1" TOMBSTONE then None else Some "1"%string).
Proof.
  apply (compact_keeps_older_value toy_digest 1 0 "a" "2" "1").
  - lia.
  - reflexivity.
Defined.

Lemma compact_files_witness :
  exists s0 d0 s d,
    LSMTree.init empty_dir 1 = Ok (s0, d0) /\
    LSMTree.run toy_digest s0 d0
      [LSMTree.Put "a" "1"; LSMTree.Delete "b"; LSMTree.Put "c" "3"] =
      Ok (s, d) /\
    ((2 <= length (LSMTree.segments s))%nat ->
     exists s' d' seg,
       LSMTree.compact toy_digest s d 7 = Ok (s', d') /\
       LSMTree.segments s' = [seg] /\
       (forall old, In old (LSMTree.segments s) ->
                    data d' !! SSTable.filename old = None /\
                    index d' !! SSTable.filename old = None /\
                    bloom d' !! SSTable.filename old = None) /\
       is_Some (data d' !! SSTable.filename seg) /\
       is_Some (index d' !! SSTable.filename seg) /\
       is_Some (bloom d' !! SSTable.filename seg) /\
       data d' !! TempCompacted 7 = None /\
       (SSTable.read_iter d' seg <> [] ->
        is_Some (index d' !! TempCompacted 7) /\
        is_Some (bloom d' !! TempCompacted 7))).
Proof.
  apply (compact_files toy_digest 1 7
           [LSMTree.Put "a" "1"; LSMTree.Delete "b"; LSMTree.Put "c" "3"]).
  reflexivity.
Defined.

Lemma compact_purges_witness :
  exists s0 d0 s d,
    LSMTree.init empty_dir 1 = Ok (s0, d0) /\
    LSMTree.run toy_digest s0 d0
      [LSMTree.Put "a" "1"; LSMTree.Delete "a"; LSMTree.Put "b" "2"] =
      Ok (s, d) /\
    ((2 <= length (LSMTree.segments s))%nat ->
     exists s' d' seg recs,
       LSMTree.compact toy_digest s d 0 = Ok (s', d') /\
       LSMTree.segments s' = [seg] /\
       SSTable.decode_all (SSTable.read_iter d' seg) = Ok recs /\
       StronglySorted slt (map fst recs) /\
       forall k v,
         In (k, v) recs ->
         v <> TOMBSTONE /\
         exists old old_recs,
           In old (LSMTree.segments s) /\
           SSTable.decode_all (SSTable.read_iter d old) = Ok old_recs /\
           In (k, v) old_recs).
Proof.
  apply (compact_purges toy_digest 1 0
           [LSMTree.Put "a" "1"; LSMTree.Delete "a"; LSMTree.Put "b" "2"]).
  reflexivity.
Defined.

(** * [fuzzy_get] on a running engine *)

Section FuzzyRuns.
Variable md5_int : string -> Z.
Variable search_key : string.
Variable max_distance : Z.

(** The record is listed by [fuzzy_get] when it is the first of its
    key. *)
Definition listed (e : kv) : bool :=
  (Z.of_nat (Levenshtein.distance search_key (fst e)) <=? max_distance)
  && negb (String.eqb (snd e) TOMBSTONE).

(** The loop on records with distinct keys, none of them checked. *)
Lemma fuzzy_loop_first (items : list kv) : forall results checked_keys,
  NoDup (keys_of items) ->
  (forall k, In k (keys_of items) -> k ∉ checked_keys) ->
  fst (LSMTree.fuzzy_loop search_key max_distance items
         results checked_keys) = results ++ List.filter listed items /\
  forall k,
    k ∈ snd (LSMTree.fuzzy_loop search_key max_distance items
               results checked_keys) <->
    k ∈ checked_keys \/
    (In k (keys_of items) /\
     Z.of_nat (Levenshtein.distance search_key k) <= max_distance).
Proof.
  induction items as [|[k v] items IH]; intros results checked_keys Hnd Hno.
  - cbn [LSMTree.fuzzy_loop List.filter fst snd keys_of map].
    rewrite app_nil_r. split; [reflexivity|]. intros k. simpl. tauto.
  - cbn [keys_of map fst] in Hnd, Hno. fold (keys_of items) in Hnd, Hno.
    apply NoDup_cons in Hnd as [Hk Hnd].
    cbn [LSMTree.fuzzy_loop].
    destruct (decide (k ∈ checked_keys)) as [Hin|_].
    { destruct (Hno k (or_introl eq_refl) Hin). }
    cbn [List.filter]. unfold listed at 1. cbn [fst snd].
    destruct (Z.leb_spec (Z.of_nat (Levenshtein.distance search_key k))
                max_distance) as [Hnear|Hfar]; cbn [andb].
    + destruct (IH (if String.eqb v TOMBSTONE then results
                    else results ++ [(k, v)])
                  ({[k]} ∪ checked_keys) Hnd) as [IH1 IH2].
      { intros k' Hk' Hin. apply elem_of_union in Hin as [Hin|Hin].
        - apply elem_of_singleton in Hin. subst k'.
          apply Hk. apply list_elem_of_In. exact Hk'.
        - apply (Hno k' (or_intror Hk') Hin). }
      split.
      * rewrite IH1. destruct (String.eqb v TOMBSTONE); cbn [negb];
          [reflexivity|]. rewrite <- app_assoc. reflexivity.
      * intros k'. rewrite IH2, elem_of_union, elem_of_singleton.
        cbn [keys_of map fst In]. fold (keys_of items). split.
        -- intros [[-> | H]|[H1 H2]]; [right; split; [left; reflexivity|exact Hnear]
                                    |left; exact H|right; split; [right; exact H1|exact H2]].
        -- intros [H|[[<- | H1] H2]]; [left; right; exact H|left; left; reflexivity
                                    |right; split; assumption].
    + destruct (IH results checked_keys Hnd) as [IH1 IH2].
      { intros k' Hk'. apply (Hno k' (or_intror Hk')). }
      split; [exact IH1|].
      intros k'. rewrite IH2. cbn [keys_of map fst In]. fold (keys_of items).
      split.
      * intros [H|[H1 H2]]; [left; exact H|right; split; [right; exact H1|exact H2]].
      * intros [H|[[<- | H1] H2]]; [left; exact H|lia|right; split; assumption].
Qed.

(** The loop on records whose keys are checked or too far. *)
Lemma fuzzy_loop_skip (items : list kv) (results : list kv)
  (checked_keys : gset string) :
  (forall k, In k (keys_of items) ->
             k ∈ checked_keys \/
             max_distance < Z.of_nat (Levenshtein.distance search_key k)) ->
  LSMTree.fuzzy_loop search_key max_distance items results checked_keys =
  (results, checked_keys).
Proof.
  induction items as [|[k v] items IH]; intros Hk; [reflexivity|].
  cbn [LSMTree.fuzzy_loop].
  assert (IH' := IH (fun k' Hk' => Hk k' (or_intror Hk'))).
  destruct (decide (k ∈ checked_keys)) as [Hin|Hout]; [exact IH'|].
  destruct (Hk k (or_introl eq_refl)) as [Hin|Hfar]; [contradiction|].
  destruct (Z.leb_spec (Z.of_nat (Levenshtein.distance search_key k))
              max_distance) as [Hnear|_]; [lia|exact IH'].
Qed.

Lemma sorted_filter (f : kv -> bool) (l : list kv) :
  sorted l -> sorted (List.filter f l).
Proof.
  induction l as [|e l IH]; intros Hs; [exact Hs|].
  apply sorted_cons in Hs as [Hs Hgt]. cbn [List.filter].
  assert (Hgt' : all_gt (List.filter f l) (fst e)).
  { unfold all_gt in *. rewrite Forall_forall in *.
    intros x Hx. apply Hgt. apply list_elem_of_In.
    apply list_elem_of_In, filter_In in Hx as [Hx _]. exact Hx. }
  destruct (f e); [|apply IH; exact Hs].
  apply sorted_cons. split; [apply IH; exact Hs|exact Hgt'].
Qed.

(** The segments add nothing to what the memtable gave. *)
Lemma fuzzy_segments_skip (d : Dir) (keys : list string)
  (results : list kv) (checked_keys : gset string)
  (segs : list SSTable.t) :
  Forall (fun seg => exists items,
              seg_holds md5_int d seg items /\
              forall k, In k (keys_of items) -> In k keys) segs ->
  (forall k, In k keys ->
             k ∈ checked_keys \/
             max_distance <
             Z.of_nat (Levenshtein.distance search_key k)) ->
  LSMTree.fuzzy_segments d search_key max_distance segs
    results checked_keys = Ok results.
Proof.
  intros Hsegs Hkeys.
  induction Hsegs as [|seg segs (items & (Hd & _) & Hk) _ IH];
    [reflexivity|].
  cbn [LSMTree.fuzzy_segments].
  rewrite (read_iter_decoded d seg items Hd). cbn [bind].
  rewrite (fuzzy_loop_skip items results checked_keys).
  - exact IH.
  - intros k Hin. apply Hkeys, Hk, Hin.
Qed.

(** X25 ([fuzzy_get] lists the last writes): on a new directory, after
    any [put], [delete], [close] and [compact] calls, [fuzzy_get]
    returns a list in strictly ascending key order, and [(k, v)] is in
    it exactly when [k] is within [max_distance] of [search_key], [v]
    is the value of the last write to [k], and [v] is not the
    tombstone: the records of the segments add nothing to what the
    memtable gives. *)
Theorem fuzzy_get_last_writes (threshold : Z) (ops : list LSMTree.op) :
  forallb keeps_open ops = true ->
  exists s0 d0 s d results,
    LSMTree.init empty_dir threshold = Ok (s0, d0) /\
    LSMTree.run md5_int s0 d0 ops = Ok (s, d) /\
    LSMTree.fuzzy_get s d search_key max_distance = Ok results /\
    StronglySorted slt (map fst results) /\
    forall k v,
      In (k, v) results <->
      Z.of_nat (Levenshtein.distance search_key k) <= max_distance /\
      last_write k (writes_of ops) = Some v /\ v <> TOMBSTONE.
Proof.
  intros Hops.
  assert (Hinit : LSMTree.init empty_dir threshold =
                  Ok (LSMTree.mk (BTree.mk (BTree.new_node true) 5)
                        threshold [] 0,
                      set_wal empty_dir (Some []))).
  { vm_compute. reflexivity. }
  destruct (init_new md5_int threshold)
    as (s0 & d0 & Hinit' & Hmem0 & Hseg0 & Hhold0 & Hlog0 & _).
  assert (Hfresh0 : fresh s0 d0).
  { rewrite Hinit in Hinit'. injection Hinit' as <- <-.
    intros n _. reflexivity. }
  destruct (run_all md5_int ops s0 d0 Hops Hmem0 Hseg0 Hhold0 Hfresh0)
    as (s & d & Hrun & Hmem & _ & Hhold & _).
  destruct (run_inv md5_int ops s0 d0 Hops Hmem0 Hseg0)
    as (s2 & d2 & Hrun2 & _ & _ & Hlog).
  rewrite Hrun in Hrun2. injection Hrun2 as <- <-.
  rewrite Hlog0 in Hlog. cbn [app] in Hlog.
  pose proof (mem_inv_sorted s d Hmem) as Hsorted.
  set (items := replay [] (log d)) in *.
  exists s0, d0, s, d, (List.filter listed items).
  split; [exact Hinit'|]. split; [exact Hrun|].
  destruct (fuzzy_loop_first items [] ∅ (sorted_NoDup items Hsorted))
    as [H1 H2].
  { intros k _ Hin. apply elem_of_empty in Hin. exact Hin. }
  split.
  - unfold LSMTree.fuzzy_get. rewrite (mem_inv_items s d Hmem).
    cbn [bind]. fold items.
    destruct (LSMTree.fuzzy_loop search_key max_distance items [] ∅)
      as [r1 c1].
    cbn [fst snd app] in H1, H2. subst r1.
    apply (fuzzy_segments_skip d (keys_of items)).
    + apply Forall_rev. exact Hhold.
    + intros k Hk.
      destruct (Z.leb_spec (Z.of_nat (Levenshtein.distance search_key k))
                  max_distance) as [Hnear|Hfar]; [left|right; exact Hfar].
      apply H2. right. split; [exact Hk|exact Hnear].
  - split; [exact (sorted_filter listed items Hsorted)|].
    intros k v. rewrite filter_In, (assoc_in_sorted items k v Hsorted).
    unfold listed. cbn [fst snd].
    rewrite andb_true_iff, Z.leb_le, negb_true_iff.
    unfold items. rewrite Hlog, replay_entries_of, assoc_upsert_all.
    cbn [assoc].
    destruct (String.eqb_spec v TOMBSTONE) as [Hv|Hv].
    + split; [intros (_ & _ & H); discriminate H|].
      intros (_ & _ & H). contradiction.
    + destruct (last_write k (writes_of ops)) as [v0|]; tauto.
Qed.

End FuzzyRuns.

Lemma fuzzy_get_last_writes_witness :
  exists s0 d0 s d results,
    LSMTree.init empty_dir 2 = Ok (s0, d0) /\
    LSMTree.run toy_digest s0 d0
      [LSMTree.Put "apple" "red"; LSMTree.Put "apply" "ask";
       LSMTree.Compact 0; LSMTree.Delete "apply"; LSMTree.Close] =
      Ok (s, d) /\
    LSMTree.fuzzy_get s d "apple" 1 = Ok results /\
    StronglySorted slt (map fst results) /\
    forall k v,
      In (k, v) results <->
      Z.of_nat (Levenshtein.distance "apple" k) <= 1 /\
      last_write k
        (writes_of [LSMTree.Put "apple" "red"; LSMTree.Put "apply" "ask";
                    LSMTree.Compact 0; LSMTree.Delete "apply";
                    LSMTree.Close]) = Some v /\
      v <> TOMBSTONE.
Proof.
  apply (fuzzy_get_last_writes toy_digest "apple" 1 2
           [LSMTree.Put "apple" "red"; LSMTree.Put "apply" "ask";
            LSMTree.Compact 0; LSMTree.Delete "apply"; LSMTree.Close]).
  reflexivity.
Defined.

(** * The Levenshtein distance is a metric *)

(** One more character on either side costs one edit at most, and one more
    on both sides what the two characters cost. *)
Lemma lev_step_l (a b : list ascii) (i j : nat) :
  (lev a b (S i) j <= lev a b i j + 1)%nat.
Proof.
  destruct j as [|j]; [rewrite !lev_0_r; lia|]. rewrite lev_S_S. lia.
Qed.

Lemma lev_step_r (a b : list ascii) (i j : nat) :
  (lev a b i (S j) <= lev a b i j + 1)%nat.
Proof. rewrite (lev_sym a b i (S j)), (lev_sym a b i j). apply lev_step_l. Qed.

Lemma lev_step_both (a b : list ascii) (i j : nat) :
  (lev a b (S i) (S j) <= lev a b i j + differ a b i j)%nat.
Proof. rewrite lev_S_S. lia. Qed.

Lemma differ_triangle (a b c : list ascii) (i j k : nat) :
  (differ a c i k <= differ a b i j + differ b c j k)%nat.
Proof.
  unfold differ.
  destruct (a !! i) as [x|];
    [|destruct (b !! j), (c !! k); try destruct (Ascii.eqb _ _); lia].
  destruct (b !! j) as [y|];
    [|destruct (c !! k); try destruct (Ascii.eqb _ _); lia].
  destruct (c !! k) as [z|]; [|destruct (Ascii.eqb _ _); lia].
  destruct (Ascii.eqb_spec x y) as [Exy|Hxy];
    destruct (Ascii.eqb_spec y z) as [Eyz|Hyz];
    destruct (Ascii.eqb_spec x z) as [Exz|Hxz]; try lia.
  exfalso. congruence.
Qed.

Lemma lev_triangle (a b c : list ascii) : forall i j k,
  (lev a c i k <= lev a b i j + lev b c j k)%nat.
Proof.
  induction i as [|i IHi]; intros j k.
  { change (lev a c 0 k) with k. change (lev a b 0 j) with j.
    pose proof (lev_lower b c j k). lia. }
  revert k. induction j as [|j IHj]; intros k.
  { rewrite lev_0_r. change (lev b c 0 k) with k.
    pose proof (lev_upper a c (S i) k). lia. }
  induction k as [|k IHk].
  { rewrite !lev_0_r. pose proof (lev_lower a b (S i) (S j)). lia. }
  pose proof (lev_S_S a b i j) as Hab.
  pose proof (lev_S_S b c j k) as Hbc.
  pose proof (lev_step_l a c i (S k)) as L1.
  pose proof (lev_step_r a c (S i) k) as L2.
  pose proof (lev_step_both a c i k) as L3.
  pose proof (IHi (S j) (S k)) as T1.
  pose proof (IHi j (S k)) as T2.
  pose proof (IHi j k) as T3.
  pose proof (IHj (S k)) as T4.
  pose proof (IHj k) as T5.
  pose proof (differ_triangle a b c i j k) as D.
  lia.
Qed.

(** X27 (triangle inequality): [Levenshtein.distance(s1, s3)] is at most
    [distance(s1, s2) + distance(s2, s3)], whatever the lengths of the three
    strings. *)
Theorem distance_triangle (s1 s2 s3 : string) :
  (Levenshtein.distance s1 s3 <=
   Levenshtein.distance s1 s2 + Levenshtein.distance s2 s3)%nat.
Proof. rewrite !distance_lev. apply lev_triangle. Qed.

(** * Opening the engine again on its directory *)

Lemma insert_by_name_perm (b : base) (l : list base) :
  LSMTree.insert_by_name b l ≡ₚ b :: l.
Proof.
  induction l as [|b' l IH]; [reflexivity|]. cbn [LSMTree.insert_by_name].
  destruct (String.ltb _ _); [|reflexivity].
  rewrite IH. apply perm_swap.
Qed.

(** Sorting the file names keeps the names. *)
Lemma sorted_by_name_perm (l : list base) : LSMTree.sorted_by_name l ≡ₚ l.
Proof.
  unfold LSMTree.sorted_by_name.
  induction l as [|b l IH]; [reflexivity|]. cbn [foldr].
  rewrite insert_by_name_perm, IH. reflexivity.
Qed.

Lemma same_name_same (segs : list SSTable.t) (a b : SSTable.t) :
  NoDup (map SSTable.filename segs) ->
  In a segs -> In b segs -> SSTable.filename a = SSTable.filename b -> a = b.
Proof.
  induction segs as [|x segs IH]; [intros _ []|].
  cbn [map]. intros Hnd Ha Hb E. apply NoDup_cons in Hnd as [Hx Hnd].
  destruct Ha as [<-|Ha], Hb as [<-|Hb].
  - reflexivity.
  - destruct Hx. rewrite E. apply list_elem_of_In, in_map, Hb.
  - destruct Hx. rewrite <- E. apply list_elem_of_In, in_map, Ha.
  - apply (IH Hnd Ha Hb E).
Qed.

Section ReopenFacts.
Variable md5_int : string -> Z.

(** Every data file of the directory is the file of a segment. *)
Definition closed (s : LSMTree.t) (d : Dir) : Prop :=
  forall f, is_Some (data d !! f) ->
            In f (map SSTable.filename (LSMTree.segments s)).

(** The index and the bloom filter of every segment are those of its
    side files. *)
Definition loaded (s : LSMTree.t) (d : Dir) : Prop :=
  forall seg, In seg (LSMTree.segments s) ->
              index d !! SSTable.filename seg =
                Some (SSTable.sparse_index seg) /\
              bloom d !! SSTable.filename seg = SSTable.bloom_filter seg.

Lemma flush_files (s : LSMTree.t) (d : Dir) (s' : LSMTree.t) (d' : Dir) :
  LSMTree._flush_memtable md5_int s d = Ok (s', d') ->
  seg_inv s d -> closed s d -> loaded s d ->
  closed s' d' /\ loaded s' d'.
Proof.
  unfold LSMTree._flush_memtable. intros H (_ & Hsegs) Hc Hl.
  apply bind_Ok in H as (items & _ & H).
  destruct items as [|it items]; [injection H as <- <-; split; assumption|].
  set (f := Numbered (LSMTree.segment_counter s)) in *.
  destruct (write_from_memtable_eq md5_int d f (dict_of (it :: items)) false)
    as (bf & _ & E).
  rewrite E in H. cbn [bind] in H. unfold SSTable.init in H.
  cbn [index bloom data] in H. rewrite !lookup_insert_eq in H.
  cbn [bind] in H.
  apply bind_Ok in H as ([mt file] & _ & H). injection H as <- <-.
  assert (Hold : forall seg, In seg (LSMTree.segments s) ->
                             SSTable.filename seg <> f).
  { intros seg Hin. destruct (Hsegs seg Hin) as (n & _ & Hn & Hlt & _).
    rewrite Hn. unfold f. intros [= E']. lia. }
  split.
  - intros f' Hf'. cbn [LSMTree.segments set_wal data] in *.
    rewrite map_app, in_app_iff. cbn [map SSTable.filename].
    destruct (decide (f' = f)) as [->|Hne]; [right; left; reflexivity|].
    left. apply Hc. rewrite lookup_insert_ne in Hf' by congruence.
    exact Hf'.
  - intros seg Hin. cbn [LSMTree.segments set_wal index bloom] in *.
    apply in_app_iff in Hin as [Hin|[<-|[]]].
    + rewrite !lookup_insert_ne by (intros E'; apply (Hold seg Hin);
                                    symmetry; exact E').
      apply (Hl seg Hin).
    + cbn [SSTable.filename SSTable.sparse_index SSTable.bloom_filter].
      rewrite !lookup_insert_eq. split; reflexivity.
Qed.

Lemma put_files (s : LSMTree.t) (d : Dir) (k v : string)
  (s' : LSMTree.t) (d' : Dir) :
  LSMTree.put md5_int s d k v = Ok (s', d') ->
  seg_inv s d -> closed s d -> loaded s d ->
  closed s' d' /\ loaded s' d'.
Proof.
  unfold LSMTree.put. intros H Hseg Hc Hl.
  apply bind_Ok in H as ([mt file] & _ & H).
  apply bind_Ok in H as (items & _ & H).
  cbn [LSMTree.memtable_threshold] in H.
  destruct (LSMTree.memtable_threshold s <=? Z.of_nat (length items)).
  - apply (flush_files _ _ _ _ H); assumption.
  - injection H as <- <-. split; assumption.
Qed.

Lemma compact_files_kept (s : LSMTree.t) (d : Dir) (now : Z)
  (s' : LSMTree.t) (d' : Dir) :
  LSMTree.compact md5_int s d now = Ok (s', d') ->
  seg_inv s d -> segs_hold md5_int s d -> fresh s d ->
  closed s d -> loaded s d ->
  closed s' d' /\ loaded s' d'.
Proof.
  intros H Hseg Hhold Hfresh Hc Hl.
  destruct (Nat.lt_ge_cases (length (LSMTree.segments s)) 2) as [Hlt|Hge].
  { unfold LSMTree.compact in H.
    rewrite (proj2 (Nat.ltb_lt _ _) Hlt) in H. injection H as <- <-.
    split; assumption. }
  destruct (held_lists md5_int s d Hhold) as (Ls & HLs).
  destruct (compact_full md5_int s d now Ls Hseg Hge
              (held_holds_all md5_int _ _ _ HLs) (Hfresh _ (Nat.le_refl _)))
    as (seg & d2 & P & Hrun & Hname & _ & _ & _ & _ & _ & Hgone & Hidx & _
        & Htemp & _ & Hbf & Hframe).
  rewrite H in Hrun. injection Hrun as -> ->. split.
  - intros f Hf. cbn [LSMTree.segments map]. left. rewrite Hname.
    destruct (decide (f = Numbered (LSMTree.segment_counter s)))
      as [->|Hne]; [reflexivity|].
    exfalso.
    destruct (decide (f = TempCompacted now)) as [->|Hnt].
    { rewrite Htemp in Hf. destruct Hf as [? Hf]. discriminate Hf. }
    destruct (In_dec base_eq_dec f
                (map SSTable.filename (LSMTree.segments s))) as [Hin|Hout].
    + apply in_map_iff in Hin as (old & <- & Hold).
      destruct (Hgone old Hold) as (G & _). rewrite G in Hf.
      destruct Hf as [? Hf]. discriminate Hf.
    + rewrite (Hframe f Hout Hnt Hne) in Hf. apply Hout, Hc, Hf.
  - intros seg' [<-|[]]. split; [exact Hidx|exact Hbf].
Qed.

Lemma run_files (ops : list LSMTree.op) : forall s d,
  forallb keeps_open ops = true ->
  mem_inv s d -> seg_inv s d -> segs_hold md5_int s d -> fresh s d ->
  closed s d -> loaded s d ->
  exists s' d',
    LSMTree.run md5_int s d ops = Ok (s', d') /\
    mem_inv s' d' /\ seg_inv s' d' /\ segs_hold md5_int s' d' /\
    closed s' d' /\ loaded s' d'.
Proof.
  induction ops as [|o ops IH];
    intros s d Hops Hmem Hseg Hhold Hfresh Hc Hl.
  - exists s, d. split; [reflexivity|]. repeat (split; [assumption|]).
    assumption.
  - cbn [forallb] in Hops. apply andb_prop in Hops as [Ho Hops].
    destruct (step_all md5_int s d o Ho Hmem Hseg Hhold Hfresh)
      as (s1 & d1 & Hstep & Hmem1 & Hseg1 & Hhold1 & Hfresh1).
    assert (Hfiles : closed s1 d1 /\ loaded s1 d1).
    { destruct o as [k v|k| |now|threshold]; cbn [LSMTree.step] in Hstep;
        try discriminate.
      - apply (put_files _ _ _ _ _ _ Hstep); assumption.
      - apply (put_files _ _ _ _ _ _ Hstep); assumption.
      - apply (flush_files _ _ _ _ Hstep); assumption.
      - apply (compact_files_kept _ _ _ _ _ Hstep); assumption. }
    destruct Hfiles as [Hc1 Hl1].
    cbn [LSMTree.run]. rewrite Hstep. cbn [bind].
    apply (IH s1 d1 Hops Hmem1 Hseg1 Hhold1 Hfresh1 Hc1 Hl1).
Qed.

(** Loading files that are those of segments gives these segments
    back. *)
Lemma load_loop_loaded (s : LSMTree.t) (d : Dir) (files : list base) :
  loaded s d ->
  (forall f, In f files ->
             In f (map SSTable.filename (LSMTree.segments s))) ->
  exists segs,
    LSMTree.load_loop d files = Ok (segs, d) /\
    map SSTable.filename segs = files /\
    forall seg, In seg segs -> In seg (LSMTree.segments s).
Proof.
  intros Hl. induction files as [|f files IH]; intros Hfiles.
  - exists []. split; [reflexivity|]. split; [reflexivity|]. intros seg [].
  - destruct IH as (segs & Hrun & Hnames & Hin).
    { intros f' Hf'. apply Hfiles. right. exact Hf'. }
    pose proof (Hfiles f (or_introl eq_refl)) as Hf.
    apply in_map_iff in Hf as (seg & Hname & Hseg).
    destruct (Hl seg Hseg) as (Hidx & Hbf).
    exists (seg :: segs). cbn [LSMTree.load_loop].
    unfold SSTable.init. rewrite <- Hname, Hidx, Hbf.
    cbn [bind]. rewrite Hname, Hrun. cbn [bind].
    destruct seg as [f0 idx0 bf0]. cbn [SSTable.filename] in *. subst f0.
    split; [reflexivity|]. split; [cbn [map]; rewrite Hnames; reflexivity|].
    intros seg' [<-|Hin']; [exact Hseg|apply Hin; exact Hin'].
Qed.

(** X28 (the engine opened again on its directory): after any [put],
    [delete], [close] and [compact] calls on a new directory, a new
    [LSMTree(directory, threshold)] on the directory as the calls left it
    returns; its segments are the segments the engine had, possibly in
    another order, and [get(k)] on it answers with the last value written
    to [k], and with [None] when [k] was never written or was deleted
    last. *)
Theorem reopen_recovers_writes (threshold threshold' : Z)
  (ops : list LSMTree.op) :
  forallb keeps_open ops = true ->
  exists s0 d0 s d s' d',
    LSMTree.init empty_dir threshold = Ok (s0, d0) /\
    LSMTree.run md5_int s0 d0 ops = Ok (s, d) /\
    LSMTree.init d threshold' = Ok (s', d') /\
    LSMTree.segments s' ≡ₚ LSMTree.segments s /\
    forall k,
      LSMTree.get md5_int s' d' k =
      Ok (match last_write k (writes_of ops) with
          | Some v => if String.eqb v TOMBSTONE then None else Some v
          | None => None
          end).
Proof.
  intros Hops.
  assert (Hinit : LSMTree.init empty_dir threshold =
                  Ok (LSMTree.mk (BTree.mk (BTree.new_node true) 5)
                        threshold [] 0,
                      set_wal empty_dir (Some []))).
  { vm_compute. reflexivity. }
  destruct (init_new md5_int threshold)
    as (s0 & d0 & Hinit' & Hmem0 & Hseg0 & Hhold0 & Hlog0 & _).
  assert (H0 : fresh s0 d0 /\ closed s0 d0 /\ loaded s0 d0).
  { rewrite Hinit in Hinit'. injection Hinit' as <- <-.
    split; [intros n _; reflexivity|]. split.
    - intros f [x Hf]. discriminate Hf.
    - intros seg []. }
  destruct H0 as (Hfresh0 & Hc0 & Hl0).
  destruct (run_files ops s0 d0 Hops Hmem0 Hseg0 Hhold0 Hfresh0 Hc0 Hl0)
    as (s & d & Hrun & Hmem & Hseg & Hhold & Hc & Hl).
  destruct (run_inv md5_int ops s0 d0 Hops Hmem0 Hseg0)
    as (s2 & d2 & Hrun2 & _ & _ & Hlog).
  rewrite Hrun in Hrun2. injection Hrun2 as <- <-.
  rewrite Hlog0 in Hlog. cbn [app] in Hlog.
  (* the files listed are those of the segments *)
  set (files := LSMTree.sorted_by_name (map fst (map_to_list (data d)))).
  assert (Hfiles : forall f,
             In f files <->
             In f (map SSTable.filename (LSMTree.segments s))).
  { intros f. unfold files.
    rewrite <- !list_elem_of_In, (sorted_by_name_perm _).
    rewrite !list_elem_of_In. split.
    - intros Hin. apply in_map_iff in Hin as ([f' text] & <- & Hin).
      apply list_elem_of_In, elem_of_map_to_list in Hin.
      apply Hc. cbn [fst]. rewrite Hin. eexists; reflexivity.
    - intros Hin. apply in_map_iff in Hin as (seg & <- & Hin).
      destruct Hseg as (_ & Hsegs).
      destruct (Hsegs seg Hin) as (n & items & Hn & _ & Hdata).
      rewrite Hn. apply in_map_iff. exists (Numbered n, text_of items).
      split; [reflexivity|].
      apply list_elem_of_In, elem_of_map_to_list. exact Hdata. }
  destruct (init_spec 5 degree_ok (wal d)) as (h & r & Ebt & _).
  set (d1 := set_wal d (Some (WriteAheadLog.init (wal d)))).
  destruct (load_loop_loaded s d1 files Hl)
    as (segs & Hload & Hnames & Hin).
  { intros f Hf. apply Hfiles. exact Hf. }
  assert (Hcounter : exists c,
             match last segs with
             | Some x =>
                 match SSTable.filename x with
                 | Numbered n => Ok (S n)
                 | TempCompacted _ => Raise ValueError
                 end
             | None => Ok 0%nat
             end = Ok c).
  { destruct (last segs) as [x|] eqn:El; [|eexists; reflexivity].
    apply last_Some_elem_of, list_elem_of_In, Hin in El.
    destruct Hseg as (_ & Hsegs).
    destruct (Hsegs x El) as (n & _ & -> & _). eexists; reflexivity. }
  destruct Hcounter as (c & Hcounter).
  assert (Hopen : LSMTree.init d threshold' =
                  Ok (LSMTree.mk (BTree.mk r 5) threshold' segs c, d1)).
  { unfold LSMTree.init. rewrite Ebt. cbn [bind]. fold d1.
    change (data d1) with (data d). fold files.
    rewrite Hload. cbn [bind]. rewrite Hcounter. reflexivity. }
  destruct (lsm_init_spec _ _ _ _ Hopen) as (Hmem' & Hlog').
  eexists s0, d0, s, d, _, d1. split; [exact Hinit'|].
  split; [exact Hrun|]. split; [exact Hopen|].
  cbn [LSMTree.segments].
  assert (Hnd : NoDup (map SSTable.filename (LSMTree.segments s)))
    by apply Hseg.
  split.
  - apply NoDup_Permutation.
    + apply (NoDup_fmap_1 SSTable.filename).
      change (SSTable.filename <$> segs) with (map SSTable.filename segs).
      rewrite Hnames. unfold files. rewrite (sorted_by_name_perm _).
      apply NoDup_fst_map_to_list.
    + apply (NoDup_fmap_1 SSTable.filename). exact Hnd.
    + intros x. rewrite !list_elem_of_In. split; [apply Hin|].
      intros Hx.
      assert (Hf : In (SSTable.filename x) files).
      { apply Hfiles. apply in_map. exact Hx. }
      rewrite <- Hnames in Hf. apply in_map_iff in Hf as (y & Ey & Hy).
      rewrite <- (same_name_same _ y x Hnd (Hin y Hy) Hx Ey). exact Hy.
  - intros k.
    rewrite (get_in_segments md5_int _ d1 k Hmem').
    + rewrite Hlog', Hlog, replay_entries_of, assoc_upsert_all.
      cbn [assoc]. destruct (last_write k (writes_of ops)); reflexivity.
    + unfold segs_hold in *. cbn [LSMTree.segments].
      apply Forall_forall. intros seg Hs.
      rewrite Forall_forall in Hhold.
      apply (Hhold seg).
      apply list_elem_of_In, Hin, list_elem_of_In. exact Hs.
Qed.

(** X29 (the directory and the segments agree): after any [put],
    [delete], [close] and [compact] calls on a new directory, the data
    files of the directory are exactly the files of the segments of the
    engine; these have pairwise distinct names, numbered below the segment
    counter, and the index and the bloom filter of every segment are those
    its index file and its bloom filter file hold. *)
Theorem directory_matches_segments (threshold : Z)
  (ops : list LSMTree.op) :
  forallb keeps_open ops = true ->
  exists s0 d0 s d,
    LSMTree.init empty_dir threshold = Ok (s0, d0) /\
    LSMTree.run md5_int s0 d0 ops = Ok (s, d) /\
    NoDup (map SSTable.filename (LSMTree.segments s)) /\
    (forall f, is_Some (data d !! f) <->
               In f (map SSTable.filename (LSMTree.segments s))) /\
    forall seg,
      In seg (LSMTree.segments s) ->
      (exists n, SSTable.filename seg = Numbered n /\
                 (n < LSMTree.segment_counter s)%nat) /\
      index d !! SSTable.filename seg = Some (SSTable.sparse_index seg) /\
      bloom d !! SSTable.filename seg = SSTable.bloom_filter seg.
Proof.
  intros Hops.
  assert (Hinit : LSMTree.init empty_dir threshold =
                  Ok (LSMTree.mk (BTree.mk (BTree.new_node true) 5)
                        threshold [] 0,
                      set_wal empty_dir (Some []))).
  { vm_compute. reflexivity. }
  destruct (init_new md5_int threshold)
    as (s0 & d0 & Hinit' & Hmem0 & Hseg0 & Hhold0 & _).
  assert (H0 : fresh s0 d0 /\ closed s0 d0 /\ loaded s0 d0).
  { rewrite Hinit in Hinit'. injection Hinit' as <- <-.
    split; [intros n _; reflexivity|]. split.
    - intros f [x Hf]. discriminate Hf.
    - intros seg []. }
  destruct H0 as (Hfresh0 & Hc0 & Hl0).
  destruct (run_files ops s0 d0 Hops Hmem0 Hseg0 Hhold0 Hfresh0 Hc0 Hl0)
    as (s & d & Hrun & _ & (Hnd & Hsegs) & _ & Hc & Hl).
  exists s0, d0, s, d. split; [exact Hinit'|]. split; [exact Hrun|].
  split; [exact Hnd|]. split.
  - intros f. split; [apply Hc|].
    intros Hin. apply in_map_iff in Hin as (seg & <- & Hin).
    destruct (Hsegs seg Hin) as (n & items & Hn & _ & Hdata).
    rewrite Hn, Hdata. eexists; reflexivity.
  - intros seg Hin. split; [|apply (Hl seg Hin)].
    destruct (Hsegs seg Hin) as (n & _ & Hn & Hlt & _).
    exists n. split; assumption.
Qed.

End ReopenFacts.

Lemma reopen_recovers_writes_witness :
  exists s0 d0 s d s' d',
    LSMTree.init empty_dir 2 = Ok (s0, d0) /\
    LSMTree.run toy_digest s0 d0
      [LSMTree.Put "a" "1"; LSMTree.Put "b" "2"; LSMTree.Delete "a";
       LSMTree.Compact 0; LSMTree.Close] = Ok (s, d) /\
    LSMTree.init d 5 = Ok (s', d') /\
    LSMTree.segments s' ≡ₚ LSMTree.segments s /\
    forall k,
      LSMTree.get toy_digest s' d' k =
      Ok (match last_write k
                  (writes_of [LSMTree.Put "a" "1"; LSMTree.Put "b" "2";
                              LSMTree.Delete "a"; LSMTree.Compact 0;
                              LSMTree.Close]) with
          | Some v => if String.eqb v TOMBSTONE then None else Some v
          | None => None
          end).
Proof.
  apply (reopen_recovers_writes toy_digest 2 5
           [LSMTree.Put "a" "1"; LSMTree.Put "b" "2"; LSMTree.Delete "a";
            LSMTree.Compact 0; LSMTree.Close]).
  reflexivity.
Defined.

Lemma directory_matches_segments_witness :
  exists s0 d0 s d,
    LSMTree.init empty_dir 2 = Ok (s0, d0) /\
    LSMTree.run toy_digest s0 d0
      [LSMTree.Put "a" "1"; LSMTree.Put "b" "2"; LSMTree.Delete "a";
       LSMTree.Compact 3; LSMTree.Close] = Ok (s, d) /\
    NoDup (map SSTable.filename (LSMTree.segments s)) /\
    (forall f, is_Some (data d !! f) <->
               In f (map SSTable.filename (LSMTree.segments s))) /\
    forall seg,
      In seg (LSMTree.segments s) ->
      (exists n, SSTable.filename seg = Numbered n /\
                 (n < LSMTree.segment_counter s)%nat) /\
      index d !! SSTable.filename seg = Some (SSTable.sparse_index seg) /\
      bloom d !! SSTable.filename seg = SSTable.bloom_filter seg.
Proof.
  apply (directory_matches_segments toy_digest 2
           [LSMTree.Put "a" "1"; LSMTree.Put "b" "2"; LSMTree.Delete "a";
            LSMTree.Compact 3; LSMTree.Close]).
  reflexivity.
Defined.
